(** * equeue: a shallow embedding of [equeue.c]

    The event queue lives inside one caller-provided byte buffer.  Every
    chunk of that buffer starts with a [struct equeue_event] header; chunks
    are addressed by their byte offset from [q->buffer].  The embedding keeps
    the pointer structure of the C code: [next], [sibling] and [ref] are
    pointers, the free list and the timed queue are walked through
    pointers-to-link-slots exactly as the source does, and every loop is a
    fuel-bounded recursion that returns [None] when the fuel runs out.

    The platform primitives (mutex, semaphore) are no-ops in this sequential
    model; [equeue_tick()] is an explicit argument of the operations that
    read it. *)

From Stdlib Require Import ZArith List Lia Bool Permutation.
Import ListNotations.
Open Scope Z_scope.

(** ** Machine integers *)

(** Conversion to [int] (32 bits, two's complement).  Signed overflow is
    undefined in C; the model wraps, as every mainstream compiler does. *)
Definition to_int (z : Z) : Z := (z + 2 ^ 31) mod 2 ^ 32 - 2 ^ 31.

(** Conversion to [unsigned]. *)
Definition to_unsigned (z : Z) : Z := z mod 2 ^ 32.

(** ** Pointers *)

(** A chunk address: the byte offset of a header inside [q->buffer]. *)
Definition addr := Z.

(** [struct equeue_event *]; [None] is the null pointer. *)
Definition ptr := option addr.

(** A function pointer ([cb], [dtor]); [None] is the null pointer. *)
Definition fnptr := option Z.

(** [struct equeue_event **]: the address of a link slot.  [SHead] is the
    local variable [head] of [equeue_dequeue]. *)
Inductive slot : Type :=
| SQueue                (* &q->queue *)
| SChunks               (* &q->chunks *)
| SHead                 (* &head, local to equeue_dequeue *)
| SNext (a : addr)      (* &a->next *)
| SSibling (a : addr).  (* &a->sibling *)

(** ** Data model *)

(** Modelled from the spec: the declaration of [struct equeue_event] is in
    equeue.h, which is not part of the sources at hand.  The fields are the
    ones equeue.c reads and writes; [size] is [unsigned] (32 bits: a store
    to it keeps the low 32 bits of the value); [id], [target] and [period]
    are [int] (the spec's signed generation counter and signed millisecond
    values). *)
Record equeue_event : Type := mkEvent {
  size : Z;
  id : Z;
  next : ptr;
  sibling : ptr;
  ref : option slot;
  target : Z;
  period : Z;
  dtor : fnptr;
  cb : fnptr
}.

(** Modelled from the spec: [equeue_t] is declared in equeue.h as well.
    [buffer] is the content of the byte buffer, read as one header per
    offset; [slab_data] is the slab cursor as an offset from the buffer
    base.  [calls] is a ghost trace of the user functions invoked so far
    (function, payload pointer), oldest first. *)
Record equeue_t : Type := mkQueue {
  queue : ptr;
  breaks : Z;
  npw2 : Z;
  chunks : ptr;
  slab_size : Z;
  slab_data : Z;
  buffer : addr -> equeue_event;
  calls : list (Z * Z)
}.

Definition with_size (e : equeue_event) (v : Z) : equeue_event :=
  mkEvent v (id e) (next e) (sibling e) (ref e) (target e) (period e) (dtor e) (cb e).
Definition with_id (e : equeue_event) (v : Z) : equeue_event :=
  mkEvent (size e) v (next e) (sibling e) (ref e) (target e) (period e) (dtor e) (cb e).
Definition with_next (e : equeue_event) (v : ptr) : equeue_event :=
  mkEvent (size e) (id e) v (sibling e) (ref e) (target e) (period e) (dtor e) (cb e).
Definition with_sibling (e : equeue_event) (v : ptr) : equeue_event :=
  mkEvent (size e) (id e) (next e) v (ref e) (target e) (period e) (dtor e) (cb e).
Definition with_ref (e : equeue_event) (v : option slot) : equeue_event :=
  mkEvent (size e) (id e) (next e) (sibling e) v (target e) (period e) (dtor e) (cb e).
Definition with_target (e : equeue_event) (v : Z) : equeue_event :=
  mkEvent (size e) (id e) (next e) (sibling e) (ref e) v (period e) (dtor e) (cb e).
Definition with_period (e : equeue_event) (v : Z) : equeue_event :=
  mkEvent (size e) (id e) (next e) (sibling e) (ref e) (target e) v (dtor e) (cb e).
Definition with_dtor (e : equeue_event) (v : fnptr) : equeue_event :=
  mkEvent (size e) (id e) (next e) (sibling e) (ref e) (target e) (period e) v (cb e).
Definition with_cb (e : equeue_event) (v : fnptr) : equeue_event :=
  mkEvent (size e) (id e) (next e) (sibling e) (ref e) (target e) (period e) (dtor e) v.

(** Memory update at one chunk address. *)
Definition upd (m : addr -> equeue_event) (a : addr) (e : equeue_event)
  : addr -> equeue_event :=
  fun x => if Z.eqb x a then e else m x.

Definition set_buffer (q : equeue_t) (m : addr -> equeue_event) : equeue_t :=
  mkQueue (queue q) (breaks q) (npw2 q) (chunks q) (slab_size q) (slab_data q)
          m (calls q).
Definition set_queue (q : equeue_t) (v : ptr) : equeue_t :=
  mkQueue v (breaks q) (npw2 q) (chunks q) (slab_size q) (slab_data q)
          (buffer q) (calls q).
Definition set_chunks (q : equeue_t) (v : ptr) : equeue_t :=
  mkQueue (queue q) (breaks q) (npw2 q) v (slab_size q) (slab_data q)
          (buffer q) (calls q).
Definition set_slab (q : equeue_t) (sz data : Z) : equeue_t :=
  mkQueue (queue q) (breaks q) (npw2 q) (chunks q) sz data (buffer q) (calls q).
Definition set_breaks (q : equeue_t) (v : Z) : equeue_t :=
  mkQueue (queue q) v (npw2 q) (chunks q) (slab_size q) (slab_data q)
          (buffer q) (calls q).

(** [a->field = v] for each header field. *)
Definition set_size (q : equeue_t) (a : addr) (v : Z) : equeue_t :=
  set_buffer q (upd (buffer q) a (with_size (buffer q a) v)).
Definition set_id (q : equeue_t) (a : addr) (v : Z) : equeue_t :=
  set_buffer q (upd (buffer q) a (with_id (buffer q a) v)).
Definition set_next (q : equeue_t) (a : addr) (v : ptr) : equeue_t :=
  set_buffer q (upd (buffer q) a (with_next (buffer q a) v)).
Definition set_sibling (q : equeue_t) (a : addr) (v : ptr) : equeue_t :=
  set_buffer q (upd (buffer q) a (with_sibling (buffer q a) v)).
Definition set_ref (q : equeue_t) (a : addr) (v : option slot) : equeue_t :=
  set_buffer q (upd (buffer q) a (with_ref (buffer q a) v)).
Definition set_target (q : equeue_t) (a : addr) (v : Z) : equeue_t :=
  set_buffer q (upd (buffer q) a (with_target (buffer q a) v)).
Definition set_period (q : equeue_t) (a : addr) (v : Z) : equeue_t :=
  set_buffer q (upd (buffer q) a (with_period (buffer q a) v)).
Definition set_dtor (q : equeue_t) (a : addr) (v : fnptr) : equeue_t :=
  set_buffer q (upd (buffer q) a (with_dtor (buffer q a) v)).
Definition set_cb (q : equeue_t) (a : addr) (v : fnptr) : equeue_t :=
  set_buffer q (upd (buffer q) a (with_cb (buffer q a) v)).

(** [*p] for a link slot inside the queue object or the buffer.  [SHead] is
    not a location of the queue state: [equeue_dequeue] keeps it as a local. *)
Definition load (q : equeue_t) (p : slot) : ptr :=
  match p with
  | SQueue => queue q
  | SChunks => chunks q
  | SHead => None
  | SNext a => next (buffer q a)
  | SSibling a => sibling (buffer q a)
  end.

(** [*p = v]. *)
Definition store (q : equeue_t) (p : slot) (v : ptr) : equeue_t :=
  match p with
  | SQueue => set_queue q v
  | SChunks => set_chunks q v
  | SHead => q
  | SNext a => set_next q a v
  | SSibling a => set_sibling q a v
  end.

(** A call through a user function pointer.  User code is opaque: the model
    records the invocation and leaves the queue as it is. *)
Definition invoke (q : equeue_t) (f : Z) (arg : Z) : equeue_t :=
  mkQueue (queue q) (breaks q) (npw2 q) (chunks q) (slab_size q) (slab_data q)
          (buffer q) (calls q ++ [(f, arg)]).

(** [if (fp) fp(arg);] *)
Definition invoke_opt (q : equeue_t) (fp : fnptr) (arg : Z) : equeue_t :=
  match fp with
  | Some f => invoke q f arg
  | None => q
  end.

(** Sequencing of steps that can fail: [None] means that a loop ran out of
    fuel or that the C code dereferenced a null pointer. *)
Notation "'do' x <- c ; k" :=
  (match c with Some x => k | None => None end)
  (at level 10, x name, c at level 100, k at level 200).

(** ** The operations of equeue.c *)

Section Equeue.

(** [sizeof(struct equeue_event)] and [sizeof(void* )]: the declarations are
    in equeue.h and the platform ABI, so both stay parameters.  [size_t] is
    taken to be as wide as a pointer. *)
Variable sizeof_event : Z.
Variable sizeof_ptr : Z.

(** Conversion to [size_t]. *)
Definition to_size (z : Z) : Z := z mod 2 ^ (8 * sizeof_ptr).

(** [for (unsigned s = size; s; s >>= 1) q->npw2++;] on a non-zero [s]:
    dropping the low bit of a binary positive is the right shift. *)
Fixpoint npw2_loop (s : positive) (n : Z) : Z :=
  match s with
  | xH => n + 1
  | xO s' => npw2_loop s' (n + 1)
  | xI s' => npw2_loop s' (n + 1)
  end.

(** [equeue_create_inplace]; [mem] is the prior content of the caller's
    buffer.  The mutex and semaphore constructors are taken to succeed. *)
Definition equeue_create_inplace (size : Z) (mem : addr -> equeue_event)
  : equeue_t :=
  mkQueue None 0
          (match to_unsigned size with
           | Zpos s => npw2_loop s 0
           | _ => 0
           end)
          None size 0 mem [].

(** *** Chunk allocation *)

(** The rounded request of [equeue_mem_alloc]:
    [size += sizeof(struct equeue_event);
     size = (size + sizeof(void* )-1) & ~(sizeof(void* )-1);] *)
Definition alloc_size (size : Z) : Z :=
  let size := to_size (size + sizeof_event) in
  Z.land (to_size (size + sizeof_ptr - 1))
         (to_size (Z.lnot (to_size (sizeof_ptr - 1)))).

(** The freelist walk of [equeue_mem_alloc].  [Some (Some (q', e))] is a hit,
    [Some None] means that no free chunk fits. *)
Fixpoint mem_alloc_walk (fuel : nat) (q : equeue_t) (sz : Z) (p : slot)
  : option (option (equeue_t * addr)) :=
  match fuel with
  | O => None
  | S fuel' =>
    match load q p with
    | None => Some None
    | Some e =>
      if sz <=? size (buffer q e) then
        match sibling (buffer q e) with
        | Some _ =>
          let q := store q p (sibling (buffer q e)) in
          do a <- load q p;
          let q := set_next q a (next (buffer q e)) in
          Some (Some (q, e))
        | None =>
          let q := store q p (next (buffer q e)) in
          Some (Some (q, e))
        end
      else mem_alloc_walk fuel' q sz (SNext e)
    end
  end.

(** [q->slab.size -= size] cannot wrap: it is guarded by
    [q->slab.size >= size].  [e->size = size] stores a [size_t] into the
    32-bit [size] field of the header. *)
Definition equeue_mem_alloc (fuel : nat) (q : equeue_t) (size : Z)
  : option (equeue_t * ptr) :=
  let size := alloc_size size in
  do r <- mem_alloc_walk fuel q size SChunks;
  match r with
  | Some (q, e) => Some (q, Some e)
  | None =>
    if size <=? slab_size q then
      let e := slab_data q in
      let q := set_slab q (slab_size q) (slab_data q + size) in
      let q := set_slab q (slab_size q - size) (slab_data q) in
      let q := set_size q e (to_unsigned size) in
      let q := set_id q e 1 in
      Some (q, Some e)
    else Some (q, None)
  end.

(** [while ( *p && ( *p)->size < e->size) p = &( *p)->next;] *)
Fixpoint mem_dealloc_walk (fuel : nat) (q : equeue_t) (e : addr) (p : slot)
  : option slot :=
  match fuel with
  | O => None
  | S fuel' =>
    match load q p with
    | None => Some p
    | Some a =>
      if size (buffer q a) <? size (buffer q e)
      then mem_dealloc_walk fuel' q e (SNext a)
      else Some p
    end
  end.

(** The insertion of [equeue_mem_dealloc] once the walk stopped at [p]. *)
Definition mem_dealloc_at (q : equeue_t) (e : addr) (p : slot)
  : option equeue_t :=
  do q <- match load q p with
          | Some a =>
            if size (buffer q a) =? size (buffer q e) then
              let q := set_sibling q e (load q p) in
              do a' <- load q p;
              Some (set_next q e (next (buffer q a')))
            else
              let q := set_sibling q e None in
              Some (set_next q e (load q p))
          | None =>
            let q := set_sibling q e None in
            Some (set_next q e (load q p))
          end;
  Some (store q p (Some e)).

Definition equeue_mem_dealloc (fuel : nat) (q : equeue_t) (e : addr)
  : option equeue_t :=
  do p <- mem_dealloc_walk fuel q e SChunks;
  mem_dealloc_at q e p.

(** [equeue_alloc] returns the payload pointer [e + 1]. *)
Definition equeue_alloc (fuel : nat) (q : equeue_t) (size : Z)
  : option (equeue_t * option Z) :=
  do r <- equeue_mem_alloc fuel q size;
  match r with
  | (q, None) => Some (q, None)
  | (q, Some e) =>
    let q := set_target q e 0 in
    let q := set_period q e (-1) in
    let q := set_dtor q e None in
    Some (q, Some (e + sizeof_event))
  end.

Definition equeue_dealloc (fuel : nat) (q : equeue_t) (p : Z)
  : option equeue_t :=
  let e := p - sizeof_event in
  let q := invoke_opt q (dtor (buffer q e)) (e + sizeof_event) in
  equeue_mem_dealloc fuel q e.

(** [equeue_destroy]: the two nested loops over the pending events. *)
Fixpoint destroy_siblings (fuel : nat) (q : equeue_t) (e : ptr)
  : option equeue_t :=
  match fuel with
  | O => None
  | S fuel' =>
    match e with
    | None => Some q
    | Some a =>
      let q := invoke_opt q (dtor (buffer q a)) (a + sizeof_event) in
      destroy_siblings fuel' q (sibling (buffer q a))
    end
  end.

Fixpoint destroy_buckets (n fuel : nat) (q : equeue_t) (es : ptr)
  : option equeue_t :=
  match fuel with
  | O => None
  | S fuel' =>
    match es with
    | None => Some q
    | Some a =>
      do q <- destroy_siblings n q (queue q);
      destroy_buckets n fuel' q (next (buffer q a))
    end
  end.

Definition equeue_destroy (fuel : nat) (q : equeue_t) : option equeue_t :=
  destroy_buckets fuel fuel q (queue q).

(** *** Scheduling *)

(** [static inline int equeue_tickdiff(unsigned a, unsigned b)] *)
Definition equeue_tickdiff (a b : Z) : Z := to_int (to_unsigned (a - b)).

(** [while ( *p && equeue_tickdiff(( *p)->target, e->target) < 0)
      p = &( *p)->next;] *)
Fixpoint enqueue_walk (fuel : nat) (q : equeue_t) (e : addr) (p : slot)
  : option slot :=
  match fuel with
  | O => None
  | S fuel' =>
    match load q p with
    | None => Some p
    | Some a =>
      if equeue_tickdiff (to_unsigned (target (buffer q a)))
                         (to_unsigned (target (buffer q e))) <? 0
      then enqueue_walk fuel' q e (SNext a)
      else Some p
    end
  end.

(** The [else] branch of the insertion: [e] becomes a new bucket head. *)
Definition enqueue_new_bucket (q : equeue_t) (e : addr) (p : slot)
  : equeue_t :=
  let q := match load q p with
           | Some a => set_ref q a (Some (SNext e))
           | None => q
           end in
  let q := set_next q e (load q p) in
  set_sibling q e None.

(** The [then] branch: [e] is pushed on the sibling stack of [*p]. *)
Definition enqueue_sibling (q : equeue_t) (e : addr) (p : slot)
  : option equeue_t :=
  let q := match load q p with
           | Some a => set_ref q a (Some (SSibling e))
           | None => q
           end in
  let q := set_sibling q e (load q p) in
  do a <- load q p;
  let q := match next (buffer q a) with
           | Some n => set_ref q n (Some (SNext e))
           | None => q
           end in
  do a <- load q p;
  Some (set_next q e (next (buffer q a))).

(** The insertion of [equeue_enqueue] once the walk stopped at [p]. *)
Definition enqueue_at (q : equeue_t) (e : addr) (p : slot)
  : option equeue_t :=
  do q <- match load q p with
          | Some a =>
            if target (buffer q a) =? target (buffer q e)
            then enqueue_sibling q e p
            else Some (enqueue_new_bucket q e p)
          | None => Some (enqueue_new_bucket q e p)
          end;
  let q := set_ref q e (Some p) in
  Some (store q p (Some e)).

(** [equeue_enqueue(q, e, ms)]; [tick] is the value [equeue_tick()]
    returns. *)
Definition equeue_enqueue (fuel : nat) (tick : Z) (q : equeue_t) (e : addr)
           (ms : Z) : option equeue_t :=
  let q := set_target q e (to_int (to_unsigned (tick + ms))) in
  do p <- enqueue_walk fuel q e SQueue;
  enqueue_at q e p.

Definition equeue_unqueue (q : equeue_t) (e : addr) : option equeue_t :=
  match sibling (buffer q e) with
  | Some _ =>
    do q <- match next (buffer q e) with
            | Some n =>
              do s <- sibling (buffer q e);
              Some (set_ref q n (Some (SNext s)))
            | None => Some q
            end;
    do s <- sibling (buffer q e);
    let q := set_next q s (next (buffer q e)) in
    do s <- sibling (buffer q e);
    let q := set_ref q s (ref (buffer q e)) in
    do r <- ref (buffer q e);
    Some (store q r (sibling (buffer q e)))
  | None =>
    let q := match next (buffer q e) with
             | Some n => set_ref q n (ref (buffer q e))
             | None => q
             end in
    do r <- ref (buffer q e);
    Some (store q r (next (buffer q e)))
  end.

(** [for (e = es; e; e = e->sibling) { e->next = prev; prev = e; }]
    returns the final [prev]. *)
Fixpoint dequeue_reverse (fuel : nat) (q : equeue_t) (e prev : ptr)
  : option (equeue_t * ptr) :=
  match fuel with
  | O => None
  | S fuel' =>
    match e with
    | None => Some (q, prev)
    | Some a =>
      let q := set_next q a prev in
      dequeue_reverse fuel' q (sibling (buffer q a)) (Some a)
    end
  end.

(** [*tail = prev] where [tail] may be the local [&head]. *)
Definition store_tail (q : equeue_t) (head : ptr) (tail : slot) (v : ptr)
  : equeue_t * ptr :=
  match tail with
  | SHead => (q, v)
  | _ => (store q tail v, head)
  end.

(** The [while (q->queue)] loop of [equeue_dequeue]; the result carries the
    locals [head] and [*deadline]. *)
Fixpoint dequeue_loop (n fuel : nat) (target_ : Z) (q : equeue_t)
         (head : ptr) (tail : slot) (deadline : Z)
  : option (equeue_t * ptr * Z) :=
  match fuel with
  | O => None
  | S fuel' =>
    match queue q with
    | None => Some (q, head, deadline)
    | Some es =>
      let diff := equeue_tickdiff (to_unsigned (target (buffer q es)))
                                  target_ in
      if diff >? 0 then Some (q, head, diff)
      else
        let q := set_queue q (next (buffer q es)) in
        do r <- dequeue_reverse n q (Some es) None;
        let '(q, prev) := r in
        let '(q, head) := store_tail q head tail prev in
        dequeue_loop n fuel' target_ q head (SNext es) deadline
    end
  end.

(** [equeue_dequeue(q, &deadline)]: the drained list, and the value left in
    [*deadline]. *)
Definition equeue_dequeue (fuel : nat) (tick : Z) (q : equeue_t)
           (deadline : Z) : option (equeue_t * ptr * Z) :=
  do r <- dequeue_loop fuel fuel (to_unsigned tick) q None SHead deadline;
  let '(q, head, deadline) := r in
  let q := match queue q with
           | Some a => set_ref q a (Some SQueue)
           | None => q
           end in
  Some (q, head, deadline).

(** *** Identifiers *)

Definition equeue_incid (q : equeue_t) (id_ : Z) : Z :=
  if negb (Z.shiftr (to_int (id_ + 1)) (8 * 4 - 1 - npw2 q) =? 0)
  then 1
  else to_int (id_ + 1).

(** The handle [equeue_post] computes:
    [(e->id << q->npw2) | ((unsigned char * )e - q->buffer)]. *)
Definition post_handle (q : equeue_t) (e : addr) : Z :=
  to_int (Z.lor (to_int (Z.shiftl (id (buffer q e)) (npw2 q))) e).

Definition equeue_post (fuel : nat) (tick : Z) (q : equeue_t) (cb_ : fnptr)
           (p : Z) : option (equeue_t * Z) :=
  let e := p - sizeof_event in
  let id_ := post_handle q e in
  let q := set_cb q e cb_ in
  if target (buffer q e) <? 0 then
    do q <- equeue_dealloc fuel q (e + sizeof_event);
    Some (q, id_)
  else
    do q <- equeue_enqueue fuel tick q e (to_unsigned (target (buffer q e)));
    Some (q, id_).

(** The chunk [equeue_cancel] looks at:
    [&q->buffer[id & ((1 << q->npw2)-1)]]. *)
Definition cancel_chunk (q : equeue_t) (id_ : Z) : addr :=
  Z.land id_ (to_int (to_int (Z.shiftl 1 (npw2 q)) - 1)).

(** [equeue_cancel].  [-id >> q->npw2] is [(-id) >> q->npw2] in C; the
    shift of a negative [int] is arithmetic. *)
Definition equeue_cancel (fuel : nat) (q : equeue_t) (id_ : Z)
  : option equeue_t :=
  let e := cancel_chunk q id_ in
  let q :=
    if id (buffer q e) =? Z.shiftr (to_int (- id_)) (npw2 q) then
      let q := set_cb q e None in
      set_period q e (-1)
    else q in
  if negb (id (buffer q e) =? Z.shiftr id_ (npw2 q)) then Some q
  else
    do q <- equeue_unqueue q e;
    let q := set_id q e (equeue_incid q (id (buffer q e))) in
    equeue_dealloc fuel q (e + sizeof_event).

Definition equeue_break (q : equeue_t) : equeue_t :=
  set_breaks q (to_int (breaks q + 1)).

(** *** Dispatch *)

(** [for (e = es; e; e = e->next) e->id = -e->id;] *)
Fixpoint dispatch_mark (fuel : nat) (q : equeue_t) (e : ptr)
  : option equeue_t :=
  match fuel with
  | O => None
  | S fuel' =>
    match e with
    | None => Some q
    | Some a =>
      let q := set_id q a (to_int (- id (buffer q a))) in
      dispatch_mark fuel' q (next (buffer q a))
    end
  end.

(** The body of the [while (es)] loop for the event [e]: fire, then retire. *)
Definition dispatch_event (fuel : nat) (tick : Z) (q : equeue_t) (e : addr)
  : option equeue_t :=
  let q := invoke_opt q (cb (buffer q e)) (e + sizeof_event) in
  if period (buffer q e) >=? 0 then
    let q := set_id q e (to_int (- id (buffer q e))) in
    equeue_enqueue fuel tick q e (to_unsigned (period (buffer q e)))
  else
    let q := set_id q e (equeue_incid q (to_int (- id (buffer q e)))) in
    equeue_dealloc fuel q (e + sizeof_event).

(** [while (es) { e = es; es = e->next; ... }].  Each call of
    [equeue_enqueue] reads the clock anew: [ticks j] is the value
    [equeue_tick()] returns to the iteration number [j] of the loop, which
    reads it only if it re-enqueues its event. *)
Fixpoint dispatch_events (n fuel : nat) (ticks : nat -> Z) (j : nat)
         (q : equeue_t) (es : ptr) : option equeue_t :=
  match fuel with
  | O => None
  | S fuel' =>
    match es with
    | None => Some q
    | Some e =>
      let es := next (buffer q e) in
      do q <- dispatch_event n (ticks j) q e;
      dispatch_events n fuel' ticks (S j) q es
    end
  end.

(** One pass of the [while (1)] loop of [equeue_dispatch], up to the point
    where the dispatcher computes its sleep budget: collect the due events,
    mark them in flight, dispatch them.  [tick] is the value of
    [equeue_tick()] in [equeue_dequeue], [ticks] the values read while the
    events are dispatched.  The result carries [deadline]. *)
Definition equeue_dispatch_pass (fuel : nat) (tick : Z) (ticks : nat -> Z)
           (q : equeue_t) : option (equeue_t * Z) :=
  do r <- match queue q with
          | Some _ =>
            do r <- equeue_dequeue fuel tick q (-1);
            let '(q, es, deadline) := r in
            do q <- dispatch_mark fuel q es;
            Some (q, es, deadline)
          | None => Some (q, None, -1)
          end;
  let '(q, es, deadline) := r in
  do q <- dispatch_events fuel fuel ticks 0 q es;
  Some (q, deadline).

(** *** Event configuration *)

Definition equeue_event_delay (q : equeue_t) (p : Z) (ms : Z) : equeue_t :=
  set_target q (p - sizeof_event) ms.

Definition equeue_event_period (q : equeue_t) (p : Z) (ms : Z) : equeue_t :=
  set_period q (p - sizeof_event) ms.

Definition equeue_event_dtor (q : equeue_t) (p : Z) (d : fnptr) : equeue_t :=
  set_dtor q (p - sizeof_event) d.

(** *** The dispatch loop *)

(** The timeout check of [equeue_dispatch] for [ms >= 0]: [None] when the
    dispatcher returns, otherwise the sleep budget it hands to
    [equeue_sema_wait].  [tick] is the value [equeue_tick()] returns
    there. *)
Definition dispatch_timeout (ms timeout tick deadline : Z) : option Z :=
  if ms >=? 0 then
    let diff := equeue_tickdiff timeout (to_unsigned tick) in
    if diff <=? 0 then None
    else if (deadline <? 0) || (diff <? deadline) then Some diff
         else Some deadline
  else Some deadline.

(** [if (q->breaks) { if (q->breaks > 0) { q->breaks--; return; } }]:
    the flag says whether the dispatcher returns. *)
Definition dispatch_breaks (q : equeue_t) : equeue_t * bool :=
  if negb (breaks q =? 0) then
    if breaks q >? 0 then (set_breaks q (to_int (breaks q - 1)), true)
    else (q, false)
  else (q, false).

(** How far a run of [equeue_dispatch] got: it returned, or it is still
    in its loop, about to start another pass, after the passes the run was
    given. *)
Inductive dispatch_result : Type :=
| Returned (q : equeue_t)
| Looping (q : equeue_t).

(** The [while (1)] loop of [equeue_dispatch], for at most [passes]
    passes.  In pass [i], [now i] is the tick [equeue_dequeue] reads,
    [ticks i] gives the ticks read while the events of the pass are
    dispatched and [check i] is the tick read by the timeout check.
    Nothing else runs while the dispatcher sleeps in [equeue_sema_wait]:
    the model is sequential.  [None] means that a walk inside a pass ran
    out of its fuel [n]. *)
Fixpoint dispatch_loop (n passes : nat) (now : nat -> Z)
         (ticks : nat -> nat -> Z) (check : nat -> Z) (i : nat)
         (ms timeout : Z) (q : equeue_t) : option dispatch_result :=
  match passes with
  | O => Some (Looping q)
  | S passes' =>
    do r <- equeue_dispatch_pass n (now i) (ticks i) q;
    let '(q, deadline) := r in
    match dispatch_timeout ms timeout (check i) deadline with
    | None => Some (Returned q)
    | Some _ =>
      match dispatch_breaks q with
      | (q, true) => Some (Returned q)
      | (q, false) =>
        dispatch_loop n passes' now ticks check (S i) ms timeout q
      end
    end
  end.

(** [equeue_dispatch(q, ms)]; [start] is the tick read on entry. *)
Definition equeue_dispatch (fuel passes : nat) (start : Z) (now : nat -> Z)
           (ticks : nat -> nat -> Z) (check : nat -> Z)
           (q : equeue_t) (ms : Z) : option dispatch_result :=
  dispatch_loop fuel passes now ticks check 0 ms (to_unsigned (start + ms)) q.

(** *** Simple callbacks *)

(** [struct ecallback], the payload of the events [equeue_call] and its
    variants post. *)
Record ecallback : Type := mkEcallback {
  ecb : fnptr;
  edata : Z
}.

(** [sizeof(struct ecallback)], and the address of the static function
    [ecallback_dispatch]. *)
Variable sizeof_ecallback : Z.
Variable ecallback_dispatch_fn : Z.

(** [e->cb = cb; e->data = data;] on the payload at [p]. *)
Definition store_ecallback (pl : Z -> ecallback) (p : Z) (cb_ : fnptr)
           (data : Z) : Z -> ecallback :=
  fun x => if Z.eqb x p then mkEcallback cb_ data else pl x.

(** [ecallback_dispatch]: [e->cb(e->data)].  A null [cb] is a call through
    a null pointer. *)
Definition ecallback_dispatch (pl : Z -> ecallback) (q : equeue_t) (p : Z)
  : option equeue_t :=
  do f <- ecb (pl p);
  Some (invoke q f (edata (pl p))).

Definition equeue_call (fuel : nat) (tick : Z) (q : equeue_t)
           (pl : Z -> ecallback) (cb_ : fnptr) (data : Z)
  : option (equeue_t * (Z -> ecallback) * Z) :=
  do r <- equeue_alloc fuel q sizeof_ecallback;
  match r with
  | (q, None) => Some (q, pl, 0)
  | (q, Some p) =>
    let pl := store_ecallback pl p cb_ data in
    do r <- equeue_post fuel tick q (Some ecallback_dispatch_fn) p;
    Some (fst r, pl, snd r)
  end.

Definition equeue_call_in (fuel : nat) (tick : Z) (q : equeue_t)
           (pl : Z -> ecallback) (ms : Z) (cb_ : fnptr) (data : Z)
  : option (equeue_t * (Z -> ecallback) * Z) :=
  do r <- equeue_alloc fuel q sizeof_ecallback;
  match r with
  | (q, None) => Some (q, pl, 0)
  | (q, Some p) =>
    let q := equeue_event_delay q p ms in
    let pl := store_ecallback pl p cb_ data in
    do r <- equeue_post fuel tick q (Some ecallback_dispatch_fn) p;
    Some (fst r, pl, snd r)
  end.

Definition equeue_call_every (fuel : nat) (tick : Z) (q : equeue_t)
           (pl : Z -> ecallback) (ms : Z) (cb_ : fnptr) (data : Z)
  : option (equeue_t * (Z -> ecallback) * Z) :=
  do r <- equeue_alloc fuel q sizeof_ecallback;
  match r with
  | (q, None) => Some (q, pl, 0)
  | (q, Some p) =>
    let q := equeue_event_delay q p ms in
    let q := equeue_event_period q p ms in
    let pl := store_ecallback pl p cb_ data in
    do r <- equeue_post fuel tick q (Some ecallback_dispatch_fn) p;
    Some (fst r, pl, snd r)
  end.

End Equeue.

(** * Specification vocabulary *)

(** ** Integer ranges and identifiers *)

(** The values of [int]. *)
Definition int_range (z : Z) : Prop := - 2 ^ 31 <= z < 2 ^ 31.

(** A generation the packed handle has room for: the generation takes the
    bits above the low [npw2] offset bits and stays clear of the sign bit. *)
Definition valid_id (q : equeue_t) (i : Z) : Prop :=
  1 <= i < 2 ^ (31 - npw2 q).

(** ** Linked structures in the buffer

    Both the free list and the timed queue are lists of buckets.  The
    bucket heads are linked through [next]; the other members of a bucket
    hang off its head through [sibling].  A bucket is written head first,
    so a queue bucket lists its events newest first. *)

(** [p] starts the [sibling] chain [l]. *)
Fixpoint sib_chain (m : addr -> equeue_event) (p : ptr) (l : list addr)
  : Prop :=
  match l with
  | [] => p = None
  | a :: l' => p = Some a /\ sib_chain m (sibling (m a)) l'
  end.

(** [p] starts the bucket list [bs]. *)
Fixpoint bucket_chain (m : addr -> equeue_event) (p : ptr)
         (bs : list (list addr)) : Prop :=
  match bs with
  | [] => p = None
  | b :: bs' =>
    match b with
    | [] => False
    | h :: sibs =>
      p = Some h /\ sib_chain m (sibling (m h)) sibs /\
      bucket_chain m (next (m h)) bs'
    end
  end.

(** The back-pointers along a sibling chain hanging off the slot [sl]. *)
Fixpoint sib_refs (m : addr -> equeue_event) (sl : slot) (l : list addr)
  : Prop :=
  match l with
  | [] => True
  | a :: l' => ref (m a) = Some sl /\ sib_refs m (SSibling a) l'
  end.

(** The back-pointers of a bucket list hanging off the slot [sl]: every
    event's [ref] is the link slot that refers to it. *)
Fixpoint bucket_refs (m : addr -> equeue_event) (sl : slot)
         (bs : list (list addr)) : Prop :=
  match bs with
  | [] => True
  | b :: bs' =>
    match b with
    | [] => False
    | h :: sibs =>
      ref (m h) = Some sl /\ sib_refs m (SSibling h) sibs /\
      bucket_refs m (SNext h) bs'
    end
  end.

(** [p] starts the [next] chain [l]: the drained list of
    [equeue_dequeue]. *)
Fixpoint next_chain (m : addr -> equeue_event) (p : ptr) (l : list addr)
  : Prop :=
  match l with
  | [] => p = None
  | a :: l' => p = Some a /\ next_chain m (next (m a)) l'
  end.

(** The timed queue holds exactly the buckets [bs]. *)
Definition queue_wf (q : equeue_t) (bs : list (list addr)) : Prop :=
  bucket_chain (buffer q) (queue q) bs /\
  bucket_refs (buffer q) SQueue bs /\
  NoDup (concat bs).

(** The free list holds exactly the buckets [fs]. *)
Definition free_wf (q : equeue_t) (fs : list (list addr)) : Prop :=
  bucket_chain (buffer q) (chunks q) fs /\ NoDup (concat fs).

(** [*e.ref == e]: the link slot [e]'s back-pointer names holds [e]. *)
Definition backptr_ok (q : equeue_t) (e : addr) : Prop :=
  exists sl, ref (buffer q e) = Some sl /\ load q sl = Some e.

(** ** Deadline order *)

(** The members of a bucket share the deadline of its head. *)
Definition bucket_uniform (m : addr -> equeue_event) (b : list addr) : Prop :=
  match b with
  | [] => False
  | h :: sibs =>
    int_range (target (m h)) /\
    forall x, In x sibs -> target (m x) = target (m h)
  end.

(** The deadline of [b] precedes, in the modular comparison, the deadline
    of the first bucket of [bs]. *)
Definition bucket_before (m : addr -> equeue_event) (b : list addr)
           (bs : list (list addr)) : Prop :=
  match b, bs with
  | h :: _, (h2 :: _) :: _ =>
    equeue_tickdiff (to_unsigned (target (m h)))
                    (to_unsigned (target (m h2))) < 0
  | _, _ => True
  end.

(** Each bucket precedes the next one. *)
Fixpoint queue_sorted (m : addr -> equeue_event) (bs : list (list addr))
  : Prop :=
  match bs with
  | [] => True
  | b :: bs' =>
    bucket_uniform m b /\ bucket_before m b bs' /\ queue_sorted m bs'
  end.

(** Every member of the bucket [b] is due at [now]. *)
Definition bucket_due (m : addr -> equeue_event) (now : Z) (b : list addr)
  : Prop :=
  forall x, In x b ->
            equeue_tickdiff (to_unsigned (target (m x))) now <= 0.

(** The head of the bucket [b] is too small for a request of [sz] bytes. *)
Definition bucket_small (m : addr -> equeue_event) (sz : Z) (b : list addr)
  : Prop :=
  match b with
  | h :: _ => size (m h) < sz
  | [] => True
  end.

(** ** The operations on bucket lists *)

(** Where [equeue_mem_dealloc] puts the chunk [e]. *)
Fixpoint free_insert (m : addr -> equeue_event) (e : addr)
         (fs : list (list addr)) : list (list addr) :=
  match fs with
  | [] => [[e]]
  | [] :: fs' => [] :: free_insert m e fs'
  | (h :: sibs) :: fs' =>
    if size (m h) <? size (m e) then (h :: sibs) :: free_insert m e fs'
    else if size (m h) =? size (m e) then (e :: h :: sibs) :: fs'
         else [e] :: fs
  end.

(** The chunk [equeue_mem_alloc] takes for a request of [sz] bytes, and
    what is left of the free list. *)
Fixpoint free_take (m : addr -> equeue_event) (sz : Z)
         (fs : list (list addr)) : option (addr * list (list addr)) :=
  match fs with
  | [] => None
  | [] :: fs' =>
    match free_take m sz fs' with
    | Some (e, r) => Some (e, [] :: r)
    | None => None
    end
  | (h :: sibs) :: fs' =>
    if sz <=? size (m h)
    then Some (h, match sibs with [] => fs' | _ :: _ => sibs :: fs' end)
    else match free_take m sz fs' with
         | Some (e, r) => Some (e, (h :: sibs) :: r)
         | None => None
         end
  end.

(** Where [equeue_enqueue] puts the event [e] of deadline [tgt]. *)
Fixpoint queue_insert (m : addr -> equeue_event) (tgt : Z) (e : addr)
         (bs : list (list addr)) : list (list addr) :=
  match bs with
  | [] => [[e]]
  | [] :: bs' => [] :: queue_insert m tgt e bs'
  | (h :: sibs) :: bs' =>
    if equeue_tickdiff (to_unsigned (target (m h))) (to_unsigned tgt) <? 0
    then (h :: sibs) :: queue_insert m tgt e bs'
    else if target (m h) =? tgt then (e :: h :: sibs) :: bs'
         else [e] :: bs
  end.

(** The buckets [equeue_dequeue] drains at [now], and those it leaves. *)
Fixpoint due_split (m : addr -> equeue_event) (now : Z)
         (bs : list (list addr)) : list (list addr) * list (list addr) :=
  match bs with
  | [] => ([], [])
  | [] :: _ => ([], bs)
  | (h :: sibs) :: bs' =>
    if equeue_tickdiff (to_unsigned (target (m h))) now >? 0 then ([], bs)
    else (((h :: sibs) :: fst (due_split m now bs')),
          snd (due_split m now bs'))
  end.

(** The value [equeue_dequeue] leaves in [*deadline]. *)
Definition dequeue_deadline (m : addr -> equeue_event) (now : Z)
           (rest : list (list addr)) (dl : Z) : Z :=
  match rest with
  | (h :: _) :: _ => equeue_tickdiff (to_unsigned (target (m h))) now
  | _ => dl
  end.

(** The pointer to the first element of a list. *)
Definition list_ptr (l : list addr) : ptr :=
  match l with
  | [] => None
  | a :: _ => Some a
  end.

(** The local [tail] of [equeue_dequeue] once [done] has been drained. *)
Definition tail_slot (done : list addr) : slot :=
  match rev done with
  | [] => SHead
  | x :: _ => SNext x
  end.

(** ** Frames: what an operation leaves alone *)

(** A slot a list walk for the insertion of [e] can stand on: a root, or
    the [next] field of a chunk outside [l]. *)
Definition walk_slot (p : slot) (e : addr) (l : list addr) : Prop :=
  match p with
  | SQueue | SChunks => True
  | SNext a => a <> e /\ ~ In a l
  | _ => False
  end.

(** The same for the walk of [equeue_mem_alloc]. *)
Definition free_slot (p : slot) (l : list addr) : Prop :=
  match p with
  | SChunks => True
  | SNext a => ~ In a l
  | _ => False
  end.

(** The header fields that are not links. *)
Definition data_eq (x y : equeue_event) : Prop :=
  size x = size y /\ id x = id y /\ target x = target y /\
  period x = period y /\ dtor x = dtor y /\ cb x = cb y.

(** The fields of the queue object, the root the slot [p] names apart. *)
Definition roots_eq (q q' : equeue_t) (p : slot) : Prop :=
  (p <> SQueue -> queue q' = queue q) /\
  (p <> SChunks -> chunks q' = chunks q) /\
  npw2 q' = npw2 q /\ breaks q' = breaks q /\ slab_size q' = slab_size q /\
  slab_data q' = slab_data q /\ calls q' = calls q.

(** What an insertion of [e] at the slot [p] leaves alone, [ref] apart. *)
Definition links_frame (q q' : equeue_t) (e : addr) (p : slot) : Prop :=
  (forall a, a <> e -> sibling (buffer q' a) = sibling (buffer q a)) /\
  (forall a, a <> e -> p <> SNext a -> next (buffer q' a) = next (buffer q a)) /\
  (forall a, data_eq (buffer q' a) (buffer q a)) /\
  roots_eq q q' p.

(** What [mem_dealloc_at] leaves alone. *)
Definition dealloc_frame (q q' : equeue_t) (e : addr) (p : slot) : Prop :=
  links_frame q q' e p /\
  (forall a, ref (buffer q' a) = ref (buffer q a)).

(** What [enqueue_at] leaves alone: it rewrites the [ref] of [e], of [*p]
    and, when [e] joins the bucket of [*p], of the bucket after it. *)
Definition enqueue_frame (q q' : equeue_t) (e : addr) (p : slot) : Prop :=
  links_frame q q' e p /\
  (forall a, a <> e -> load q p <> Some a ->
             (forall h, load q p = Some h ->
                        target (buffer q h) = target (buffer q e) ->
                        next (buffer q h) <> Some a) ->
             ref (buffer q' a) = ref (buffer q a)).

(** What the free-list walk of [equeue_mem_alloc] leaves alone. *)
Definition alloc_frame (q q' : equeue_t) (sl : slot) (l : list addr) : Prop :=
  (forall a, sibling (buffer q' a) = sibling (buffer q a) /\
             ref (buffer q' a) = ref (buffer q a) /\
             data_eq (buffer q' a) (buffer q a)) /\
  (forall a, ~ In a l -> sl <> SNext a ->
             next (buffer q' a) = next (buffer q a)) /\
  (sl <> SChunks -> chunks q' = chunks q) /\
  queue q' = queue q /\
  npw2 q' = npw2 q /\ breaks q' = breaks q /\ slab_size q' = slab_size q /\
  slab_data q' = slab_data q /\ calls q' = calls q.

(** Only [next] fields, and only those of [l], differ. *)
Definition next_changed (q q' : equeue_t) (l : list addr) : Prop :=
  (forall a, sibling (buffer q' a) = sibling (buffer q a) /\
             ref (buffer q' a) = ref (buffer q a) /\
             data_eq (buffer q' a) (buffer q a)) /\
  (forall a, ~ In a l -> next (buffer q' a) = next (buffer q a)) /\
  chunks q' = chunks q /\
  npw2 q' = npw2 q /\ breaks q' = breaks q /\ slab_size q' = slab_size q /\
  slab_data q' = slab_data q /\ calls q' = calls q.

(** Everything outside the links of the [touched] chunks is as before. *)
Definition same_outside (q q' : equeue_t) (touched : list addr) : Prop :=
  (forall a, ~ In a touched ->
             next (buffer q' a) = next (buffer q a) /\
             sibling (buffer q' a) = sibling (buffer q a) /\
             ref (buffer q' a) = ref (buffer q a)) /\
  (forall a, data_eq (buffer q' a) (buffer q a)) /\
  npw2 q' = npw2 q /\ breaks q' = breaks q /\ slab_size q' = slab_size q /\
  slab_data q' = slab_data q /\ calls q' = calls q.

(** ** Slots inside the timed queue *)

(** The slot that holds the pointer to the bucket after [pre], in a bucket
    list hanging off [sl]. *)
Fixpoint bucket_slot (sl : slot) (pre : list (list addr)) : slot :=
  match pre with
  | [] => sl
  | (h :: _) :: pre' => bucket_slot (SNext h) pre'
  | [] :: pre' => bucket_slot sl pre'
  end.

(** The slot that holds the pointer to the sibling after [s1], in a sibling
    chain hanging off [sl]. *)
Fixpoint sib_slot (sl : slot) (s1 : list addr) : slot :=
  match s1 with
  | [] => sl
  | a :: s1' => sib_slot (SSibling a) s1'
  end.

(** The scalar fields of the queue are untouched. *)
Definition scalars_eq (q q' : equeue_t) : Prop :=
  npw2 q' = npw2 q /\ breaks q' = breaks q /\ slab_size q' = slab_size q /\
  slab_data q' = slab_data q /\ calls q' = calls q /\ chunks q' = chunks q.

(** A slot of the timed queue that does not belong to [e]. *)
Definition queue_slot (p : slot) (e : addr) : Prop :=
  match p with
  | SQueue => True
  | SNext a => a <> e
  | _ => False
  end.

(** ** Size order of the free list *)

(** The chunks of a free bucket have the size of its head. *)
Definition free_uniform (m : addr -> equeue_event) (b : list addr) : Prop :=
  match b with
  | [] => False
  | h :: sibs => forall x, In x sibs -> size (m x) = size (m h)
  end.

(** The bucket [b] holds smaller chunks than the first bucket of [bs]. *)
Definition free_before (m : addr -> equeue_event) (b : list addr)
           (bs : list (list addr)) : Prop :=
  match b, bs with
  | h :: _, (h2 :: _) :: _ => size (m h) < size (m h2)
  | _, _ => True
  end.

(** The free list is in strictly ascending order of chunk size, one bucket
    per size. *)
Fixpoint free_sorted (m : addr -> equeue_event) (bs : list (list addr))
  : Prop :=
  match bs with
  | [] => True
  | b :: bs' => free_uniform m b /\ free_before m b bs' /\ free_sorted m bs'
  end.

(** ** Traces of user calls *)

(** The queue [q] after the user calls [l]. *)
Definition log_calls (q : equeue_t) (l : list (Z * Z)) : equeue_t :=
  mkQueue (queue q) (breaks q) (npw2 q) (chunks q) (slab_size q)
          (slab_data q) (buffer q) (calls q ++ l).

(** The call [if (f) f(e + 1)] leaves in the trace. *)
Definition call_of (sz : Z) (f : fnptr) (e : addr) : list (Z * Z) :=
  match f with
  | Some d => [(d, e + sz)]
  | None => []
  end.

(** The destructor calls for the events [l], in this order. *)
Definition dtor_calls (sz : Z) (m : addr -> equeue_event) (l : list addr)
  : list (Z * Z) :=
  flat_map (fun a => call_of sz (dtor (m a)) a) l.

(** The calls one dispatched event gives rise to: its callback, then its
    destructor if the event is not periodic. *)
Definition event_calls (sz : Z) (m : addr -> equeue_event) (e : addr)
  : list (Z * Z) :=
  call_of sz (cb (m e)) e ++
  (if period (m e) >=? 0 then [] else call_of sz (dtor (m e)) e).

(** ** Dispatch *)

(** Only [id] fields differ between [q] and [q']. *)
Definition only_ids (q q' : equeue_t) : Prop :=
  (forall a, next (buffer q' a) = next (buffer q a) /\
             sibling (buffer q' a) = sibling (buffer q a) /\
             ref (buffer q' a) = ref (buffer q a) /\
             size (buffer q' a) = size (buffer q a) /\
             target (buffer q' a) = target (buffer q a) /\
             period (buffer q' a) = period (buffer q a) /\
             dtor (buffer q' a) = dtor (buffer q a) /\
             cb (buffer q' a) = cb (buffer q a)) /\
  queue q' = queue q /\ chunks q' = chunks q /\ npw2 q' = npw2 q /\
  breaks q' = breaks q /\ slab_size q' = slab_size q /\
  slab_data q' = slab_data q /\ calls q' = calls q.

(** ** Simple callbacks *)

(** The common shape of the hypotheses on a queue in use: the chunks on
    the free list lie inside the buffer and carry valid generations, the
    slab is the tail of the buffer, and no chunk in use starts at the slab
    cursor. *)
Definition chunks_ok (q : equeue_t) (bs fs : list (list addr)) : Prop :=
  0 <= npw2 q <= 30 /\
  (forall a, In a (concat fs) ->
             0 <= a < 2 ^ npw2 q /\ valid_id q (id (buffer q a))) /\
  0 <= slab_data q /\ slab_data q + slab_size q <= 2 ^ npw2 q /\
  ~ In (slab_data q) (concat bs) /\ ~ In (slab_data q) (concat fs).

(** The body [equeue_call], [equeue_call_in] and [equeue_call_every]
    share: allocate, set the delay [d] and the period [pe] if given, fill
    the payload, post. *)
Definition call_with (sizeof_event sizeof_ptr sizeof_ecallback fn : Z)
           (fuel : nat) (tick : Z) (q : equeue_t) (pl : Z -> ecallback)
           (d pe : option Z) (cb_ : fnptr) (data : Z)
  : option (equeue_t * (Z -> ecallback) * Z) :=
  do r <- equeue_alloc sizeof_event sizeof_ptr fuel q sizeof_ecallback;
  match r with
  | (q, None) => Some (q, pl, 0)
  | (q, Some p) =>
    let q := match d with
             | Some ms => equeue_event_delay sizeof_event q p ms
             | None => q
             end in
    let q := match pe with
             | Some ms => equeue_event_period sizeof_event q p ms
             | None => q
             end in
    let pl := store_ecallback pl p cb_ data in
    do r <- equeue_post sizeof_event fuel tick q (Some fn) p;
    Some (fst r, pl, snd r)
  end.

(** The delay and period an event ends up with. *)
Definition call_delay (d : option Z) : Z :=
  match d with Some ms => ms | None => 0 end.
Definition call_period (pe : option Z) : Z :=
  match pe with Some ms => ms | None => -1 end.

(** ** Proof automation for header updates *)

Arguments to_int : simpl never.
Arguments to_unsigned : simpl never.
Arguments equeue_tickdiff : simpl never.

(** Case analysis on every address comparison of the goal. *)
Ltac eqb_cases :=
  repeat match goal with
         | |- context [Z.eqb ?x ?y] =>
           destruct (Z.eqb_spec x y);
           [ first [subst x | subst y | idtac] | ];
           try congruence; try contradiction
         end.

(** Expose the memory updates behind the field setters. *)
Ltac mem_unfold :=
  unfold set_size, set_id, set_next, set_sibling, set_ref, set_target,
    set_period, set_dtor, set_cb, set_queue, set_chunks, set_buffer, store,
    load, upd in *; simpl in *.

(** Read a field back after a sequence of updates. *)
Ltac mem_solve :=
  intros; repeat progress mem_unfold; eqb_cases; simpl; repeat split;
  try reflexivity; try congruence.

(** Rewrite with the known values of pointers and comparisons. *)
Ltac hyp_rw :=
  repeat match goal with
         | H : next (buffer ?q ?x) = _ |- context [next (buffer ?q ?x)] =>
           rewrite H
         | H : sibling (buffer ?q ?x) = _
           |- context [sibling (buffer ?q ?x)] => rewrite H
         | H : queue ?q = _ |- context [queue ?q] => rewrite H
         | H : chunks ?q = _ |- context [chunks ?q] => rewrite H
         | H : (?x =? ?y) = _ |- context [?x =? ?y] => rewrite H
         end.

Ltac mem_step :=
  repeat progress (repeat progress mem_unfold; hyp_rw; eqb_cases; simpl).

(** Distinctness of the members of a concrete list. *)
Ltac nodup_solve := repeat constructor; simpl; intuition discriminate.

(** Closed facts about a concrete state. *)
Ltac num_solve := vm_compute; repeat split; first [discriminate | reflexivity].
Ltac chain_solve := vm_compute; repeat split; reflexivity.
Ltac queue_wf_solve :=
  split; [chain_solve|split; [chain_solve|nodup_solve]].
Ltac free_wf_solve := split; [chain_solve|nodup_solve].
Ltac ids_solve :=
  let x := fresh "x" in
  let Hx := fresh "Hx" in
  intros x Hx; vm_compute in Hx;
  repeat (destruct Hx as [<-|Hx]; [num_solve|]); contradiction.
Ltac chunks_ok_solve :=
  unfold chunks_ok; split; [num_solve|]; split; [ids_solve|];
  split; [num_solve|]; split; [num_solve|];
  split; vm_compute; intuition discriminate.

(** ** Concrete runs

    A 1000-byte buffer on a platform with 56-byte headers and 8-byte
    pointers; every run starts from [equeue_create_inplace]. *)

Definition blank_event : equeue_event :=
  mkEvent 0 0 None None None 0 0 None None.

Definition blank_mem : addr -> equeue_event := fun _ => blank_event.

Definition fresh_queue : equeue_t := equeue_create_inplace 1000 blank_mem.


(** Two 8-byte events: headers at offsets 0 and 64. *)
Definition two_chunks : option (equeue_t * Z * Z) :=
  do r <- equeue_alloc 56 8 4 fresh_queue 8;
  match r with
  | (q, Some p1) =>
    do r <- equeue_alloc 56 8 4 q 8;
    match r with
    | (q, Some p2) => Some (q, p1, p2)
    | _ => None
    end
  | _ => None
  end.

(** The second event is posted as a periodic event (period 25, callback 7)
    and then collected by the dispatcher: dequeued and marked in flight.
    This is the state in which its callback runs.  The result carries the
    handle [equeue_post] returned. *)
Definition in_flight_run : option (equeue_t * Z) :=
  do r <- two_chunks;
  let '(q, _, p) := r in
  let q := equeue_event_period 56 q p 25 in
  do r <- equeue_post 56 4 0 q (Some 7) p;
  let '(q, h) := r in
  do r <- equeue_dequeue 4 0 q (-1);
  let '(q, es, _) := r in
  do q <- dispatch_mark 4 q es;
  Some (q, h).

(** The second event is posted and cancelled (handle [h1], generation 1);
    its chunk is allocated again, posted as a periodic event (handle [h2],
    generation 2) and collected by the dispatcher. *)
Definition stale_handle_run : option (equeue_t * Z * Z) :=
  do r <- two_chunks;
  let '(q, _, p) := r in
  do r <- equeue_post 56 4 0 q (Some 7) p;
  let '(q, h1) := r in
  do q <- equeue_cancel 56 4 q h1;
  do r <- equeue_alloc 56 8 4 q 8;
  match r with
  | (q, Some p') =>
    let q := equeue_event_period 56 q p' 25 in
    do r <- equeue_post 56 4 0 q (Some 9) p';
    let '(q, h2) := r in
    do r <- equeue_dequeue 4 0 q (-1);
    let '(q, es, _) := r in
    do q <- dispatch_mark 4 q es;
    Some (q, h1, h2)
  | _ => None
  end.

(** Two pending events with distinct deadlines (10 and 20) and destructors
    100 and 200. *)
Definition two_pending_run : option equeue_t :=
  do r <- two_chunks;
  let '(q, p1, p2) := r in
  let q := equeue_event_delay 56 q p1 10 in
  let q := equeue_event_dtor 56 q p1 (Some 100) in
  let q := equeue_event_delay 56 q p2 20 in
  let q := equeue_event_dtor 56 q p2 (Some 200) in
  do r <- equeue_post 56 4 0 q (Some 7) p1;
  do r <- equeue_post 56 4 0 (fst r) (Some 7) p2;
  Some (fst r).

(** Three events A, C, B (headers 0, 64, 128) posted in this order at
    tick 0 with delays 10, 20, 10: B is pushed on A's bucket while C
    follows it. *)
Definition three_chunks : option equeue_t :=
  do r <- two_chunks;
  let '(q, _, _) := r in
  do r <- equeue_alloc 56 8 4 q 8;
  Some (fst r).

(** The result carries the handles of A and C. *)
Definition three_posted_run : option (equeue_t * Z * Z) :=
  do q <- three_chunks;
  let q := equeue_event_delay 56 q 56 10 in
  let q := equeue_event_delay 56 q 120 20 in
  let q := equeue_event_delay 56 q 184 10 in
  do r <- equeue_post 56 4 0 q (Some 7) 56;
  let '(q, hA) := r in
  do r <- equeue_post 56 4 0 q (Some 7) 120;
  let '(q, hC) := r in
  do r <- equeue_post 56 4 0 q (Some 7) 184;
  Some (fst r, hA, hC).

Definition three_posted_state : equeue_t :=
  match three_posted_run with
  | Some (q, _, _) => q
  | None => fresh_queue
  end.

(** An event in flight (id -1) with a null callback and period 5. *)
Definition null_cb_periodic_run : option equeue_t :=
  do r <- two_chunks;
  let '(q, p, _) := r in
  let q := equeue_event_period 56 q p 5 in
  do r <- equeue_post 56 4 0 q None p;
  let '(q, _) := r in
  do r <- equeue_dequeue 4 0 q (-1);
  let '(q, es, _) := r in
  dispatch_mark 4 q es.

(** A chunk returned to the free list with a configured header
    (delay 100, period 5, destructor 100). *)
Definition stale_header_run : option equeue_t :=
  do r <- two_chunks;
  let '(q, p, _) := r in
  let q := equeue_event_delay 56 q p 100 in
  let q := equeue_event_period 56 q p 5 in
  let q := equeue_event_dtor 56 q p (Some 100) in
  equeue_dealloc 56 4 q p.

(** The state of a run, or the fresh queue if the run failed. *)
Definition run_state (r : option equeue_t) : equeue_t :=
  match r with
  | Some q => q
  | None => fresh_queue
  end.

(** Three chunks (headers 0, 64, 128): the first is given back to the
    allocator, the third is posted with delay 100, the second is allocated
    and not yet posted. *)
Definition busy_run : option equeue_t :=
  do q <- three_chunks;
  do q <- equeue_dealloc 56 4 q 56;
  let q := equeue_event_delay 56 q 184 100 in
  do r <- equeue_post 56 4 0 q (Some 7) 184;
  Some (fst r).

Definition busy_state : equeue_t := run_state busy_run.

(** The second event configured with a negative delay and destructor 200. *)
Definition negative_delay_state : equeue_t :=
  let q := equeue_event_delay 56 busy_state 120 (-1) in
  equeue_event_dtor 56 q 120 (Some 200).

(** The second event posted with period 25 and collected by the
    dispatcher. *)
Definition busy_in_flight_state : equeue_t :=
  run_state
    (let q := equeue_event_period 56 busy_state 120 25 in
     do r <- equeue_post 56 4 0 q (Some 7) 120;
     do r <- equeue_dequeue 4 0 (fst r) (-1);
     let '(q, es, _) := r in
     dispatch_mark 4 q es).

(** The state and payload pointer an allocation from [stale_header_run]
    returns. *)
Definition realloc_state : equeue_t :=
  match equeue_alloc 56 8 4 (run_state stale_header_run) 8 with
  | Some (q, _) => q
  | None => fresh_queue
  end.

(** A buffer too small for any event. *)
Definition tiny_queue : equeue_t := equeue_create_inplace 32 blank_mem.

(** Payload memory before any call: null functions. *)
Definition blank_payload : Z -> ecallback := fun _ => mkEcallback None 0.

(** As [three_posted_run], but B is periodic (period 25) and A has the
    destructor 100; the callbacks are 7, 8 and 9.  At tick 10 the
    dispatcher finds A and B due. *)
Definition periodic_posted_state : equeue_t :=
  run_state
    (do q <- three_chunks;
     let q := equeue_event_delay 56 q 56 10 in
     let q := equeue_event_dtor 56 q 56 (Some 100) in
     let q := equeue_event_delay 56 q 120 20 in
     let q := equeue_event_delay 56 q 184 10 in
     let q := equeue_event_period 56 q 184 25 in
     do r <- equeue_post 56 4 0 q (Some 7) 56;
     do r <- equeue_post 56 4 0 (fst r) (Some 8) 120;
     do r <- equeue_post 56 4 0 (fst r) (Some 9) 184;
     Some (fst r)).

(** The event at offset 64 is posted and cancelled, which leaves it with
    generation 2 and a [ref] that still names [q->queue]; it is allocated
    again and given the delay -1 and the destructor 200.  The event at
    offset 0 is then posted with delay 10. *)
Definition discard_run : option equeue_t :=
  do r <- two_chunks;
  let '(q, pA, pE) := r in
  do r <- equeue_post 56 4 0 q (Some 7) pE;
  let '(q, h1) := r in
  do q <- equeue_cancel 56 4 q h1;
  do r <- equeue_alloc 56 8 4 q 8;
  match r with
  | (q, Some p) =>
    let q := equeue_event_delay 56 q p (-1) in
    let q := equeue_event_dtor 56 q p (Some 200) in
    let q := equeue_event_delay 56 q pA 10 in
    do r <- equeue_post 56 4 0 q (Some 7) pA;
    Some (fst r)
  | _ => None
  end.

(** * Lemmas

    ** Chains only depend on the links of their members *)

Lemma sib_chain_ext m m' l : forall p,
  (forall a, In a l -> sibling (m' a) = sibling (m a)) ->
  sib_chain m p l -> sib_chain m' p l.
Proof.
  induction l as [|a l IH]; simpl; intros p Hs H; auto.
  destruct H as [-> H]. split; auto.
  rewrite Hs by auto. apply IH; auto.
Qed.

Lemma bucket_chain_ext m m' bs : forall p,
  (forall a, In a (concat bs) -> sibling (m' a) = sibling (m a)) ->
  (forall a, In a (concat bs) -> next (m' a) = next (m a)) ->
  bucket_chain m p bs -> bucket_chain m' p bs.
Proof.
  induction bs as [|b bs IH]; simpl; intros p Hs Hn H; auto.
  destruct b as [|h sibs]; auto.
  destruct H as (-> & H1 & H2). split; auto.
  rewrite Hs, Hn by (simpl; auto). split.
  - apply sib_chain_ext with (m := m); auto.
    intros a Ha. apply Hs. simpl. right. apply in_or_app. auto.
  - apply IH; auto; intros a Ha; [apply Hs | apply Hn];
      simpl; right; apply in_or_app; auto.
Qed.

(** ** [equeue_mem_dealloc] *)

Lemma mem_dealloc_at_spec q e p l :
  walk_slot p e l ->
  exists q',
    mem_dealloc_at q e p = Some q' /\
    load q' p = Some e /\
    match load q p with
    | Some a =>
      if size (buffer q a) =? size (buffer q e)
      then sibling (buffer q' e) = Some a /\
           (a <> e -> next (buffer q' e) = next (buffer q a))
      else sibling (buffer q' e) = None /\ next (buffer q' e) = Some a
    | None => sibling (buffer q' e) = None /\ next (buffer q' e) = None
    end /\
    dealloc_frame q q' e p.
Proof.
  intros Hp. unfold mem_dealloc_at, dealloc_frame, links_frame, roots_eq, data_eq.
  destruct p as [| | |a|a]; simpl in Hp; try contradiction;
    [ | | destruct Hp as [Hae _];
          assert (Hne : (a =? e) = false) by (apply Z.eqb_neq; auto) ];
    (destruct (load q _) as [h|] eqn:Hq;
     [ destruct (size (buffer q h) =? size (buffer q e)) eqn:Hsz | ]);
    repeat progress mem_unfold; rewrite ?Hne; simpl; rewrite ?Hq; simpl;
    eexists; (split; [reflexivity|]); repeat split; mem_solve.
Qed.

Lemma links_frame_load q q' e p sl l :
  links_frame q q' e p -> walk_slot sl e l -> p <> sl ->
  load q' sl = load q sl.
Proof.
  intros (Hs & Hn & _ & Hq & Hc & _) Hsl Hne.
  destruct sl as [| | |a|a]; simpl in *; try contradiction.
  - apply Hq; congruence.
  - apply Hc; congruence.
  - destruct Hsl as [Hae _]. apply Hn; auto.
Qed.

(** Lists without duplicates. *)

Lemma NoDup_app_l {A} (l1 l2 : list A) : NoDup (l1 ++ l2) -> NoDup l1.
Proof.
  induction l1 as [|x l1 IH]; simpl; intros H; [constructor|].
  inversion H; subst. constructor; auto.
  intros Hin. apply H2. apply in_or_app; auto.
Qed.

Lemma NoDup_app_r {A} (l1 l2 : list A) : NoDup (l1 ++ l2) -> NoDup l2.
Proof.
  induction l1 as [|x l1 IH]; simpl; intros H; auto.
  inversion H; auto.
Qed.

Lemma NoDup_app_disj {A} (l1 l2 : list A) x :
  NoDup (l1 ++ l2) -> In x l1 -> ~ In x l2.
Proof.
  induction l1 as [|y l1 IH]; simpl; intros H Hin; [contradiction|].
  inversion H; subst. destruct Hin as [->|Hin]; auto.
  intros Hx. apply H2. apply in_or_app; auto.
Qed.

(** The walk stops where [free_insert] puts the chunk, and the insertion
    there builds the new free list. *)
Lemma mem_dealloc_chain fs : forall sl q e fuel,
  bucket_chain (buffer q) (load q sl) fs ->
  NoDup (concat fs) -> ~ In e (concat fs) ->
  walk_slot sl e (concat fs) ->
  (length fs < fuel)%nat ->
  exists p q',
    mem_dealloc_walk fuel q e sl = Some p /\
    mem_dealloc_at q e p = Some q' /\
    (p = sl \/ exists h, p = SNext h /\ In h (concat fs)) /\
    bucket_chain (buffer q') (load q' sl) (free_insert (buffer q) e fs) /\
    dealloc_frame q q' e p.
Proof.
  induction fs as [|b fs IH]; intros sl q e fuel Hch Hnd He Hsl Hfuel;
    (destruct fuel as [|fuel]; [simpl in Hfuel; lia|]).
  - simpl in Hch.
    destruct (mem_dealloc_at_spec q e sl [] ) as (q' & Hat & Hld & Hnew & Hfr).
    { destruct sl; simpl in *; tauto. }
    exists sl, q'. cbn [mem_dealloc_walk free_insert bucket_chain sib_chain].
    rewrite Hch in *. rewrite Hld.
    split; [reflexivity|]. split; [exact Hat|]. split; [auto|].
    split; [|exact Hfr]. tauto.
  - destruct b as [|h sibs]; [contradiction|].
    simpl in Hch. destruct Hch as (Hh & Hsib & Hrest).
    simpl in Hnd, He. inversion Hnd as [|? ? Hhn Hnd']; subst.
    assert (Hhe : h <> e) by tauto.
    cbn [mem_dealloc_walk free_insert]. rewrite Hh.
    destruct (size (buffer q h) <? size (buffer q e)) eqn:Hlt.
    + destruct (IH (SNext h) q e fuel) as (p & q' & Hw & Hat & Hp & Hch' & Hfr);
        auto.
      { eapply NoDup_app_r; eauto. }
      { intros Hin. apply He. right. apply in_or_app; auto. }
      { simpl. split; auto. intros Hin. apply Hhn. apply in_or_app; auto. }
      { simpl in Hfuel. lia. }
      exists p, q'. split; [exact Hw|]. split; [exact Hat|].
      split; [|split; [|exact Hfr]].
      { right. destruct Hp as [->|(h' & -> & Hin)].
        - exists h. split; auto. simpl; auto.
        - exists h'. split; auto. simpl. right. apply in_or_app; auto. }
      assert (Hpsl : p <> sl).
      { destruct sl as [| | |a|a]; simpl in Hsl; try contradiction;
          destruct Hp as [->|(h' & -> & Hin)]; try congruence.
        - intros [= <-]. apply (proj2 Hsl). simpl; auto.
        - intros [= <-]. apply (proj2 Hsl). simpl. right.
          apply in_or_app; auto. }
      rewrite (links_frame_load _ _ _ _ _ _ (proj1 Hfr) Hsl Hpsl), Hh.
      simpl. split; auto. split; auto.
      destruct Hfr as ((Hs & _) & _). rewrite Hs by auto.
      apply sib_chain_ext with (m := buffer q); auto.
      intros a Ha. apply Hs. intros ->. apply He. right.
      apply in_or_app; auto.
    + destruct (mem_dealloc_at_spec q e sl (concat ((h :: sibs) :: fs)))
        as (q' & Hat & Hld & Hnew & Hfr); auto.
      exists sl, q'. split; [reflexivity|]. split; [exact Hat|].
      split; [auto|]. split; [|exact Hfr].
      rewrite Hld. rewrite Hh in Hnew.
      pose proof Hfr as ((Hs & Hn & _) & _).
      assert (Hsibs : sib_chain (buffer q') (sibling (buffer q' h)) sibs).
      { rewrite Hs by auto.
        apply sib_chain_ext with (m := buffer q); auto.
        intros a Ha. apply Hs. intros ->. apply He. right.
        apply in_or_app; auto. }
      assert (Hrest' : bucket_chain (buffer q') (next (buffer q h)) fs).
      { apply bucket_chain_ext with (m := buffer q); auto.
        - intros a Ha. apply Hs. intros ->. apply He. right.
          apply in_or_app; auto.
        - intros a Ha. apply Hn.
          + intros ->. apply He. right. apply in_or_app; auto.
          + intros ->. simpl in Hsl. apply (proj2 Hsl). simpl. right.
            apply in_or_app; auto. }
      assert (Hnh : next (buffer q' h) = next (buffer q h)).
      { apply Hn; auto. intros ->. simpl in Hsl. apply (proj2 Hsl).
        simpl; auto. }
      destruct (size (buffer q h) =? size (buffer q e)).
      * destruct Hnew as (Hse & Hne). simpl. rewrite Hse, Hne by auto.
        repeat split; auto.
      * destruct Hnew as (Hse & Hne). simpl. rewrite Hse, Hne, Hnh.
        repeat split; auto.
Qed.

(** ** [equeue_enqueue] *)

Lemma sib_refs_ext m m' l : forall sl,
  (forall a, In a l -> ref (m' a) = ref (m a)) ->
  sib_refs m sl l -> sib_refs m' sl l.
Proof.
  induction l as [|a l IH]; simpl; intros sl Hr H; auto.
  destruct H as [H1 H2]. rewrite Hr by auto. split; auto.
Qed.

Lemma bucket_refs_ext m m' bs : forall sl,
  (forall a, In a (concat bs) -> ref (m' a) = ref (m a)) ->
  bucket_refs m sl bs -> bucket_refs m' sl bs.
Proof.
  induction bs as [|b bs IH]; simpl; intros sl Hr H; auto.
  destruct b as [|h sibs]; auto.
  destruct H as (H1 & H2 & H3). rewrite Hr by (simpl; auto).
  split; auto. split.
  - apply sib_refs_ext with (m := m); auto.
    intros a Ha. apply Hr. simpl. right. apply in_or_app; auto.
  - apply IH; auto. intros a Ha. apply Hr. simpl. right.
    apply in_or_app; auto.
Qed.

(** Moving a chain under another link slot: only the head's [ref] changes. *)
Lemma bucket_refs_reroot m m' sl sl' bs :
  bucket_refs m sl bs ->
  match bs with
  | (n :: _) :: _ =>
    ref (m' n) = Some sl' /\
    forall a, In a (concat bs) -> a <> n -> ref (m' a) = ref (m a)
  | _ => True
  end ->
  NoDup (concat bs) ->
  bucket_refs m' sl' bs.
Proof.
  destruct bs as [|[|n sibs] bs]; simpl; auto.
  intros (_ & H2 & H3) (Hn & Hr) Hnd. inversion Hnd as [|? ? Hnn Hnd']; subst.
  split; auto. split.
  - apply sib_refs_ext with (m := m); auto.
    intros a Ha. apply Hr; [right; apply in_or_app; auto|].
    intros ->. apply Hnn. apply in_or_app; auto.
  - apply bucket_refs_ext with (m := m); auto.
    intros a Ha. apply Hr; [right; apply in_or_app; auto|].
    intros ->. apply Hnn. apply in_or_app; auto.
Qed.

Lemma bucket_chain_head m n bs :
  bucket_chain m (Some n) bs -> exists sibs bs', bs = (n :: sibs) :: bs'.
Proof.
  destruct bs as [|[|h sibs] bs]; simpl; try discriminate; try contradiction.
  intros ([= ->] & _). eauto.
Qed.

Lemma enqueue_at_spec q e p l :
  walk_slot p e l ->
  (forall h, load q p = Some h ->
             h <> e /\
             forall n, next (buffer q h) = Some n -> n <> e /\ n <> h) ->
  exists q',
    enqueue_at q e p = Some q' /\
    load q' p = Some e /\
    ref (buffer q' e) = Some p /\
    match load q p with
    | Some h =>
      if target (buffer q h) =? target (buffer q e)
      then sibling (buffer q' e) = Some h /\
           next (buffer q' e) = next (buffer q h) /\
           ref (buffer q' h) = Some (SSibling e) /\
           (forall n, next (buffer q h) = Some n ->
                      ref (buffer q' n) = Some (SNext e))
      else sibling (buffer q' e) = None /\ next (buffer q' e) = Some h /\
           ref (buffer q' h) = Some (SNext e)
    | None => sibling (buffer q' e) = None /\ next (buffer q' e) = None
    end /\
    enqueue_frame q q' e p.
Proof.
  intros Hp Hd.
  unfold enqueue_at, enqueue_sibling, enqueue_new_bucket, enqueue_frame,
    links_frame, roots_eq, data_eq.
  destruct p as [| | |a|a]; simpl in Hp; try contradiction;
    [ | | destruct Hp as [Hae _] ];
    (destruct (load q _) as [h|] eqn:Hq;
     [ destruct (Hd h eq_refl) as [Hhe Hn];
       destruct (target (buffer q h) =? target (buffer q e)) eqn:Htg;
       [ destruct (next (buffer q h)) as [n|] eqn:Hnx;
         [ destruct (Hn n eq_refl) as [Hne1 Hne2] | ]
       | ]
     | ]); clear Hd; try clear Hn;
    mem_step;
    (eexists; (split; [reflexivity|]); repeat split; mem_solve);
    exfalso;
    match goal with
    | H : forall h0, Some ?h = Some h0 -> _ -> _ <> _ |- _ =>
      apply (H h eq_refl); [apply Z.eqb_eq; assumption | assumption]
    end.
Qed.

Lemma bucket_chain_next_in m h n bs :
  bucket_chain m (next (m h)) bs -> next (m h) = Some n ->
  In n (concat bs).
Proof.
  intros H Hn. rewrite Hn in H.
  destruct (bucket_chain_head _ _ _ H) as (s & bs' & ->). simpl; auto.
Qed.

(** The walk stops where [queue_insert] puts the event, and the insertion
    there builds the new queue, back-pointers included. *)
Lemma enqueue_chain bs : forall sl q e fuel,
  bucket_chain (buffer q) (load q sl) bs ->
  bucket_refs (buffer q) sl bs ->
  NoDup (concat bs) -> ~ In e (concat bs) ->
  walk_slot sl e (concat bs) ->
  (length bs < fuel)%nat ->
  exists p q',
    enqueue_walk fuel q e sl = Some p /\
    enqueue_at q e p = Some q' /\
    (p = sl \/ exists h, p = SNext h /\ In h (concat bs)) /\
    bucket_chain (buffer q') (load q' sl)
                 (queue_insert (buffer q) (target (buffer q e)) e bs) /\
    bucket_refs (buffer q') sl
                (queue_insert (buffer q) (target (buffer q e)) e bs) /\
    links_frame q q' e p /\
    (forall a, a <> e -> ~ In a (concat bs) ->
               ref (buffer q' a) = ref (buffer q a)).
Proof.
  induction bs as [|b bs IH]; intros sl q e fuel Hch Hrf Hnd He Hsl Hfuel;
    (destruct fuel as [|fuel]; [simpl in Hfuel; lia|]).
  - simpl in Hch.
    destruct (enqueue_at_spec q e sl []) as (q' & Hat & Hld & Hre & Hnew & Hfr).
    { destruct sl; simpl in *; tauto. }
    { intros h Hh. congruence. }
    exists sl, q'. cbn [enqueue_walk queue_insert bucket_chain sib_chain
                       bucket_refs sib_refs].
    rewrite Hch in *. rewrite Hld.
    split; [reflexivity|]. split; [exact Hat|]. split; [auto|].
    split; [tauto|]. split; [tauto|]. split; [exact (proj1 Hfr)|].
    intros a Hae _. apply (proj2 Hfr); auto; congruence.
  - destruct b as [|h sibs]; [contradiction|].
    simpl in Hch. destruct Hch as (Hh & Hsib & Hrest).
    simpl in Hrf. destruct Hrf as (Hrh & Hrs & Hrr).
    simpl in Hnd, He. inversion Hnd as [|? ? Hhn Hnd']; subst.
    assert (Hhe : h <> e) by tauto.
    assert (Hnd2 : NoDup (concat bs)) by (eapply NoDup_app_r; eauto).
    assert (Hsibs_e : forall a, In a sibs -> a <> e).
    { intros a Ha ->. apply He. right. apply in_or_app; auto. }
    assert (Hbs_e : forall a, In a (concat bs) -> a <> e).
    { intros a Ha ->. apply He. right. apply in_or_app; auto. }
    assert (Hbs_h : forall a, In a (concat bs) -> a <> h).
    { intros a Ha ->. apply Hhn. apply in_or_app; auto. }
    assert (Hsibs_h : forall a, In a sibs -> a <> h).
    { intros a Ha ->. apply Hhn. apply in_or_app; auto. }
    assert (Hsibs_bs : forall a, In a sibs -> ~ In a (concat bs)).
    { intros a Ha. eapply NoDup_app_disj; eauto. }
    cbn [enqueue_walk queue_insert]. rewrite Hh.
    destruct (equeue_tickdiff _ _ <? 0) eqn:Hlt.
    + destruct (IH (SNext h) q e fuel)
        as (p & q' & Hw & Hat & Hp & Hch' & Hrf' & Hfr & Hfr2); auto.
      { intros Hin. apply (Hbs_e e); auto. }
      { simpl. split; auto. intros Hin. apply (Hbs_h h); auto. }
      { simpl in Hfuel. lia. }
      exists p, q'. split; [exact Hw|]. split; [exact Hat|].
      assert (Hpsl : p <> sl).
      { destruct sl as [| | |a|a]; simpl in Hsl; try contradiction;
          destruct Hp as [->|(h' & -> & Hin)]; try congruence.
        - intros [= <-]. apply (proj2 Hsl). simpl; auto.
        - intros [= <-]. apply (proj2 Hsl). simpl. right.
          apply in_or_app; auto. }
      pose proof Hfr as (Hs & Hn & _).
      split; [|split; [|split; [|split; [exact Hfr|]]]].
      * right. destruct Hp as [->|(h' & -> & Hin)].
        -- exists h. split; auto. simpl; auto.
        -- exists h'. split; auto. simpl. right. apply in_or_app; auto.
      * rewrite (links_frame_load _ _ _ _ _ _ Hfr Hsl Hpsl), Hh.
        simpl. split; auto. split; auto.
        rewrite Hs by auto.
        apply sib_chain_ext with (m := buffer q); auto.
      * assert (Hh_bs : ~ In h (concat bs)).
        { intros Hin. apply (Hbs_h h); auto. }
        simpl. rewrite Hfr2 by auto. split; auto. split; auto.
        apply sib_refs_ext with (m := buffer q); auto.
      * intros a Hae Hin. apply Hfr2; auto.
        intros Hin'. apply Hin. simpl. right. apply in_or_app; auto.
    + destruct (enqueue_at_spec q e sl (concat ((h :: sibs) :: bs)))
        as (q' & Hat & Hld & Hre & Hnew & Hfr); auto.
      { intros h' Hh'. rewrite Hh in Hh'. injection Hh' as <-.
        split; auto. intros n Hn.
        pose proof (bucket_chain_next_in _ _ _ _ Hrest Hn). auto. }
      exists sl, q'. split; [reflexivity|]. split; [exact Hat|].
      split; [auto|].
      rewrite Hld. rewrite Hh in Hnew.
      pose proof Hfr as ((Hs & Hn & _) & Hr).
      assert (Hr' : forall a, a <> e -> a <> h ->
                (target (buffer q h) = target (buffer q e) ->
                 next (buffer q h) <> Some a) ->
                ref (buffer q' a) = ref (buffer q a)).
      { intros a Hae Hah Hnx. apply Hr; auto.
        - rewrite Hh. congruence.
        - intros h' Hh'. rewrite Hh in Hh'. injection Hh' as <-. auto. }
      assert (Hsibs : sib_chain (buffer q') (sibling (buffer q' h)) sibs).
      { rewrite Hs by auto.
        apply sib_chain_ext with (m := buffer q); auto. }
      assert (Hsl_in : forall a, In a (h :: sibs ++ concat bs) ->
                                 sl <> SNext a).
      { intros a Ha ->. simpl in Hsl. apply (proj2 Hsl). exact Ha. }
      assert (Hrest' : bucket_chain (buffer q') (next (buffer q h)) bs).
      { apply bucket_chain_ext with (m := buffer q); auto.
        intros a Ha. apply Hn; auto. apply Hsl_in. right.
        apply in_or_app; auto. }
      assert (Hnh : next (buffer q' h) = next (buffer q h)).
      { apply Hn; auto. apply Hsl_in. left; auto. }
      assert (Hsr : sib_refs (buffer q') (SSibling h) sibs).
      { apply sib_refs_ext with (m := buffer q); auto.
        intros a Ha. apply Hr'; auto.
        intros _ Hnx.
        apply (Hsibs_bs a Ha).
        eapply bucket_chain_next_in; eauto. }
      split; [|split; [|split; [exact (proj1 Hfr)|]]].
      * destruct (target (buffer q h) =? target (buffer q e)).
        -- destruct Hnew as (Hse & Hne & _). simpl. rewrite Hse, Hne.
           repeat split; auto.
        -- destruct Hnew as (Hse & Hne & _). simpl. rewrite Hse, Hne, Hnh.
           repeat split; auto.
      * destruct (target (buffer q h) =? target (buffer q e)) eqn:Htg.
        -- destruct Hnew as (Hse & Hne & Hrh' & Hrn). simpl.
           split; auto. split; [split; auto|].
           apply bucket_refs_reroot with (m := buffer q) (sl := SNext h);
             auto.
           destruct bs as [|[|n sibs'] bs']; auto.
           simpl in Hrest. destruct Hrest as (Hnx & _).
           split; [apply Hrn; auto|].
           intros a Ha Han. apply Hr'; auto. rewrite Hnx. congruence.
        -- destruct Hnew as (Hse & Hne & Hrh'). simpl.
           split; auto. split; auto. split; auto. split; auto.
           apply bucket_refs_ext with (m := buffer q); auto.
           intros a Ha. apply Hr'; auto.
           intros Heq. apply Z.eqb_eq in Heq. congruence.
      * intros a Hae Hin. apply Hr'; auto.
        -- intros ->. apply Hin. simpl; auto.
        -- intros _ Hnx. apply Hin. simpl. right. apply in_or_app. right.
           eapply bucket_chain_next_in; eauto.
Qed.

(** ** Well-formedness under the frames *)

Lemma queue_wf_same_outside q q' l bs :
  same_outside q q' l -> queue q' = queue q ->
  (forall a, In a (concat bs) -> ~ In a l) ->
  queue_wf q bs -> queue_wf q' bs.
Proof.
  intros (Hl & _) Hq Hd (Hc & Hr & Hn). unfold queue_wf. rewrite Hq.
  split; [|split; auto].
  - apply bucket_chain_ext with (m := buffer q); auto;
      intros a Ha; apply Hl; auto.
  - apply bucket_refs_ext with (m := buffer q); auto;
      intros a Ha; apply Hl; auto.
Qed.

Lemma free_wf_same_outside q q' l fs :
  same_outside q q' l -> chunks q' = chunks q ->
  (forall a, In a (concat fs) -> ~ In a l) ->
  free_wf q fs -> free_wf q' fs.
Proof.
  intros (Hl & _) Hq Hd (Hc & Hn). unfold free_wf. rewrite Hq.
  split; auto.
  apply bucket_chain_ext with (m := buffer q); auto;
    intros a Ha; apply Hl; auto.
Qed.

Lemma In_slot_ne a (l : list addr) p :
  ~ In a l -> (p = SChunks \/ p = SQueue \/ exists h, p = SNext h /\ In h l) ->
  p <> SNext a.
Proof.
  intros Ha [->|[->|(h & -> & Hh)]]; try discriminate.
  intros [= ->]. auto.
Qed.

Lemma free_insert_concat m e fs :
  exists l1 l2, concat fs = l1 ++ l2 /\
                concat (free_insert m e fs) = l1 ++ e :: l2.
Proof.
  induction fs as [|[|h sibs] fs (l1 & l2 & H1 & H2)]; simpl.
  - exists [], []. auto.
  - exists l1, l2. auto.
  - destruct (_ <? _).
    + exists (h :: sibs ++ l1), l2. simpl. rewrite H1, H2, <- !app_assoc. auto.
    + destruct (_ =? _); exists [], (h :: sibs ++ concat fs); auto.
Qed.

Lemma queue_insert_concat m tgt e bs :
  exists l1 l2, concat bs = l1 ++ l2 /\
                concat (queue_insert m tgt e bs) = l1 ++ e :: l2.
Proof.
  induction bs as [|[|h sibs] bs (l1 & l2 & H1 & H2)]; simpl.
  - exists [], []. auto.
  - exists l1, l2. auto.
  - destruct (_ <? _).
    + exists (h :: sibs ++ l1), l2. simpl. rewrite H1, H2, <- !app_assoc. auto.
    + destruct (_ =? _); exists [], (h :: sibs ++ concat bs); auto.
Qed.

Lemma NoDup_insert_middle (l l' : list addr) e :
  (exists l1 l2, l = l1 ++ l2 /\ l' = l1 ++ e :: l2) ->
  NoDup l -> ~ In e l -> NoDup l' /\ (forall x, In x l' <-> x = e \/ In x l).
Proof.
  intros (l1 & l2 & -> & ->) Hn He. split.
  - apply Permutation_NoDup with (l := e :: l1 ++ l2).
    + apply Permutation_middle.
    + constructor; auto.
  - intros x. rewrite !in_app_iff. simpl. intuition congruence.
Qed.

Lemma links_frame_outside q q' e p l :
  links_frame q q' e p ->
  (forall a, a <> e -> ~ In a l -> ref (buffer q' a) = ref (buffer q a)) ->
  (p = SChunks \/ p = SQueue \/ exists h, p = SNext h /\ In h l) ->
  same_outside q q' (e :: l).
Proof.
  intros (Hs & Hn & Hd & _ & _ & H1 & H2 & H3 & H4 & H5) Hr Hp.
  unfold same_outside. split; [|tauto].
  intros a Ha. simpl in Ha.
  assert (Hae : a <> e) by (intros ->; tauto).
  assert (Hal : ~ In a l) by tauto.
  split; [|split]; auto.
  apply Hn; auto. eapply In_slot_ne; eauto.
Qed.

(** [equeue_mem_dealloc] on a well-formed free list. *)
Lemma equeue_mem_dealloc_spec fuel q e fs :
  free_wf q fs -> ~ In e (concat fs) -> (length fs < fuel)%nat ->
  exists q',
    equeue_mem_dealloc fuel q e = Some q' /\
    free_wf q' (free_insert (buffer q) e fs) /\
    (forall x, In x (concat (free_insert (buffer q) e fs)) <->
               x = e \/ In x (concat fs)) /\
    queue q' = queue q /\
    same_outside q q' (e :: concat fs).
Proof.
  intros (Hc & Hn) He Hf.
  destruct (mem_dealloc_chain fs SChunks q e fuel)
    as (p & q' & Hw & Hat & Hp & Hc' & Hfr & Hrf);
    simpl; auto.
  exists q'. unfold equeue_mem_dealloc. rewrite Hw. split; [exact Hat|].
  destruct (NoDup_insert_middle _ _ e (free_insert_concat (buffer q) e fs))
    as (Hnd & Hin); auto.
  split; [split; auto|]. split; auto.
  assert (Hp' : p = SChunks \/ p = SQueue \/
                exists h, p = SNext h /\ In h (concat fs)) by tauto.
  split.
  - destruct Hfr as (_ & _ & _ & Hq & _). apply Hq.
    destruct Hp' as [->|[->|(h & -> & _)]]; try discriminate.
    destruct Hp as [|(h & ? & _)]; discriminate.
  - eapply links_frame_outside; eauto.
Qed.

Lemma queue_insert_ext m m' tgt e bs :
  (forall a, In a (concat bs) -> target (m' a) = target (m a)) ->
  queue_insert m' tgt e bs = queue_insert m tgt e bs.
Proof.
  induction bs as [|[|h sibs] bs IH]; intros Ht; cbn [queue_insert]; auto.
  - f_equal. apply IH. intros a Ha. apply Ht. simpl. auto.
  - rewrite Ht by (simpl; auto). rewrite IH; auto.
    intros a Ha. apply Ht. simpl. right. apply in_or_app; auto.
Qed.

Lemma free_insert_ext m m' e fs :
  (forall a, size (m' a) = size (m a)) ->
  free_insert m' e fs = free_insert m e fs.
Proof.
  intros Hs.
  induction fs as [|[|h sibs] fs IH]; cbn [free_insert]; auto.
  - f_equal. apply IH.
  - rewrite !Hs, IH. reflexivity.
Qed.

(** [equeue_enqueue] on a well-formed queue. *)
Lemma equeue_enqueue_spec fuel tick q e ms bs :
  queue_wf q bs -> ~ In e (concat bs) -> (length bs < fuel)%nat ->
  let tgt := to_int (to_unsigned (tick + ms)) in
  exists q',
    equeue_enqueue fuel tick q e ms = Some q' /\
    queue_wf q' (queue_insert (buffer q) tgt e bs) /\
    (forall x, In x (concat (queue_insert (buffer q) tgt e bs)) <->
               x = e \/ In x (concat bs)) /\
    target (buffer q' e) = tgt /\
    chunks q' = chunks q /\
    same_outside (set_target q e tgt) q' (e :: concat bs).
Proof.
  intros (Hc & Hr & Hn) He Hf tgt.
  set (q1 := set_target q e tgt).
  assert (Hm : forall a, next (buffer q1 a) = next (buffer q a) /\
                         sibling (buffer q1 a) = sibling (buffer q a) /\
                         ref (buffer q1 a) = ref (buffer q a)).
  { intros a. unfold q1. mem_solve. }
  assert (Ht : forall a, a <> e -> target (buffer q1 a) = target (buffer q a)).
  { intros a Ha. unfold q1. mem_solve. }
  assert (Hte : target (buffer q1 e) = tgt).
  { unfold q1. mem_solve. }
  assert (Hins : queue_insert (buffer q1) (target (buffer q1 e)) e bs =
                 queue_insert (buffer q) tgt e bs).
  { rewrite Hte. apply queue_insert_ext.
    intros a Ha. apply Ht. intros ->. auto. }
  destruct (enqueue_chain bs SQueue q1 e fuel)
    as (p & q' & Hw & Hat & Hp & Hc' & Hr' & Hfr & Hrf); simpl; auto.
  { apply bucket_chain_ext with (m := buffer q); auto;
      intros a _; apply Hm. }
  { apply bucket_refs_ext with (m := buffer q); auto;
      intros a _; apply Hm. }
  rewrite Hins in *.
  exists q'. unfold equeue_enqueue. fold tgt. fold q1. rewrite Hw.
  split; [exact Hat|].
  destruct (NoDup_insert_middle _ _ e
              (queue_insert_concat (buffer q) tgt e bs)) as (Hnd & Hin); auto.
  split; [split; [|split]; auto|]. split; auto.
  assert (Hp' : p = SChunks \/ p = SQueue \/
                exists h, p = SNext h /\ In h (concat bs)) by tauto.
  split; [|split].
  - destruct Hfr as (_ & _ & Hd & _). destruct (Hd e) as (_ & _ & -> & _).
    exact Hte.
  - destruct Hfr as (_ & _ & _ & _ & Hq & _). apply Hq.
    destruct Hp as [->|(h & -> & _)]; discriminate.
  - eapply links_frame_outside; eauto.
Qed.

(** ** The free-list walk of [equeue_mem_alloc] *)

Lemma mem_alloc_hit q sz sl h sibs fs fuel :
  bucket_chain (buffer q) (load q sl) ((h :: sibs) :: fs) ->
  NoDup (concat ((h :: sibs) :: fs)) ->
  free_slot sl (concat ((h :: sibs) :: fs)) ->
  (sz <=? size (buffer q h)) = true ->
  exists q',
    mem_alloc_walk (S fuel) q sz sl = Some (Some (q', h)) /\
    bucket_chain (buffer q') (load q' sl)
                 (match sibs with [] => fs | _ :: _ => sibs :: fs end) /\
    alloc_frame q q' sl (concat ((h :: sibs) :: fs)).
Proof.
  intros (Hh & Hsib & Hrest) Hnd Hsl Hsz.
  cbn [mem_alloc_walk]. rewrite Hh, Hsz.
  simpl in Hnd. inversion Hnd as [|? ? Hhn Hnd']; subst.
  assert (Hown : sl <> SNext h).
  { intros ->. simpl in Hsl. apply Hsl. simpl; auto. }
  destruct sibs as [|s sibs].
  - simpl in Hsib. rewrite Hsib.
    exists (store q sl (next (buffer q h))).
    split; [reflexivity|]. split.
    + assert (Hld : load (store q sl (next (buffer q h))) sl =
                    next (buffer q h)).
      { destruct sl; simpl in Hsl; try contradiction; mem_solve. }
      rewrite Hld.
      apply bucket_chain_ext with (m := buffer q); auto; intros a Ha;
        destruct sl as [| | |x|x]; simpl in Hsl; try contradiction;
        mem_solve.
      exfalso. apply Hsl. simpl. auto.
    + unfold alloc_frame, data_eq.
      destruct sl as [| | |x|x]; simpl in Hsl; try contradiction;
        repeat split; mem_solve.
  - simpl in Hsib. destruct Hsib as (Hs & Hsibs). rewrite Hs.
    assert (Hsh : s <> h).
    { intros ->. apply Hhn. simpl; auto. }
    assert (Hsl_s : sl <> SNext s).
    { intros ->. simpl in Hsl. apply Hsl. simpl; auto. }
    assert (Hld : load (store q sl (Some s)) sl = Some s).
    { destruct sl; simpl in Hsl; try contradiction; mem_solve. }
    rewrite Hld.
    eexists. split; [reflexivity|]. split.
    + assert (Hfs : forall a, In a (concat fs) -> a <> s).
      { intros a Ha ->. inversion Hnd' as [|? ? Hsn _]; subst.
        apply Hsn. apply in_or_app; auto. }
      destruct sl as [| | |x|x]; simpl in Hsl; try contradiction.
      * simpl. mem_step. split; auto. split.
        -- apply sib_chain_ext with (m := buffer q); auto. mem_solve.
        -- apply bucket_chain_ext with (m := buffer q); auto; mem_solve.
           exfalso. eapply Hfs; eauto.
      * assert (Hxs : x <> s) by congruence.
        assert (Hxh : x <> h) by congruence.
        simpl. mem_step. split; auto. split.
        -- apply sib_chain_ext with (m := buffer q); auto. mem_solve.
        -- apply bucket_chain_ext with (m := buffer q); auto; mem_solve.
           ++ exfalso. eapply Hfs; eauto.
           ++ exfalso. apply Hsl. simpl. right. right.
              apply in_or_app. auto.
    + unfold alloc_frame, data_eq.
      destruct sl as [| | |x|x]; simpl in Hsl; try contradiction;
        repeat split; mem_solve; exfalso; simpl in *; tauto.
Qed.

(** The walk takes the chunk [free_take] names. *)
Lemma mem_alloc_walk_spec fs : forall sl q sz fuel,
  bucket_chain (buffer q) (load q sl) fs ->
  NoDup (concat fs) -> free_slot sl (concat fs) ->
  (length fs < fuel)%nat ->
  match free_take (buffer q) sz fs with
  | Some (e, fs') =>
    exists q',
      mem_alloc_walk fuel q sz sl = Some (Some (q', e)) /\
      bucket_chain (buffer q') (load q' sl) fs' /\
      alloc_frame q q' sl (concat fs)
  | None => mem_alloc_walk fuel q sz sl = Some None
  end.
Proof.
  induction fs as [|b fs IH]; intros sl q sz fuel Hch Hnd Hsl Hfuel;
    (destruct fuel as [|fuel]; [simpl in Hfuel; lia|]).
  - simpl in Hch. simpl. rewrite Hch. reflexivity.
  - destruct b as [|h sibs]; [contradiction|].
    cbn [free_take].
    destruct (sz <=? size (buffer q h)) eqn:Hsz.
    + apply mem_alloc_hit; auto.
    + pose proof Hch as (Hh & Hsib & Hrest).
      simpl in Hnd. inversion Hnd as [|? ? Hhn Hnd']; subst.
      specialize (IH (SNext h) q sz fuel Hrest).
      assert (Hnd2 : NoDup (concat fs)) by (eapply NoDup_app_r; eauto).
      assert (Hh_fs : ~ In h (concat fs)).
      { intros Hin. apply Hhn. apply in_or_app; auto. }
      specialize (IH Hnd2 Hh_fs).
      cbn [mem_alloc_walk]. rewrite Hh, Hsz.
      destruct (free_take (buffer q) sz fs) as [[e r]|].
      * destruct IH as (q' & Hw & Hch' & Hfr); [simpl in Hfuel; lia|].
        exists q'. split; [exact Hw|].
        destruct Hfr as (Hall & Hnx & Hck & Hrest').
        assert (Hld : load q' sl = load q sl).
        { destruct sl as [| | |x|x]; simpl in Hsl; try contradiction.
          - simpl. apply Hck. discriminate.
          - simpl. apply Hnx.
            + intros Hin. apply Hsl. simpl. right. apply in_or_app; auto.
            + intros [= ->]. apply Hsl. simpl; auto. }
        split.
        -- rewrite Hld, Hh. simpl. split; auto. split; auto.
           rewrite (proj1 (Hall h)).
           apply sib_chain_ext with (m := buffer q); auto.
           intros a _. apply Hall.
        -- unfold alloc_frame. split; [exact Hall|]. split; [|split; auto].
           ++ intros a Ha Hsla. apply Hnx.
              ** intros Hin. apply Ha. simpl. right. apply in_or_app; auto.
              ** intros [= ->]. apply Ha. simpl; auto.
           ++ intros _. apply Hck. discriminate.
      * apply IH. simpl in Hfuel. lia.
Qed.

(** ** [equeue_dequeue] *)

Lemma next_changed_refl q l : next_changed q q l.
Proof. unfold next_changed, data_eq. repeat split; auto. Qed.

Lemma next_changed_trans q1 q2 q3 l1 l2 l :
  next_changed q1 q2 l1 -> next_changed q2 q3 l2 ->
  (forall a, In a l1 -> In a l) -> (forall a, In a l2 -> In a l) ->
  next_changed q1 q3 l.
Proof.
  intros (A1 & A2 & A3) (B1 & B2 & B3) H1 H2.
  unfold next_changed, data_eq in *. split; [|split].
  - intros a. destruct (A1 a) as (a1 & a2 & a3).
    destruct (B1 a) as (b1 & b2 & b3).
    repeat split; try congruence; intuition congruence.
  - intros a Ha. rewrite B2, A2; auto.
  - intuition congruence.
Qed.

Lemma next_chain_ext m m' l : forall p,
  (forall a, In a l -> next (m' a) = next (m a)) ->
  next_chain m p l -> next_chain m' p l.
Proof.
  induction l as [|a l IH]; simpl; intros p Hn H; auto.
  destruct H as [-> H]. split; auto.
  rewrite Hn by auto. apply IH; auto.
Qed.

Lemma next_chain_ptr m p l : next_chain m p l -> p = list_ptr l.
Proof. destruct l; simpl; tauto. Qed.

(** The inner loop turns a sibling chain into the reversed [next] chain. *)
Lemma dequeue_reverse_spec l : forall q p acc fuel,
  sib_chain (buffer q) p l ->
  next_chain (buffer q) (list_ptr acc) acc ->
  NoDup (l ++ acc) ->
  (length l < fuel)%nat ->
  exists q',
    dequeue_reverse fuel q p (list_ptr acc) =
      Some (q', list_ptr (rev l ++ acc)) /\
    next_chain (buffer q') (list_ptr (rev l ++ acc)) (rev l ++ acc) /\
    next_changed q q' l /\ queue q' = queue q.
Proof.
  induction l as [|a l IH]; intros q p acc fuel Hs Hn Hnd Hf;
    (destruct fuel as [|fuel]; [simpl in Hf; lia|]).
  - simpl in Hs. subst p. exists q. simpl.
    repeat split; auto; apply next_changed_refl.
  - simpl in Hs. destruct Hs as (-> & Hs).
    simpl in Hnd. inversion Hnd as [|? ? Han Hnd']; subst.
    cbn [dequeue_reverse].
    set (q1 := set_next q a (list_ptr acc)).
    assert (Hq1 : next_changed q q1 [a] /\ queue q1 = queue q /\
                  next (buffer q1 a) = list_ptr acc).
    { unfold q1, next_changed, data_eq. repeat split; mem_solve.
      exfalso. simpl in *. tauto. }
    destruct Hq1 as (Hch & Hqq & Hna).
    pose proof Hch as (Hall & Hnx & _).
    destruct (IH q1 (sibling (buffer q1 a)) (a :: acc) fuel)
      as (q' & Hr & Hnc & Hch' & Hqq'); auto.
    + rewrite (proj1 (Hall a)).
      apply sib_chain_ext with (m := buffer q); auto.
      intros x _. apply Hall.
    + cbn [next_chain list_ptr]. split; auto. rewrite Hna.
      apply next_chain_ext with (m := buffer q); auto.
      intros x Hx. apply Hnx. simpl. intros [->|[]].
      apply Han. apply in_or_app; auto.
    + apply Permutation_NoDup with (l := a :: l ++ acc); auto.
      apply Permutation_middle.
    + simpl in Hf. lia.
    + exists q'. simpl list_ptr in Hr. simpl rev.
      rewrite <- !app_assoc. simpl.
      split; [exact Hr|]. split; [exact Hnc|]. split; [|congruence].
      eapply next_changed_trans; eauto; simpl; intuition.
Qed.

Lemma next_chain_link m m' d x l2 : forall head,
  next_chain m head (d ++ [x]) -> NoDup (d ++ [x]) ->
  (forall a, In a d -> next (m' a) = next (m a)) ->
  next_chain m' (next (m' x)) l2 ->
  next_chain m' head ((d ++ [x]) ++ l2).
Proof.
  induction d as [|a d IH]; simpl; intros head (-> & H) Hnd Hn Hl2.
  - split; auto.
  - inversion Hnd; subst. split; auto.
    rewrite Hn by auto. apply IH; auto.
Qed.

Lemma due_split_ext m m' now bs :
  (forall a, target (m' a) = target (m a)) ->
  due_split m' now bs = due_split m now bs.
Proof.
  intros Ht. induction bs as [|[|h sibs] bs IH]; cbn [due_split]; auto.
  rewrite Ht, IH. reflexivity.
Qed.

Lemma due_split_app m now bs :
  bs = fst (due_split m now bs) ++ snd (due_split m now bs).
Proof.
  induction bs as [|[|h sibs] bs IH]; cbn [due_split]; auto.
  destruct (_ >? 0); simpl; auto. f_equal. exact IH.
Qed.

Lemma tail_slot_snoc d x : tail_slot (d ++ [x]) = SNext x.
Proof. unfold tail_slot. rewrite rev_app_distr. reflexivity. Qed.

(** The outer loop appends the reversed due buckets to the drained list. *)
Lemma dequeue_loop_spec n now bs : forall q head done fuel dl,
  bucket_chain (buffer q) (queue q) bs ->
  next_chain (buffer q) head done ->
  NoDup (done ++ concat bs) ->
  (length bs < fuel)%nat ->
  (forall b, In b bs -> (length b < n)%nat) ->
  exists q' head',
    dequeue_loop n fuel now q head (tail_slot done) dl =
      Some (q', head',
            dequeue_deadline (buffer q) now
                             (snd (due_split (buffer q) now bs)) dl) /\
    next_chain (buffer q') head'
               (done ++ concat (map (@rev addr)
                                    (fst (due_split (buffer q) now bs)))) /\
    bucket_chain (buffer q') (queue q')
                 (snd (due_split (buffer q) now bs)) /\
    next_changed q q' (done ++ concat (fst (due_split (buffer q) now bs))).
Proof.
  induction bs as [|b bs IH]; intros q head done fuel dl Hch Hdone Hnd Hf Hn;
    (destruct fuel as [|fuel]; [simpl in Hf; lia|]).
  - simpl in Hch. exists q, head. cbn [dequeue_loop due_split fst snd].
    rewrite Hch. simpl. rewrite app_nil_r.
    repeat split; auto; apply next_changed_refl.
  - destruct b as [|h sibs]; [contradiction|].
    pose proof Hch as (Hh & Hsib & Hrest).
    cbn [dequeue_loop due_split]. rewrite Hh.
    destruct (equeue_tickdiff _ now >? 0) eqn:Hdiff.
    + exists q, head. cbn [fst snd dequeue_deadline]. simpl.
      rewrite app_nil_r. repeat split; auto; apply next_changed_refl.
    + cbn [fst snd].
      set (q1 := set_queue q (next (buffer q h))).
      assert (Hnd_b : NoDup ((h :: sibs) ++ [])).
      { rewrite app_nil_r. cbn [concat] in Hnd.
        apply NoDup_app_r in Hnd. apply NoDup_app_l in Hnd. exact Hnd. }
      destruct (dequeue_reverse_spec (h :: sibs) q1 (Some h) [] n)
        as (q2 & Hrev & Hnc & Hch2 & Hq2); auto.
      { simpl. auto. }
      { simpl. reflexivity. }
      { apply Hn. simpl; auto. }
      simpl list_ptr in Hrev. rewrite Hrev. rewrite app_nil_r in *.
      pose proof Hch2 as (Hall2 & Hnx2 & Hrest2).
      (* the state after [*tail = prev] *)
      assert (Hst : exists q3 head',
                 store_tail q2 head (tail_slot done)
                            (list_ptr (rev (h :: sibs))) = (q3, head') /\
                 next_chain (buffer q3) head' (done ++ rev (h :: sibs)) /\
                 next_changed q q3 (done ++ (h :: sibs)) /\
                 queue q3 = next (buffer q h)).
      { assert (Hdisj : forall a, In a done -> In a (h :: sibs) -> False).
        { intros a Ha Hin.
          apply (NoDup_app_disj _ _ a Hnd Ha).
          cbn [concat]. apply in_or_app. auto. }
        destruct (rev done) as [|x rd] eqn:Hrd.
        - assert (done = []).
          { rewrite <- (rev_involutive done), Hrd. reflexivity. }
          subst done. unfold tail_slot. rewrite Hrd.
          exists q2, (list_ptr (rev (h :: sibs))). simpl app.
          split; [reflexivity|]. split; [exact Hnc|]. split; [|rewrite Hq2; reflexivity].
          exact Hch2.
        - assert (Hd : done = rev rd ++ [x]).
          { rewrite <- (rev_involutive done), Hrd. reflexivity. }
          rewrite Hd in *. rewrite tail_slot_snoc.
          exists (set_next q2 x (list_ptr (rev (h :: sibs)))), head.
          split; [reflexivity|].
          assert (Hx : ~ In x (h :: sibs)).
          { intros Hin. apply (Hdisj x); auto.
            apply in_or_app. right. simpl; auto. }
          assert (Hrdx : forall a, In a (rev rd) -> a <> x).
          { intros a Ha ->. pose proof (NoDup_app_l _ _ Hnd) as Hnd1.
            apply NoDup_app_disj with (x := x) in Hnd1; auto.
            apply Hnd1. simpl; auto. }
          assert (Hrd_b : forall a, In a (rev rd) -> ~ In a (h :: sibs)).
          { intros a Ha Hin. apply (Hdisj a); auto.
            apply in_or_app. auto. }
          split; [|split].
          + apply next_chain_link with (m := buffer q); auto.
            * apply NoDup_app_l in Hnd. exact Hnd.
            * intros a Ha. pose proof (Hrdx a Ha) as Hax.
              pose proof (Hrd_b a Ha) as Hab.
              transitivity (next (buffer q2 a)).
              -- mem_solve.
              -- apply Hnx2. auto.
            * replace (next (buffer (set_next q2 x
                         (list_ptr (rev (h :: sibs)))) x))
                with (list_ptr (rev (h :: sibs))) by mem_solve.
              apply next_chain_ext with (m := buffer q2); auto.
              intros a Ha.
              assert (Hax : a <> x).
              { intros ->. apply Hx. apply in_rev. exact Ha. }
              mem_solve.
          + eapply next_changed_trans with (l1 := h :: sibs) (l2 := [x]).
            * exact Hch2.
            * unfold next_changed, data_eq. repeat split; mem_solve.
              exfalso. simpl in *. tauto.
            * intros a Ha. apply in_or_app. auto.
            * intros a [->|[]]. apply in_or_app. left.
              apply in_or_app. right. simpl; auto.
          + simpl. rewrite Hq2. reflexivity. }
      destruct Hst as (q3 & head' & Hst & Hnc3 & Hch3 & Hq3).
      change (rev sibs ++ [h]) with (rev (h :: sibs)). rewrite Hst.
      pose proof Hch3 as (Hall3 & Hnx3 & Hrest3).
      assert (Hts : tail_slot (done ++ rev (h :: sibs)) = SNext h).
      { simpl rev. rewrite app_assoc. apply tail_slot_snoc. }
      assert (Hnd3 : NoDup ((done ++ rev (h :: sibs)) ++ concat bs)).
      { rewrite <- app_assoc.
        apply Permutation_NoDup
          with (l := done ++ (h :: sibs) ++ concat bs); auto.
        apply Permutation_app_head. apply Permutation_app_tail.
        apply Permutation_rev. }
      assert (Htg : forall a, target (buffer q3 a) = target (buffer q a)).
      { intros a. apply Hall3. }
      destruct (IH q3 head' (done ++ rev (h :: sibs)) fuel dl)
        as (q' & head'' & Hloop & Hnc' & Hch' & Hfr'); auto.
      { rewrite Hq3.
        apply bucket_chain_ext with (m := buffer q); auto.
        - intros a _. apply Hall3.
        - intros a Ha. apply Hnx3. intros Hin.
          apply in_app_or in Hin. destruct Hin as [Hin|Hin].
          + apply (NoDup_app_disj _ _ a Hnd Hin).
            cbn [concat]. apply in_or_app. auto.
          + pose proof (NoDup_app_r _ _ Hnd) as Hnd2. cbn [concat] in Hnd2.
            apply (NoDup_app_disj _ _ a Hnd2 Hin Ha). }
      { simpl in Hf. lia. }
      { intros b Hb. apply Hn. simpl; auto. }
      rewrite Hts in Hloop.
      rewrite (due_split_ext (buffer q) (buffer q3) now bs Htg) in *.
      exists q', head''. split; [|split; [|split]].
      * rewrite Hloop. f_equal. f_equal.
        unfold dequeue_deadline.
        destruct (snd (due_split (buffer q) now bs)) as [|[|h' ?] ?]; auto.
        rewrite Htg. reflexivity.
      * cbn [map concat]. rewrite app_assoc. exact Hnc'.
      * exact Hch'.
      * eapply next_changed_trans; eauto.
        -- intros a Ha. cbn [concat]. rewrite !in_app_iff in *. tauto.
        -- intros a Ha. cbn [concat]. rewrite !in_app_iff in *.
           rewrite <- in_rev in Ha. tauto.
Qed.

Lemma bucket_refs_suffix m pre : forall sl rest,
  bucket_refs m sl (pre ++ rest) -> exists sl', bucket_refs m sl' rest.
Proof.
  induction pre as [|[|h sibs] pre IH]; simpl; intros sl rest H.
  - eauto.
  - contradiction.
  - destruct H as (_ & _ & H). eauto.
Qed.

Lemma bucket_chain_lengths m bs : forall p,
  bucket_chain m p bs ->
  (length bs <= length (concat bs))%nat /\
  (forall b, In b bs -> (length b <= length (concat bs))%nat).
Proof.
  induction bs as [|[|h sibs] bs IH]; simpl; intros p H.
  - split; [lia|tauto].
  - contradiction.
  - destruct H as (_ & _ & H). destruct (IH _ H) as (H1 & H2).
    rewrite length_app. split; [lia|].
    intros b [<-|Hb]; [simpl; lia|]. specialize (H2 b Hb). lia.
Qed.

Lemma next_changed_same_outside q q' l l' :
  next_changed q q' l -> (forall a, In a l -> In a l') ->
  same_outside q q' l'.
Proof.
  intros (Hall & Hnx & Hck & Hsc) Hin. unfold same_outside.
  split; [|split; [|exact Hsc]].
  - intros a Ha. destruct (Hall a) as (? & ? & ?). repeat split; auto.
  - intros a. apply Hall.
Qed.

Lemma same_outside_trans q1 q2 q3 l :
  same_outside q1 q2 l -> same_outside q2 q3 l -> same_outside q1 q3 l.
Proof.
  intros (A1 & A2 & A3) (B1 & B2 & B3). unfold same_outside, data_eq in *.
  split; [|split].
  - intros a Ha. destruct (A1 a Ha) as (? & ? & ?).
    destruct (B1 a Ha) as (? & ? & ?). repeat split; congruence.
  - intros a. specialize (A2 a). specialize (B2 a).
    repeat split; intuition congruence.
  - intuition congruence.
Qed.

Lemma same_outside_set_ref q h v l :
  In h l -> same_outside q (set_ref q h v) l.
Proof.
  intros Hh. unfold same_outside, data_eq.
  split; [|split]; [intros a Ha; assert (a <> h) by congruence| |];
    mem_solve.
Qed.

(** [equeue_dequeue] on a well-formed queue. *)
Lemma equeue_dequeue_spec fuel tick q dl bs :
  queue_wf q bs -> (length (concat bs) < fuel)%nat ->
  exists q' head,
    equeue_dequeue fuel tick q dl =
      Some (q', head,
            dequeue_deadline (buffer q) (to_unsigned tick)
              (snd (due_split (buffer q) (to_unsigned tick) bs)) dl) /\
    next_chain (buffer q') head
      (concat (map (@rev addr)
                   (fst (due_split (buffer q) (to_unsigned tick) bs)))) /\
    queue_wf q' (snd (due_split (buffer q) (to_unsigned tick) bs)) /\
    chunks q' = chunks q /\
    same_outside q q' (concat bs).
Proof.
  intros (Hc & Hr & Hn) Hf.
  destruct (bucket_chain_lengths _ _ _ Hc) as (Hl1 & Hl2).
  destruct (dequeue_loop_spec fuel (to_unsigned tick) bs q None [] fuel dl)
    as (q1 & head & Hloop & Hnc & Hch & Hfr); simpl; auto; try lia.
  { intros b Hb. specialize (Hl2 b Hb). lia. }
  unfold equeue_dequeue. change (tail_slot []) with SHead in Hloop.
  rewrite Hloop. clear Hloop.
  pose proof (due_split_app (buffer q) (to_unsigned tick) bs) as Happ.
  set (due := fst (due_split (buffer q) (to_unsigned tick) bs)) in *.
  set (rest := snd (due_split (buffer q) (to_unsigned tick) bs)) in *.
  assert (Hin_due : forall a, In a (concat due) -> In a (concat bs)).
  { intros a Ha. rewrite Happ, concat_app. apply in_or_app; auto. }
  assert (Hin_rest : forall a, In a (concat rest) -> In a (concat bs)).
  { intros a Ha. rewrite Happ, concat_app. apply in_or_app; auto. }
  assert (Hnd_rest : NoDup (concat rest)).
  { rewrite Happ, concat_app in Hn. eapply NoDup_app_r; eauto. }
  destruct (bucket_refs_suffix (buffer q) due SQueue rest) as (sl' & Hrr).
  { rewrite <- Happ. exact Hr. }
  pose proof Hfr as (Hall & Hnx & Hck & Hsc).
  assert (Hso : same_outside q q1 (concat bs)).
  { eapply next_changed_same_outside; [exact Hfr|]. simpl. auto. }
  assert (Hrr1 : bucket_refs (buffer q1) sl' rest).
  { apply bucket_refs_ext with (m := buffer q); auto.
    intros a _. apply Hall. }
  destruct rest as [|[|h sibs] rest'] eqn:Hrest.
  - simpl in Hch. rewrite Hch. exists q1, head.
    split; [reflexivity|]. split; [exact Hnc|].
    split; [split; [|split]; simpl; auto; constructor|]. split; auto.
  - simpl in Hch. contradiction.
  - pose proof Hch as (Hq1 & _). rewrite Hq1.
    exists (set_ref q1 h (Some SQueue)), head.
    split; [reflexivity|]. split; [|split; [|split]].
    + apply next_chain_ext with (m := buffer q1); auto. mem_solve.
    + split; [|split; auto].
      * apply bucket_chain_ext with (m := buffer q1);
          [mem_solve | mem_solve |].
        exact Hch.
      * apply bucket_refs_reroot with (m := buffer q1) (sl := sl'); auto.
        split; mem_solve.
    + simpl. exact Hck.
    + eapply same_outside_trans.
      * exact Hso.
      * apply same_outside_set_ref. apply Hin_rest. simpl; auto.
Qed.

(** ** Machine integers *)

Lemma to_int_range z : int_range (to_int z).
Proof.
  unfold int_range, to_int.
  pose proof (Z.mod_pos_bound (z + 2 ^ 31) (2 ^ 32) ltac:(lia)). lia.
Qed.

Lemma to_int_small z : int_range z -> to_int z = z.
Proof.
  unfold int_range, to_int. intros H.
  rewrite Z.mod_small by lia. lia.
Qed.

Lemma tickdiff_int a b :
  equeue_tickdiff (to_unsigned a) (to_unsigned b) = to_int (a - b).
Proof.
  unfold equeue_tickdiff, to_unsigned, to_int.
  change (2 ^ 31) with 2147483648. change (2 ^ 32) with 4294967296.
  Z.div_mod_to_equations. lia.
Qed.

(** The modular comparison of two distinct deadlines is antisymmetric. *)
Lemma tickdiff_antisym a b :
  int_range a -> int_range b -> a <> b ->
  ~ equeue_tickdiff (to_unsigned a) (to_unsigned b) < 0 ->
  equeue_tickdiff (to_unsigned b) (to_unsigned a) < 0.
Proof.
  rewrite !tickdiff_int. unfold int_range, to_int.
  change (2 ^ 31) with 2147483648. change (2 ^ 32) with 4294967296.
  intros Ha Hb Hab H.
  Z.div_mod_to_equations. lia.
Qed.

(** ** Deadline order *)

Lemma queue_sorted_ext m m' bs :
  (forall a, In a (concat bs) -> target (m' a) = target (m a)) ->
  queue_sorted m bs -> queue_sorted m' bs.
Proof.
  induction bs as [|b bs IH]; simpl; auto.
  intros Ht (Hu & Hb & Hs).
  assert (Ht' : forall a, In a (concat bs) -> target (m' a) = target (m a)).
  { intros a Ha. apply Ht. apply in_or_app; auto. }
  split; [|split; auto].
  - destruct b as [|h sibs]; simpl in *; auto.
    rewrite Ht by auto. destruct Hu as (Hr & Hx). split; auto.
    intros x Hin. rewrite Ht by (right; apply in_or_app; auto). auto.
  - destruct b as [|h sibs]; simpl in *; auto.
    destruct bs as [|[|h2 sibs2] bs]; simpl in *; auto.
    rewrite !Ht; auto. right. apply in_or_app. right. simpl; auto.
Qed.

Lemma queue_sorted_app m pre : forall rest,
  queue_sorted m (pre ++ rest) -> queue_sorted m pre /\ queue_sorted m rest.
Proof.
  induction pre as [|b pre IH]; simpl; intros rest H; auto.
  destruct H as (Hu & Hb & Hs). destruct (IH _ Hs) as (H1 & H2).
  repeat split; auto.
  destruct b as [|h sibs]; simpl in *; auto.
  destruct pre as [|[|h2 sibs2] pre]; simpl in *; auto.
Qed.

(** Insertion keeps the buckets in modular deadline order. *)
Lemma queue_insert_sorted m tgt e bs :
  target (m e) = tgt -> int_range tgt ->
  queue_sorted m bs ->
  queue_sorted m (queue_insert m tgt e bs) /\
  forall hp sp,
    equeue_tickdiff (to_unsigned (target (m hp))) (to_unsigned tgt) < 0 ->
    bucket_before m (hp :: sp) bs ->
    bucket_before m (hp :: sp) (queue_insert m tgt e bs).
Proof.
  intros Hte Hrg.
  induction bs as [|[|h sibs] bs IH]; cbn [queue_insert]; intros Hs.
  - simpl. rewrite Hte. split; [split; [split|]; auto; intros x []|].
    intros hp sp Hp _. exact Hp.
  - simpl in Hs. tauto.
  - destruct Hs as (Hu & Hb & Hs). destruct (IH Hs) as (IH1 & IH2).
    destruct (equeue_tickdiff _ _ <? 0) eqn:Hlt.
    + apply Z.ltb_lt in Hlt. split.
      * cbn [queue_sorted]. split; auto.
      * intros hp sp _ Hp. exact Hp.
    + apply Z.ltb_ge in Hlt.
      destruct (target (m h) =? tgt) eqn:Heq.
      * apply Z.eqb_eq in Heq. split.
        -- cbn [queue_sorted]. split; [|split; auto].
           ++ simpl. rewrite Hte. split; auto.
              destruct Hu as (_ & Hx).
              intros x [<-|Hin]; auto. rewrite Hx; auto.
           ++ destruct bs as [|[|h2 sibs2] bs]; simpl in *; auto.
              rewrite Hte, <- Heq. exact Hb.
        -- intros hp sp Hp _. simpl. rewrite Hte. exact Hp.
      * apply Z.eqb_neq in Heq. split.
        -- cbn [queue_sorted]. split; [|split; [|split; auto]].
           ++ simpl. rewrite Hte. split; auto. intros x [].
           ++ simpl. rewrite Hte. apply tickdiff_antisym; auto; try lia.
              apply Hu.
        -- intros hp sp Hp _. simpl. rewrite Hte. exact Hp.
Qed.

(** [queue_insert] puts the newcomer at the front of its bucket. *)
Lemma queue_insert_front m tgt e bs :
  exists pre sibs post,
    queue_insert m tgt e bs = pre ++ (e :: sibs) :: post /\
    bs = pre ++ match sibs with [] => post | _ :: _ => sibs :: post end /\
    (forall h s, sibs = h :: s -> target (m h) = tgt).
Proof.
  induction bs as [|[|h sibs] bs (pre & s & post & H1 & H2 & H3)];
    cbn [queue_insert].
  - exists [], [], []. repeat split; auto. discriminate.
  - exists ([] :: pre), s, post. simpl. rewrite H1, <- H2. auto.
  - destruct (_ <? 0).
    + exists ((h :: sibs) :: pre), s, post. simpl. rewrite H1, <- H2. auto.
    + destruct (target (m h) =? tgt) eqn:Heq.
      * exists [], (h :: sibs), bs. repeat split; auto.
        intros h' s' [= <- _]. apply Z.eqb_eq. exact Heq.
      * exists [], [], ((h :: sibs) :: bs). repeat split; auto. discriminate.
Qed.

(** ** Generations and handles *)

(** [equeue_incid] wraps to 1 when the next generation would reach the sign
    bit of the handle. *)
Lemma equeue_incid_spec q i :
  0 <= npw2 q <= 30 -> valid_id q i ->
  equeue_incid q i =
    (if 2 ^ 31 <=? Z.shiftl (i + 1) (npw2 q) then 1 else i + 1) /\
  valid_id q (equeue_incid q i).
Proof.
  unfold valid_id, equeue_incid. intros Hn Hi.
  set (n := npw2 q) in *.
  assert (Hpq : 2 ^ (31 - n) * 2 ^ n = 2 ^ 31).
  { rewrite <- Z.pow_add_r by lia. f_equal. lia. }
  assert (HP : 2 <= 2 ^ (31 - n)).
  { change 2 with (2 ^ 1) at 1. apply Z.pow_le_mono_r; lia. }
  assert (HQ : 1 <= 2 ^ n).
  { change 1 with (2 ^ 0). apply Z.pow_le_mono_r; lia. }
  replace (8 * 4 - 1 - n) with (31 - n) by lia.
  rewrite Z.shiftl_mul_pow2 by lia.
  rewrite Z.shiftr_div_pow2 by lia.
  set (P := 2 ^ (31 - n)) in *. set (Q := 2 ^ n) in *.
  change (2 ^ 31) with 2147483648 in *.
  destruct (Z.eq_dec (i + 1) P) as [Heq|Hne].
  - assert (Hleb : (2147483648 <=? (i + 1) * Q) = true).
    { apply Z.leb_le. rewrite Heq. lia. }
    rewrite Hleb.
    assert (Hnz : (to_int (i + 1) / P =? 0) = false).
    { apply Z.eqb_neq. rewrite Heq.
      destruct (Z.eq_dec P 2147483648) as [HP'|HP'].
      - rewrite HP'. vm_compute. discriminate.
      - rewrite to_int_small.
        + rewrite Z.div_same by lia. lia.
        + unfold int_range. change (2 ^ 31) with 2147483648. nia. }
    rewrite Hnz. simpl. split; auto. lia.
  - assert (Hlt : i + 1 < P) by lia.
    assert (Hleb : (2147483648 <=? (i + 1) * Q) = false).
    { apply Z.leb_gt. nia. }
    rewrite Hleb.
    rewrite to_int_small
      by (unfold int_range; change (2 ^ 31) with 2147483648; nia).
    rewrite Z.div_small by lia. simpl. split; auto. lia.
Qed.

Lemma lor_bound a b n :
  0 <= a < 2 ^ n -> 0 <= b < 2 ^ n -> 0 <= Z.lor a b < 2 ^ n.
Proof.
  intros Ha Hb. split; [apply Z.lor_nonneg; lia|].
  destruct (Z.eq_dec (Z.lor a b) 0) as [->|Hnz]; [lia|].
  assert (0 <= Z.lor a b) by (apply Z.lor_nonneg; lia).
  apply Z.log2_lt_pow2; [lia|].
  rewrite Z.log2_lor by lia.
  assert (Hn : 0 < n).
  { destruct (Z_lt_le_dec 0 n); auto.
    assert (2 ^ n <= 1).
    { destruct (Z.eq_dec n 0) as [->|]; [simpl; lia|].
      rewrite Z.pow_neg_r by lia. lia. }
    assert (a = 0) by lia. assert (b = 0) by lia. subst. simpl in Hnz.
    congruence. }
  apply Z.max_lub_lt.
  - destruct (Z.eq_dec a 0) as [->|]; [simpl; lia|].
    apply Z.log2_lt_pow2; lia.
  - destruct (Z.eq_dec b 0) as [->|]; [simpl; lia|].
    apply Z.log2_lt_pow2; lia.
Qed.

(** The handle of a valid generation at an offset inside the buffer. *)
Lemma post_handle_pos q e :
  0 <= npw2 q <= 30 -> valid_id q (id (buffer q e)) ->
  0 <= e < 2 ^ npw2 q ->
  post_handle q e = Z.lor (Z.shiftl (id (buffer q e)) (npw2 q)) e /\
  0 < post_handle q e < 2 ^ 31.
Proof.
  unfold valid_id, post_handle. intros Hn Hi He.
  set (n := npw2 q) in *. set (i := id (buffer q e)) in *.
  assert (Hpq : 2 ^ (31 - n) * 2 ^ n = 2 ^ 31).
  { rewrite <- Z.pow_add_r by lia. f_equal. lia. }
  assert (HQ : 1 <= 2 ^ n).
  { change 1 with (2 ^ 0). apply Z.pow_le_mono_r; lia. }
  rewrite Z.shiftl_mul_pow2 by lia.
  assert (Hs : 1 <= i * 2 ^ n < 2 ^ 31) by nia.
  rewrite (to_int_small (i * 2 ^ n))
    by (unfold int_range; lia).
  assert (He' : 0 <= e < 2 ^ 31).
  { split; [lia|]. rewrite <- Hpq.
    assert (1 <= 2 ^ (31 - n)).
    { change 1 with (2 ^ 0). apply Z.pow_le_mono_r; lia. }
    nia. }
  pose proof (lor_bound (i * 2 ^ n) e 31 ltac:(lia) He') as Hb.
  rewrite to_int_small by (unfold int_range; lia).
  split; [reflexivity|]. split; [|lia].
  destruct (Z.eq_dec (Z.lor (i * 2 ^ n) e) 0) as [H0|]; [|lia].
  apply Z.lor_eq_0_iff in H0. lia.
Qed.

(** ** More on frames and on due buckets *)

Lemma queue_wf_links q q' bs :
  queue q' = queue q ->
  (forall a, In a (concat bs) ->
             next (buffer q' a) = next (buffer q a) /\
             sibling (buffer q' a) = sibling (buffer q a) /\
             ref (buffer q' a) = ref (buffer q a)) ->
  queue_wf q bs -> queue_wf q' bs.
Proof.
  intros Hq Hl (Hc & Hr & Hn). unfold queue_wf. rewrite Hq.
  split; [|split; auto].
  - apply bucket_chain_ext with (m := buffer q); auto;
      intros a Ha; apply Hl; auto.
  - apply bucket_refs_ext with (m := buffer q); auto;
      intros a Ha; apply Hl; auto.
Qed.

Lemma free_wf_links q q' fs :
  chunks q' = chunks q ->
  (forall a, In a (concat fs) ->
             next (buffer q' a) = next (buffer q a) /\
             sibling (buffer q' a) = sibling (buffer q a)) ->
  free_wf q fs -> free_wf q' fs.
Proof.
  intros Hq Hl (Hc & Hn). unfold free_wf. rewrite Hq.
  split; auto.
  apply bucket_chain_ext with (m := buffer q); auto;
    intros a Ha; apply Hl; auto.
Qed.

Lemma due_split_spec m now bs :
  Forall (fun b => match b with
                   | h :: _ =>
                     equeue_tickdiff (to_unsigned (target (m h))) now <= 0
                   | [] => False
                   end) (fst (due_split m now bs)) /\
  match snd (due_split m now bs) with
  | (h :: _) :: _ => equeue_tickdiff (to_unsigned (target (m h))) now > 0
  | _ => True
  end.
Proof.
  induction bs as [|[|h sibs] bs (IH1 & IH2)]; cbn [due_split]; simpl.
  - split; auto.
  - split; auto.
  - destruct (Z.gtb_spec (equeue_tickdiff (to_unsigned (target (m h))) now) 0);
      simpl.
    + split; auto. lia.
    + split; auto.
Qed.
(** The handle of generation [g] at offset [off], and what
    [equeue_cancel] decodes from it. *)
Lemma handle_decode n g off :
  0 <= n <= 30 -> 1 <= g < 2 ^ (31 - n) -> 0 <= off < 2 ^ n ->
  let h := Z.lor (Z.shiftl g n) off in
  h = g * 2 ^ n + off /\
  Z.land h (to_int (to_int (Z.shiftl 1 n) - 1)) = off /\
  Z.shiftr h n = g /\
  Z.shiftr (to_int (- h)) n = (if off =? 0 then - g else - g - 1).
Proof.
  intros Hn Hg Ho h.
  assert (Hpq : 2 ^ (31 - n) * 2 ^ n = 2 ^ 31).
  { rewrite <- Z.pow_add_r by lia. f_equal. lia. }
  assert (HQ : 1 <= 2 ^ n).
  { change 1 with (2 ^ 0). apply Z.pow_le_mono_r; lia. }
  assert (HQ' : 2 ^ n <= 2 ^ 30) by (apply Z.pow_le_mono_r; lia).
  change (2 ^ 30) with 1073741824 in HQ'.
  change (2 ^ 31) with 2147483648 in Hpq.
  assert (Hh : h = g * 2 ^ n + off).
  { unfold h. rewrite Z.shiftl_mul_pow2 by lia.
    assert (Hland : Z.land (g * 2 ^ n) off = 0).
    { rewrite <- (Z.mod_small off (2 ^ n)) by lia.
      rewrite <- Z.land_ones by lia.
      rewrite (Z.land_comm off), Z.land_assoc.
      rewrite (Z.land_ones (g * 2 ^ n)) by lia.
      rewrite Z.mod_mul by lia. reflexivity. }
    rewrite <- Z.lxor_lor by exact Hland.
    rewrite <- Z.add_nocarry_lxor by exact Hland. reflexivity. }
  split; [exact Hh|]. rewrite Hh.
  assert (Hrange : 0 < g * 2 ^ n + off < 2147483648) by nia.
  split; [|split].
  - rewrite Z.shiftl_mul_pow2 by lia. rewrite Z.mul_1_l.
    rewrite (to_int_small (2 ^ n))
      by (unfold int_range; change (2 ^ 31) with 2147483648; lia).
    rewrite to_int_small
      by (unfold int_range; change (2 ^ 31) with 2147483648; lia).
    replace (2 ^ n - 1) with (Z.ones n) by (rewrite Z.ones_equiv; lia).
    rewrite Z.land_ones by lia.
    rewrite Z.add_comm, Z.mod_add by lia. apply Z.mod_small. lia.
  - rewrite Z.shiftr_div_pow2 by lia.
    rewrite Z.div_add_l by lia. rewrite Z.div_small by lia. lia.
  - rewrite to_int_small
      by (unfold int_range; change (2 ^ 31) with 2147483648; lia).
    rewrite Z.shiftr_div_pow2 by lia.
    destruct (Z.eqb_spec off 0) as [->|Hne].
    + replace (- (g * 2 ^ n + 0)) with (- g * 2 ^ n) by lia.
      apply Z.div_mul. lia.
    + symmetry. apply Z.div_unique with (r := 2 ^ n - off); [lia|nia].
Qed.

(** ** [equeue_unqueue] *)

Lemma bucket_slot_cases pre : forall sl,
  bucket_slot sl pre = sl \/
  exists a, In a (concat pre) /\ bucket_slot sl pre = SNext a.
Proof.
  induction pre as [|[|h sibs] pre IH]; intros sl; simpl; auto.
  destruct (IH (SNext h)) as [->|(a & Ha & ->)].
  - right. exists h. simpl; auto.
  - right. exists a. split; auto. right. apply in_or_app; auto.
Qed.

Lemma sib_slot_cases s1 : forall sl,
  sib_slot sl s1 = sl \/
  exists a, In a s1 /\ sib_slot sl s1 = SSibling a.
Proof.
  induction s1 as [|x s1 IH]; intros sl; simpl; auto.
  destruct (IH (SSibling x)) as [->|(a & Ha & ->)]; right; eauto.
Qed.

Lemma bucket_focus q pre X : forall sl,
  bucket_chain (buffer q) (load q sl) (pre ++ X) ->
  bucket_refs (buffer q) sl (pre ++ X) ->
  bucket_chain (buffer q) (load q (bucket_slot sl pre)) X /\
  bucket_refs (buffer q) (bucket_slot sl pre) X.
Proof.
  induction pre as [|[|h sibs] pre IH]; intros sl Hc Hr; simpl in *;
    try contradiction; auto.
  destruct Hc as (_ & _ & Hc). destruct Hr as (_ & _ & Hr).
  apply IH; auto.
Qed.

Lemma sib_focus q s1 X : forall a,
  sib_chain (buffer q) (sibling (buffer q a)) (s1 ++ X) ->
  sib_refs (buffer q) (SSibling a) (s1 ++ X) ->
  sib_chain (buffer q) (load q (sib_slot (SSibling a) s1)) X /\
  sib_refs (buffer q) (sib_slot (SSibling a) s1) X.
Proof.
  induction s1 as [|x s1 IH]; intros a Hc Hr; simpl in *; auto.
  destruct Hc as (_ & Hc). destruct Hr as (_ & Hr). apply IH; auto.
Qed.

(** Replacing what follows [pre]: the buckets of [pre] keep their links,
    except the [next] field that is the slot after [pre]. *)
Lemma bucket_rebuild q q' pre X Y : forall sl,
  bucket_chain (buffer q) (load q sl) (pre ++ X) ->
  bucket_refs (buffer q) sl (pre ++ X) ->
  NoDup (concat pre) ->
  (forall a, In a (concat pre) -> sl <> SNext a) ->
  (forall a, In a (concat pre) ->
             sibling (buffer q' a) = sibling (buffer q a) /\
             ref (buffer q' a) = ref (buffer q a) /\
             (bucket_slot sl pre <> SNext a ->
              next (buffer q' a) = next (buffer q a))) ->
  (bucket_slot sl pre <> sl -> load q' sl = load q sl) ->
  bucket_chain (buffer q') (load q' (bucket_slot sl pre)) Y ->
  bucket_refs (buffer q') (bucket_slot sl pre) Y ->
  bucket_chain (buffer q') (load q' sl) (pre ++ Y) /\
  bucket_refs (buffer q') sl (pre ++ Y).
Proof.
  induction pre as [|[|h sibs] pre IH];
    intros sl Hc Hr Hnd Hsl Hfr Hroot HcY HrY; simpl in *;
    try contradiction; auto.
  destruct Hc as (Hh & Hsib & Hc). destruct Hr as (Hrh & Hrs & Hr).
  {
    inversion Hnd as [|? ? Hhn Hnd']; subst.
    assert (Hnd2 : NoDup (concat pre)) by (eapply NoDup_app_r; eauto).
    assert (Hne : bucket_slot (SNext h) pre <> sl).
    { destruct (bucket_slot_cases pre (SNext h)) as [->|(a & Ha & ->)].
      - intros <-. apply (Hsl h); auto.
      - intros <-. apply (Hsl a); auto. right. apply in_or_app; auto. }
    destruct (IH (SNext h)) as (IH1 & IH2); auto.
    + intros a Ha [= ->]. apply Hhn. apply in_or_app; auto.
    + intros a Ha. apply Hfr. right. apply in_or_app; auto.
    + intros Hn. simpl. apply (Hfr h); auto.
    + destruct (Hfr h ltac:(auto)) as (Hs1 & Hr1 & _).
      rewrite (Hroot Hne), Hh. split.
      * split; auto. split; auto. rewrite Hs1.
        apply sib_chain_ext with (m := buffer q); auto.
        intros a Ha. apply Hfr. right. apply in_or_app; auto.
      * rewrite Hr1. split; auto. split; auto.
        apply sib_refs_ext with (m := buffer q); auto.
        intros a Ha. apply Hfr. right. apply in_or_app; auto. }
Qed.

(** The same inside a bucket. *)
Lemma sib_rebuild q q' s1 X Y : forall h,
  sib_chain (buffer q) (sibling (buffer q h)) (s1 ++ X) ->
  sib_refs (buffer q) (SSibling h) (s1 ++ X) ->
  NoDup (h :: s1) ->
  (forall a, In a s1 ->
             ref (buffer q' a) = ref (buffer q a) /\
             (sib_slot (SSibling h) s1 <> SSibling a ->
              sibling (buffer q' a) = sibling (buffer q a))) ->
  (sib_slot (SSibling h) s1 <> SSibling h ->
   sibling (buffer q' h) = sibling (buffer q h)) ->
  sib_chain (buffer q') (load q' (sib_slot (SSibling h) s1)) Y ->
  sib_refs (buffer q') (sib_slot (SSibling h) s1) Y ->
  sib_chain (buffer q') (sibling (buffer q' h)) (s1 ++ Y) /\
  sib_refs (buffer q') (SSibling h) (s1 ++ Y).
Proof.
  induction s1 as [|x s1 IH];
    intros h Hc Hr Hnd Hfr Hroot HcY HrY; simpl in *; auto.
  destruct Hc as (Hx & Hc). destruct Hr as (Hrx & Hr).
  inversion Hnd as [|? ? Hhn Hnd']; subst.
  assert (Hne : sib_slot (SSibling x) s1 <> SSibling h).
  { destruct (sib_slot_cases s1 (SSibling x)) as [->|(a & Ha & ->)].
    - intros [= ->]. apply Hhn. simpl; auto.
    - intros [= ->]. apply Hhn. simpl; auto. }
  destruct (IH x) as (IH1 & IH2); auto.
  - intros Hn. apply (Hfr x); auto.
  - destruct (Hfr x ltac:(auto)) as (Hr1 & _).
    rewrite (Hroot Hne), Hx. split; [split; auto|].
    rewrite Hr1. split; auto.
Qed.

(** A bucket head with a sibling: the sibling is promoted. *)
Lemma unqueue_head_sibling q e s p :
  queue_slot p e ->
  sibling (buffer q e) = Some s -> ref (buffer q e) = Some p ->
  s <> e -> p <> SNext s ->
  (forall n, next (buffer q e) = Some n -> n <> e /\ n <> s) ->
  exists q',
    equeue_unqueue q e = Some q' /\
    load q' p = Some s /\
    next (buffer q' s) = next (buffer q e) /\
    ref (buffer q' s) = Some p /\
    (forall n, next (buffer q e) = Some n ->
               ref (buffer q' n) = Some (SNext s)) /\
    (forall a, sibling (buffer q' a) = sibling (buffer q a)) /\
    (forall a, a <> s -> p <> SNext a ->
               next (buffer q' a) = next (buffer q a)) /\
    (forall a, a <> s -> next (buffer q e) <> Some a ->
               ref (buffer q' a) = ref (buffer q a)) /\
    (forall a, data_eq (buffer q' a) (buffer q a)) /\
    (p <> SQueue -> queue q' = queue q) /\
    scalars_eq q q'.
Proof.
  intros Hp Hs Hr Hse Hps Hn.
  unfold equeue_unqueue, scalars_eq, data_eq. rewrite Hs.
  destruct p as [| | |a|a]; simpl in Hp; try contradiction;
    (destruct (next (buffer q e)) as [n|] eqn:Hnx;
     [destruct (Hn n eq_refl) as [Hne Hns]|]); clear Hn;
    mem_step;
    try (rewrite Hs; simpl); mem_step; try (rewrite Hr; simpl); mem_step;
    try (rewrite Hs; simpl); mem_step;
    (eexists; (split; [reflexivity|]); repeat split; mem_solve).
Qed.

(** A bucket head without sibling: the next bucket moves up. *)
Lemma unqueue_head_alone q e p :
  queue_slot p e ->
  sibling (buffer q e) = None -> ref (buffer q e) = Some p ->
  (forall n, next (buffer q e) = Some n -> n <> e) ->
  exists q',
    equeue_unqueue q e = Some q' /\
    load q' p = next (buffer q e) /\
    (forall n, next (buffer q e) = Some n -> ref (buffer q' n) = Some p) /\
    (forall a, sibling (buffer q' a) = sibling (buffer q a)) /\
    (forall a, p <> SNext a -> next (buffer q' a) = next (buffer q a)) /\
    (forall a, next (buffer q e) <> Some a ->
               ref (buffer q' a) = ref (buffer q a)) /\
    (forall a, data_eq (buffer q' a) (buffer q a)) /\
    (p <> SQueue -> queue q' = queue q) /\
    scalars_eq q q'.
Proof.
  intros Hp Hs Hr Hn.
  unfold equeue_unqueue, scalars_eq, data_eq. rewrite Hs.
  destruct p as [| | |a|a]; simpl in Hp; try contradiction;
    (destruct (next (buffer q e)) as [n|] eqn:Hnx;
     [pose proof (Hn n eq_refl) as Hne|]); clear Hn;
    mem_step; try (rewrite Hr; simpl); mem_step;
    (eexists; (split; [reflexivity|]); repeat split; mem_solve).
Qed.

(** A sibling that is not a bucket head and whose [next] is null: the
    chain closes over it. *)
Lemma unqueue_sibling q e p :
  ref (buffer q e) = Some (SSibling p) -> next (buffer q e) = None ->
  p <> e ->
  (forall s, sibling (buffer q e) = Some s -> s <> e /\ s <> p) ->
  exists q',
    equeue_unqueue q e = Some q' /\
    sibling (buffer q' p) = sibling (buffer q e) /\
    (forall s, sibling (buffer q e) = Some s ->
               ref (buffer q' s) = Some (SSibling p)) /\
    (forall a, a <> p -> sibling (buffer q' a) = sibling (buffer q a)) /\
    (forall a, sibling (buffer q e) <> Some a ->
               next (buffer q' a) = next (buffer q a) /\
               ref (buffer q' a) = ref (buffer q a)) /\
    (forall a, data_eq (buffer q' a) (buffer q a)) /\
    queue q' = queue q /\
    scalars_eq q q'.
Proof.
  intros Hr Hnx Hpe Hs.
  unfold equeue_unqueue, scalars_eq, data_eq. rewrite Hnx.
  destruct (sibling (buffer q e)) as [s|] eqn:Hsb;
    [destruct (Hs s eq_refl) as [Hse Hsp]|]; clear Hs;
    mem_step; try (rewrite Hsb; simpl); mem_step;
    try (rewrite Hr; simpl); mem_step;
    try (rewrite Hsb; simpl); mem_step;
    (eexists; (split; [reflexivity|]); repeat split; mem_solve).
Qed.

Lemma NoDup_app_ne {A} (l1 l2 : list A) x y :
  NoDup (l1 ++ l2) -> In x l1 -> In y l2 -> x <> y.
Proof.
  intros Hn Hx Hy ->. exact (NoDup_app_disj _ _ _ Hn Hx Hy).
Qed.

Lemma bucket_chain_nonempty m p bs :
  bucket_chain m p bs -> forall n, p = Some n -> In n (concat bs).
Proof.
  intros H n ->. destruct (bucket_chain_head _ _ _ H) as (s & bs' & ->).
  simpl; auto.
Qed.

Lemma sib_chain_head_in m p l :
  sib_chain m p l -> forall s, p = Some s -> exists l', l = s :: l'.
Proof.
  destruct l as [|a l]; simpl; intros H s ->; [discriminate|].
  destruct H as ([= ->] & _). eauto.
Qed.

(** Unqueuing a bucket head. *)
Lemma unqueue_head_wf q pre e s2 post :
  queue_wf q (pre ++ (e :: s2) :: post) ->
  exists q',
    equeue_unqueue q e = Some q' /\
    queue_wf q' (pre ++ match s2 with [] => post | _ :: _ => s2 :: post end).
Proof.
  intros (Hc & Hr & Hn).
  destruct (bucket_focus q pre _ SQueue Hc Hr) as (Hc' & Hr').
  pose proof (bucket_slot_cases pre SQueue) as Hslb.
  set (slb := bucket_slot SQueue pre) in *.
  rewrite concat_app in Hn. cbn [concat] in Hn.
  assert (N1 : NoDup (concat pre)) by (eapply NoDup_app_l; eauto).
  assert (N2 : NoDup ((e :: s2) ++ concat post))
    by (eapply NoDup_app_r; eauto).
  assert (Hpre : forall a, In a (concat pre) ->
                           a <> e /\ ~ In a s2 /\ ~ In a (concat post)).
  { intros a Ha. pose proof (NoDup_app_disj _ _ a Hn Ha) as Hd.
    repeat split.
    - intros ->. apply Hd. simpl; auto.
    - intros Hin. apply Hd. simpl. right. apply in_or_app; auto.
    - intros Hin. apply Hd. simpl. right. apply in_or_app; auto. }
  assert (Hpost : forall a, In a (concat post) -> a <> e /\ ~ In a s2).
  { intros a Ha. split.
    - intros ->. inversion N2 as [|? ? He _]; subst. apply He.
      apply in_or_app; auto.
    - intros Hin. apply (NoDup_app_disj _ _ a N2); simpl; auto. }
  assert (He2 : ~ In e s2).
  { inversion N2 as [|? ? He _]; subst. intros Hin. apply He.
    apply in_or_app; auto. }
  assert (Hqs : queue_slot slb e).
  { destruct Hslb as [->|(a & Ha & ->)]; simpl; auto. apply Hpre; auto. }
  assert (Hslb_post : forall a, In a (e :: s2 ++ concat post) ->
                                slb <> SNext a).
  { intros a Ha. destruct Hslb as [->|(x & Hx & ->)]; [discriminate|].
    intros [= ->]. destruct (Hpre a Hx) as (H1 & H2 & H3).
    destruct Ha as [->|Ha]; [congruence|].
    apply in_app_or in Ha. tauto. }
  cbn [bucket_chain bucket_refs] in Hc', Hr'.
  destruct Hc' as (Hld & Hsib & Hnext). destruct Hr' as (Hre & Hrs & Hrn).
  assert (Hn_post : forall n, next (buffer q e) = Some n ->
                              In n (concat post)).
  { intros n Hnx. eapply bucket_chain_nonempty; eauto. }
  destruct s2 as [|s s2'].
  - (* no sibling *)
    simpl in Hsib.
    destruct (unqueue_head_alone q e slb Hqs Hsib Hre)
      as (q' & Hu & Hld' & Hrn' & Hsb & Hnx & Hrf & Hd & Hq & Hsc).
    { intros n Hnx. apply Hpost. auto. }
    exists q'. split; [exact Hu|].
    destruct (bucket_rebuild q q' pre ([e] :: post) post SQueue Hc Hr N1)
      as (C & R).
    + discriminate.
    + intros a Ha. split; [apply Hsb|]. split; [|intros; apply Hnx; auto].
      apply Hrf. intros Hnx'. apply (Hpre a Ha). auto.
    + intros Hne. apply Hq. exact Hne.
    + fold slb. rewrite Hld'.
      apply bucket_chain_ext with (m := buffer q); auto.
      intros a Ha. apply Hnx. apply Hslb_post. simpl. auto.
    + fold slb.
      apply bucket_refs_reroot with (m := buffer q) (sl := SNext e); auto.
      * destruct post as [|[|n sibs] post']; auto.
        destruct Hnext as (Hnx' & _). split; [apply Hrn'; auto|].
        intros a Ha Han. apply Hrf. rewrite Hnx'. congruence.
      * eapply NoDup_app_r. eapply NoDup_app_r. exact Hn.
    + split; [exact C|]. split; [exact R|].
      rewrite concat_app.
      apply (NoDup_remove_1 (concat pre) (concat post) e). exact Hn.
  - (* a sibling is promoted *)
    simpl in Hsib. destruct Hsib as (Hs & Hsibs).
    simpl in Hrs. destruct Hrs as (Hrs1 & Hrs2).
    assert (Hse : s <> e) by (intros ->; apply He2; simpl; auto).
    assert (Hs2' : ~ In s s2').
    { inversion N2 as [|? ? _ N3]; subst. simpl in N3.
      inversion N3 as [|? ? Hs' _]; subst. intros Hin. apply Hs'.
      apply in_or_app; auto. }
    destruct (unqueue_head_sibling q e s slb Hqs Hs Hre Hse)
      as (q' & Hu & Hld' & Hns & Hrs' & Hrn' & Hsb & Hnx & Hrf & Hd & Hq & Hsc).
    { apply Hslb_post. simpl. auto. }
    { intros n Hnx. destruct (Hpost n (Hn_post n Hnx)) as (H1 & H2).
      split; auto. intros ->. apply H2. simpl; auto. }
    exists q'. split; [exact Hu|].
    destruct (bucket_rebuild q q' pre ((e :: s :: s2') :: post)
                             ((s :: s2') :: post)
                             SQueue Hc Hr N1) as (C & R).
    + discriminate.
    + intros a Ha. destruct (Hpre a Ha) as (H1 & H2 & H3).
      assert (Has : a <> s) by (intros ->; apply H2; simpl; auto).
      split; [apply Hsb|]. split; [|intros; apply Hnx; auto].
      apply Hrf; [exact Has|]. intros Hnx'. apply H3. auto.
    + intros Hne. apply Hq. exact Hne.
    + fold slb. rewrite Hld'. cbn [bucket_chain]. split; auto. split.
      * rewrite Hsb. apply sib_chain_ext with (m := buffer q); auto.
      * rewrite Hns.
        apply bucket_chain_ext with (m := buffer q); auto.
        intros a Ha. destruct (Hpost a Ha) as (H1 & H2).
        apply Hnx.
        -- intros ->. apply H2. simpl; auto.
        -- apply Hslb_post. simpl. right. right. apply in_or_app; auto.
    + fold slb. cbn [bucket_refs]. split; auto. split.
      * apply sib_refs_ext with (m := buffer q); auto.
        intros a Ha. apply Hrf.
        -- intros ->. auto.
        -- intros Hnx'. destruct (Hpost a (Hn_post a Hnx')) as (_ & H2).
           apply H2. simpl; auto.
      * apply bucket_refs_reroot with (m := buffer q) (sl := SNext e); auto.
        -- destruct post as [|[|n sibs] post']; auto.
           destruct Hnext as (Hnx' & _). split; [apply Hrn'; auto|].
           intros a Ha Han. destruct (Hpost a Ha) as (_ & H2).
           apply Hrf.
           ++ intros ->. apply H2. simpl; auto.
           ++ rewrite Hnx'. congruence.
        -- eapply NoDup_app_r. eapply NoDup_app_r. exact Hn.
    + split; [exact C|]. split; [exact R|].
      rewrite concat_app. cbn [concat].
      apply (NoDup_remove_1 (concat pre) ((s :: s2') ++ concat post) e).
      exact Hn.
Qed.

(** Unqueuing a sibling whose [next] is null. *)
Lemma unqueue_sibling_wf q pre h s1 e s2 post :
  queue_wf q (pre ++ (h :: s1 ++ e :: s2) :: post) ->
  next (buffer q e) = None ->
  exists q',
    equeue_unqueue q e = Some q' /\
    queue_wf q' (pre ++ (h :: s1 ++ s2) :: post).
Proof.
  intros (Hc & Hr & Hn) Hnull.
  destruct (bucket_focus q pre _ SQueue Hc Hr) as (Hc' & Hr').
  pose proof (bucket_slot_cases pre SQueue) as Hslb.
  set (slb := bucket_slot SQueue pre) in *.
  rewrite concat_app in Hn. cbn [concat] in Hn.
  set (B := h :: s1 ++ e :: s2) in *.
  assert (N1 : NoDup (concat pre)) by (eapply NoDup_app_l; eauto).
  assert (N2 : NoDup (B ++ concat post)) by (eapply NoDup_app_r; eauto).
  assert (N3 : NoDup B) by (eapply NoDup_app_l; eauto).
  assert (N4 : NoDup (concat post)) by (eapply NoDup_app_r; eauto).
  assert (NB : NoDup ((h :: s1) ++ e :: s2)) by exact N3.
  assert (Hpre : forall a, In a (concat pre) ->
                           ~ In a B /\ ~ In a (concat post)).
  { intros a Ha. pose proof (NoDup_app_disj _ _ a Hn Ha) as Hd.
    split; intros Hin; apply Hd; apply in_or_app; auto. }
  assert (Hpost : forall a, In a (concat post) -> ~ In a B).
  { intros a Ha Hin. exact (NoDup_app_disj _ _ a N2 Hin Ha). }
  assert (HeB : In e B).
  { unfold B. right. apply in_or_app. right. simpl; auto. }
  assert (Hs2B : forall a, In a s2 -> In a B).
  { intros a Ha. unfold B. right. apply in_or_app. right. simpl; auto. }
  assert (Hs1B : forall a, In a (h :: s1) -> In a B).
  { intros a Ha. unfold B. change (In a ((h :: s1) ++ e :: s2)).
    apply in_or_app; auto. }
  assert (He1 : ~ In e (h :: s1)).
  { intros Hin. apply (NoDup_app_disj _ _ e NB Hin). simpl; auto. }
  assert (He2 : ~ In e s2).
  { apply NoDup_app_r in NB. inversion NB; auto. }
  assert (H12 : forall a, In a (h :: s1) -> ~ In a s2).
  { intros a Ha Hin. apply (NoDup_app_disj _ _ a NB Ha). simpl; auto. }
  assert (N5 : NoDup (h :: s1)) by (eapply NoDup_app_l; eauto).
  assert (N6 : NoDup s2).
  { apply NoDup_app_r in NB. inversion NB; auto. }
  unfold B in Hc', Hr'.
  cbn [bucket_chain bucket_refs] in Hc', Hr'.
  destruct Hc' as (Hld & Hsib & Hnext). destruct Hr' as (Hrh & Hrs & Hrn).
  destruct (sib_focus q s1 (e :: s2) h Hsib Hrs) as (Hsc & Hsr).
  pose proof (sib_slot_cases s1 (SSibling h)) as Hsle.
  set (sle := sib_slot (SSibling h) s1) in *.
  cbn [sib_chain sib_refs] in Hsc, Hsr.
  destruct Hsc as (Hlde & Hsibe). destruct Hsr as (Hre & Hrse).
  assert (Hp : exists p, sle = SSibling p /\ In p (h :: s1)).
  { destruct Hsle as [->|(a & Ha & ->)]; eexists; split; eauto;
      simpl; auto. }
  destruct Hp as (p & Hsle' & Hp).
  assert (Hpe : p <> e) by (intros ->; auto).
  assert (Hsib_in : forall s, sibling (buffer q e) = Some s -> In s s2).
  { intros s Hs. destruct (sib_chain_head_in _ _ _ Hsibe s Hs) as (l' & ->).
    simpl; auto. }
  rewrite Hsle' in Hre.
  destruct (unqueue_sibling q e p Hre Hnull Hpe)
    as (q' & Hu & Hsp & Hrs' & Hsb & Hnr & Hd & Hq & Hsc).
  { intros s Hs. pose proof (Hsib_in s Hs) as Hin. split.
    - intros ->. auto.
    - intros ->. apply (H12 p); auto. }
  exists q'. split; [exact Hu|].
  assert (Hout : forall a, ~ In a s2 ->
                           next (buffer q' a) = next (buffer q a) /\
                           ref (buffer q' a) = ref (buffer q a)).
  { intros a Ha. apply Hnr. intros Hs. apply Ha. auto. }
  (* the bucket of [e] *)
  destruct (sib_rebuild q q' s1 (e :: s2) s2 h Hsib Hrs N5) as (SC & SR).
  { intros a Ha. split.
    - apply Hout. apply H12. simpl; auto.
    - fold sle. rewrite Hsle'. intros Hne. apply Hsb. congruence. }
  { fold sle. rewrite Hsle'. intros Hne. apply Hsb. congruence. }
  { fold sle. rewrite Hsle'. simpl. rewrite Hsp.
    apply sib_chain_ext with (m := buffer q); auto.
    intros a Ha. apply Hsb. intros ->. apply (H12 p); auto. }
  { fold sle. rewrite Hsle'.
    destruct s2 as [|s s2']; simpl; auto.
    simpl in Hsibe, Hrse. destruct Hsibe as (Hs & _).
    destruct Hrse as (_ & Hrse).
    split; [apply Hrs'; auto|].
    apply sib_refs_ext with (m := buffer q); auto.
    intros a Ha. apply Hnr. rewrite Hs. intros [= ->].
    inversion N6; auto. }
  (* the queue around it *)
  destruct (bucket_rebuild q q' pre (B :: post) ((h :: s1 ++ s2) :: post)
                           SQueue Hc Hr N1) as (C & R).
  - discriminate.
  - intros a Ha. destruct (Hpre a Ha) as (H1 & H2).
    destruct (Hout a) as (Hx & Hy); [intros Hin; apply H1; auto|].
    split; [|split; auto].
    apply Hsb. intros ->. apply H1. auto.
  - intros _. simpl. exact Hq.
  - fold slb.
    assert (Hld' : load q' slb = load q slb).
    { destruct Hslb as [->|(a & Ha & ->)]; simpl; [exact Hq|].
      destruct (Hout a) as (Hx & _); [|exact Hx].
      intros Hin. apply (proj1 (Hpre a Ha)). auto. }
    rewrite Hld', Hld. cbn [bucket_chain]. split; auto. split; [exact SC|].
    destruct (Hout h) as (-> & _); [apply H12; simpl; auto|].
    apply bucket_chain_ext with (m := buffer q); auto.
    + intros a Ha. apply Hsb. intros ->. apply (Hpost p Ha). auto.
    + intros a Ha. apply Hout. intros Hin. apply (Hpost a Ha). auto.
  - fold slb. cbn [bucket_refs].
    destruct (Hout h) as (_ & ->); [apply H12; simpl; auto|].
    split; auto. split; [exact SR|].
    apply bucket_refs_ext with (m := buffer q); auto.
    intros a Ha. apply Hout. intros Hin. apply (Hpost a Ha). auto.
  - split; [exact C|]. split; [exact R|].
    rewrite concat_app. cbn [concat].
    change (NoDup (concat pre ++ ((h :: s1) ++ s2) ++ concat post)).
    unfold B in Hn.
    change (NoDup (concat pre ++ ((h :: s1) ++ e :: s2) ++ concat post))
      in Hn.
    rewrite <- app_assoc, app_assoc.
    rewrite <- app_assoc, app_assoc in Hn.
    exact (NoDup_remove_1 _ _ e Hn).
Qed.

(** [equeue_unqueue] keeps the queue well formed when the event is a
    bucket head or carries a null [next]. *)
Lemma equeue_unqueue_spec q pre s1 e s2 post :
  queue_wf q (pre ++ (s1 ++ e :: s2) :: post) ->
  (s1 <> [] -> next (buffer q e) = None) ->
  exists q',
    equeue_unqueue q e = Some q' /\
    queue_wf q' (pre ++ match s1 ++ s2 with
                        | [] => post
                        | _ :: _ => (s1 ++ s2) :: post
                        end).
Proof.
  intros Hq Hnull. destruct s1 as [|h s1].
  - simpl in *. apply unqueue_head_wf. exact Hq.
  - simpl in *. apply unqueue_sibling_wf; auto. apply Hnull. discriminate.
Qed.

(** * The claims *)

(** ** Claims that need no platform parameter *)

Lemma free_take_spec m sz fs :
  match free_take m sz fs with
  | Some (e, fs') =>
    exists pre sibs post,
      fs = pre ++ (e :: sibs) :: post /\
      Forall (bucket_small m sz) pre /\
      sz <= size (m e) /\
      fs' = pre ++ match sibs with [] => post | _ :: _ => sibs :: post end
  | None => Forall (bucket_small m sz) fs
  end.
Proof.
  induction fs as [|[|h sibs] fs IH]; cbn [free_take].
  - constructor.
  - destruct (free_take m sz fs) as [[e r]|].
    + destruct IH as (pre & s & post & -> & Hs & Hsz & ->).
      exists ([] :: pre), s, post. repeat split; auto.
      constructor; simpl; auto.
    + constructor; simpl; auto.
  - destruct (Z.leb_spec sz (size (m h))).
    + exists [], sibs, fs. repeat split; auto.
    + destruct (free_take m sz fs) as [[e r]|].
      * destruct IH as (pre & s & post & -> & Hs & Hsz & ->).
        exists ((h :: sibs) :: pre), s, post. repeat split; auto.
      * constructor; simpl; auto.
Qed.

Lemma NoDup_take_head (pre post : list (list addr)) e sibs :
  NoDup (concat (pre ++ (e :: sibs) :: post)) ->
  NoDup (concat (pre ++ match sibs with
                        | [] => post
                        | _ :: _ => sibs :: post
                        end)).
Proof.
  intros H.
  assert (He : concat (pre ++ match sibs with
                              | [] => post
                              | _ :: _ => sibs :: post
                              end) = concat pre ++ sibs ++ concat post).
  { rewrite concat_app. destruct sibs; reflexivity. }
  rewrite He. rewrite concat_app in H. cbn [concat] in H.
  apply (NoDup_remove_1 (concat pre) (sibs ++ concat post) e). exact H.
Qed.

Lemma equeue_enqueue_sorted fuel tick q e ms bs :
  queue_wf q bs -> queue_sorted (buffer q) bs ->
  ~ In e (concat bs) -> (length bs < fuel)%nat ->
  let tgt := to_int (to_unsigned (tick + ms)) in
  exists q',
    equeue_enqueue fuel tick q e ms = Some q' /\
    queue_wf q' (queue_insert (buffer q) tgt e bs) /\
    queue_sorted (buffer q') (queue_insert (buffer q) tgt e bs).
Proof.
  intros Hq Hs He Hl tgt.
  destruct (equeue_enqueue_spec fuel tick q e ms bs Hq He Hl)
    as (q' & Hen & Hwf & Hin & Htg & _ & Hso).
  fold tgt in Hen, Hwf, Hin, Htg, Hso.
  exists q'. split; [exact Hen|]. split; [exact Hwf|].
  destruct Hso as (_ & Hd & _).
  assert (Ht : forall a, a <> e -> target (buffer q' a) = target (buffer q a)).
  { intros a Ha. destruct (Hd a) as (_ & _ & -> & _). mem_solve. }
  rewrite (queue_insert_ext (buffer q') (buffer q)).
  - apply queue_insert_sorted; auto.
    + apply to_int_range.
    + apply queue_sorted_ext with (m := buffer q); auto.
      intros a Ha. apply Ht. intros ->. auto.
  - intros a Ha. symmetry. apply Ht. intros ->. auto.
Qed.

(** C4.  Enqueue keeps the queue well formed and sorted by modular
    deadline, and puts the newcomer at the front of the bucket of its target
    (buckets are newest first).  Dequeue drains the due prefix of the bucket
    list: the drained [next] chain is the concatenation, in queue order and
    so in modular deadline order, of the due buckets, each one reversed, so
    that the events of one bucket come out oldest first, in insertion order.
    The buckets left behind are those not yet due. *)

Theorem dequeue_fifo_order fuel tick q dl bs :
  queue_wf q bs -> queue_sorted (buffer q) bs ->
  (length (concat bs) < fuel)%nat ->
  (exists q' head dl' due rest,
      bs = due ++ rest /\
      equeue_dequeue fuel tick q dl = Some (q', head, dl') /\
      next_chain (buffer q') head (concat (map (@rev addr) due)) /\
      Forall (bucket_due (buffer q') (to_unsigned tick)) due /\
      queue_sorted (buffer q') due /\
      match rest with
      | (h :: _) :: _ =>
        dl' = equeue_tickdiff (to_unsigned (target (buffer q' h)))
                              (to_unsigned tick) /\ dl' > 0
      | _ => dl' = dl
      end /\
      queue_wf q' rest /\ queue_sorted (buffer q') rest) /\
  (forall e ms,
      ~ In e (concat bs) ->
      let bs1 := queue_insert (buffer q) (to_int (to_unsigned (tick + ms)))
                              e bs in
      exists q1 pre sibs post,
        equeue_enqueue fuel tick q e ms = Some q1 /\
        queue_wf q1 bs1 /\ queue_sorted (buffer q1) bs1 /\
        bs1 = pre ++ (e :: sibs) :: post /\
        bs = pre ++ match sibs with [] => post | _ :: _ => sibs :: post end).
Proof.
  intros Hq Hs Hl. split.
  - destruct (equeue_dequeue_spec fuel tick q dl bs Hq Hl)
      as (q' & head & Hdq & Hnc & Hwf & _ & Hso).
    pose proof (due_split_app (buffer q) (to_unsigned tick) bs) as Happ.
    pose proof (due_split_spec (buffer q) (to_unsigned tick) bs) as (Hdue & Hrest).
    set (due := fst (due_split (buffer q) (to_unsigned tick) bs)) in *.
    set (rest := snd (due_split (buffer q) (to_unsigned tick) bs)) in *.
    destruct Hso as (_ & Hd & _).
    assert (Ht : forall a, target (buffer q' a) = target (buffer q a)).
    { intros a. apply Hd. }
    assert (Hs' : queue_sorted (buffer q') bs).
    { apply queue_sorted_ext with (m := buffer q); auto. }
    rewrite Happ in Hs'. apply queue_sorted_app in Hs'.
    destruct Hs' as (Hsd & Hsr).
    exists q', head, (dequeue_deadline (buffer q) (to_unsigned tick) rest dl),
      due, rest.
    split; [exact Happ|]. split; [exact Hdq|]. split; [exact Hnc|].
    split; [|split; [exact Hsd|split; [|split; [exact Hwf|exact Hsr]]]].
    + clear - Hdue Hsd Ht. induction due as [|b due IH]; constructor.
      * inversion Hdue as [|? ? Hb _]; subst.
        destruct Hsd as (Hu & _). destruct b as [|h sibs]; [contradiction|].
        destruct Hu as (_ & Hu). intros x [<-|Hx].
        -- rewrite Ht. exact Hb.
        -- rewrite (Hu x Hx), Ht. exact Hb.
      * inversion Hdue; subst. destruct Hsd as (_ & _ & Hsd). auto.
    + unfold dequeue_deadline. destruct rest as [|[|h ?] ?]; auto.
      rewrite Ht. split; [reflexivity|]. exact Hrest.
  - intros e ms He bs1.
    assert (Hlb : (length bs < fuel)%nat).
    { destruct Hq as (Hc & _).
      destruct (bucket_chain_lengths _ _ _ Hc). lia. }
    destruct (equeue_enqueue_sorted fuel tick q e ms bs Hq Hs He Hlb)
      as (q1 & Hen & Hwf & Hso).
    destruct (queue_insert_front (buffer q)
                (to_int (to_unsigned (tick + ms))) e bs)
      as (pre & sibs & post & H1 & H2 & _).
    exists q1, pre, sibs, post. auto.
Qed.

(** C1 (the code departs from it).  An event at offset 64 is in flight with
    the generation of the handle [h] ([e->id == -gen]); [equeue_cancel h]
    compares [e->id] with [(-h) >> npw2], which is [-gen - 1] for a non-zero
    offset, so the event keeps its callback and its period. *)

Theorem cancel_in_flight_missed :
  exists q h q',
    in_flight_run = Some (q, h) /\
    cancel_chunk q h = 64 /\
    id (buffer q 64) = - Z.shiftr h (npw2 q) /\
    cb (buffer q 64) = Some 7 /\ period (buffer q 64) = 25 /\
    equeue_cancel 56 4 q h = Some q' /\
    cb (buffer q' 64) = Some 7 /\ period (buffer q' 64) = 25.
Proof.
  do 3 eexists. split; [vm_compute; reflexivity|].
  repeat split; vm_compute; reflexivity.
Qed.

(** C6 (the code departs from it).  The chunk at offset 64 is in flight
    with generation 2; the handle [h1] of generation 1 is stale (the stored
    id is neither [+1] nor [-1]), and still [equeue_cancel h1] clears the
    callback and the period of the new occupant. *)

Theorem cancel_stale_handle_clears :
  exists q h1 h2 q',
    stale_handle_run = Some (q, h1, h2) /\
    cancel_chunk q h1 = 64 /\
    id (buffer q 64) <> Z.shiftr h1 (npw2 q) /\
    id (buffer q 64) <> - Z.shiftr h1 (npw2 q) /\
    cb (buffer q 64) = Some 9 /\ period (buffer q 64) = 25 /\
    equeue_cancel 56 4 q h1 = Some q' /\
    cb (buffer q' 64) = None /\ period (buffer q' 64) = -1.
Proof.
  do 4 eexists. split; [vm_compute; reflexivity|].
  repeat split; try (vm_compute; reflexivity); vm_compute; discriminate.
Qed.

(** C2 (the code departs from it).  With two pending events in distinct
    buckets, [equeue_destroy] runs the destructor of the first one twice and
    never runs the destructor of the second: its inner loop restarts from
    [q->queue] for every bucket. *)

Theorem destroy_repeats_first_bucket :
  exists q q',
    two_pending_run = Some q /\
    queue_wf q [[0]; [64]] /\
    dtor (buffer q 0) = Some 100 /\ dtor (buffer q 64) = Some 200 /\
    calls q = [] /\
    equeue_destroy 56 4 q = Some q' /\
    calls q' = [(100, 56); (100, 56)].
Proof.
  do 2 eexists. split; [vm_compute; reflexivity|].
  split.
  { unfold queue_wf. simpl. repeat split; try reflexivity.
    repeat constructor; simpl; intuition discriminate. }
  repeat split; vm_compute; reflexivity.
Qed.

(** C3 as stated fails: an in-flight event with a null callback and
    period 5 is re-enqueued (id back to 1, head of the queue) although the
    claim requires a non-null callback for that. *)

Lemma retire_requeues_null_callback :
  let q := run_state null_cb_periodic_run in
  ~ (forall q',
        dispatch_event 56 4 0 q 0 = Some q' ->
        (queue q' = Some 0 /\ id (buffer q' 0) = 1 <->
         period (buffer q 0) >= 0 /\ cb (buffer q 0) <> None)).
Proof.
  intros q H.
  assert (Hd : exists q', dispatch_event 56 4 0 q 0 = Some q' /\
                          queue q' = Some 0 /\ id (buffer q' 0) = 1).
  { eexists. split; [vm_compute; reflexivity|].
    split; vm_compute; reflexivity. }
  destruct Hd as (q' & Hd & Hq & Hi).
  destruct (H q' Hd) as (H1 & _).
  destruct (H1 (conj Hq Hi)) as (_ & Hcb).
  apply Hcb. vm_compute. reflexivity.
Qed.

(** C5 as stated fails for requests that do not fit their types.  On a
    fresh 1000-byte queue a request of [2^64 - 1] bytes wraps around to a
    56-byte request and is served from the slab, although the size rounded
    up exceeds the slab and the claim has null returned.  On a queue over
    [2^32 + 1000] bytes a request of [2^32 - 48] bytes rounds up to
    [2^32 + 8] bytes, which are carved off the slab, but the header records
    the size 8, not the requested size. *)


(** C9 (the code departs from it).  The event at offset 64, which was
    queued and cancelled before and is allocated again (generation 2, its
    [ref] still naming [q->queue]), is posted with delay -1 and destructor
    200 while the event at offset 0 is pending.  [equeue_post] runs the
    destructor, puts the chunk on the free list and leaves the queue
    alone, as the claim says, and returns the non-zero handle
    [(2 << 10) | 64].  But the handle is not nominal: the freed chunk still
    carries generation 2, because this path frees it without the call of
    [equeue_incid] that [equeue_cancel] and the dispatcher make before
    they free a chunk.  So [equeue_cancel] takes the handle for the handle
    of a pending event: it unqueues the free chunk, which empties the
    queue and loses the pending event, and frees it a second time, which
    runs the destructor again and makes the chunk its own sibling on the
    free list. *)

Theorem post_discard_handle_live :
  exists q h q1 q2,
    discard_run = Some q /\
    target (buffer q 64) = -1 /\ dtor (buffer q 64) = Some 200 /\
    queue q = Some 0 /\ chunks q = None /\ calls q = [] /\
    equeue_post 56 4 0 q (Some 9) 120 = Some (q1, h) /\
    calls q1 = [(200, 120)] /\ chunks q1 = Some 64 /\ queue q1 = Some 0 /\
    h = 2112 /\ cancel_chunk q1 h = 64 /\
    id (buffer q1 64) = Z.shiftr h (npw2 q1) /\
    equeue_cancel 56 4 q1 h = Some q2 /\
    calls q2 = [(200, 120); (200, 120)] /\
    queue q2 = None /\ id (buffer q2 0) = 1 /\
    chunks q2 = Some 64 /\ sibling (buffer q2 64) = Some 64.
Proof.
  do 4 eexists. split; [vm_compute; reflexivity|].
  do 5 (split; [vm_compute; reflexivity|]).
  split; [vm_compute; reflexivity|].
  do 6 (split; [vm_compute; reflexivity|]).
  split; [vm_compute; reflexivity|].
  repeat split; vm_compute; reflexivity.
Qed.

(** C7 (the code departs from it).  After posting A (offset 0, delay 10),
    C (64, delay 20) and B (128, delay 10) the queue is well formed and
    every queued event satisfies [*e.ref == e].  A is now a sibling of B but
    still carries the [next] pointer to C it had as a bucket head.
    Unqueuing A, as [equeue_cancel] does, makes C a sibling of B and points
    C's [ref] at [&B->sibling], while [B->next] still links C as the next
    bucket.  Cancelling C after A then clears [B->sibling] only: C stays
    linked on the queue through [B->next] although its chunk is back on
    the free list, and [*C.ref] is null. *)

Theorem unqueue_breaks_backptr :
  exists q3 hA hC q4 q4' q5,
    three_posted_run = Some (q3, hA, hC) /\
    queue_wf q3 [[128; 0]; [64]] /\
    (forall e, In e [128; 0; 64] -> backptr_ok q3 e) /\
    next (buffer q3 0) = Some 64 /\
    (* the unqueue step of cancel(hA) *)
    equeue_unqueue q3 0 = Some q4 /\
    queue q4 = Some 128 /\ next (buffer q4 128) = Some 64 /\
    sibling (buffer q4 128) = Some 64 /\
    ref (buffer q4 64) = Some (SSibling 128) /\
    (* cancel(hA), then cancel(hC) *)
    equeue_cancel 56 4 q3 hA = Some q4' /\
    equeue_cancel 56 4 q4' hC = Some q5 /\
    queue q5 = Some 128 /\ next (buffer q5 128) = Some 64 /\
    chunks q5 = Some 64 /\
    ~ backptr_ok q5 64.
Proof.
  do 6 eexists. split; [vm_compute; reflexivity|].
  split.
  { split; [vm_compute; repeat split; reflexivity|].
    split; [vm_compute; repeat split; reflexivity|nodup_solve]. }
  split.
  { intros e [<-|[<-|[<-|[]]]]; eexists; split;
      try (vm_compute; reflexivity). }
  split; [vm_compute; reflexivity|].
  split; [vm_compute; reflexivity|].
  do 4 (split; [vm_compute; reflexivity|]).
  split; [vm_compute; reflexivity|].
  split; [vm_compute; reflexivity|].
  do 3 (split; [vm_compute; reflexivity|]).
  intros (sl & Hr & Hl). vm_compute in Hr. injection Hr as <-.
  vm_compute in Hl. discriminate.
Qed.

(** ** Claims over the platform parameters *)

Section Claims.

Variable sizeof_event : Z.
Variable sizeof_ptr : Z.

(** [equeue_cancel] with the handle of generation [g] at offset [off], on a
    chunk whose stored id is not [+g]: nothing is unqueued or freed.  The
    callback and the period are cleared when the stored id equals
    [(-h) >> npw2], which is [-g] at offset 0 and [-g - 1] at every other
    offset; otherwise the queue is unchanged. *)
Lemma equeue_cancel_not_queued fuel q off g :
  0 <= npw2 q <= 30 -> valid_id q g -> 0 <= off < 2 ^ npw2 q ->
  id (buffer q off) <> g ->
  equeue_cancel sizeof_event fuel q (Z.lor (Z.shiftl g (npw2 q)) off) =
    Some (if id (buffer q off) =? (if off =? 0 then - g else - g - 1)
          then set_period (set_cb q off None) off (-1)
          else q).
Proof.
  intros Hn Hg Ho Hid.
  destruct (handle_decode (npw2 q) g off Hn Hg Ho) as (_ & Hc & Hs & Hm).
  unfold equeue_cancel, cancel_chunk. rewrite Hc, Hm.
  destruct (id (buffer q off) =? (if off =? 0 then - g else - g - 1)).
  - change (npw2 (set_period (set_cb q off None) off (-1))) with (npw2 q).
    replace (id (buffer (set_period (set_cb q off None) off (-1)) off))
      with (id (buffer q off)) by mem_solve.
    rewrite Hs. destruct (Z.eqb_spec (id (buffer q off)) g); [lia|].
    reflexivity.
  - rewrite Hs. destruct (Z.eqb_spec (id (buffer q off)) g); [lia|].
    reflexivity.
Qed.

(** C10.  A successful [equeue_alloc] hands out an event whose header has
    [target = 0], [period = -1] and a null [dtor], whatever the chunk held
    before. *)

Theorem equeue_alloc_defaults fuel q sz q' p :
  equeue_alloc sizeof_event sizeof_ptr fuel q sz = Some (q', Some p) ->
  target (buffer q' (p - sizeof_event)) = 0 /\
  period (buffer q' (p - sizeof_event)) = -1 /\
  dtor (buffer q' (p - sizeof_event)) = None.
Proof.
  unfold equeue_alloc.
  destruct (equeue_mem_alloc _ _ _ _) as [[q1 [e|]]|]; try discriminate.
  intros [= <- <-].
  replace (e + sizeof_event - sizeof_event) with e by lia.
  repeat split; mem_solve.
Qed.

Lemma queue_wf_set_cb q e c bs : queue_wf q bs -> queue_wf (set_cb q e c) bs.
Proof.
  intros (Hc & Hr & Hn). split; [|split; auto].
  - apply bucket_chain_ext with (m := buffer q); auto; mem_solve.
  - apply bucket_refs_ext with (m := buffer q); auto; mem_solve.
Qed.

Lemma free_wf_set_cb q e c fs : free_wf q fs -> free_wf (set_cb q e c) fs.
Proof.
  intros (Hc & Hn). split; auto.
  apply bucket_chain_ext with (m := buffer q); auto; mem_solve.
Qed.

Lemma equeue_dealloc_spec fuel q e fs :
  free_wf q fs -> ~ In e (concat fs) -> (length fs < fuel)%nat ->
  exists q',
    equeue_dealloc sizeof_event fuel q (e + sizeof_event) = Some q' /\
    free_wf q' (free_insert (buffer q) e fs) /\
    (forall x, In x (concat (free_insert (buffer q) e fs)) <->
               x = e \/ In x (concat fs)) /\
    queue q' = queue q /\
    calls q' = calls q ++ match dtor (buffer q e) with
                          | Some d => [(d, e + sizeof_event)]
                          | None => []
                          end /\
    (forall a, ~ In a (e :: concat fs) ->
               next (buffer q' a) = next (buffer q a) /\
               sibling (buffer q' a) = sibling (buffer q a) /\
               ref (buffer q' a) = ref (buffer q a)) /\
    (forall a, data_eq (buffer q' a) (buffer q a)) /\
    npw2 q' = npw2 q.
Proof.
  intros Hf He Hl. unfold equeue_dealloc.
  replace (e + sizeof_event - sizeof_event) with e by lia.
  set (q1 := invoke_opt q (dtor (buffer q e)) (e + sizeof_event)).
  assert (Hf1 : free_wf q1 fs).
  { unfold q1. destruct (dtor (buffer q e)); exact Hf. }
  destruct (equeue_mem_dealloc_spec fuel q1 e fs Hf1 He Hl)
    as (q' & Hd & Hwf & Hin & Hq' & Hl1 & Hd1 & Hn1 & _ & _ & _ & Hc1).
  exists q'. split; [exact Hd|].
  assert (Hb : buffer q1 = buffer q /\ queue q1 = queue q /\
               npw2 q1 = npw2 q /\
               calls q1 = calls q ++ match dtor (buffer q e) with
                                     | Some d => [(d, e + sizeof_event)]
                                     | None => []
                                     end).
  { unfold q1. destruct (dtor (buffer q e)); simpl; repeat split; auto.
    rewrite app_nil_r. reflexivity. }
  destruct Hb as (Hb & Hq & Hn & Hcl). rewrite Hb in *.
  split; [exact Hwf|]. split; [exact Hin|]. split; [congruence|].
  split; [congruence|]. split; [exact Hl1|]. split; [exact Hd1|].
  congruence.
Qed.

(** C8.  On a queue whose buffer is smaller than 2^30 bytes, for a chunk
    inside the buffer whose generation is in [1, 2^(31 - npw2)): the fresh
    generation 1 is in that range, [equeue_incid] stays in it and returns 1
    exactly when [(id + 1) << npw2] reaches the sign bit, and [equeue_post]
    returns the handle [(id << npw2) | offset], which is not 0. *)

Theorem post_handle_nonzero fuel tick q cb_ p bs fs :
  let e := p - sizeof_event in
  0 <= npw2 q <= 30 ->
  0 <= e < 2 ^ npw2 q ->
  valid_id q (id (buffer q e)) ->
  queue_wf q bs -> free_wf q fs ->
  ~ In e (concat bs) -> ~ In e (concat fs) ->
  (length bs < fuel)%nat -> (length fs < fuel)%nat ->
  valid_id q 1 /\
  (forall i, valid_id q i ->
             valid_id q (equeue_incid q i) /\
             equeue_incid q i =
               if 2 ^ 31 <=? Z.shiftl (i + 1) (npw2 q) then 1 else i + 1) /\
  exists q' h,
    equeue_post sizeof_event fuel tick q cb_ p = Some (q', h) /\
    h = Z.lor (Z.shiftl (id (buffer q e)) (npw2 q)) e /\
    h <> 0.
Proof.
  intros e Hn He Hi Hq Hf Hbs Hfs Hlb Hlf.
  split; [|split].
  - unfold valid_id. split; [lia|].
    change 1 with (2 ^ 0) at 1. apply Z.pow_lt_mono_r; lia.
  - intros i Hv. destruct (equeue_incid_spec q i Hn Hv). auto.
  - destruct (post_handle_pos q e Hn Hi He) as (Hval & Hpos).
    unfold equeue_post. fold e. rewrite <- Hval.
    set (q1 := set_cb q e cb_).
    destruct (target (buffer q1 e) <? 0).
    + destruct (equeue_dealloc_spec fuel q1 e fs) as (q' & Hd & _); auto.
      { apply free_wf_set_cb; auto. }
      rewrite Hd. exists q', (post_handle q e). repeat split; auto. lia.
    + destruct (equeue_enqueue_spec fuel tick q1 e
                  (to_unsigned (target (buffer q1 e))) bs)
        as (q' & Hd & _); auto.
      { apply queue_wf_set_cb; auto. }
      rewrite Hd. exists q', (post_handle q e). repeat split; auto. lia.
Qed.

(** X27.  When the configured delay is negative, [equeue_post] stores the
    callback, runs the destructor (if any) on the payload, puts the chunk
    on the free list and leaves the timed queue as it was.  It returns the
    handle of the chunk: the generation of the chunk shifted left by
    [npw2], or-ed with its offset.  The handle is not zero, and it decodes
    to this chunk and to the generation the freed chunk still carries:
    this path frees the chunk without a call of [equeue_incid]. *)

Theorem post_negative_delay fuel tick q cb_ p fs :
  let e := p - sizeof_event in
  target (buffer q e) < 0 ->
  0 <= npw2 q <= 30 -> 0 <= e < 2 ^ npw2 q ->
  valid_id q (id (buffer q e)) ->
  free_wf q fs -> ~ In e (concat fs) -> (length fs < fuel)%nat ->
  exists q' h,
    equeue_post sizeof_event fuel tick q cb_ p = Some (q', h) /\
    h = Z.lor (Z.shiftl (id (buffer q e)) (npw2 q)) e /\
    h <> 0 /\
    cancel_chunk q' h = e /\
    Z.shiftr h (npw2 q') = id (buffer q' e) /\
    id (buffer q' e) = id (buffer q e) /\
    cb (buffer q' e) = cb_ /\
    calls q' = calls q ++ match dtor (buffer q e) with
                          | Some d => [(d, p)]
                          | None => []
                          end /\
    free_wf q' (free_insert (buffer q) e fs) /\
    In e (concat (free_insert (buffer q) e fs)) /\
    queue q' = queue q /\
    forall bs, queue_wf q bs -> ~ In e (concat bs) ->
               (forall a, In a (concat bs) -> ~ In a (concat fs)) ->
               queue_wf q' bs.
Proof.
  intros e Ht Hn He Hi Hf Hfs Hl.
  destruct (post_handle_pos q e Hn Hi He) as (Hval & Hpos).
  destruct (handle_decode (npw2 q) (id (buffer q e)) e Hn Hi He)
    as (_ & Hoff & Hgen & _).
  unfold equeue_post. fold e.
  set (q1 := set_cb q e cb_).
  assert (Htg : target (buffer q1 e) = target (buffer q e)).
  { unfold q1. mem_solve. }
  assert (Hdt : dtor (buffer q1 e) = dtor (buffer q e)).
  { unfold q1. mem_solve. }
  assert (Hlk : forall a, next (buffer q1 a) = next (buffer q a) /\
                          sibling (buffer q1 a) = sibling (buffer q a) /\
                          ref (buffer q1 a) = ref (buffer q a)).
  { intros a. unfold q1. mem_solve. }
  rewrite Htg. destruct (Z.ltb_spec (target (buffer q e)) 0); [|lia].
  destruct (equeue_dealloc_spec fuel q1 e fs)
    as (q' & Hd & Hwf & Hin & Hq & Hc & Hl1 & Hd1 & Hn1); auto.
  { apply free_wf_set_cb; auto. }
  rewrite Hd. replace (e + sizeof_event) with p in Hc by (unfold e; lia).
  rewrite (free_insert_ext (buffer q) (buffer q1)) in * by (unfold q1; mem_solve).
  assert (Hnp : npw2 q' = npw2 q) by exact Hn1.
  assert (Hid : id (buffer q' e) = id (buffer q e)).
  { destruct (Hd1 e) as (_ & -> & _). unfold q1. mem_solve. }
  assert (Hcb : cb (buffer q' e) = cb_).
  { destruct (Hd1 e) as (_ & _ & _ & _ & _ & ->). unfold q1. mem_solve. }
  exists q', (post_handle q e).
  split; [reflexivity|]. split; [exact Hval|]. split; [lia|].
  split; [unfold cancel_chunk; rewrite Hnp, Hval; exact Hoff|].
  split; [rewrite Hnp, Hid, Hval; exact Hgen|].
  split; [exact Hid|]. split; [exact Hcb|].
  split; [rewrite Hc, Hdt; reflexivity|].
  split; [exact Hwf|]. split; [apply Hin; auto|]. split; [exact Hq|].
  intros bs (Hbc & Hbr & Hbn) Hbe Hdis.
  assert (Hout : forall a, In a (concat bs) -> ~ In a (e :: concat fs)).
  { intros a Ha [<-|Hin']; [auto|]. eapply Hdis; eauto. }
  split; [|split; auto].
  - rewrite Hq. apply bucket_chain_ext with (m := buffer q); auto;
      intros a Ha; destruct (Hl1 a (Hout a Ha)) as (? & ? & ?);
      destruct (Hlk a) as (? & ? & ?); congruence.
  - apply bucket_refs_ext with (m := buffer q); auto;
      intros a Ha; destruct (Hl1 a (Hout a Ha)) as (? & ? & ?);
      destruct (Hlk a) as (? & ? & ?); congruence.
Qed.


(** C5 (amended).  [equeue_mem_alloc] computes the request [req]: the size
    plus the header, rounded up to a multiple of the word size as long as
    the sum fits [size_t]; a larger sum wraps around.  Then one of three
    things happens.  The first bucket of the free list whose head has
    [size >= req] gives its head [e]; the rest of the bucket, if any, takes
    its place in the chain.  Or no free chunk fits and the slab has [req]
    bytes left: [req] bytes are carved off the slab, the header records
    [req] modulo [2^32] as its size, which is [req] itself below [2^32],
    and [id = 1], no other header being touched.  Or the result is null
    and the queue is unchanged. *)


(** C3 (amended).  The retire step re-enqueues the event exactly when
    its period is non-negative, whether or not a callback was fired: the id
    is un-negated, the deadline is the tick plus the period, the event is
    on the queue and the free list is untouched.  Otherwise the id becomes
    [equeue_incid] of the un-negated id, the destructor (if any) runs and
    the chunk goes to the free list, the queue being untouched. *)

Theorem dispatch_event_retire fuel tick q e bs fs :
  queue_wf q bs -> free_wf q fs ->
  ~ In e (concat bs) -> ~ In e (concat fs) ->
  (forall a, In a (concat bs) -> ~ In a (concat fs)) ->
  (length bs < fuel)%nat -> (length fs < fuel)%nat ->
  let fired := match cb (buffer q e) with
               | Some f => [(f, e + sizeof_event)]
               | None => []
               end in
  let tgt := to_int (to_unsigned
                       (tick + to_unsigned (period (buffer q e)))) in
  exists q',
    dispatch_event sizeof_event fuel tick q e = Some q' /\
    (0 <= period (buffer q e) ->
     id (buffer q' e) = to_int (- id (buffer q e)) /\
     target (buffer q' e) = tgt /\
     queue_wf q' (queue_insert (buffer q) tgt e bs) /\
     In e (concat (queue_insert (buffer q) tgt e bs)) /\
     free_wf q' fs /\
     calls q' = calls q ++ fired) /\
    (period (buffer q e) < 0 ->
     id (buffer q' e) = equeue_incid q (to_int (- id (buffer q e))) /\
     free_wf q' (free_insert (buffer q) e fs) /\
     In e (concat (free_insert (buffer q) e fs)) /\
     queue_wf q' bs /\
     calls q' = calls q ++ fired ++
                match dtor (buffer q e) with
                | Some d => [(d, e + sizeof_event)]
                | None => []
                end).
Proof.
  intros Hq Hf Hbs Hfs Hdis Hlb Hlf fired tgt.
  unfold dispatch_event.
  set (q1 := invoke_opt q (cb (buffer q e)) (e + sizeof_event)).
  assert (H1 : buffer q1 = buffer q /\ queue q1 = queue q /\
               chunks q1 = chunks q /\ npw2 q1 = npw2 q /\
               calls q1 = calls q ++ fired).
  { unfold q1, fired. destruct (cb (buffer q e)); simpl; repeat split; auto.
    rewrite app_nil_r. reflexivity. }
  destruct H1 as (Hb1 & Hq1 & Hc1 & Hn1 & Hcl1). rewrite Hb1.
  destruct (Z.geb_spec (period (buffer q e)) 0) as [Hper|Hper].
  - set (q2 := set_id q1 e (to_int (- id (buffer q e)))).
    assert (Hlk : forall a,
               next (buffer q2 a) = next (buffer q a) /\
               sibling (buffer q2 a) = sibling (buffer q a) /\
               ref (buffer q2 a) = ref (buffer q a) /\
               target (buffer q2 a) = target (buffer q a) /\
               period (buffer q2 a) = period (buffer q a)).
    { intros a. unfold q2. simpl. rewrite Hb1. mem_solve. }
    assert (Hid : id (buffer q2 e) = to_int (- id (buffer q e))).
    { unfold q2. mem_solve. }
    assert (Hq2 : queue_wf q2 bs).
    { apply queue_wf_links with (q := q); auto.
      intros a _. destruct (Hlk a) as (? & ? & ? & _). auto. }
    destruct (Hlk e) as (_ & _ & _ & _ & Hpe). rewrite Hpe.
    destruct (equeue_enqueue_spec fuel tick q2 e
                (to_unsigned (period (buffer q e))) bs Hq2 Hbs Hlb)
      as (q' & He & Hwf & Hin & Htg & Hck & Hso).
    fold tgt in He, Hwf, Hin, Htg, Hso.
    rewrite (queue_insert_ext (buffer q) (buffer q2)) in *
      by (intros a _; apply Hlk).
    exists q'. split; [exact He|]. split; [|lia].
    intros _. destruct Hso as (Hl & Hd & _ & _ & _ & _ & Hcl).
    split; [|split; [exact Htg|split; [exact Hwf|split; [apply Hin; auto|]]]].
    + destruct (Hd e) as (_ & -> & _). unfold q2. mem_solve.
    + split.
      * apply free_wf_links with (q := q); auto.
        { rewrite Hck. exact Hc1. }
        intros a Ha.
        assert (Hout : ~ In a (e :: concat bs)).
        { intros [<-|Hin']; [auto|]. eapply Hdis; eauto. }
        destruct (Hl a Hout) as (Hx & Hy & _).
        rewrite Hx, Hy. split; mem_solve; rewrite Hb1; reflexivity.
      * rewrite Hcl. exact Hcl1.
  - set (q2 := set_id q1 e (equeue_incid q1 (to_int (- id (buffer q e))))).
    assert (Hlk : forall a,
               next (buffer q2 a) = next (buffer q a) /\
               sibling (buffer q2 a) = sibling (buffer q a) /\
               ref (buffer q2 a) = ref (buffer q a) /\
               size (buffer q2 a) = size (buffer q a) /\
               dtor (buffer q2 a) = dtor (buffer q a)).
    { intros a. unfold q2. simpl. rewrite Hb1. mem_solve. }
    assert (Hid : id (buffer q2 e) =
                  equeue_incid q (to_int (- id (buffer q e)))).
    { unfold q2. unfold equeue_incid. rewrite Hn1. mem_solve. }
    assert (Hf2 : free_wf q2 fs).
    { apply free_wf_links with (q := q); auto.
      intros a _. destruct (Hlk a) as (? & ? & _). auto. }
    destruct (equeue_dealloc_spec fuel q2 e fs Hf2 Hfs Hlf)
      as (q' & Hd & Hwf & Hin & Hqq & Hcl & Hl & Hdt & Hn').
    rewrite (free_insert_ext (buffer q) (buffer q2)) in *
      by (intros a; apply Hlk).
    exists q'. split; [exact Hd|]. split; [lia|].
    intros _.
    split; [|split; [exact Hwf|split; [apply Hin; auto|split]]].
    + destruct (Hdt e) as (_ & -> & _). exact Hid.
    + apply queue_wf_links with (q := q); auto.
      { rewrite Hqq. exact Hq1. }
      intros a Ha.
      assert (Hout : ~ In a (e :: concat fs)).
      { intros [<-|Hin']; [auto|]. eapply Hdis; eauto. }
      destruct (Hl a Hout) as (Hx & Hy & Hz).
      destruct (Hlk a) as (? & ? & ? & _). repeat split; congruence.
    + rewrite Hcl. destruct (Hlk e) as (_ & _ & _ & _ & ->).
      change (calls q2) with (calls q1). rewrite Hcl1, app_assoc.
      reflexivity.
Qed.

End Claims.

(** ** Witnesses *)

(** Witness of C10: a chunk whose header was configured (delay 100,
    period 5, destructor 100) comes back from the free list with the
    defaults. *)
Lemma equeue_alloc_defaults_witness :
  (target (buffer (run_state stale_header_run) 0) = 100 /\
   period (buffer (run_state stale_header_run) 0) = 5 /\
   dtor (buffer (run_state stale_header_run) 0) = Some 100) /\
  equeue_alloc 56 8 4 (run_state stale_header_run) 8 =
    Some (realloc_state, Some 56) /\
  target (buffer realloc_state (56 - 56)) = 0 /\
  period (buffer realloc_state (56 - 56)) = -1 /\
  dtor (buffer realloc_state (56 - 56)) = None.
Proof.
  split; [repeat split; vm_compute; reflexivity|].
  split; [vm_compute; reflexivity|].
  apply (equeue_alloc_defaults 56 8 4 (run_state stale_header_run) 8).
  vm_compute. reflexivity.
Defined.

(** Witness of C8: posting the second event of the busy queue (npw2 = 10,
    offset 64, generation 1) while another event is queued and a chunk is
    free. *)
Lemma post_handle_nonzero_witness :
  let q := busy_state in
  let e := 120 - 56 in
  (0 <= npw2 q <= 30 /\ 0 <= e < 2 ^ npw2 q /\
   valid_id q (id (buffer q e)) /\ queue_wf q [[128]] /\ free_wf q [[0]] /\
   ~ In e (concat [[128]]) /\ ~ In e (concat [[0]]) /\
   (length [[128]] < 4)%nat /\ (length [[0]] < 4)%nat) /\
  (valid_id q 1 /\
   (forall i, valid_id q i ->
              valid_id q (equeue_incid q i) /\
              equeue_incid q i =
                if 2 ^ 31 <=? Z.shiftl (i + 1) (npw2 q) then 1 else i + 1) /\
   exists q' h,
     equeue_post 56 4 0 q (Some 7) 120 = Some (q', h) /\
     h = Z.lor (Z.shiftl (id (buffer q e)) (npw2 q)) e /\
     h <> 0).
Proof.
  intros q e.
  assert (Hn : 0 <= npw2 q <= 30) by (vm_compute; split; discriminate).
  assert (He : 0 <= e < 2 ^ npw2 q)
    by (vm_compute; split; [discriminate|reflexivity]).
  assert (Hi : valid_id q (id (buffer q e)))
    by (vm_compute; split; [discriminate|reflexivity]).
  assert (Hq : queue_wf q [[128]]).
  { split; [vm_compute; repeat split; reflexivity|].
    split; [vm_compute; repeat split; reflexivity|nodup_solve]. }
  assert (Hf : free_wf q [[0]]).
  { split; [vm_compute; repeat split; reflexivity|nodup_solve]. }
  assert (Hb : ~ In e (concat [[128]])) by (simpl; intuition discriminate).
  assert (Hc : ~ In e (concat [[0]])) by (simpl; intuition discriminate).
  assert (Hl : (length [[128]] < 4)%nat) by (simpl; lia).
  assert (Hm : (length [[0]] < 4)%nat) by (simpl; lia).
  split; [exact (conj Hn (conj He (conj Hi (conj Hq (conj Hf
                   (conj Hb (conj Hc (conj Hl Hm))))))))|].
  exact (post_handle_nonzero 56 4 0 q (Some 7) 120 [[128]] [[0]]
                             Hn He Hi Hq Hf Hb Hc Hl Hm).
Defined.

(** Witness of X27: the same event posted with delay -1 and
    destructor 200. *)
Lemma post_negative_delay_witness :
  let q := negative_delay_state in
  let e := 120 - 56 in
  (target (buffer q e) < 0 /\ 0 <= npw2 q <= 30 /\ 0 <= e < 2 ^ npw2 q /\
   valid_id q (id (buffer q e)) /\ free_wf q [[0]] /\
   ~ In e (concat [[0]]) /\ (length [[0]] < 4)%nat) /\
  exists q' h,
    equeue_post 56 4 0 q (Some 7) 120 = Some (q', h) /\
    h = Z.lor (Z.shiftl (id (buffer q e)) (npw2 q)) e /\
    h <> 0 /\
    cancel_chunk q' h = e /\
    Z.shiftr h (npw2 q') = id (buffer q' e) /\
    id (buffer q' e) = id (buffer q e) /\
    cb (buffer q' e) = Some 7 /\
    calls q' = calls q ++ match dtor (buffer q e) with
                          | Some d => [(d, 120)]
                          | None => []
                          end /\
    free_wf q' (free_insert (buffer q) e [[0]]) /\
    In e (concat (free_insert (buffer q) e [[0]])) /\
    queue q' = queue q /\
    forall bs, queue_wf q bs -> ~ In e (concat bs) ->
               (forall a, In a (concat bs) -> ~ In a (concat [[0]])) ->
               queue_wf q' bs.
Proof.
  intros q e.
  assert (Ht : target (buffer q e) < 0) by (vm_compute; reflexivity).
  assert (Hn : 0 <= npw2 q <= 30) by (vm_compute; split; discriminate).
  assert (He : 0 <= e < 2 ^ npw2 q)
    by (vm_compute; split; [discriminate|reflexivity]).
  assert (Hi : valid_id q (id (buffer q e)))
    by (vm_compute; split; [discriminate|reflexivity]).
  assert (Hf : free_wf q [[0]]).
  { split; [vm_compute; repeat split; reflexivity|nodup_solve]. }
  assert (Hin : ~ In e (concat [[0]])) by (simpl; intuition discriminate).
  assert (Hl : (length [[0]] < 4)%nat) by (simpl; lia).
  split; [exact (conj Ht (conj Hn (conj He (conj Hi
                   (conj Hf (conj Hin Hl))))))|].
  exact (post_negative_delay 56 4 0 q (Some 7) 120 [[0]]
                             Ht Hn He Hi Hf Hin Hl).
Defined.


(** Witness of C3 (amended): the periodic event at offset 64 is in flight
    while another event is queued and a chunk is free. *)
Lemma dispatch_event_retire_witness :
  let q := busy_in_flight_state in
  let e := 64 in
  let bs := [[128]] in
  let fs := [[0]] in
  let fired := match cb (buffer q e) with
               | Some f => [(f, e + 56)]
               | None => []
               end in
  let tgt := to_int (to_unsigned (0 + to_unsigned (period (buffer q e)))) in
  (queue_wf q bs /\ free_wf q fs /\
   ~ In e (concat bs) /\ ~ In e (concat fs) /\
   (forall a, In a (concat bs) -> ~ In a (concat fs)) /\
   (length bs < 4)%nat /\ (length fs < 4)%nat) /\
  exists q',
    dispatch_event 56 4 0 q e = Some q' /\
    (0 <= period (buffer q e) ->
     id (buffer q' e) = to_int (- id (buffer q e)) /\
     target (buffer q' e) = tgt /\
     queue_wf q' (queue_insert (buffer q) tgt e bs) /\
     In e (concat (queue_insert (buffer q) tgt e bs)) /\
     free_wf q' fs /\
     calls q' = calls q ++ fired) /\
    (period (buffer q e) < 0 ->
     id (buffer q' e) = equeue_incid q (to_int (- id (buffer q e))) /\
     free_wf q' (free_insert (buffer q) e fs) /\
     In e (concat (free_insert (buffer q) e fs)) /\
     queue_wf q' bs /\
     calls q' = calls q ++ fired ++
                match dtor (buffer q e) with
                | Some d => [(d, e + 56)]
                | None => []
                end).
Proof.
  intros q e bs fs fired tgt.
  assert (Hq : queue_wf q bs).
  { split; [vm_compute; repeat split; reflexivity|].
    split; [vm_compute; repeat split; reflexivity|nodup_solve]. }
  assert (Hf : free_wf q fs).
  { split; [vm_compute; repeat split; reflexivity|nodup_solve]. }
  assert (Hb : ~ In e (concat bs)) by (simpl; intuition discriminate).
  assert (Hc : ~ In e (concat fs)) by (simpl; intuition discriminate).
  assert (Hd : forall a, In a (concat bs) -> ~ In a (concat fs)).
  { simpl. intros a [<-|[]] [H|[]]. discriminate. }
  assert (Hl : (length bs < 4)%nat) by (simpl; lia).
  assert (Hm : (length fs < 4)%nat) by (simpl; lia).
  split; [exact (conj Hq (conj Hf (conj Hb (conj Hc
                   (conj Hd (conj Hl Hm))))))|].
  exact (dispatch_event_retire 56 4 0 q e bs fs Hq Hf Hb Hc Hd Hl Hm).
Defined.

(** Witness of C4: A and B share the deadline 10 (B posted last), C has
    deadline 20; the dequeue runs at tick 10. *)
Lemma dequeue_fifo_order_witness :
  let q := three_posted_state in
  let bs := [[128; 0]; [64]] in
  (queue_wf q bs /\ queue_sorted (buffer q) bs /\
   (length (concat bs) < 4)%nat) /\
  (exists q' head dl' due rest,
      bs = due ++ rest /\
      equeue_dequeue 4 10 q (-1) = Some (q', head, dl') /\
      next_chain (buffer q') head (concat (map (@rev addr) due)) /\
      Forall (bucket_due (buffer q') (to_unsigned 10)) due /\
      queue_sorted (buffer q') due /\
      match rest with
      | (h :: _) :: _ =>
        dl' = equeue_tickdiff (to_unsigned (target (buffer q' h)))
                              (to_unsigned 10) /\ dl' > 0
      | _ => dl' = -1
      end /\
      queue_wf q' rest /\ queue_sorted (buffer q') rest) /\
  (forall e ms,
      ~ In e (concat bs) ->
      let bs1 := queue_insert (buffer q) (to_int (to_unsigned (10 + ms)))
                              e bs in
      exists q1 pre sibs post,
        equeue_enqueue 4 10 q e ms = Some q1 /\
        queue_wf q1 bs1 /\ queue_sorted (buffer q1) bs1 /\
        bs1 = pre ++ (e :: sibs) :: post /\
        bs = pre ++ match sibs with [] => post | _ :: _ => sibs :: post end).
Proof.
  intros q bs.
  assert (Hq : queue_wf q bs).
  { split; [vm_compute; repeat split; reflexivity|].
    split; [vm_compute; repeat split; reflexivity|nodup_solve]. }
  assert (Hs : queue_sorted (buffer q) bs).
  { vm_compute. repeat split; try discriminate.
    - intros x [<-|[]]. reflexivity.
    - intros x []. }
  assert (Hl : (length (concat bs) < 4)%nat) by (simpl; lia).
  split; [exact (conj Hq (conj Hs Hl))|].
  exact (dequeue_fifo_order 4 10 q (-1) bs Hq Hs Hl).
Defined.

(** * Further properties

    Properties of the operations the claims leave out, and of how the
    operations compose. *)

(** ** Creation *)

Lemma npw2_loop_spec s : forall n,
  exists k, 0 <= k /\ npw2_loop s n = n + k + 1 /\
            2 ^ k <= Zpos s < 2 ^ (k + 1).
Proof.
  induction s as [s IH|s IH|]; intros n; cbn [npw2_loop].
  - destruct (IH (n + 1)) as (k & Hk & -> & H2 & H3).
    exists (k + 1). split; [lia|]. split; [lia|].
    change (Z.pos s~1) with (2 * Z.pos s + 1).
    assert (E1 : 2 ^ (k + 1) = 2 * 2 ^ k)
      by (rewrite <- Z.pow_succ_r by lia; f_equal; lia).
    assert (E2 : 2 ^ (k + 1 + 1) = 2 * 2 ^ (k + 1))
      by (rewrite <- Z.pow_succ_r by lia; f_equal; lia).
    lia.
  - destruct (IH (n + 1)) as (k & Hk & -> & H2 & H3).
    exists (k + 1). split; [lia|]. split; [lia|].
    change (Z.pos s~0) with (2 * Z.pos s).
    assert (E1 : 2 ^ (k + 1) = 2 * 2 ^ k)
      by (rewrite <- Z.pow_succ_r by lia; f_equal; lia).
    assert (E2 : 2 ^ (k + 1 + 1) = 2 * 2 ^ (k + 1))
      by (rewrite <- Z.pow_succ_r by lia; f_equal; lia).
    lia.
  - exists 0. simpl. lia.
Qed.

(** ** Back-pointers in a well-formed queue *)

(** Every member of a sibling chain is named by the slot its [ref] holds,
    and that slot is the chain's root or a [sibling] field of the chain. *)
Lemma sib_backptr q l : forall sl,
  sib_chain (buffer q) (load q sl) l -> sib_refs (buffer q) sl l ->
  forall x, In x l ->
    exists s, ref (buffer q x) = Some s /\ load q s = Some x /\
              (s = sl \/ exists a, In a l /\ s = SSibling a).
Proof.
  induction l as [|a l IH]; intros sl Hc Hr x Hx; [contradiction|].
  cbn [sib_chain sib_refs] in Hc, Hr.
  destruct Hc as (Hld & Hc). destruct Hr as (Hra & Hr).
  destruct Hx as [->|Hx].
  - exists sl. auto.
  - destruct (IH (SSibling a) Hc Hr x Hx) as (s & H1 & H2 & H3).
    exists s. split; [exact H1|]. split; [exact H2|]. right.
    destruct H3 as [->|(b & Hb & ->)].
    + exists a. simpl; auto.
    + exists b. simpl; auto.
Qed.

Lemma bucket_backptr q bs : forall sl,
  bucket_chain (buffer q) (load q sl) bs -> bucket_refs (buffer q) sl bs ->
  forall x, In x (concat bs) ->
    exists s, ref (buffer q x) = Some s /\ load q s = Some x /\
              (s = sl \/ exists a, In a (concat bs) /\
                                   (s = SNext a \/ s = SSibling a)).
Proof.
  induction bs as [|b bs IH]; intros sl Hc Hr x Hx; [contradiction|].
  destruct b as [|h sibs]; [contradiction|].
  cbn [bucket_chain bucket_refs] in Hc, Hr.
  destruct Hc as (Hld & Hsib & Hnx). destruct Hr as (Hrh & Hrs & Hrn).
  cbn [concat] in *.
  change ((h :: sibs) ++ concat bs) with (h :: sibs ++ concat bs) in *.
  destruct Hx as [->|Hx].
  - exists sl. auto.
  - apply in_app_or in Hx. destruct Hx as [Hx|Hx].
    + destruct (sib_backptr q sibs (SSibling h) Hsib Hrs x Hx)
        as (s & H1 & H2 & H3).
      exists s. split; [exact H1|]. split; [exact H2|]. right.
      destruct H3 as [->|(b & Hb & ->)].
      * exists h. simpl; auto.
      * exists b. split; [|auto]. right. apply in_or_app; auto.
    + destruct (IH (SNext h) Hnx Hrn x Hx) as (s & H1 & H2 & H3).
      exists s. split; [exact H1|]. split; [exact H2|]. right.
      destruct H3 as [->|(b & Hb & Hs)].
      * exists h. simpl; auto.
      * exists b. split; [|auto]. right. apply in_or_app; auto.
Qed.

(** In a well-formed queue [*e.ref == e] for every queued event. *)
Lemma queue_wf_backptr q bs x :
  queue_wf q bs -> In x (concat bs) -> backptr_ok q x.
Proof.
  intros (Hc & Hr & _) Hx.
  destruct (bucket_backptr q bs SQueue Hc Hr x Hx) as (s & H1 & H2 & _).
  exists s. auto.
Qed.

Lemma sib_chain_closed m l : forall p,
  sib_chain m p l ->
  forall x s, In x l -> sibling (m x) = Some s -> In s l.
Proof.
  induction l as [|a l IH]; intros p Hc x s Hx Hs; [contradiction|].
  cbn [sib_chain] in Hc. destruct Hc as (_ & Hc).
  destruct Hx as [->|Hx].
  - destruct (sib_chain_head_in _ _ _ Hc s Hs) as (l' & ->). simpl; auto.
  - right. eapply IH; eauto.
Qed.

(** The [sibling] field of a queued event links a queued event. *)
Lemma bucket_chain_sibling_in m bs : forall p,
  bucket_chain m p bs ->
  forall x s, In x (concat bs) -> sibling (m x) = Some s ->
              In s (concat bs).
Proof.
  induction bs as [|b bs IH]; intros p Hc x s Hx Hs; [contradiction|].
  destruct b as [|h sibs]; [contradiction|].
  cbn [bucket_chain] in Hc. destruct Hc as (_ & Hsib & Hnx).
  cbn [concat] in *.
  change ((h :: sibs) ++ concat bs) with (h :: sibs ++ concat bs) in *.
  destruct Hx as [->|Hx].
  - destruct (sib_chain_head_in _ _ _ Hsib s Hs) as (l' & ->).
    simpl; auto.
  - apply in_app_or in Hx. destruct Hx as [Hx|Hx].
    + right. apply in_or_app. left.
      eapply sib_chain_closed; eauto.
    + right. apply in_or_app. right. eapply IH; eauto.
Qed.

(** What [equeue_unqueue] leaves alone: the links of the chunks its
    three pointers do not name, and everything that is not a link. *)
Lemma unqueue_frame q e l :
  (forall a, next (buffer q e) = Some a -> In a l) ->
  (forall a, sibling (buffer q e) = Some a -> In a l) ->
  (exists s, ref (buffer q e) = Some s /\
             (s = SQueue \/ exists a, In a l /\
                                      (s = SNext a \/ s = SSibling a))) ->
  match equeue_unqueue q e with
  | Some q' => same_outside q q' l /\ chunks q' = chunks q
  | None => True
  end.
Proof.
  intros Hn Hs (sl & Hr & Hsl).
  unfold equeue_unqueue, same_outside, data_eq.
  destruct (sibling (buffer q e)) as [s|] eqn:Es;
    destruct (next (buffer q e)) as [n|] eqn:En;
    pose proof (Hn) as Hn'; pose proof (Hs) as Hs';
    (destruct Hsl as [->|(a & Ha & [->| ->])]);
    mem_step; try (rewrite Es; simpl); mem_step;
    try (rewrite Hr; simpl); mem_step;
    try (rewrite Es; simpl); mem_step.
  all: repeat split; mem_solve.
  all: exfalso; match goal with H : ~ In _ _ |- _ => apply H end;
    first [assumption | apply Hn'; congruence | apply Hs'; congruence].
Qed.

(** [equeue_unqueue] on a bucket head, or on an event whose [next] is
    null: the event leaves the queue, which stays well formed, and nothing
    outside the links of the queued events changes. *)
Lemma equeue_unqueue_full q pre s1 e s2 post :
  queue_wf q (pre ++ (s1 ++ e :: s2) :: post) ->
  (s1 <> [] -> next (buffer q e) = None) ->
  exists q',
    equeue_unqueue q e = Some q' /\
    queue_wf q' (pre ++ match s1 ++ s2 with
                        | [] => post
                        | _ :: _ => (s1 ++ s2) :: post
                        end) /\
    same_outside q q' (concat (pre ++ (s1 ++ e :: s2) :: post)) /\
    chunks q' = chunks q.
Proof.
  intros Hwf Hnull.
  destruct (equeue_unqueue_spec q pre s1 e s2 post Hwf Hnull)
    as (q' & Hu & Hwf').
  exists q'. split; [exact Hu|]. split; [exact Hwf'|].
  set (bs := pre ++ (s1 ++ e :: s2) :: post) in *.
  assert (He : In e (concat bs)).
  { unfold bs. rewrite concat_app. apply in_or_app. right. cbn [concat].
    apply in_or_app. left. apply in_or_app. right. simpl; auto. }
  pose proof (unqueue_frame q e (concat bs)) as Hf.
  rewrite Hu in Hf. apply Hf; clear Hf.
  - intros a Ha. destruct s1 as [|h s1'].
    + destruct Hwf as (Hc & Hr & _). unfold bs in *. cbn [app] in *.
      destruct (bucket_focus q pre _ SQueue Hc Hr) as (Hc' & _).
      cbn [bucket_chain] in Hc'. destruct Hc' as (_ & _ & Hnx).
      rewrite concat_app. apply in_or_app. right. cbn [concat].
      apply in_or_app. right. eapply bucket_chain_nonempty; eauto.
    + rewrite Hnull in Ha; discriminate.
  - intros a Ha. destruct Hwf as (Hc & _).
    eapply bucket_chain_sibling_in; eauto.
  - destruct Hwf as (Hc & Hr & _).
    destruct (bucket_backptr q bs SQueue Hc Hr e He) as (s & H1 & _ & H3).
    exists s. split; [exact H1|]. exact H3.
Qed.

(** ** Creation, ticks and the links of the queue *)

Section Basics.

Variable sizeof_event : Z.
Variable sizeof_ptr : Z.

(** X1.  [equeue_create_inplace] on a buffer of [size] bytes,
    [0 < size < 2^32], sets [npw2] to the bit length of [size], so that
    every offset into the buffer fits [npw2] bits; the queue and the free
    list are empty and the slab is the whole buffer.  A buffer below 2^30
    bytes leaves room for generation 1 in a handle.  When the size
    truncates to 0 as an [unsigned], [npw2] is 0. *)
Theorem create_inplace_fresh size mem :
  let q := equeue_create_inplace size mem in
  (0 < size < 2 ^ 32 ->
   1 <= npw2 q <= 32 /\ 2 ^ (npw2 q - 1) <= size < 2 ^ npw2 q /\
   (size < 2 ^ 30 -> npw2 q <= 30 /\ valid_id q 1)) /\
  (to_unsigned size = 0 -> npw2 q = 0) /\
  queue_wf q [] /\ free_wf q [] /\
  slab_size q = size /\ slab_data q = 0 /\ breaks q = 0 /\
  buffer q = mem /\ calls q = [].
Proof.
  intros q. split; [|split].
  - intros Hs. unfold q, equeue_create_inplace. cbn [npw2].
    unfold to_unsigned. rewrite Z.mod_small by lia.
    destruct size as [|s|s]; try lia.
    destruct (npw2_loop_spec s 0) as (k & Hk & -> & H1 & H2).
    replace (0 + k + 1 - 1) with k by lia.
    replace (0 + k + 1) with (k + 1) by lia.
    assert (Hk32 : k + 1 <= 32).
    { destruct (Z_le_gt_dec (k + 1) 32) as [|Hgt]; [assumption|].
      exfalso. assert (2 ^ 32 <= 2 ^ k) by (apply Z.pow_le_mono_r; lia).
      lia. }
    split; [lia|]. split; [lia|]. intros H30.
    assert (Hk30 : k + 1 <= 30).
    { destruct (Z_le_gt_dec (k + 1) 30) as [|Hgt]; [assumption|].
      exfalso. assert (2 ^ 30 <= 2 ^ k) by (apply Z.pow_le_mono_r; lia).
      lia. }
    split; [exact Hk30|].
    assert (2 ^ 1 <= 2 ^ (31 - (k + 1)))
      by (apply Z.pow_le_mono_r; lia).
    change (2 ^ 1) with 2 in *. unfold valid_id. cbn [npw2]. lia.
  - intros Hz. unfold q, equeue_create_inplace. cbn [npw2].
    rewrite Hz. reflexivity.
  - unfold q, equeue_create_inplace, queue_wf, free_wf. simpl.
    repeat split; auto; constructor.
Qed.

(** X2.  [equeue_tickdiff] is the signed distance between two ticks of
    the wrapping 32-bit clock: for a distance [d] that fits an [int], the
    tick [d] after [a] is [d] away from [a], wherever the counter wraps,
    and the distance the other way round is [-d] (except for [-2^31]). *)
Theorem tickdiff_wraps a d :
  int_range d ->
  equeue_tickdiff (to_unsigned (a + d)) (to_unsigned a) = d /\
  (d <> - 2 ^ 31 ->
   equeue_tickdiff (to_unsigned a) (to_unsigned (a + d)) = - d).
Proof.
  intros Hd. rewrite !tickdiff_int. split.
  - replace (a + d - a) with d by lia. apply to_int_small. exact Hd.
  - intros Hne. replace (a - (a + d)) with (- d) by lia.
    apply to_int_small. unfold int_range in *. lia.
Qed.

(** X3.  [equeue_enqueue] keeps the back-pointer invariant: afterwards
    [*x.ref == x] holds for the new event and for every event that was
    queued; the free list root and the scalar fields of the queue are
    untouched, and of the headers only the [target] of the new event
    changes besides links: its size, id, period, destructor and callback
    are as they were, and so is every field but the links of every other
    header. *)
Theorem enqueue_keeps_backptr fuel tick q e ms bs :
  queue_wf q bs -> ~ In e (concat bs) -> (length bs < fuel)%nat ->
  exists q',
    equeue_enqueue fuel tick q e ms = Some q' /\
    backptr_ok q' e /\
    (forall x, In x (concat bs) -> backptr_ok q' x) /\
    target (buffer q' e) = to_int (to_unsigned (tick + ms)) /\
    (size (buffer q' e) = size (buffer q e) /\
     id (buffer q' e) = id (buffer q e) /\
     period (buffer q' e) = period (buffer q e) /\
     dtor (buffer q' e) = dtor (buffer q e) /\
     cb (buffer q' e) = cb (buffer q e)) /\
    (forall a, a <> e -> data_eq (buffer q' a) (buffer q a)) /\
    (forall a, a <> e -> ~ In a (concat bs) ->
               next (buffer q' a) = next (buffer q a) /\
               sibling (buffer q' a) = sibling (buffer q a) /\
               ref (buffer q' a) = ref (buffer q a)) /\
    chunks q' = chunks q /\ calls q' = calls q /\
    npw2 q' = npw2 q /\ breaks q' = breaks q /\
    slab_size q' = slab_size q /\ slab_data q' = slab_data q.
Proof.
  intros Hwf He Hfuel.
  destruct (equeue_enqueue_spec fuel tick q e ms bs Hwf He Hfuel)
    as (q' & Hq & Hwf' & Hin & Ht & Hch & Hso).
  exists q'. split; [exact Hq|].
  destruct Hso as (Hl & Hd & Hnp & Hbr & Hss & Hsd & Hcalls).
  split; [|split; [|split; [exact Ht|split; [|split; [|split; [|split]]]]]].
  - eapply queue_wf_backptr; [exact Hwf'|]. apply Hin. auto.
  - intros x Hx. eapply queue_wf_backptr; [exact Hwf'|]. apply Hin. auto.
  - specialize (Hd e). unfold data_eq in Hd. revert Hd.
    mem_step; intuition auto.
  - intros a Ha. specialize (Hd a). unfold data_eq in *. revert Hd.
    mem_step; auto.
  - intros a Ha Hna. destruct (Hl a) as (H1 & H2 & H3).
    { intros [Hx|Hx]; [apply Ha; symmetry; exact Hx|exact (Hna Hx)]. }
    revert H1 H2 H3. mem_step; auto.
  - exact Hch.
  - revert Hcalls Hnp Hbr Hss Hsd. simpl. auto.
Qed.

(** X4.  [equeue_dequeue] keeps the back-pointer invariant for the events
    it leaves on the queue, whose list is what follows the due buckets; it
    changes links only, of queued events only, and does not touch the
    free list.  On an empty queue it returns null and the deadline it was
    given. *)
Theorem dequeue_keeps_backptr fuel tick q dl bs :
  queue_wf q bs -> (length (concat bs) < fuel)%nat ->
  exists q' head dl' due rest,
    equeue_dequeue fuel tick q dl = Some (q', head, dl') /\
    bs = due ++ rest /\
    queue_wf q' rest /\
    (forall x, In x (concat rest) -> backptr_ok q' x) /\
    (forall a, data_eq (buffer q' a) (buffer q a)) /\
    (forall a, ~ In a (concat bs) ->
               next (buffer q' a) = next (buffer q a) /\
               sibling (buffer q' a) = sibling (buffer q a) /\
               ref (buffer q' a) = ref (buffer q a)) /\
    chunks q' = chunks q /\ calls q' = calls q /\
    (bs = [] -> head = None /\ dl' = dl /\ queue q' = None).
Proof.
  intros Hwf Hfuel.
  destruct (equeue_dequeue_spec fuel tick q dl bs Hwf Hfuel)
    as (q' & head & Hq & Hch & Hwf' & Hchunks & Hso).
  set (now := to_unsigned tick) in *.
  exists q', head, (dequeue_deadline (buffer q) now
                      (snd (due_split (buffer q) now bs)) dl),
    (fst (due_split (buffer q) now bs)), (snd (due_split (buffer q) now bs)).
  split; [exact Hq|]. split; [apply due_split_app|]. split; [exact Hwf'|].
  destruct Hso as (Hl & Hd & _ & _ & _ & _ & Hcalls).
  split; [intros x Hx; eapply queue_wf_backptr; eauto|].
  split; [exact Hd|]. split; [exact Hl|]. split; [exact Hchunks|].
  split; [exact Hcalls|].
  intros ->. simpl in *. split; [exact Hch|]. split; [reflexivity|].
  destruct Hwf' as (Hc & _). exact Hc.
Qed.

(** X5.  [equeue_unqueue] on the head of a bucket, or on a bucket member
    whose [next] field is null: the event leaves the queue, every event
    still queued satisfies [*x.ref == x], headers change in their links
    only, the links of the chunks outside the queue do not change, and
    neither the free list root nor a scalar field of the queue is
    touched. *)
Theorem unqueue_keeps_backptr q pre s1 e s2 post :
  queue_wf q (pre ++ (s1 ++ e :: s2) :: post) ->
  (s1 <> [] -> next (buffer q e) = None) ->
  let rest := pre ++ match s1 ++ s2 with
                     | [] => post
                     | _ :: _ => (s1 ++ s2) :: post
                     end in
  exists q',
    equeue_unqueue q e = Some q' /\
    queue_wf q' rest /\ ~ In e (concat rest) /\
    (forall x, In x (concat rest) -> backptr_ok q' x) /\
    (forall a, data_eq (buffer q' a) (buffer q a)) /\
    (forall a, ~ In a (concat (pre ++ (s1 ++ e :: s2) :: post)) ->
               next (buffer q' a) = next (buffer q a) /\
               sibling (buffer q' a) = sibling (buffer q a) /\
               ref (buffer q' a) = ref (buffer q a)) /\
    chunks q' = chunks q /\ calls q' = calls q /\
    npw2 q' = npw2 q /\ breaks q' = breaks q /\
    slab_size q' = slab_size q /\ slab_data q' = slab_data q.
Proof.
  intros Hwf Hnull rest.
  destruct (equeue_unqueue_full q pre s1 e s2 post Hwf Hnull)
    as (q' & Hu & Hwf' & Hso & Hch).
  exists q'. split; [exact Hu|]. split; [exact Hwf'|].
  destruct Hso as (Hlk & Hd & Hnp & Hbr & Hss & Hsd & Hcalls).
  split; [|split; [|split; [exact Hd|split; [exact Hlk|
    split; [exact Hch|split; [exact Hcalls|
    split; [exact Hnp|split; [exact Hbr|split; [exact Hss|exact Hsd]]]]]]]]].
  - destruct Hwf as (_ & _ & Hn). unfold rest.
    rewrite concat_app in *. cbn [concat] in Hn.
    intros Hin.
    assert (Hin' : In e (concat pre ++ (s1 ++ s2) ++ concat post)).
    { apply in_app_or in Hin. apply in_or_app.
      destruct Hin as [Hin|Hin]; [auto|right].
      destruct (s1 ++ s2) as [|x l] eqn:E; [simpl; exact Hin|].
      exact Hin. }
    rewrite <- !app_assoc in Hn. rewrite app_assoc in Hn.
    apply NoDup_remove_2 in Hn. apply Hn.
    rewrite <- !app_assoc in *. exact Hin'.
  - intros x Hx. eapply queue_wf_backptr; eauto.
Qed.

End Basics.


Lemma free_take_ext m m' sz fs :
  (forall a, size (m' a) = size (m a)) ->
  free_take m' sz fs = free_take m sz fs.
Proof.
  intros H. induction fs as [|[|h sibs] fs IH]; cbn [free_take]; auto.
  - rewrite IH. reflexivity.
  - rewrite H, IH. reflexivity.
Qed.

Lemma free_sorted_ext m m' fs :
  (forall a, size (m' a) = size (m a)) ->
  free_sorted m fs -> free_sorted m' fs.
Proof.
  intros H. induction fs as [|b fs IH]; cbn [free_sorted]; auto.
  intros (Hu & Hb & Hs). split; [|split; [|auto]].
  - destruct b as [|h sibs]; [exact Hu|]. simpl in *.
    intros x Hx. rewrite !H. auto.
  - destruct b as [|h sibs]; [exact I|].
    destruct fs as [|[|h2 s2] fs']; simpl in *; auto. rewrite !H. exact Hb.
Qed.

(** Taking back the chunk that was just inserted. *)
Lemma free_take_insert m e fs :
  free_take m (size (m e)) (free_insert m e fs) = Some (e, fs).
Proof.
  induction fs as [|[|h sibs] fs IH]; cbn [free_insert free_take].
  - rewrite Z.leb_refl. reflexivity.
  - rewrite IH. reflexivity.
  - destruct (Z.ltb_spec (size (m h)) (size (m e))) as [Hlt|Hge].
    + cbn [free_take].
      destruct (Z.leb_spec (size (m e)) (size (m h))); [lia|].
      rewrite IH. reflexivity.
    + destruct (Z.eqb_spec (size (m h)) (size (m e))) as [Heq|Hne];
        cbn [free_take]; rewrite Z.leb_refl; reflexivity.
Qed.

Lemma free_insert_length m e fs :
  (length (free_insert m e fs) <= S (length fs))%nat.
Proof.
  induction fs as [|[|h sibs] fs IH]; cbn [free_insert]; simpl; try lia.
  destruct (size (m h) <? size (m e)); simpl; [lia|].
  destruct (size (m h) =? size (m e)); simpl; lia.
Qed.

Lemma free_insert_sorted m e fs :
  free_sorted m fs ->
  free_sorted m (free_insert m e fs) /\
  forall hp sp, size (m hp) < size (m e) ->
                free_before m (hp :: sp) fs ->
                free_before m (hp :: sp) (free_insert m e fs).
Proof.
  induction fs as [|[|h sibs] fs IH]; cbn [free_insert free_sorted].
  - intros _. simpl. repeat split; auto. intros x [].
  - intros ([] & _).
  - intros (Hu & Hb & Hs). destruct (IH Hs) as (IH1 & IH2).
    destruct (Z.ltb_spec (size (m h)) (size (m e))) as [Hlt|Hge].
    + split.
      * cbn [free_sorted]. split; [exact Hu|]. split; [|exact IH1].
        apply IH2; auto.
      * intros hp sp _ Hbp. exact Hbp.
    + destruct (Z.eqb_spec (size (m h)) (size (m e))) as [Heq|Hne].
      * split.
        -- cbn [free_sorted]. split; [|split; [|exact Hs]].
           ++ simpl. intros x [<-|Hx]; [auto|]. simpl in Hu.
              rewrite (Hu x Hx). exact Heq.
           ++ destruct fs as [|[|h2 s2] fs']; simpl in *; auto. lia.
        -- intros hp sp Hlt _. simpl. exact Hlt.
      * split.
        -- cbn [free_sorted]. split; [|split; [|split; [|split]]]; auto.
           ++ simpl. intros x [].
           ++ simpl. lia.
        -- intros hp sp Hlt _. simpl. exact Hlt.
Qed.

(** In a sorted free list the chunks of the later buckets are larger. *)
Lemma free_sorted_lt m fs : forall h sibs,
  free_sorted m ((h :: sibs) :: fs) ->
  forall x, In x (concat fs) -> size (m h) < size (m x).
Proof.
  induction fs as [|[|h2 s2] fs IH]; intros h sibs Hs x Hx.
  - contradiction.
  - destruct Hs as (_ & _ & [] & _).
  - destruct Hs as (Hu & Hb & Hs2). simpl in Hb.
    cbn [concat] in Hx.
    change ((h2 :: s2) ++ concat fs) with (h2 :: s2 ++ concat fs) in Hx.
    destruct Hx as [<-|Hx]; [exact Hb|].
    apply in_app_or in Hx. destruct Hx as [Hx|Hx].
    + destruct Hs2 as (Hu2 & _). simpl in Hu2. rewrite (Hu2 x Hx).
      exact Hb.
    + pose proof (IH h2 s2 Hs2 x Hx). lia.
Qed.

Lemma free_sorted_app m pre : forall rest,
  free_sorted m (pre ++ rest) -> free_sorted m pre /\ free_sorted m rest.
Proof.
  induction pre as [|b pre IH]; intros rest; cbn [app free_sorted].
  - auto.
  - intros (Hu & Hb & Hs). destruct (IH rest Hs) as (H1 & H2).
    split; [|exact H2]. split; [exact Hu|]. split; [|exact H1].
    destruct b as [|h s]; [exact I|].
    destruct pre as [|[|h2 s2] pre']; simpl in *; auto.
Qed.

(** Removing the head of a bucket keeps the order. *)
Lemma free_sorted_take m pre : forall e sibs post,
  free_sorted m (pre ++ (e :: sibs) :: post) ->
  free_sorted m (pre ++ match sibs with
                        | [] => post
                        | _ :: _ => sibs :: post
                        end).
Proof.
  induction pre as [|b pre IH]; intros e sibs post; cbn [app free_sorted].
  - intros (Hu & Hb & Hs). destruct sibs as [|s sibs']; [exact Hs|].
    cbn [free_sorted]. simpl in Hu.
    split; [|split; [|exact Hs]].
    + simpl. intros x Hx. rewrite (Hu s) by (simpl; auto).
      apply Hu. simpl; auto.
    + destruct post as [|[|h2 s2] post']; simpl in *; auto.
      rewrite (Hu s) by auto. exact Hb.
  - intros (Hu & Hb & Hs). split; [exact Hu|]. split; [|apply (IH e); exact Hs].
    destruct b as [|h s]; [exact I|].
    destruct pre as [|[|h2 s2] pre'].
    + cbn [app] in *. simpl in Hb.
      destruct sibs as [|s1 sibs'].
      * destruct post as [|[|h3 s3] post']; simpl; auto.
        destruct Hs as (_ & Hb2 & _). simpl in Hb2. lia.
      * simpl. destruct Hs as (Hu2 & _). simpl in Hu2.
        rewrite (Hu2 s1) by (simpl; auto). exact Hb.
    + exact Hb.
    + exact Hb.
Qed.

(** The first fit of a sorted free list is a best fit. *)
Lemma free_take_best m sz fs e fs' :
  free_sorted m fs -> free_take m sz fs = Some (e, fs') ->
  forall y, In y (concat fs) -> sz <= size (m y) ->
            size (m e) <= size (m y).
Proof.
  intros Hs Ht y Hy Hfit.
  pose proof (free_take_spec m sz fs) as Hsp. rewrite Ht in Hsp.
  destruct Hsp as (pre & sibs & post & -> & Hsm & Hsz & _).
  destruct (free_sorted_app m pre _ Hs) as (Hpre & Hrest).
  rewrite concat_app in Hy. apply in_app_or in Hy.
  destruct Hy as [Hy|Hy].
  - exfalso. clear - Hpre Hsm Hy Hfit.
    induction pre as [|b pre IH]; [contradiction|].
    inversion Hsm as [|? ? Hb Hsm']; subst.
    destruct Hpre as (Hu & _ & Hpre').
    cbn [concat] in Hy. apply in_app_or in Hy.
    destruct Hy as [Hy|Hy]; [|auto].
    destruct b as [|h s]; [contradiction|]. simpl in Hb, Hu.
    destruct Hy as [<-|Hy]; [lia|]. rewrite (Hu y Hy) in Hfit. lia.
  - cbn [concat] in Hy.
    change ((e :: sibs) ++ concat post) with (e :: sibs ++ concat post) in Hy.
    destruct Hy as [<-|Hy]; [lia|].
    apply in_app_or in Hy. destruct Hy as [Hy|Hy].
    + destruct Hrest as (Hu & _). simpl in Hu. rewrite (Hu y Hy). lia.
    + pose proof (free_sorted_lt m post e sibs Hrest y Hy). lia.
Qed.

(** When some free chunk fits, the walk finds one. *)
Lemma free_take_some m sz fs y :
  (forall b, In b fs -> free_uniform m b) ->
  In y (concat fs) -> sz <= size (m y) ->
  exists e fs', free_take m sz fs = Some (e, fs').
Proof.
  intros Hu Hy Hfit. induction fs as [|b fs IH]; [contradiction|].
  destruct b as [|h sibs].
  - exfalso. exact (Hu [] (or_introl eq_refl)).
  - cbn [free_take].
    destruct (Z.leb_spec sz (size (m h))) as [Hle|Hgt]; [eauto|].
    cbn [concat] in Hy. apply in_app_or in Hy.
    destruct Hy as [Hy|Hy].
    + exfalso. pose proof (Hu _ (or_introl eq_refl)) as Hb. simpl in Hb.
      destruct Hy as [<-|Hy]; [lia|]. rewrite (Hb y Hy) in Hfit. lia.
    + destruct IH as (e & fs' & ->); eauto.
      intros b Hb. apply Hu. right. exact Hb.
Qed.

Lemma free_sorted_uniform m fs :
  free_sorted m fs -> forall b, In b fs -> free_uniform m b.
Proof.
  induction fs as [|b fs IH]; intros Hs b' Hb'; [contradiction|].
  destruct Hs as (Hu & _ & Hs). destruct Hb' as [<-|Hb']; auto.
Qed.


(** ** Allocation *)

(** The header initialisation of [equeue_alloc]. *)
Lemma alloc_init_fields q e :
  let q' := set_dtor (set_period (set_target q e 0) e (-1)) e None in
  (target (buffer q' e) = 0 /\ period (buffer q' e) = -1 /\
   dtor (buffer q' e) = None /\ cb (buffer q' e) = cb (buffer q e) /\
   size (buffer q' e) = size (buffer q e) /\
   id (buffer q' e) = id (buffer q e)) /\
  (forall a, a <> e -> buffer q' a = buffer q a) /\
  (forall a, next (buffer q' a) = next (buffer q a) /\
             sibling (buffer q' a) = sibling (buffer q a) /\
             ref (buffer q' a) = ref (buffer q a)) /\
  queue q' = queue q /\ chunks q' = chunks q /\ npw2 q' = npw2 q /\
  breaks q' = breaks q /\ slab_size q' = slab_size q /\
  slab_data q' = slab_data q /\ calls q' = calls q.
Proof.
  intros q'. unfold q'.
  split; [repeat split; mem_solve|].
  split; [intros a Ha; mem_solve|].
  split; [intros a; repeat split; mem_solve|].
  repeat split.
Qed.

(** The chunk [equeue_mem_alloc] carves off the slab. *)
Lemma slab_carve_fields q req :
  let e := slab_data q in
  let q' := set_id (set_size (set_slab (set_slab q (slab_size q)
                                                 (slab_data q + req))
                                       (slab_size q - req)
                                       (slab_data q + req)) e
                             (to_unsigned req)) e 1 in
  size (buffer q' e) = to_unsigned req /\ id (buffer q' e) = 1 /\
  cb (buffer q' e) = cb (buffer q e) /\
  (forall a, a <> e -> buffer q' a = buffer q a) /\
  (forall a, next (buffer q' a) = next (buffer q a) /\
             sibling (buffer q' a) = sibling (buffer q a) /\
             ref (buffer q' a) = ref (buffer q a)) /\
  queue q' = queue q /\ chunks q' = chunks q /\ npw2 q' = npw2 q /\
  breaks q' = breaks q /\ slab_size q' = slab_size q - req /\
  slab_data q' = slab_data q + req /\ calls q' = calls q.
Proof.
  intros e q'. unfold q', e.
  split; [mem_solve|]. split; [mem_solve|]. split; [mem_solve|].
  split; [intros a Ha; mem_solve|].
  split; [intros a; repeat split; mem_solve|].
  repeat split.
Qed.

Section Alloc.

Variable sizeof_event : Z.
Variable sizeof_ptr : Z.

(** [equeue_alloc] over a well-formed free list: the first fitting free
    chunk, else a fresh chunk off the slab, else null.  Only the header of
    the chunk handed out changes besides the links of the free list. *)
Lemma equeue_alloc_spec fuel q sz fs :
  free_wf q fs -> (length fs < fuel)%nat ->
  let req := alloc_size sizeof_event sizeof_ptr sz in
  exists q' r,
    equeue_alloc sizeof_event sizeof_ptr fuel q sz = Some (q', r) /\
    match free_take (buffer q) req fs with
    | Some (e, fs') =>
      r = Some (e + sizeof_event) /\ free_wf q' fs' /\
      size (buffer q' e) = size (buffer q e) /\
      id (buffer q' e) = id (buffer q e) /\
      slab_size q' = slab_size q /\ slab_data q' = slab_data q
    | None =>
      if req <=? slab_size q then
        r = Some (slab_data q + sizeof_event) /\ free_wf q' fs /\
        size (buffer q' (slab_data q)) = to_unsigned req /\
        id (buffer q' (slab_data q)) = 1 /\
        slab_size q' = slab_size q - req /\
        slab_data q' = slab_data q + req
      else r = None /\ q' = q
    end /\
    (forall e, r = Some (e + sizeof_event) ->
               target (buffer q' e) = 0 /\ period (buffer q' e) = -1 /\
               dtor (buffer q' e) = None /\
               cb (buffer q' e) = cb (buffer q e)) /\
    (forall a, r <> Some (a + sizeof_event) ->
               data_eq (buffer q' a) (buffer q a)) /\
    (forall a, sibling (buffer q' a) = sibling (buffer q a) /\
               ref (buffer q' a) = ref (buffer q a)) /\
    (forall a, ~ In a (concat fs) ->
               next (buffer q' a) = next (buffer q a)) /\
    queue q' = queue q /\ npw2 q' = npw2 q /\ breaks q' = breaks q /\
    calls q' = calls q.
Proof.
  intros (Hc & Hn) Hl req.
  unfold equeue_alloc, equeue_mem_alloc. fold req.
  pose proof (mem_alloc_walk_spec fs SChunks q req fuel Hc Hn I Hl) as Hw.
  pose proof (free_take_spec (buffer q) req fs) as Ht.
  destruct (free_take (buffer q) req fs) as [[e fs']|].
  - destruct Ht as (pre & sibs & post & Hfs & Hsm & Hsz & Hfs').
    destruct Hw as (q1 & Hw & Hc' & Hall & Hnx & _ & Hq & Hn' & Hb & Hss
                    & Hsd & Hcl).
    rewrite Hw.
    destruct (alloc_init_fields q1 e)
      as ((I1 & I2 & I3 & I4 & I5 & I6) & Io & Il & J1 & J2 & J3 & J4 & J5
          & J6 & J7).
    set (q2 := set_dtor (set_period (set_target q1 e 0) e (-1)) e None) in *.
    exists q2, (Some (e + sizeof_event)). split; [reflexivity|].
    assert (Hwf1 : free_wf q1 fs').
    { split; [exact Hc'|]. subst fs fs'. eapply NoDup_take_head; eauto. }
    destruct (Hall e) as (_ & _ & De1 & De2 & _ & _ & _ & De6).
    split.
    { split; [reflexivity|]. split.
      - apply (free_wf_links q1); [exact J2| |exact Hwf1].
        intros a _. destruct (Il a) as (? & ? & _). auto.
      - repeat split; congruence. }
    split.
    { intros e' He'. assert (e' = e) by (injection He'; lia). subst e'.
      repeat split; congruence. }
    split.
    { intros a Ha. assert (Hne : a <> e) by (intros ->; apply Ha; reflexivity).
      rewrite (Io a Hne). destruct (Hall a) as (_ & _ & Hd). exact Hd. }
    split.
    { intros a. destruct (Hall a) as (H1 & H2 & _).
      destruct (Il a) as (_ & H3 & H4). split; congruence. }
    split.
    { intros a Ha. destruct (Il a) as (-> & _). apply Hnx; [exact Ha|].
      discriminate. }
    repeat split; congruence.
  - rewrite Hw.
    destruct (Z.leb_spec req (slab_size q)).
    + destruct (slab_carve_fields q req)
        as (C1 & C2 & C3 & Co & Cl & K1 & K2 & K3 & K4 & K5 & K6 & K7).
      cbv zeta in C1, C2, C3, Co, Cl, K1, K2, K3, K4, K5, K6, K7.
      set (q1 := set_id _ _ _) in *.
      destruct (alloc_init_fields q1 (slab_data q))
        as ((I1 & I2 & I3 & I4 & I5 & I6) & Io & Il & J1 & J2 & J3 & J4 & J5
            & J6 & J7).
      set (q2 := set_dtor _ _ _) in *.
      exists q2, (Some (slab_data q + sizeof_event)).
      split; [reflexivity|].
      split.
      { split; [reflexivity|]. split.
        - split; [|exact Hn]. rewrite J2, K2.
          apply bucket_chain_ext with (m := buffer q); auto.
          + intros a _. destruct (Il a) as (_ & -> & _).
            destruct (Cl a) as (_ & -> & _). reflexivity.
          + intros a _. destruct (Il a) as (-> & _).
            destruct (Cl a) as (-> & _). reflexivity.
        - repeat split; congruence. }
      split.
      { intros e' He'. assert (e' = slab_data q) by (injection He'; lia).
        subst e'. repeat split; congruence. }
      split.
      { intros a Ha.
        assert (Hne : a <> slab_data q)
          by (intros ->; apply Ha; reflexivity).
        rewrite (Io a Hne), (Co a Hne). unfold data_eq. repeat split. }
      split.
      { intros a. destruct (Il a) as (_ & -> & ->).
        destruct (Cl a) as (_ & -> & ->). split; reflexivity. }
      split.
      { intros a _. destruct (Il a) as (-> & _).
        destruct (Cl a) as (-> & _). reflexivity. }
      repeat split; congruence.
    + exists q, None. split; [reflexivity|]. split; [auto|].
      split; [intros e' He'; discriminate|].
      split; [intros a _; unfold data_eq; tauto|].
      repeat split; auto.
Qed.

(** X6.  Freeing an event and allocating the same size again hands the
    same chunk back: the destructor runs once, the free list is as it was
    before, and the chunk keeps its size and its generation while its
    delay, period and destructor are reset. *)
Theorem dealloc_alloc_roundtrip fuel q p sz fs :
  let e := p - sizeof_event in
  free_wf q fs -> ~ In e (concat fs) -> (length fs < fuel)%nat ->
  alloc_size sizeof_event sizeof_ptr sz = size (buffer q e) ->
  exists q1 q2,
    equeue_dealloc sizeof_event fuel q p = Some q1 /\
    equeue_alloc sizeof_event sizeof_ptr (S fuel) q1 sz = Some (q2, Some p) /\
    free_wf q2 fs /\
    size (buffer q2 e) = size (buffer q e) /\
    id (buffer q2 e) = id (buffer q e) /\
    target (buffer q2 e) = 0 /\ period (buffer q2 e) = -1 /\
    dtor (buffer q2 e) = None /\
    slab_size q2 = slab_size q1 /\ slab_data q2 = slab_data q1 /\
    calls q2 = calls q ++ match dtor (buffer q e) with
                          | Some d => [(d, p)]
                          | None => []
                          end.
Proof.
  intros e Hf He Hl Hsz.
  assert (Hp : p = e + sizeof_event) by (unfold e; lia).
  destruct (equeue_dealloc_spec sizeof_event fuel q e fs Hf He Hl)
    as (q1 & Hd & Hf1 & Hin & Hq1 & Hc1 & Hl1 & Hd1 & Hn1).
  rewrite <- Hp in Hd, Hc1.
  exists q1.
  assert (Hl' : (length (free_insert (buffer q) e fs) < S fuel)%nat).
  { pose proof (free_insert_length (buffer q) e fs). lia. }
  destruct (equeue_alloc_spec (S fuel) q1 sz _ Hf1 Hl')
    as (q2 & r & Ha & Hm & Hnew & _ & _ & _ & _ & _ & _ & Hc2).
  assert (Hsize : forall a, size (buffer q1 a) = size (buffer q a)).
  { intros a. destruct (Hd1 a) as (H & _). exact H. }
  rewrite (free_take_ext (buffer q) (buffer q1)) in Hm by exact Hsize.
  rewrite Hsz, free_take_insert in Hm.
  destruct Hm as (-> & Hf2 & Hs2 & Hi2 & Hss & Hsd).
  exists q2. split; [exact Hd|]. rewrite Hp. split; [exact Ha|].
  split; [exact Hf2|].
  destruct (Hd1 e) as (Hse & Hie & _).
  split; [congruence|]. split; [congruence|].
  destruct (Hnew e eq_refl) as (Ht & Hpe & Hdt & _).
  split; [exact Ht|]. split; [exact Hpe|]. split; [exact Hdt|].
  split; [exact Hss|]. split; [exact Hsd|].
  rewrite Hc2, Hc1, Hp. reflexivity.
Qed.

(** X7.  The free list is kept in strictly ascending order of size, one
    bucket per size, so the first fit [equeue_alloc] takes is a best fit:
    when some free chunk is large enough, the chunk handed out is a free
    chunk that fits, no fitting free chunk is smaller, the slab is not
    touched, and what is left of the free list is well formed and
    sorted. *)
Theorem alloc_best_fit fuel q sz fs x :
  free_wf q fs -> free_sorted (buffer q) fs -> (length fs < fuel)%nat ->
  In x (concat fs) ->
  alloc_size sizeof_event sizeof_ptr sz <= size (buffer q x) ->
  exists q' e fs',
    equeue_alloc sizeof_event sizeof_ptr fuel q sz =
      Some (q', Some (e + sizeof_event)) /\
    In e (concat fs) /\
    alloc_size sizeof_event sizeof_ptr sz <= size (buffer q e) /\
    (forall y, In y (concat fs) ->
               alloc_size sizeof_event sizeof_ptr sz <= size (buffer q y) ->
               size (buffer q e) <= size (buffer q y)) /\
    free_wf q' fs' /\ free_sorted (buffer q') fs' /\ ~ In e (concat fs') /\
    (forall y, In y (concat fs') -> In y (concat fs)) /\
    slab_size q' = slab_size q /\ slab_data q' = slab_data q.
Proof.
  intros Hf Hs Hl Hx Hfit.
  set (req := alloc_size sizeof_event sizeof_ptr sz) in *.
  destruct (equeue_alloc_spec fuel q sz fs Hf Hl)
    as (q' & r & Ha & Hm & Hnew & Hdat & _).
  fold req in Hm.
  destruct (free_take_some (buffer q) req fs x
              (free_sorted_uniform _ _ Hs) Hx Hfit) as (e & fs' & Ht).
  rewrite Ht in Hm. destruct Hm as (-> & Hf' & Hse & Hie & Hss & Hsd).
  pose proof (free_take_spec (buffer q) req fs) as Hsp. rewrite Ht in Hsp.
  destruct Hsp as (pre & sibs & post & Hfs & Hsm & Hsz & Hfs').
  exists q', e, fs'. split; [exact Ha|].
  assert (Hsize : forall a, size (buffer q' a) = size (buffer q a)).
  { intros a. destruct (Z.eq_dec a e) as [->|Hne]; [exact Hse|].
    destruct (Hdat a) as (H & _); [|exact H].
    intros [= Heq]. apply Hne. lia. }
  split.
  { rewrite Hfs, concat_app. apply in_or_app. right. simpl. auto. }
  split; [exact Hsz|].
  split; [eapply free_take_best; eauto|].
  split; [exact Hf'|].
  split.
  { apply free_sorted_ext with (m := buffer q); [exact Hsize|].
    rewrite Hfs'. apply free_sorted_take with (e := e).
    rewrite <- Hfs. exact Hs. }
  destruct Hf as (_ & Hnd). rewrite Hfs in Hnd.
  rewrite concat_app in Hnd. cbn [concat] in Hnd.
  change ((e :: sibs) ++ concat post) with (e :: sibs ++ concat post) in Hnd.
  assert (Hcat : concat fs' = concat pre ++ sibs ++ concat post).
  { rewrite Hfs', concat_app. destruct sibs; reflexivity. }
  split.
  { rewrite Hcat. apply NoDup_remove_2 in Hnd. exact Hnd. }
  split.
  { intros y. rewrite Hcat, Hfs, concat_app. cbn [concat].
    intros Hy. apply in_app_or in Hy. apply in_or_app.
    destruct Hy as [Hy|Hy]; [auto|]. right. simpl. right. exact Hy. }
  split; [exact Hss|exact Hsd].
Qed.

(** X8.  [equeue_dealloc] runs the destructor once and files the chunk
    under its size: the free list stays well formed and sorted by size,
    it gains exactly this chunk, and the timed queue is not touched. *)
Theorem dealloc_keeps_sorted fuel q p fs :
  let e := p - sizeof_event in
  free_wf q fs -> free_sorted (buffer q) fs -> ~ In e (concat fs) ->
  (length fs < fuel)%nat ->
  let fs1 := free_insert (buffer q) e fs in
  exists q',
    equeue_dealloc sizeof_event fuel q p = Some q' /\
    free_wf q' fs1 /\ free_sorted (buffer q') fs1 /\
    (forall y, In y (concat fs1) <-> y = e \/ In y (concat fs)) /\
    queue q' = queue q /\
    (forall a, data_eq (buffer q' a) (buffer q a)) /\
    (forall a, a <> e -> ~ In a (concat fs) ->
               next (buffer q' a) = next (buffer q a) /\
               sibling (buffer q' a) = sibling (buffer q a) /\
               ref (buffer q' a) = ref (buffer q a)) /\
    calls q' = calls q ++ match dtor (buffer q e) with
                          | Some d => [(d, p)]
                          | None => []
                          end.
Proof.
  intros e Hf Hs He Hl fs1.
  assert (Hp : p = e + sizeof_event) by (unfold e; lia).
  destruct (equeue_dealloc_spec sizeof_event fuel q e fs Hf He Hl)
    as (q1 & Hd & Hf1 & Hin & Hq1 & Hc1 & Hl1 & Hd1 & Hn1).
  rewrite <- Hp in Hd, Hc1.
  exists q1. split; [exact Hd|]. split; [exact Hf1|].
  split.
  { apply free_sorted_ext with (m := buffer q).
    - intros a. destruct (Hd1 a) as (H & _). exact H.
    - apply free_insert_sorted. exact Hs. }
  split; [exact Hin|]. split; [exact Hq1|]. split; [exact Hd1|].
  split; [|exact Hc1].
  intros a Ha Hna. apply Hl1. intros [Hx|Hx]; [auto|contradiction].
Qed.

End Alloc.


(** ** Posting and cancelling *)

Section Handles.

Variable sizeof_event : Z.
Variable sizeof_ptr : Z.

(** A generation is never its own successor when the buffer is smaller
    than 2^29 bytes. *)
Lemma equeue_incid_fresh q i :
  0 <= npw2 q <= 29 -> valid_id q i ->
  equeue_incid q i <> i /\ 1 <= equeue_incid q i.
Proof.
  intros Hn Hv.
  destruct (equeue_incid_spec q i) as (He & Hv'); [lia|exact Hv|].
  split; [|unfold valid_id in Hv'; lia].
  rewrite He. destruct (Z.leb_spec (2 ^ 31) (Z.shiftl (i + 1) (npw2 q)));
    [|lia].
  intros <-. rewrite Z.shiftl_mul_pow2 in * by lia.
  assert (2 ^ npw2 q <= 2 ^ 29) by (apply Z.pow_le_mono_r; lia).
  change (2 ^ 31) with (4 * 2 ^ 29) in *. lia.
Qed.

(** [equeue_cancel] with the handle of a pending event that heads its
    bucket or has a null [next]. *)
Lemma equeue_cancel_pending fuel q pre s1 e s2 post fs :
  queue_wf q (pre ++ (s1 ++ e :: s2) :: post) -> free_wf q fs ->
  (forall a, In a (concat (pre ++ (s1 ++ e :: s2) :: post)) ->
             ~ In a (concat fs)) ->
  (s1 <> [] -> next (buffer q e) = None) ->
  0 <= npw2 q <= 30 -> 0 <= e < 2 ^ npw2 q ->
  valid_id q (id (buffer q e)) ->
  (length fs < fuel)%nat ->
  exists q',
    equeue_cancel sizeof_event fuel q
                  (Z.lor (Z.shiftl (id (buffer q e)) (npw2 q)) e) = Some q' /\
    queue_wf q' (pre ++ match s1 ++ s2 with
                        | [] => post
                        | _ :: _ => (s1 ++ s2) :: post
                        end) /\
    free_wf q' (free_insert (buffer q) e fs) /\
    (forall x, In x (concat (free_insert (buffer q) e fs)) <->
               x = e \/ In x (concat fs)) /\
    id (buffer q' e) = equeue_incid q (id (buffer q e)) /\
    calls q' = calls q ++ match dtor (buffer q e) with
                          | Some d => [(d, e + sizeof_event)]
                          | None => []
                          end /\
    (forall a, a <> e -> data_eq (buffer q' a) (buffer q a)) /\
    cb (buffer q' e) = cb (buffer q e) /\
    period (buffer q' e) = period (buffer q e) /\
    size (buffer q' e) = size (buffer q e) /\
    npw2 q' = npw2 q.
Proof.
  intros Hq Hf Hdis Hnull Hn He Hv Hl.
  set (bs := pre ++ (s1 ++ e :: s2) :: post) in *.
  set (g := id (buffer q e)) in *.
  destruct (handle_decode (npw2 q) g e Hn Hv He) as (_ & Hc & Hs & Hm).
  unfold equeue_cancel, cancel_chunk. rewrite Hc, Hm. fold g.
  assert (Hg : 1 <= g) by (unfold valid_id in Hv; lia).
  destruct (Z.eqb_spec g (if e =? 0 then - g else - g - 1)) as [Heq|_].
  { destruct (e =? 0); lia. }
  rewrite Hs. fold g. rewrite Z.eqb_refl. cbn [negb].
  assert (Hebs : In e (concat bs)).
  { unfold bs. rewrite concat_app. apply in_or_app. right. cbn [concat].
    apply in_or_app. left. apply in_or_app. right. simpl; auto. }
  destruct (equeue_unqueue_full q pre s1 e s2 post Hq Hnull)
    as (q1 & Hu & Hq1 & Hso & Hch).
  rewrite Hu. fold bs in Hso.
  destruct Hso as (Hl1 & Hd1 & Hn1 & _ & _ & _ & Hcl1).
  set (rest := pre ++ match s1 ++ s2 with
                      | [] => post
                      | _ :: _ => (s1 ++ s2) :: post
                      end) in *.
  assert (Hrest : forall a, In a (concat rest) ->
                            In a (concat bs) /\ a <> e).
  { assert (Hcat : concat rest = concat pre ++ (s1 ++ s2) ++ concat post).
    { unfold rest. rewrite concat_app. destruct (s1 ++ s2); reflexivity. }
    destruct Hq as (_ & _ & Hnd). unfold bs in Hnd |- *.
    rewrite concat_app in *. cbn [concat] in *.
    rewrite <- !app_assoc in Hnd. rewrite app_assoc in Hnd.
    pose proof (NoDup_remove_2 _ _ _ Hnd) as Hne.
    intros a Ha. rewrite Hcat in Ha. split.
    - apply in_app_or in Ha. apply in_or_app.
      destruct Ha as [Ha|Ha]; [auto|right].
      rewrite <- !app_assoc in *. apply in_app_or in Ha.
      apply in_or_app. destruct Ha as [Ha|Ha]; [auto|right].
      simpl. right. exact Ha.
    - intros ->. apply Hne. rewrite <- !app_assoc in *. exact Ha. }
  set (q2 := set_id q1 e (equeue_incid q1 (id (buffer q1 e)))).
  assert (Hlk : forall a,
             next (buffer q2 a) = next (buffer q1 a) /\
             sibling (buffer q2 a) = sibling (buffer q1 a) /\
             ref (buffer q2 a) = ref (buffer q1 a) /\
             size (buffer q2 a) = size (buffer q1 a) /\
             dtor (buffer q2 a) = dtor (buffer q1 a) /\
             cb (buffer q2 a) = cb (buffer q1 a) /\
             period (buffer q2 a) = period (buffer q1 a) /\
             target (buffer q2 a) = target (buffer q1 a) /\
             (a <> e -> id (buffer q2 a) = id (buffer q1 a))).
  { intros a. unfold q2. mem_solve. }
  assert (Hid : id (buffer q2 e) = equeue_incid q g).
  { unfold q2, equeue_incid. rewrite Hn1.
    destruct (Hd1 e) as (_ & Hi & _). rewrite Hi. fold g. mem_solve. }
  assert (Hf2 : free_wf q2 fs).
  { apply free_wf_links with (q := q); [exact Hch| |exact Hf].
    intros a Ha.
    assert (Hout : ~ In a (concat bs)) by (intros Hin; eapply Hdis; eauto).
    destruct (Hl1 a Hout) as (Hx & Hy & _).
    destruct (Hlk a) as (Hx' & Hy' & _). split; congruence. }
  assert (Hefs : ~ In e (concat fs)) by (apply Hdis; exact Hebs).
  replace (e + sizeof_event) with (e + sizeof_event) by reflexivity.
  destruct (equeue_dealloc_spec sizeof_event fuel q2 e fs Hf2 Hefs Hl)
    as (q' & Hd & Hwf & Hin & Hqq & Hcl & Hl2 & Hdt & Hn').
  fold q2. rewrite Hd.
  assert (Hsz : forall a, size (buffer q2 a) = size (buffer q a)).
  { intros a. destruct (Hlk a) as (_ & _ & _ & -> & _).
    destruct (Hd1 a) as (-> & _). reflexivity. }
  rewrite (free_insert_ext (buffer q) (buffer q2)) in * by exact Hsz.
  exists q'. split; [reflexivity|].
  split.
  { apply queue_wf_links with (q := q1); [exact Hqq| |exact Hq1].
    intros a Ha. destruct (Hrest a Ha) as (Hbs & Hne).
    assert (Hout : ~ In a (e :: concat fs)).
    { intros [<-|Hin']; [auto|]. eapply Hdis; eauto. }
    destruct (Hl2 a Hout) as (Hx & Hy & Hz).
    destruct (Hlk a) as (? & ? & ? & _). repeat split; congruence. }
  split; [exact Hwf|]. split; [exact Hin|].
  split.
  { destruct (Hdt e) as (_ & -> & _). exact Hid. }
  split.
  { rewrite Hcl. destruct (Hlk e) as (_ & _ & _ & _ & -> & _).
    destruct (Hd1 e) as (_ & _ & _ & _ & -> & _).
    change (calls q2) with (calls q1). rewrite Hcl1. reflexivity. }
  split.
  { intros a Ha. destruct (Hdt a) as (E1 & E2 & E3 & E4 & E5 & E6).
    destruct (Hlk a) as (_ & _ & _ & F1 & F2 & F3 & F4 & F5 & F6).
    destruct (Hd1 a) as (G1 & G2 & G3 & G4 & G5 & G6).
    specialize (F6 Ha). unfold data_eq. repeat split; congruence. }
  destruct (Hdt e) as (E1 & E2 & E3 & E4 & E5 & E6).
  destruct (Hlk e) as (_ & _ & _ & F1 & F2 & F3 & F4 & F5 & _).
  destruct (Hd1 e) as (G1 & G2 & G3 & G4 & G5 & G6).
  split; [congruence|]. split; [congruence|]. split; [congruence|].
  rewrite Hn'. change (npw2 q2) with (npw2 q1). exact Hn1.
Qed.

(** [equeue_post] of an event whose delay is not negative. *)
Lemma equeue_post_queued fuel tick q cb_ p bs :
  let e := p - sizeof_event in
  0 <= target (buffer q e) ->
  queue_wf q bs -> ~ In e (concat bs) -> (length bs < fuel)%nat ->
  let tgt := to_int (to_unsigned
                       (tick + to_unsigned (target (buffer q e)))) in
  exists q',
    equeue_post sizeof_event fuel tick q cb_ p =
      Some (q', post_handle q e) /\
    queue_wf q' (queue_insert (buffer q) tgt e bs) /\
    (forall x, In x (concat (queue_insert (buffer q) tgt e bs)) <->
               x = e \/ In x (concat bs)) /\
    target (buffer q' e) = tgt /\ cb (buffer q' e) = cb_ /\
    id (buffer q' e) = id (buffer q e) /\
    size (buffer q' e) = size (buffer q e) /\
    period (buffer q' e) = period (buffer q e) /\
    dtor (buffer q' e) = dtor (buffer q e) /\
    (forall a, a <> e -> data_eq (buffer q' a) (buffer q a)) /\
    (forall a, ~ In a (e :: concat bs) ->
               next (buffer q' a) = next (buffer q a) /\
               sibling (buffer q' a) = sibling (buffer q a) /\
               ref (buffer q' a) = ref (buffer q a)) /\
    chunks q' = chunks q /\ calls q' = calls q /\ npw2 q' = npw2 q /\
    breaks q' = breaks q /\ slab_size q' = slab_size q /\
    slab_data q' = slab_data q.
Proof.
  intros e Ht Hq He Hl tgt.
  unfold equeue_post. fold e.
  set (q1 := set_cb q e cb_).
  assert (Hlk : forall a,
             next (buffer q1 a) = next (buffer q a) /\
             sibling (buffer q1 a) = sibling (buffer q a) /\
             ref (buffer q1 a) = ref (buffer q a) /\
             size (buffer q1 a) = size (buffer q a) /\
             id (buffer q1 a) = id (buffer q a) /\
             target (buffer q1 a) = target (buffer q a) /\
             period (buffer q1 a) = period (buffer q a) /\
             dtor (buffer q1 a) = dtor (buffer q a) /\
             (a <> e -> cb (buffer q1 a) = cb (buffer q a))).
  { intros a. unfold q1. mem_solve. }
  destruct (Hlk e) as (_ & _ & _ & _ & _ & Hte & _). rewrite Hte.
  destruct (Z.ltb_spec (target (buffer q e)) 0) as [Hneg|_]; [lia|].
  assert (Hq1 : queue_wf q1 bs) by (apply queue_wf_set_cb; exact Hq).
  destruct (equeue_enqueue_spec fuel tick q1 e
              (to_unsigned (target (buffer q e))) bs Hq1 He Hl)
    as (q' & Hd & Hwf & Hin & Htg & Hck & Hso).
  fold tgt in Hd, Hwf, Hin, Htg, Hso.
  rewrite (queue_insert_ext (buffer q) (buffer q1)) in *
    by (intros a _; apply Hlk).
  rewrite Hd. exists q'. split; [reflexivity|].
  destruct Hso as (Hl' & Hd' & Hn' & Hb' & Hss & Hsd & Hcl').
  split; [exact Hwf|]. split; [exact Hin|]. split; [exact Htg|].
  assert (Hde : size (buffer q' e) = size (buffer q e) /\
                id (buffer q' e) = id (buffer q e) /\
                period (buffer q' e) = period (buffer q e) /\
                dtor (buffer q' e) = dtor (buffer q e) /\
                cb (buffer q' e) = cb_).
  { destruct (Hd' e) as (E1 & E2 & _ & E4 & E5 & E6).
    rewrite E1, E2, E4, E5, E6. unfold q1. repeat split; mem_solve. }
  destruct Hde as (D1 & D2 & D3 & D4 & D5).
  split; [exact D5|]. split; [exact D2|]. split; [exact D1|].
  split; [exact D3|]. split; [exact D4|].
  split.
  { intros a Ha. destruct (Hd' a) as (E1 & E2 & E3 & E4 & E5 & E6).
    unfold data_eq. rewrite E1, E2, E3, E4, E5, E6. unfold q1.
    repeat split; mem_solve. }
  split.
  { intros a Ha. destruct (Hl' a Ha) as (E1 & E2 & E3).
    rewrite E1, E2, E3. unfold q1. repeat split; mem_solve. }
  repeat split; auto.
Qed.

End Handles.


Section Cancel.

Variable sizeof_event : Z.
Variable sizeof_ptr : Z.

(** X9.  [equeue_cancel] with the handle of a pending event that heads
    its bucket, or whose [next] field is null: the event leaves the
    queue, which stays well formed; its generation is bumped, its
    destructor runs once and its chunk joins the free list; its callback
    is not called and no other header changes. *)
Theorem cancel_pending_event fuel q pre s1 e s2 post fs :
  queue_wf q (pre ++ (s1 ++ e :: s2) :: post) -> free_wf q fs ->
  (forall a, In a (concat (pre ++ (s1 ++ e :: s2) :: post)) ->
             ~ In a (concat fs)) ->
  (s1 <> [] -> next (buffer q e) = None) ->
  0 <= npw2 q <= 30 -> 0 <= e < 2 ^ npw2 q ->
  valid_id q (id (buffer q e)) ->
  (length fs < fuel)%nat ->
  exists q',
    equeue_cancel sizeof_event fuel q
                  (Z.lor (Z.shiftl (id (buffer q e)) (npw2 q)) e) = Some q' /\
    queue_wf q' (pre ++ match s1 ++ s2 with
                        | [] => post
                        | _ :: _ => (s1 ++ s2) :: post
                        end) /\
    free_wf q' (free_insert (buffer q) e fs) /\
    In e (concat (free_insert (buffer q) e fs)) /\
    id (buffer q' e) = equeue_incid q (id (buffer q e)) /\
    calls q' = calls q ++ match dtor (buffer q e) with
                          | Some d => [(d, e + sizeof_event)]
                          | None => []
                          end /\
    (forall a, a <> e -> data_eq (buffer q' a) (buffer q a)).
Proof.
  intros Hq Hf Hdis Hnull Hn He Hv Hl.
  destruct (equeue_cancel_pending sizeof_event fuel q pre s1 e s2 post fs
              Hq Hf Hdis Hnull Hn He Hv Hl)
    as (q' & Hc & Hq' & Hf' & Hin & Hid & Hcl & Hd & _).
  exists q'. split; [exact Hc|]. split; [exact Hq'|]. split; [exact Hf'|].
  split; [apply Hin; auto|]. split; [exact Hid|]. split; [exact Hcl|].
  exact Hd.
Qed.

(** X10.  Cancelling twice is cancelling once: after a pending event was
    cancelled its handle is stale, and a second [equeue_cancel] with it
    leaves the queue exactly as it is (buffers below 2^29 bytes, where a
    generation always differs from its successor). *)
Theorem cancel_twice_noop fuel fuel' q pre s1 e s2 post fs :
  queue_wf q (pre ++ (s1 ++ e :: s2) :: post) -> free_wf q fs ->
  (forall a, In a (concat (pre ++ (s1 ++ e :: s2) :: post)) ->
             ~ In a (concat fs)) ->
  (s1 <> [] -> next (buffer q e) = None) ->
  0 <= npw2 q <= 29 -> 0 <= e < 2 ^ npw2 q ->
  valid_id q (id (buffer q e)) ->
  (length fs < fuel)%nat ->
  let h := Z.lor (Z.shiftl (id (buffer q e)) (npw2 q)) e in
  exists q',
    equeue_cancel sizeof_event fuel q h = Some q' /\
    equeue_cancel sizeof_event fuel' q' h = Some q'.
Proof.
  intros Hq Hf Hdis Hnull Hn He Hv Hl h.
  assert (Hn30 : 0 <= npw2 q <= 30) by lia.
  destruct (equeue_cancel_pending sizeof_event fuel q pre s1 e s2 post fs
              Hq Hf Hdis Hnull Hn30 He Hv Hl)
    as (q' & Hc & _ & _ & _ & Hid & _ & _ & _ & _ & _ & Hnp).
  exists q'. split; [exact Hc|].
  destruct (equeue_incid_fresh q _ Hn Hv) as (Hne & Hpos).
  set (g := id (buffer q e)) in *.
  assert (Hv' : valid_id q' g) by (unfold valid_id in *; rewrite Hnp; exact Hv).
  assert (Hn' : 0 <= npw2 q' <= 30) by (rewrite Hnp; lia).
  assert (He' : 0 <= e < 2 ^ npw2 q') by (rewrite Hnp; exact He).
  assert (Hid' : id (buffer q' e) <> g) by (rewrite Hid; exact Hne).
  unfold h. rewrite <- Hnp.
  rewrite (equeue_cancel_not_queued sizeof_event fuel' q' e g Hn' Hv' He'
                                    Hid').
  destruct (Z.eqb_spec (id (buffer q' e))
                       (if e =? 0 then - g else - g - 1)) as [Heq|_];
    [|reflexivity].
  exfalso. unfold valid_id in Hv. rewrite Hid in Heq.
  destruct (e =? 0); lia.
Qed.

(** X11.  A stale handle is ignored: when the chunk a handle decodes to
    carries another generation and is not in flight (its stored id is
    positive), [equeue_cancel] leaves the queue exactly as it is. *)
Theorem cancel_stale_noop fuel q off g :
  0 <= npw2 q <= 30 -> valid_id q g -> 0 <= off < 2 ^ npw2 q ->
  1 <= id (buffer q off) -> id (buffer q off) <> g ->
  equeue_cancel sizeof_event fuel q (Z.lor (Z.shiftl g (npw2 q)) off) =
    Some q.
Proof.
  intros Hn Hg Ho Hpos Hid.
  rewrite (equeue_cancel_not_queued sizeof_event fuel q off g Hn Hg Ho Hid).
  destruct (Z.eqb_spec (id (buffer q off))
                       (if off =? 0 then - g else - g - 1)) as [Heq|_];
    [|reflexivity].
  exfalso. unfold valid_id in Hg. destruct (off =? 0); lia.
Qed.

(** X12.  Cancelling the event at offset 0 while it is in flight (stored
    id [-g], handle of generation [g]): the callback pointer is cleared
    and the period set to -1, so that the dispatcher retires the event;
    nothing is unqueued or freed and no other field changes. *)
Theorem cancel_in_flight_first_chunk fuel q g :
  0 <= npw2 q <= 30 -> valid_id q g ->
  id (buffer q 0) = - g ->
  exists q',
    equeue_cancel sizeof_event fuel q (Z.shiftl g (npw2 q)) = Some q' /\
    cb (buffer q' 0) = None /\ period (buffer q' 0) = -1 /\
    id (buffer q' 0) = - g /\
    (forall a, a <> 0 -> buffer q' a = buffer q a) /\
    (forall a, next (buffer q' a) = next (buffer q a) /\
               sibling (buffer q' a) = sibling (buffer q a) /\
               ref (buffer q' a) = ref (buffer q a) /\
               size (buffer q' a) = size (buffer q a) /\
               target (buffer q' a) = target (buffer q a) /\
               dtor (buffer q' a) = dtor (buffer q a)) /\
    queue q' = queue q /\ chunks q' = chunks q /\ calls q' = calls q /\
    slab_size q' = slab_size q /\ slab_data q' = slab_data q.
Proof.
  intros Hn Hg Hid.
  assert (Ho : 0 <= 0 < 2 ^ npw2 q).
  { split; [lia|]. apply Z.pow_pos_nonneg; lia. }
  assert (Hne : id (buffer q 0) <> g) by (unfold valid_id in Hg; lia).
  pose proof (equeue_cancel_not_queued sizeof_event fuel q 0 g Hn Hg Ho Hne)
    as Hc.
  rewrite Z.lor_0_r in Hc. rewrite Hc. cbn [Z.eqb]. rewrite Hid.
  rewrite Z.eqb_refl. eexists. split; [reflexivity|].
  split; [mem_solve|]. split; [mem_solve|]. split; [mem_solve|].
  split; [intros a Ha; mem_solve|].
  split; [intros a; repeat split; mem_solve|].
  repeat split.
Qed.

(** X13.  The handle 0, which [equeue_call] returns when it cannot
    allocate, is safe to cancel as soon as the first chunk of the buffer
    has been handed out (its stored id is not 0): the queue is left
    exactly as it is. *)
Theorem cancel_zero_noop fuel q :
  id (buffer q 0) <> 0 ->
  equeue_cancel sizeof_event fuel q 0 = Some q.
Proof.
  intros Hid. unfold equeue_cancel, cancel_chunk.
  rewrite Z.land_0_l. change (to_int (- 0)) with 0.
  rewrite Z.shiftr_0_l.
  destruct (Z.eqb_spec (id (buffer q 0)) 0) as [Heq|_]; [contradiction|].
  rewrite Z.shiftr_0_l.
  destruct (Z.eqb_spec (id (buffer q 0)) 0) as [Heq|_]; [contradiction|].
  reflexivity.
Qed.


(** X15.  Posting an event whose delay is not negative and cancelling
    it with the handle [equeue_post] returned undoes the post: the queue
    holds the buckets it held before, the chunk is on the free list with
    the next generation, the callback was never called and the destructor
    ran once. *)
Theorem post_then_cancel fuel tick q cb_ p bs fs :
  let e := p - sizeof_event in
  0 <= target (buffer q e) ->
  queue_wf q bs -> free_wf q fs ->
  ~ In e (concat bs) -> ~ In e (concat fs) ->
  (forall a, In a (concat bs) -> ~ In a (concat fs)) ->
  (length bs < fuel)%nat -> (length fs < fuel)%nat ->
  0 <= npw2 q <= 30 -> 0 <= e < 2 ^ npw2 q ->
  valid_id q (id (buffer q e)) ->
  exists q1 h q2,
    equeue_post sizeof_event fuel tick q cb_ p = Some (q1, h) /\
    equeue_cancel sizeof_event fuel q1 h = Some q2 /\
    queue_wf q2 bs /\
    free_wf q2 (free_insert (buffer q) e fs) /\
    In e (concat (free_insert (buffer q) e fs)) /\
    id (buffer q2 e) = equeue_incid q (id (buffer q e)) /\
    calls q2 = calls q ++ match dtor (buffer q e) with
                          | Some d => [(d, p)]
                          | None => []
                          end.
Proof.
  intros e Ht Hq Hf He Hef Hdis Hlb Hlf Hn Hoff Hv.
  assert (Hpe : p = e + sizeof_event) by (unfold e; lia).
  destruct (equeue_post_queued sizeof_event fuel tick q cb_ p bs
              Ht Hq He Hlb)
    as (q1 & Hp & Hq1 & Hin & Htg & Hcb & Hid & Hsz & Hper & Hdt & Hd & Hl
        & Hch & Hcl & Hnp & _).
  fold e in Hp, Hq1, Hin, Htg, Hcb, Hid, Hsz, Hper, Hdt, Hd, Hl.
  set (tgt := to_int (to_unsigned
                        (tick + to_unsigned (target (buffer q e))))) in *.
  destruct (queue_insert_front (buffer q) tgt e bs)
    as (pre & sibs & post & Hins & Hbs & _).
  destruct (post_handle_pos q e Hn Hv Hoff) as (Hval & _).
  rewrite Hins in Hq1, Hin.
  assert (Hf1 : free_wf q1 fs).
  { apply free_wf_links with (q := q); [exact Hch| |exact Hf].
    intros a Ha.
    assert (Hout : ~ In a (e :: concat bs)).
    { intros [<-|Hx]; [auto|]. eapply Hdis; eauto. }
    destruct (Hl a Hout) as (Hx & Hy & _). auto. }
  assert (Hdis1 : forall a, In a (concat (pre ++ ([] ++ e :: sibs) :: post))
                            -> ~ In a (concat fs)).
  { intros a Ha. cbn [app] in Ha. apply Hin in Ha.
    destruct Ha as [->|Ha]; [exact Hef|auto]. }
  assert (Hv1 : valid_id q1 (id (buffer q1 e))).
  { unfold valid_id in *. rewrite Hnp, Hid. exact Hv. }
  destruct (equeue_cancel_pending sizeof_event fuel q1 pre [] e sibs post fs)
    as (q2 & Hc & Hq2 & Hf2 & Hin2 & Hid2 & Hcl2 & _); auto;
    try (rewrite Hnp; auto; fail).
  { intros H. exfalso. apply H. reflexivity. }
  rewrite Hnp, Hid, <- Hval in Hc.
  exists q1, (post_handle q e), q2. split; [exact Hp|]. split; [exact Hc|].
  cbn [app] in Hq2. rewrite <- Hbs in Hq2. split; [exact Hq2|].
  assert (Hsize : forall a, size (buffer q1 a) = size (buffer q a)).
  { intros a. destruct (Z.eq_dec a e) as [->|Hne]; [exact Hsz|].
    destruct (Hd a Hne) as (H & _). exact H. }
  rewrite (free_insert_ext (buffer q) (buffer q1)) in * by exact Hsize.
  split; [exact Hf2|]. split; [apply Hin2; auto|].
  split.
  { rewrite Hid2, Hid. unfold equeue_incid. rewrite Hnp. reflexivity. }
  rewrite Hcl2, Hcl, Hdt, Hpe. reflexivity.
Qed.

End Cancel.


Lemma log_calls_nil q : log_calls q [] = q.
Proof. destruct q. unfold log_calls. simpl. rewrite app_nil_r. reflexivity. Qed.

Lemma log_calls_app q l1 l2 :
  log_calls (log_calls q l1) l2 = log_calls q (l1 ++ l2).
Proof. unfold log_calls. simpl. rewrite app_assoc. reflexivity. Qed.

Lemma invoke_opt_log sz q f e :
  invoke_opt q f (e + sz) = log_calls q (call_of sz f e).
Proof.
  destruct f; simpl; [reflexivity|]. symmetry. apply log_calls_nil.
Qed.

(** ** Destruction *)

Section Destroy.

Variable sizeof_event : Z.
Variable sizeof_ptr : Z.

Lemma destroy_siblings_spec l : forall n q p,
  sib_chain (buffer q) p l -> (length l < n)%nat ->
  destroy_siblings sizeof_event n q p =
    Some (log_calls q (dtor_calls sizeof_event (buffer q) l)).
Proof.
  induction l as [|a l IH]; intros n q p Hc Hn.
  - simpl in Hc. subst p. destruct n; [simpl in Hn; lia|].
    simpl. rewrite log_calls_nil. reflexivity.
  - destruct Hc as (-> & Hc). destruct n; [simpl in Hn; lia|].
    cbn [destroy_siblings]. rewrite invoke_opt_log.
    rewrite (IH n (log_calls q _) _); [|exact Hc|simpl in Hn; lia].
    rewrite log_calls_app. reflexivity.
Qed.

Lemma destroy_buckets_spec first bs : forall n fuel q es,
  sib_chain (buffer q) (queue q) first -> (length first < n)%nat ->
  bucket_chain (buffer q) es bs -> (length bs < fuel)%nat ->
  destroy_buckets sizeof_event n fuel q es =
    Some (log_calls q
            (concat (map (fun _ => dtor_calls sizeof_event (buffer q) first)
                         bs))).
Proof.
  induction bs as [|b bs IH]; intros n fuel q es Hf Hn Hc Hl.
  - simpl in Hc. subst es. destruct fuel; [simpl in Hl; lia|].
    simpl. rewrite log_calls_nil. reflexivity.
  - destruct b as [|h sibs]; [contradiction|].
    destruct Hc as (-> & _ & Hc). destruct fuel; [simpl in Hl; lia|].
    cbn [destroy_buckets].
    rewrite (destroy_siblings_spec first n q (queue q) Hf Hn).
    rewrite (IH n fuel (log_calls q _) _); auto; [|simpl in Hl; lia].
    simpl. rewrite log_calls_app. reflexivity.
Qed.

(** X16.  [equeue_destroy] only calls destructors: it changes no field
    of the queue or of the buffer.  For every bucket of the queue it walks
    the sibling chain of the first bucket, so with [n] buckets pending the
    destructors of the first bucket's events run [n] times each, newest
    event first, and no other destructor runs.  With all pending events in
    one bucket (one deadline) each destructor runs exactly once; on an
    empty queue nothing is called. *)
Theorem destroy_calls fuel q bs :
  queue_wf q bs -> (length (concat bs) < fuel)%nat ->
  let first := match bs with
               | b :: _ => b
               | [] => []
               end in
  exists q',
    equeue_destroy sizeof_event fuel q = Some q' /\
    calls q' =
      calls q ++
      concat (map (fun _ => dtor_calls sizeof_event (buffer q) first) bs) /\
    (forall b, bs = [b] ->
               calls q' = calls q ++ dtor_calls sizeof_event (buffer q) b) /\
    (bs = [] -> calls q' = calls q) /\
    buffer q' = buffer q /\ queue q' = queue q /\ chunks q' = chunks q /\
    breaks q' = breaks q /\ slab_size q' = slab_size q /\
    slab_data q' = slab_data q.
Proof.
  intros (Hc & _ & _) Hl first.
  destruct (bucket_chain_lengths _ _ _ Hc) as (Hlen & Hall).
  assert (Hf : sib_chain (buffer q) (queue q) first /\
               (length first < fuel)%nat).
  { unfold first. destruct bs as [|[|h sibs] bs']; simpl in Hc.
    - split; [exact Hc|simpl in Hl; simpl; lia].
    - contradiction.
    - destruct Hc as (Hq & Hs & _). split; [simpl; auto|].
      pose proof (Hall (h :: sibs) (or_introl eq_refl)). lia. }
  destruct Hf as (Hf & Hfl).
  unfold equeue_destroy.
  rewrite (destroy_buckets_spec first bs fuel fuel q (queue q) Hf Hfl Hc);
    [|lia].
  eexists. split; [reflexivity|]. split; [reflexivity|].
  split.
  { intros b ->. simpl. rewrite app_nil_r. reflexivity. }
  split.
  { intros ->. simpl. rewrite app_nil_r. reflexivity. }
  repeat split.
Qed.

End Destroy.


Lemma insert_middle_length (l l' : list addr) e :
  (exists l1 l2, l = l1 ++ l2 /\ l' = l1 ++ e :: l2) ->
  length l' = S (length l).
Proof.
  intros (l1 & l2 & -> & ->). rewrite !length_app. simpl. lia.
Qed.

(** [dispatch_mark] negates the ids of the drained events and nothing
    else. *)
Lemma dispatch_mark_spec l : forall fuel q p,
  next_chain (buffer q) p l -> NoDup l -> (length l < fuel)%nat ->
  exists q',
    dispatch_mark fuel q p = Some q' /\
    (forall x, In x l -> id (buffer q' x) = to_int (- id (buffer q x))) /\
    (forall a, ~ In a l -> id (buffer q' a) = id (buffer q a)) /\
    only_ids q q'.
Proof.
  induction l as [|a l IH]; intros fuel q p Hc Hn Hl.
  - simpl in Hc. subst p. destruct fuel; [simpl in Hl; lia|].
    exists q. split; [reflexivity|]. split; [intros x []|].
    split; [reflexivity|]. unfold only_ids. repeat split.
  - destruct Hc as (-> & Hc). destruct fuel; [simpl in Hl; lia|].
    inversion Hn as [|? ? Ha Hn']; subst.
    cbn [dispatch_mark].
    set (q1 := set_id q a (to_int (- id (buffer q a)))).
    assert (H1 : only_ids q q1).
    { unfold only_ids, q1. split; [intros x; repeat split; mem_solve|].
      repeat split. }
    destruct H1 as (Hf1 & Hr1).
    assert (Hc1 : next_chain (buffer q1) (next (buffer q1 a)) l).
    { destruct (Hf1 a) as (-> & _).
      apply next_chain_ext with (m := buffer q); auto.
      intros x _. apply Hf1. }
    destruct (IH fuel q1 _ Hc1 Hn') as (q' & Hm & Hin & Hout & Hf & Hr);
      [simpl in Hl; lia|].
    exists q'. split; [exact Hm|].
    split; [|split].
    + intros x [<-|Hx].
      * rewrite Hout by exact Ha. unfold q1. mem_solve.
      * rewrite Hin by exact Hx. f_equal. f_equal.
        assert (x <> a) by (intros ->; auto). unfold q1. mem_solve.
    + intros x Hx. rewrite Hout by (intros H; apply Hx; right; exact H).
      assert (x <> a) by (intros ->; apply Hx; left; reflexivity).
      unfold q1. mem_solve.
    + split.
      * intros x. destruct (Hf x) as (E1 & E2 & E3 & E4 & E5 & E6 & E7 & E8).
        destruct (Hf1 x) as (F1 & F2 & F3 & F4 & F5 & F6 & F7 & F8).
        repeat split; congruence.
      * destruct Hr as (E1 & E2 & E3 & E4 & E5 & E6 & E7).
        destruct Hr1 as (F1 & F2 & F3 & F4 & F5 & F6 & F7).
        repeat split; congruence.
Qed.

(** ** Dispatch *)

Section Dispatch.

Variable sizeof_event : Z.
Variable sizeof_ptr : Z.

(** [equeue_dealloc], with everything it leaves alone. *)
Lemma equeue_dealloc_full fuel q e fs :
  free_wf q fs -> ~ In e (concat fs) -> (length fs < fuel)%nat ->
  exists q',
    equeue_dealloc sizeof_event fuel q (e + sizeof_event) = Some q' /\
    free_wf q' (free_insert (buffer q) e fs) /\
    queue q' = queue q /\
    calls q' = calls q ++ call_of sizeof_event (dtor (buffer q e)) e /\
    (forall a, ~ In a (e :: concat fs) ->
               next (buffer q' a) = next (buffer q a) /\
               sibling (buffer q' a) = sibling (buffer q a) /\
               ref (buffer q' a) = ref (buffer q a)) /\
    (forall a, data_eq (buffer q' a) (buffer q a)) /\
    npw2 q' = npw2 q /\ breaks q' = breaks q /\
    slab_size q' = slab_size q /\ slab_data q' = slab_data q.
Proof.
  intros Hf He Hl. unfold equeue_dealloc.
  replace (e + sizeof_event - sizeof_event) with e by lia.
  rewrite invoke_opt_log.
  set (q1 := log_calls q _).
  assert (Hf1 : free_wf q1 fs) by exact Hf.
  destruct (equeue_mem_dealloc_spec fuel q1 e fs Hf1 He Hl)
    as (q' & Hd & Hwf & Hin & Hq' & Hl1 & Hd1 & Hn1 & Hb1 & Hs1 & Hs2 & Hc1).
  exists q'. split; [exact Hd|]. split; [exact Hwf|]. split; [exact Hq'|].
  split; [exact Hc1|]. split; [exact Hl1|]. split; [exact Hd1|].
  repeat split; assumption.
Qed.

(** One dispatched event: fired, then either back on the queue or on the
    free list. *)
Lemma dispatch_event_spec fuel tick q e bs fs :
  queue_wf q bs -> free_wf q fs ->
  ~ In e (concat bs) -> ~ In e (concat fs) ->
  (forall a, In a (concat bs) -> ~ In a (concat fs)) ->
  (length bs < fuel)%nat -> (length fs < fuel)%nat ->
  exists q' bs' fs',
    dispatch_event sizeof_event fuel tick q e = Some q' /\
    queue_wf q' bs' /\ free_wf q' fs' /\
    (forall x, In x (concat bs') <->
               In x (concat bs) \/ (x = e /\ 0 <= period (buffer q e))) /\
    (forall x, In x (concat fs') <->
               In x (concat fs) \/ (x = e /\ period (buffer q e) < 0)) /\
    (length (concat bs') + length (concat fs') =
     S (length (concat bs) + length (concat fs)))%nat /\
    id (buffer q' e) =
      (if period (buffer q e) >=? 0 then to_int (- id (buffer q e))
       else equeue_incid q (to_int (- id (buffer q e)))) /\
    (0 <= period (buffer q e) ->
     target (buffer q' e) =
       to_int (to_unsigned (tick + to_unsigned (period (buffer q e))))) /\
    calls q' = calls q ++ event_calls sizeof_event (buffer q) e /\
    (forall a, a <> e -> data_eq (buffer q' a) (buffer q a)) /\
    (forall a, ~ In a (e :: concat bs ++ concat fs) ->
               next (buffer q' a) = next (buffer q a) /\
               sibling (buffer q' a) = sibling (buffer q a) /\
               ref (buffer q' a) = ref (buffer q a)) /\
    npw2 q' = npw2 q /\ breaks q' = breaks q /\
    slab_size q' = slab_size q /\ slab_data q' = slab_data q.
Proof.
  intros Hq Hf Hbs Hfs Hdis Hlb Hlf.
  unfold dispatch_event, event_calls. rewrite invoke_opt_log.
  set (fired := call_of sizeof_event (cb (buffer q e)) e).
  set (q1 := log_calls q fired).
  change (buffer q1) with (buffer q).
  destruct (Z.geb_spec (period (buffer q e)) 0) as [Hper|Hper].
  - set (q2 := set_id q1 e (to_int (- id (buffer q e)))).
    assert (Hlk : forall a,
               next (buffer q2 a) = next (buffer q a) /\
               sibling (buffer q2 a) = sibling (buffer q a) /\
               ref (buffer q2 a) = ref (buffer q a) /\
               size (buffer q2 a) = size (buffer q a) /\
               target (buffer q2 a) = target (buffer q a) /\
               period (buffer q2 a) = period (buffer q a) /\
               dtor (buffer q2 a) = dtor (buffer q a) /\
               cb (buffer q2 a) = cb (buffer q a) /\
               (a <> e -> id (buffer q2 a) = id (buffer q a))).
    { intros a. unfold q2, q1. mem_solve. }
    assert (Hid : id (buffer q2 e) = to_int (- id (buffer q e))).
    { unfold q2. mem_solve. }
    assert (Hq2 : queue_wf q2 bs).
    { apply queue_wf_links with (q := q); auto.
      intros a _. destruct (Hlk a) as (? & ? & ? & _). auto. }
    replace (period (buffer q2 e)) with (period (buffer q e))
      by (symmetry; apply Hlk).
    destruct (equeue_enqueue_spec fuel tick q2 e
                (to_unsigned (period (buffer q e))) bs Hq2 Hbs Hlb)
      as (q' & He & Hwf & Hin & Htg & Hck & Hso).
    set (tgt := to_int (to_unsigned
                          (tick + to_unsigned (period (buffer q e))))) in *.
    rewrite (queue_insert_ext (buffer q) (buffer q2)) in *
      by (intros a _; apply Hlk).
    exists q', (queue_insert (buffer q) tgt e bs), fs.
    destruct Hso as (Hl & Hd & Hn' & Hb' & Hss & Hsd & Hcl).
    split; [exact He|]. split; [exact Hwf|].
    split.
    { apply free_wf_links with (q := q); auto.
      intros a Ha.
      assert (Hout : ~ In a (e :: concat bs)).
      { intros [<-|Hin']; [auto|]. eapply Hdis; eauto. }
      destruct (Hl a Hout) as (Hx & Hy & _).
      rewrite Hx, Hy. unfold q2, q1. split; mem_solve. }
    split.
    { intros x. rewrite Hin. split.
      - intros [->|Hx]; [right; split; [reflexivity|lia]|left; exact Hx].
      - intros [Hx|(-> & _)]; auto. }
    split.
    { intros x. split; [auto|]. intros [Hx|(_ & Hx)]; [exact Hx|lia]. }
    split.
    { rewrite (insert_middle_length _ _ e
                 (queue_insert_concat (buffer q) tgt e bs)). lia. }
    split.
    { destruct (Hd e) as (_ & -> & _). unfold q2. mem_solve. }
    split; [intros _; exact Htg|].
    split.
    { rewrite Hcl. unfold q1. simpl. rewrite app_nil_r. reflexivity. }
    split.
    { intros a Ha. destruct (Hd a) as (E1 & E2 & E3 & E4 & E5 & E6).
      unfold data_eq. rewrite E1, E2, E3, E4, E5, E6. unfold q2, q1.
      repeat split; mem_solve. }
    split.
    { intros a Ha.
      assert (Hout : ~ In a (e :: concat bs)).
      { intros [<-|Hx]; apply Ha; [left; reflexivity|].
        right. apply in_or_app. left. exact Hx. }
      destruct (Hl a Hout) as (E1 & E2 & E3). rewrite E1, E2, E3.
      unfold q2, q1. repeat split; mem_solve. }
    repeat split; assumption.
  - set (q2 := set_id q1 e (equeue_incid q1 (to_int (- id (buffer q e))))).
    assert (Hlk : forall a,
               next (buffer q2 a) = next (buffer q a) /\
               sibling (buffer q2 a) = sibling (buffer q a) /\
               ref (buffer q2 a) = ref (buffer q a) /\
               size (buffer q2 a) = size (buffer q a) /\
               target (buffer q2 a) = target (buffer q a) /\
               period (buffer q2 a) = period (buffer q a) /\
               dtor (buffer q2 a) = dtor (buffer q a) /\
               cb (buffer q2 a) = cb (buffer q a) /\
               (a <> e -> id (buffer q2 a) = id (buffer q a))).
    { intros a. unfold q2, q1. mem_solve. }
    assert (Hid : id (buffer q2 e) =
                  equeue_incid q (to_int (- id (buffer q e)))).
    { unfold q2. mem_solve. }
    assert (Hf2 : free_wf q2 fs).
    { apply free_wf_links with (q := q); auto.
      intros a _. destruct (Hlk a) as (? & ? & _). auto. }
    destruct (equeue_dealloc_full fuel q2 e fs Hf2 Hfs Hlf)
      as (q' & Hd & Hwf & Hqq & Hcl & Hl & Hdt & Hn' & Hb' & Hss & Hsd).
    rewrite (free_insert_ext (buffer q) (buffer q2)) in *
      by (intros a; apply Hlk).
    exists q', bs, (free_insert (buffer q) e fs).
    split; [exact Hd|].
    split.
    { apply queue_wf_links with (q := q); auto.
      intros a Ha.
      assert (Hout : ~ In a (e :: concat fs)).
      { intros [<-|Hin']; [auto|]. eapply Hdis; eauto. }
      destruct (Hl a Hout) as (Hx & Hy & Hz).
      destruct (Hlk a) as (? & ? & ? & _). repeat split; congruence. }
    split; [exact Hwf|].
    destruct (NoDup_insert_middle _ _ e
                (free_insert_concat (buffer q) e fs)) as (_ & Hin); auto.
    { destruct Hf; assumption. }
    split.
    { intros x. split; [auto|]. intros [Hx|(_ & Hx)]; [exact Hx|lia]. }
    split.
    { intros x. rewrite Hin. split.
      - intros [->|Hx]; [right; split; [reflexivity|lia]|left; exact Hx].
      - intros [Hx|(-> & _)]; auto. }
    split.
    { rewrite (insert_middle_length _ _ e
                 (free_insert_concat (buffer q) e fs)). lia. }
    split.
    { destruct (Hdt e) as (_ & -> & _). exact Hid. }
    split; [intros Hp; lia|].
    split.
    { rewrite Hcl. destruct (Hlk e) as (_ & _ & _ & _ & _ & _ & -> & _).
      unfold q1. simpl. rewrite app_assoc. reflexivity. }
    split.
    { intros a Ha. destruct (Hdt a) as (E1 & E2 & E3 & E4 & E5 & E6).
      unfold data_eq. rewrite E1, E2, E3, E4, E5, E6. unfold q2, q1.
      repeat split; mem_solve. }
    split.
    { intros a Ha.
      assert (Hout : ~ In a (e :: concat fs)).
      { intros [<-|Hx]; apply Ha; [left; reflexivity|].
        right. apply in_or_app. right. exact Hx. }
      destruct (Hl a Hout) as (E1 & E2 & E3). rewrite E1, E2, E3.
      unfold q2, q1. repeat split; mem_solve. }
    repeat split; assumption.
Qed.

End Dispatch.


Lemma event_calls_ext sz m m' (l : list addr) :
  (forall x, In x l -> period (m' x) = period (m x) /\
                       dtor (m' x) = dtor (m x) /\ cb (m' x) = cb (m x)) ->
  flat_map (event_calls sz m') l = flat_map (event_calls sz m) l.
Proof.
  induction l as [|a l IH]; intros H; [reflexivity|].
  cbn [flat_map]. rewrite IH by (intros x Hx; apply H; right; exact Hx).
  f_equal. unfold event_calls.
  destruct (H a (or_introl eq_refl)) as (-> & -> & ->).
  reflexivity.
Qed.

Lemma concat_map_rev_perm (bs : list (list addr)) :
  Permutation (concat (map (@rev addr) bs)) (concat bs).
Proof.
  induction bs as [|b bs IH]; simpl; [constructor|].
  apply Permutation_app; [|exact IH].
  apply Permutation_sym. apply Permutation_rev.
Qed.

Lemma data_eq_trans x y z : data_eq x y -> data_eq y z -> data_eq x z.
Proof.
  unfold data_eq. intros (A1 & A2 & A3 & A4 & A5 & A6)
                         (B1 & B2 & B3 & B4 & B5 & B6).
  repeat split; congruence.
Qed.

Section DispatchPass.

Variable sizeof_event : Z.
Variable sizeof_ptr : Z.

(** The [while (es)] loop over the drained list [l]; the event number
    [j] of [l] is dispatched in iteration [j0 + j]. *)
Lemma dispatch_events_spec l : forall n fuel ticks j0 q es bs fs,
  next_chain (buffer q) es l -> NoDup l ->
  queue_wf q bs -> free_wf q fs ->
  (forall a, In a l -> ~ In a (concat bs) /\ ~ In a (concat fs)) ->
  (forall a, In a (concat bs) -> ~ In a (concat fs)) ->
  (length l < fuel)%nat ->
  (length (concat bs) + length (concat fs) + length l < n)%nat ->
  exists q' bs' fs',
    dispatch_events sizeof_event n fuel ticks j0 q es = Some q' /\
    queue_wf q' bs' /\ free_wf q' fs' /\
    (forall x, In x (concat bs') <->
               In x (concat bs) \/ (In x l /\ 0 <= period (buffer q x))) /\
    (forall x, In x (concat fs') <->
               In x (concat fs) \/ (In x l /\ period (buffer q x) < 0)) /\
    (forall x, In x l ->
               id (buffer q' x) =
               if period (buffer q x) >=? 0 then to_int (- id (buffer q x))
               else equeue_incid q (to_int (- id (buffer q x)))) /\
    (forall j x, nth_error l j = Some x -> 0 <= period (buffer q x) ->
                 target (buffer q' x) =
                   to_int (to_unsigned
                             (ticks (j0 + j)%nat +
                              to_unsigned (period (buffer q x))))) /\
    calls q' = calls q ++ flat_map (event_calls sizeof_event (buffer q)) l /\
    (forall a, ~ In a l -> data_eq (buffer q' a) (buffer q a)) /\
    (length (concat bs') + length (concat fs') =
     length (concat bs) + length (concat fs) + length l)%nat /\
    npw2 q' = npw2 q /\ breaks q' = breaks q /\
    slab_size q' = slab_size q /\ slab_data q' = slab_data q.
Proof.
  induction l as [|a l IH]; intros n fuel ticks j0 q es bs fs
    Hc Hnd Hq Hf Hout Hdis Hfuel Hn.
  - simpl in Hc. subst es. destruct fuel; [simpl in Hfuel; lia|].
    exists q, bs, fs. split; [reflexivity|]. split; [exact Hq|].
    split; [exact Hf|].
    split; [intros x; split; [auto|intros [H|([] & _)]; exact H]|].
    split; [intros x; split; [auto|intros [H|([] & _)]; exact H]|].
    split; [intros x []|].
    split; [intros [|j] x Hj; discriminate|].
    split; [simpl; rewrite app_nil_r; reflexivity|].
    split; [intros x _; unfold data_eq; repeat split|].
    split; [simpl; lia|].
    repeat split.
  - destruct Hc as (-> & Hc). destruct fuel; [simpl in Hfuel; lia|].
    inversion Hnd as [|? ? Ha Hnd']; subst.
    cbn [dispatch_events].
    destruct (Hout a (or_introl eq_refl)) as (Hab & Haf).
    assert (Hlb : (length bs < n)%nat).
    { destruct Hq as (Hbc & _).
      destruct (bucket_chain_lengths _ _ _ Hbc) as (H & _). lia. }
    assert (Hlf : (length fs < n)%nat).
    { destruct Hf as (Hbc & _).
      destruct (bucket_chain_lengths _ _ _ Hbc) as (H & _). lia. }
    destruct (dispatch_event_spec sizeof_event n (ticks j0) q a bs fs
                Hq Hf Hab Haf Hdis Hlb Hlf)
      as (q1 & bs1 & fs1 & He & Hq1 & Hf1 & Hin1 & Hfin1 & Hlen1 & Hid1
          & Htg1 & Hcl1 & Hd1 & Hl1 & Hn1 & Hb1 & Hs1 & Hsd1).
    rewrite He.
    assert (Hla : forall x, In x l -> x <> a) by (intros x Hx ->; auto).
    assert (Hc1 : next_chain (buffer q1) (next (buffer q a)) l).
    { apply next_chain_ext with (m := buffer q); [|exact Hc].
      intros x Hx. apply Hl1. intros [<-|Hin].
      - exact (Hla a Hx eq_refl).
      - destruct (Hout x (or_intror Hx)) as (H1 & H2).
        apply in_app_or in Hin. tauto. }
    assert (Hout1 : forall x, In x l ->
                              ~ In x (concat bs1) /\ ~ In x (concat fs1)).
    { intros x Hx. destruct (Hout x (or_intror Hx)) as (H1 & H2).
      pose proof (Hla x Hx) as Hne. split; intros Hin.
      - apply Hin1 in Hin. destruct Hin as [Hin|(Heq & _)]; auto.
      - apply Hfin1 in Hin. destruct Hin as [Hin|(Heq & _)]; auto. }
    assert (Hdis1 : forall x, In x (concat bs1) -> ~ In x (concat fs1)).
    { intros x Hb Hfx. apply Hin1 in Hb. apply Hfin1 in Hfx.
      destruct Hb as [Hb|(-> & Hp1)]; destruct Hfx as [Hfx|(Heq & Hp2)].
      - exact (Hdis x Hb Hfx).
      - subst x. auto.
      - auto.
      - lia. }
    destruct (IH n fuel ticks (S j0) q1 (next (buffer q a)) bs1 fs1
                Hc1 Hnd' Hq1 Hf1 Hout1 Hdis1)
      as (q' & bs' & fs' & Hev & Hq' & Hf' & Hin' & Hfin' & Hid' & Htg'
          & Hcl' & Hd' & Hlen' & Hn' & Hb' & Hs' & Hsd').
    { simpl in Hfuel. lia. }
    { simpl in Hn. lia. }
    exists q', bs', fs'. split; [exact Hev|]. split; [exact Hq'|].
    split; [exact Hf'|].
    assert (Hper : forall x, In x l ->
                             period (buffer q1 x) = period (buffer q x)).
    { intros x Hx. destruct (Hd1 x (Hla x Hx)) as (_ & _ & _ & H & _).
      exact H. }
    split.
    { intros x. rewrite Hin', Hin1. split.
      - intros [[H|(-> & H)]|(Hx & H)].
        + left; exact H.
        + right; split; [left; reflexivity|exact H].
        + right. split; [right; exact Hx|]. rewrite <- Hper; auto.
      - intros [H|([<-|Hx] & H)].
        + left; left; exact H.
        + left; right; auto.
        + right. split; [exact Hx|]. rewrite Hper; auto. }
    split.
    { intros x. rewrite Hfin', Hfin1. split.
      - intros [[H|(-> & H)]|(Hx & H)].
        + left; exact H.
        + right; split; [left; reflexivity|exact H].
        + right. split; [right; exact Hx|]. rewrite <- Hper; auto.
      - intros [H|([<-|Hx] & H)].
        + left; left; exact H.
        + left; right; auto.
        + right. split; [exact Hx|]. rewrite Hper; auto. }
    split.
    { intros x [<-|Hx].
      - destruct (Hd' a Ha) as (_ & -> & _). exact Hid1.
      - rewrite (Hid' x Hx), (Hper x Hx).
        destruct (Hd1 x (Hla x Hx)) as (_ & -> & _).
        unfold equeue_incid. rewrite Hn1. reflexivity. }
    split.
    { intros [|j] x Hj Hp; cbn [nth_error] in Hj.
      - injection Hj as <-. destruct (Hd' a Ha) as (_ & _ & -> & _).
        rewrite Nat.add_0_r. apply Htg1. exact Hp.
      - assert (Hx : In x l) by (eapply nth_error_In; eauto).
        rewrite <- (Hper x Hx) in Hp |- *.
        replace (j0 + S j)%nat with (S j0 + j)%nat by lia.
        apply Htg'; assumption. }
    split.
    { rewrite Hcl', Hcl1. cbn [flat_map]. rewrite <- app_assoc.
      f_equal. f_equal. apply event_calls_ext.
      intros x Hx.
      destruct (Hd1 x (Hla x Hx)) as (_ & _ & _ & E1 & E2 & E3). auto. }
    split.
    { intros x Hx. apply data_eq_trans with (y := buffer q1 x).
      - apply Hd'. intros H. apply Hx. right. exact H.
      - apply Hd1. intros ->. apply Hx. left. reflexivity. }
    split; [simpl; lia|].
    repeat split; congruence.
Qed.

(** One pass of the dispatcher over a well-formed queue. *)
Lemma dispatch_pass_spec fuel tick ticks q bs fs :
  queue_wf q bs -> free_wf q fs ->
  (forall a, In a (concat bs) -> ~ In a (concat fs)) ->
  (forall x, In x (concat bs) -> 0 < id (buffer q x) < 2 ^ 31) ->
  (length (concat bs) + length (concat fs) < fuel)%nat ->
  let now := to_unsigned tick in
  let due := fst (due_split (buffer q) now bs) in
  let rest := snd (due_split (buffer q) now bs) in
  let order := concat (map (@rev addr) due) in
  bs = due ++ rest /\
  Forall (fun b => match b with
                   | h :: _ =>
                     equeue_tickdiff (to_unsigned (target (buffer q h))) now
                     <= 0
                   | [] => False
                   end) due /\
  match rest with
  | (h :: _) :: _ =>
    equeue_tickdiff (to_unsigned (target (buffer q h))) now > 0
  | _ => True
  end /\
  exists q' bs' fs',
    equeue_dispatch_pass sizeof_event fuel tick ticks q =
      Some (q', dequeue_deadline (buffer q) now rest (-1)) /\
    calls q' =
      calls q ++ flat_map (event_calls sizeof_event (buffer q)) order /\
    queue_wf q' bs' /\ free_wf q' fs' /\
    (forall x, In x (concat bs') <->
               In x (concat rest) \/
               (In x (concat due) /\ 0 <= period (buffer q x))) /\
    (forall x, In x (concat fs') <->
               In x (concat fs) \/
               (In x (concat due) /\ period (buffer q x) < 0)) /\
    (forall x, In x (concat due) ->
               id (buffer q' x) =
               if period (buffer q x) >=? 0 then id (buffer q x)
               else equeue_incid q (id (buffer q x))) /\
    (forall j x, nth_error order j = Some x -> 0 <= period (buffer q x) ->
                 target (buffer q' x) =
                   to_int (to_unsigned
                             (ticks j +
                              to_unsigned (period (buffer q x))))) /\
    (forall a, ~ In a (concat due) -> data_eq (buffer q' a) (buffer q a)) /\
    (length (concat bs') + length (concat fs') =
     length (concat bs) + length (concat fs))%nat /\
    breaks q' = breaks q /\ npw2 q' = npw2 q.
Proof.
  intros Hq Hf Hdis Hids Hfuel now due rest order.
  pose proof (due_split_app (buffer q) now bs) as Happ.
  fold due rest in Happ.
  destruct (due_split_spec (buffer q) now bs) as (Hdue & Hrest).
  fold due rest in Hdue, Hrest.
  split; [exact Happ|]. split; [exact Hdue|]. split; [exact Hrest|].
  assert (Hperm : Permutation order (concat due))
    by apply concat_map_rev_perm.
  assert (Hcat : concat bs = concat due ++ concat rest).
  { rewrite Happ at 1. apply concat_app. }
  assert (Hnd : NoDup (concat due ++ concat rest)).
  { rewrite <- Hcat. destruct Hq as (_ & _ & H). exact H. }
  assert (Hord : forall x, In x order <-> In x (concat due)).
  { intros x. split; apply Permutation_in;
      [exact Hperm|apply Permutation_sym; exact Hperm]. }
  unfold equeue_dispatch_pass.
  destruct (queue q) as [h0|] eqn:Hq0.
  - assert (Hl0 : (length (concat bs) < fuel)%nat) by lia.
    destruct (equeue_dequeue_spec fuel tick q (-1) bs Hq Hl0)
      as (q1 & head & Hdq & Hch & Hq1 & Hck1 & Hso1).
    fold now due rest order in Hdq, Hch, Hq1.
    rewrite Hdq.
    assert (Hf1 : free_wf q1 fs).
    { apply free_wf_same_outside with (q := q) (l := concat bs); auto.
      intros a Ha Hb. exact (Hdis a Hb Ha). }
    destruct Hso1 as (Hl1 & Hd1 & Hn1 & Hb1 & Hs1 & Hsd1 & Hcl1).
    assert (Hndo : NoDup order).
    { apply Permutation_NoDup with (l := concat due).
      - apply Permutation_sym. exact Hperm.
      - eapply NoDup_app_l. exact Hnd. }
    assert (Hlo : (length order <= length (concat bs))%nat).
    { rewrite (Permutation_length Hperm), Hcat, length_app. lia. }
    destruct (dispatch_mark_spec order fuel q1 head Hch Hndo)
      as (q2 & Hm & Hin2 & Hout2 & Hf2 & Hr2); [lia|].
    rewrite Hm.
    destruct Hr2 as (R1 & R2 & R3 & R4 & R5 & R6 & R7).
    assert (Hq2 : queue_wf q2 rest).
    { apply queue_wf_links with (q := q1); [exact R1| |exact Hq1].
      intros a _. destruct (Hf2 a) as (? & ? & ? & _). auto. }
    assert (Hf2' : free_wf q2 fs).
    { apply free_wf_links with (q := q1); [exact R2| |exact Hf1].
      intros a _. destruct (Hf2 a) as (? & ? & _). auto. }
    assert (Hc2 : next_chain (buffer q2) head order).
    { apply next_chain_ext with (m := buffer q1); [|exact Hch].
      intros a _. apply Hf2. }
    assert (Hout : forall a, In a order ->
                             ~ In a (concat rest) /\ ~ In a (concat fs)).
    { intros a Ha. apply Hord in Ha. split.
      - exact (NoDup_app_disj _ _ a Hnd Ha).
      - apply Hdis. rewrite Hcat. apply in_or_app. left. exact Ha. }
    assert (Hdis2 : forall a, In a (concat rest) -> ~ In a (concat fs)).
    { intros a Ha. apply Hdis. rewrite Hcat. apply in_or_app. right.
      exact Ha. }
    destruct (dispatch_events_spec order fuel fuel ticks 0%nat q2 head
                rest fs Hc2 Hndo Hq2 Hf2' Hout Hdis2)
      as (q' & bs' & fs' & Hev & Hq' & Hf' & Hin' & Hfin' & Hid' & Htg'
          & Hcl' & Hd' & Hlen' & Hn' & Hb' & _).
    { lia. }
    { rewrite (Permutation_length Hperm).
      rewrite Hcat, length_app in Hfuel. lia. }
    rewrite Hev.
    assert (Hper : forall x, period (buffer q2 x) = period (buffer q x)).
    { intros x. destruct (Hf2 x) as (_ & _ & _ & _ & _ & -> & _).
      destruct (Hd1 x) as (_ & _ & _ & -> & _). reflexivity. }
    exists q', bs', fs'. split; [reflexivity|].
    split.
    { rewrite Hcl', R7, Hcl1. f_equal. apply event_calls_ext.
      intros x _. destruct (Hf2 x) as (_ & _ & _ & _ & _ & E1 & E2 & E3).
      destruct (Hd1 x) as (_ & _ & _ & F1 & F2 & F3).
      repeat split; congruence. }
    split; [exact Hq'|]. split; [exact Hf'|].
    split.
    { intros x. rewrite Hin', Hord, Hper. reflexivity. }
    split.
    { intros x. rewrite Hfin', Hord, Hper. reflexivity. }
    split.
    { intros x Hx. apply Hord in Hx. rewrite (Hid' x Hx), Hper.
      rewrite (Hin2 x Hx). destruct (Hd1 x) as (_ & -> & _).
      assert (Hr : 0 < id (buffer q x) < 2 ^ 31).
      { apply Hids. rewrite Hcat. apply in_or_app. left.
        apply Hord. exact Hx. }
      assert (E1 : to_int (- id (buffer q x)) = - id (buffer q x))
        by (apply to_int_small; unfold int_range; lia).
      rewrite E1, Z.opp_involutive.
      assert (E2 : to_int (id (buffer q x)) = id (buffer q x))
        by (apply to_int_small; unfold int_range; lia).
      rewrite E2. unfold equeue_incid. rewrite R3, Hn1. reflexivity. }
    split.
    { intros j x Hj Hp. rewrite <- (Hper x) in Hp |- *.
      apply (Htg' j x); assumption. }
    split.
    { intros a Ha. assert (Hao : ~ In a order) by (rewrite Hord; exact Ha).
      apply data_eq_trans with (y := buffer q2 a); [apply Hd'; exact Hao|].
      apply data_eq_trans with (y := buffer q1 a); [|apply Hd1].
      destruct (Hf2 a) as (_ & _ & _ & E1 & E2 & E3 & E4 & E5).
      pose proof (Hout2 a Hao). unfold data_eq. repeat split; assumption. }
    split.
    { rewrite Hlen', (Permutation_length Hperm), Hcat, length_app. lia. }
    split; congruence.
  - assert (Hbs : bs = []).
    { destruct Hq as (Hc & _). rewrite Hq0 in Hc.
      destruct bs as [|[|h s] bs']; simpl in Hc; try reflexivity;
        [contradiction|destruct Hc; discriminate]. }
    subst order due rest. subst bs. simpl in *.
    destruct fuel; [lia|]. cbn [dispatch_events].
    exists q, [], fs. split; [reflexivity|].
    split; [rewrite app_nil_r; reflexivity|].
    split; [exact Hq|]. split; [exact Hf|].
    split; [intros x; simpl; tauto|]. split; [intros x; simpl; tauto|].
    split; [intros x []|].
    split; [intros [|j] x Hj; discriminate|].
    split; [intros a _; unfold data_eq; repeat split|].
    split; [reflexivity|]. split; reflexivity.
Qed.

End DispatchPass.


Section DispatchLoop.

Variable sizeof_event : Z.
Variable sizeof_ptr : Z.

(** Without a timeout and without a break request the loop of
    [equeue_dispatch] goes from pass to pass: each of them completes and
    the dispatcher is still in its loop after any number of them. *)
Lemma dispatch_loop_forever n passes :
  forall now ticks check i q bs fs ms timeout,
  ms < 0 -> breaks q = 0 ->
  queue_wf q bs -> free_wf q fs ->
  (forall a, In a (concat bs) -> ~ In a (concat fs)) ->
  (forall x, In x (concat bs) -> 0 < id (buffer q x) < 2 ^ 31) ->
  (length (concat bs) + length (concat fs) < n)%nat ->
  exists q' bs' fs' fired,
    dispatch_loop sizeof_event n passes now ticks check i ms timeout q =
      Some (Looping q') /\
    queue_wf q' bs' /\ free_wf q' fs' /\
    (length (concat bs') + length (concat fs') =
     length (concat bs) + length (concat fs))%nat /\
    breaks q' = 0 /\ calls q' = calls q ++ fired.
Proof.
  induction passes as [|passes IH]; intros now ticks check i q bs fs ms
    timeout Hms Hbr Hq Hf Hdis Hids Hn.
  { exists q, bs, fs, []. split; [reflexivity|]. split; [exact Hq|].
    split; [exact Hf|]. split; [reflexivity|]. split; [exact Hbr|].
    rewrite app_nil_r. reflexivity. }
  cbn [dispatch_loop].
  destruct (dispatch_pass_spec sizeof_event n (now i) (ticks i) q bs fs
              Hq Hf Hdis Hids Hn)
    as (Happ & _ & _ & q1 & bs1 & fs1 & Hp & Hc1 & Hq1 & Hf1 & Hin & Hfin
        & Hid & _ & Hd & Hlen & Hb & _).
  set (tk := to_unsigned (now i)) in *.
  set (due := fst (due_split (buffer q) tk bs)) in *.
  set (rest := snd (due_split (buffer q) tk bs)) in *.
  rewrite Hp. cbn [fst snd]. unfold dispatch_timeout.
  destruct (Z.geb_spec ms 0) as [Hge|_]; [lia|].
  unfold dispatch_breaks. rewrite Hb, Hbr. cbn [Z.eqb negb].
  assert (Hcat : concat bs = concat due ++ concat rest).
  { rewrite Happ at 1. apply concat_app. }
  assert (Hnd : NoDup (concat due ++ concat rest)).
  { rewrite <- Hcat. destruct Hq as (_ & _ & H). exact H. }
  destruct (IH now ticks check (S i) q1 bs1 fs1 ms timeout)
    as (q' & bs' & fs' & fired & Hl & Hq' & Hf' & Hlen' & Hb' & Hc');
    auto.
  - congruence.
  - intros x Hx Hfx. apply Hin in Hx. apply Hfin in Hfx.
    destruct Hx as [Hx|(Hx & Hp1)]; destruct Hfx as [Hfx|(Hfx & Hp2)].
    + apply (Hdis x); [|exact Hfx]. rewrite Hcat. apply in_or_app. auto.
    + exact (NoDup_app_disj _ _ x Hnd Hfx Hx).
    + apply (Hdis x); [|exact Hfx]. rewrite Hcat. apply in_or_app. auto.
    + lia.
  - intros x Hx. apply Hin in Hx. destruct Hx as [Hx|(Hx & Hp1)].
    + assert (Hnx : ~ In x (concat due)).
      { intros H. exact (NoDup_app_disj _ _ x Hnd H Hx). }
      destruct (Hd x Hnx) as (_ & -> & _). apply Hids.
      rewrite Hcat. apply in_or_app. auto.
    + rewrite (Hid x Hx).
      destruct (Z.geb_spec (period (buffer q x)) 0); [|lia].
      apply Hids. rewrite Hcat. apply in_or_app. auto.
  - lia.
  - exists q', bs', fs', (flat_map (event_calls sizeof_event (buffer q))
                                   (concat (map (@rev addr) due)) ++ fired).
    split; [exact Hl|]. split; [exact Hq'|]. split; [exact Hf'|].
    split; [lia|]. split; [exact Hb'|].
    rewrite Hc', Hc1, app_assoc. reflexivity.
Qed.

(** X17.  One pass of the dispatcher; [tick] is the clock when the pass
    drains the queue and [ticks j] the clock when the event number [j] of
    the pass is retired.  The events fired are exactly those of the due
    buckets (the leading buckets whose deadline is not after [tick]),
    bucket after bucket in queue order and each bucket from its oldest
    member to its newest: the trace gains, for each of them in this
    order, its callback and, if the event is not periodic, its
    destructor.  Afterwards the queue holds the events that were not due
    and the periodic events that fired, with the ids they had and each
    with a deadline one period after the tick read when it was retired;
    the free list gained the one-shot events that fired, each with the
    next generation.  The deadline returned is the distance to the first
    bucket that was not due, or -1. *)
Theorem dispatch_pass_fires_due fuel tick ticks q bs fs :
  queue_wf q bs -> free_wf q fs ->
  (forall a, In a (concat bs) -> ~ In a (concat fs)) ->
  (forall x, In x (concat bs) -> 0 < id (buffer q x) < 2 ^ 31) ->
  (length (concat bs) + length (concat fs) < fuel)%nat ->
  let now := to_unsigned tick in
  let due := fst (due_split (buffer q) now bs) in
  let rest := snd (due_split (buffer q) now bs) in
  let order := concat (map (@rev addr) due) in
  bs = due ++ rest /\
  Forall (fun b => match b with
                   | h :: _ =>
                     equeue_tickdiff (to_unsigned (target (buffer q h))) now
                     <= 0
                   | [] => False
                   end) due /\
  match rest with
  | (h :: _) :: _ =>
    equeue_tickdiff (to_unsigned (target (buffer q h))) now > 0
  | _ => True
  end /\
  exists q' bs' fs',
    equeue_dispatch_pass sizeof_event fuel tick ticks q =
      Some (q', dequeue_deadline (buffer q) now rest (-1)) /\
    calls q' =
      calls q ++ flat_map (event_calls sizeof_event (buffer q)) order /\
    queue_wf q' bs' /\ free_wf q' fs' /\
    (forall x, In x (concat bs') <->
               In x (concat rest) \/
               (In x (concat due) /\ 0 <= period (buffer q x))) /\
    (forall x, In x (concat fs') <->
               In x (concat fs) \/
               (In x (concat due) /\ period (buffer q x) < 0)) /\
    (forall x, In x (concat due) ->
               id (buffer q' x) =
               if period (buffer q x) >=? 0 then id (buffer q x)
               else equeue_incid q (id (buffer q x))) /\
    (forall j x, nth_error order j = Some x -> 0 <= period (buffer q x) ->
                 target (buffer q' x) =
                   to_int (to_unsigned
                             (ticks j +
                              to_unsigned (period (buffer q x))))) /\
    (forall a, ~ In a (concat due) -> data_eq (buffer q' a) (buffer q a)) /\
    breaks q' = breaks q /\ npw2 q' = npw2 q.
Proof.
  intros Hq Hf Hdis Hids Hfuel now due rest order.
  destruct (dispatch_pass_spec sizeof_event fuel tick ticks q bs fs
              Hq Hf Hdis Hids Hfuel)
    as (H1 & H2 & H3 & q' & bs' & fs' & Hp & Hc & Hq' & Hf' & Hin & Hfin
        & Hid & Htg & Hd & _ & Hb & Hn).
  split; [exact H1|]. split; [exact H2|]. split; [exact H3|].
  exists q', bs', fs'. split; [exact Hp|]. split; [exact Hc|].
  split; [exact Hq'|]. split; [exact Hf'|]. split; [exact Hin|].
  split; [exact Hfin|]. split; [exact Hid|]. split; [exact Htg|].
  split; [exact Hd|]. split; [exact Hb|exact Hn].
Qed.

(** X18.  [equeue_dispatch(q, ms)] with [ms >= 0] returns at the end of
    its first pass, without waiting, when the timeout check of that pass
    finds the timeout reached: in particular [equeue_dispatch(q, 0)]
    dispatches what is due and returns.  The state it leaves is the one
    that pass leaves; no break request is consumed. *)
Theorem dispatch_returns_at_timeout fuel passes start now ticks check q bs
        fs ms :
  queue_wf q bs -> free_wf q fs ->
  (forall a, In a (concat bs) -> ~ In a (concat fs)) ->
  (forall x, In x (concat bs) -> 0 < id (buffer q x) < 2 ^ 31) ->
  (length (concat bs) + length (concat fs) < fuel)%nat ->
  (0 < passes)%nat ->
  0 <= ms ->
  equeue_tickdiff (to_unsigned (start + ms)) (to_unsigned (check 0%nat))
    <= 0 ->
  exists q' dl,
    equeue_dispatch_pass sizeof_event fuel (now 0%nat) (ticks 0%nat) q =
      Some (q', dl) /\
    equeue_dispatch sizeof_event fuel passes start now ticks check q ms =
      Some (Returned q') /\
    breaks q' = breaks q.
Proof.
  intros Hq Hf Hdis Hids Hfuel Hpa Hms Hto.
  destruct (dispatch_pass_spec sizeof_event fuel (now 0%nat) (ticks 0%nat)
              q bs fs Hq Hf Hdis Hids Hfuel)
    as (_ & _ & _ & q' & bs' & fs' & Hp & _ & _ & _ & _ & _ & _ & _ & _
        & _ & Hb & _).
  eexists q', _. split; [exact Hp|]. split; [|exact Hb].
  unfold equeue_dispatch. destruct passes; [lia|].
  cbn [dispatch_loop]. rewrite Hp. unfold dispatch_timeout.
  destruct (Z.geb_spec ms 0) as [_|Hlt]; [|lia].
  destruct (Z.leb_spec
              (equeue_tickdiff (to_unsigned (start + ms))
                               (to_unsigned (check 0%nat))) 0); [|lia].
  reflexivity.
Qed.

(** X19.  [equeue_break] makes the dispatcher return: after
    [equeue_break(q)], a call of [equeue_dispatch] whose timeout is not
    reached runs one pass, consumes the break request and returns, so the
    count of pending breaks is back to what it was before
    [equeue_break]; every other field is as the pass left it. *)
Theorem break_stops_dispatch fuel passes start now ticks check q bs fs ms :
  queue_wf q bs -> free_wf q fs ->
  (forall a, In a (concat bs) -> ~ In a (concat fs)) ->
  (forall x, In x (concat bs) -> 0 < id (buffer q x) < 2 ^ 31) ->
  (length (concat bs) + length (concat fs) < fuel)%nat ->
  (0 < passes)%nat ->
  0 <= breaks q < 2 ^ 31 - 1 ->
  (0 <= ms ->
   equeue_tickdiff (to_unsigned (start + ms)) (to_unsigned (check 0%nat))
   > 0) ->
  exists q1 dl q',
    equeue_dispatch_pass sizeof_event fuel (now 0%nat) (ticks 0%nat)
                         (equeue_break q) = Some (q1, dl) /\
    equeue_dispatch sizeof_event fuel passes start now ticks check
                    (equeue_break q) ms = Some (Returned q') /\
    breaks q1 = breaks q + 1 /\ breaks q' = breaks q /\
    buffer q' = buffer q1 /\ queue q' = queue q1 /\
    chunks q' = chunks q1 /\ calls q' = calls q1 /\
    npw2 q' = npw2 q1 /\ slab_size q' = slab_size q1 /\
    slab_data q' = slab_data q1.
Proof.
  intros Hq Hf Hdis Hids Hfuel Hpa Hbr Hto.
  assert (Hbk : breaks (equeue_break q) = breaks q + 1).
  { unfold equeue_break. simpl. apply to_int_small. unfold int_range. lia. }
  destruct (dispatch_pass_spec sizeof_event fuel (now 0%nat) (ticks 0%nat)
              (equeue_break q) bs fs Hq Hf Hdis Hids Hfuel)
    as (_ & _ & _ & q1 & bs' & fs' & Hp & _ & _ & _ & _ & _ & _ & _ & _
        & _ & Hb & _).
  rewrite Hbk in Hb.
  eexists q1, _, _. split; [exact Hp|].
  unfold equeue_dispatch. destruct passes; [lia|].
  cbn [dispatch_loop]. rewrite Hp.
  assert (Ht : exists d,
             dispatch_timeout ms (to_unsigned (start + ms)) (check 0%nat)
               (dequeue_deadline (buffer (equeue_break q))
                  (to_unsigned (now 0%nat))
                  (snd (due_split (buffer (equeue_break q))
                                  (to_unsigned (now 0%nat)) bs)) (-1))
             = Some d).
  { unfold dispatch_timeout. destruct (Z.geb_spec ms 0) as [Hge|_].
    - specialize (Hto Hge).
      destruct (Z.leb_spec
                  (equeue_tickdiff (to_unsigned (start + ms))
                                   (to_unsigned (check 0%nat))) 0); [lia|].
      destruct (_ || _); eauto.
    - eauto. }
  destruct Ht as (d & ->).
  unfold dispatch_breaks.
  destruct (Z.eqb_spec (breaks q1) 0) as [|_]; [lia|]. cbn [negb].
  destruct (Z.gtb_spec (breaks q1) 0) as [_|]; [|lia].
  split; [reflexivity|]. split; [exact Hb|].
  split.
  { simpl. rewrite Hb. replace (breaks q + 1 - 1) with (breaks q) by lia.
    apply to_int_small. unfold int_range. lia. }
  repeat split.
Qed.

(** X20.  With a negative [ms] and no break request pending,
    [equeue_dispatch] does not return by itself: whatever the clock
    reads, every pass completes and after any number of passes the
    dispatcher is still in its loop, with a well-formed queue and free
    list over the same chunks, no break request, and a trace that
    extends the one it started with.  (The sequential model lets nothing
    post or break while the dispatcher sleeps.) *)
Theorem dispatch_waits_for_break fuel passes start now ticks check q bs fs
        ms :
  queue_wf q bs -> free_wf q fs ->
  (forall a, In a (concat bs) -> ~ In a (concat fs)) ->
  (forall x, In x (concat bs) -> 0 < id (buffer q x) < 2 ^ 31) ->
  (length (concat bs) + length (concat fs) < fuel)%nat ->
  ms < 0 -> breaks q = 0 ->
  exists q' bs' fs' fired,
    equeue_dispatch sizeof_event fuel passes start now ticks check q ms =
      Some (Looping q') /\
    queue_wf q' bs' /\ free_wf q' fs' /\
    (length (concat bs') + length (concat fs') =
     length (concat bs) + length (concat fs))%nat /\
    breaks q' = 0 /\ calls q' = calls q ++ fired.
Proof.
  intros Hq Hf Hdis Hids Hfuel Hms Hbr.
  unfold equeue_dispatch.
  apply (dispatch_loop_forever fuel passes now ticks check 0%nat q bs fs);
    auto.
Qed.

End DispatchLoop.


Lemma free_take_none m sz fs :
  Forall (bucket_small m sz) fs -> (forall b, In b fs -> b <> []) ->
  free_take m sz fs = None.
Proof.
  induction fs as [|[|h s] fs IH]; intros Hs Hne; [reflexivity| |].
  - exfalso. apply (Hne []); [left|]; reflexivity.
  - inversion Hs as [|? ? Hb Hs']; subst. simpl in Hb. cbn [free_take].
    destruct (Z.leb_spec sz (size (m h))); [lia|].
    rewrite IH; auto. intros b Hb'. apply Hne. right. exact Hb'.
Qed.

Lemma bucket_chain_nonnil m bs : forall p,
  bucket_chain m p bs -> forall b, In b bs -> b <> [].
Proof.
  induction bs as [|b0 bs IH]; intros p Hc b Hb; [contradiction|].
  destruct b0 as [|h s]; [contradiction|].
  destruct Hc as (_ & _ & Hc). destruct Hb as [<-|Hb]; [discriminate|].
  eapply IH; eauto.
Qed.

(** ** Simple callbacks *)

Section Calls.

Variable sizeof_event : Z.
Variable sizeof_ptr : Z.
Variable sizeof_ecallback : Z.
Variable ecallback_dispatch_fn : Z.

Lemma equeue_call_with fuel tick q pl cb_ data :
  equeue_call sizeof_event sizeof_ptr sizeof_ecallback ecallback_dispatch_fn
              fuel tick q pl cb_ data =
  call_with sizeof_event sizeof_ptr sizeof_ecallback ecallback_dispatch_fn
            fuel tick q pl None None cb_ data.
Proof. reflexivity. Qed.

Lemma equeue_call_in_with fuel tick q pl ms cb_ data :
  equeue_call_in sizeof_event sizeof_ptr sizeof_ecallback
                 ecallback_dispatch_fn fuel tick q pl ms cb_ data =
  call_with sizeof_event sizeof_ptr sizeof_ecallback ecallback_dispatch_fn
            fuel tick q pl (Some ms) None cb_ data.
Proof. reflexivity. Qed.

Lemma equeue_call_every_with fuel tick q pl ms cb_ data :
  equeue_call_every sizeof_event sizeof_ptr sizeof_ecallback
                    ecallback_dispatch_fn fuel tick q pl ms cb_ data =
  call_with sizeof_event sizeof_ptr sizeof_ecallback ecallback_dispatch_fn
            fuel tick q pl (Some ms) (Some ms) cb_ data.
Proof. reflexivity. Qed.

(** A successful [equeue_alloc] on a queue in use hands out an event that
    is neither queued nor free, with a valid generation and an offset
    that fits the handle. *)
Lemma alloc_fresh_event fuel q sz bs fs :
  queue_wf q bs -> free_wf q fs ->
  (forall a, In a (concat bs) -> ~ In a (concat fs)) ->
  chunks_ok q bs fs ->
  let req := alloc_size sizeof_event sizeof_ptr sz in
  0 < req ->
  (Forall (bucket_small (buffer q) req) fs -> req <= slab_size q) ->
  (length fs < fuel)%nat ->
  exists q1 (e : addr) (fs1 : list (list addr)),
    equeue_alloc sizeof_event sizeof_ptr fuel q sz =
      Some (q1, Some (e + sizeof_event)) /\
    ~ In e (concat bs) /\ ~ In e (concat fs1) /\
    0 <= e < 2 ^ npw2 q /\ valid_id q (id (buffer q1 e)) /\
    target (buffer q1 e) = 0 /\ period (buffer q1 e) = -1 /\
    dtor (buffer q1 e) = None /\
    queue_wf q1 bs /\ free_wf q1 fs1 /\
    (forall y, In y (concat fs1) -> In y (concat fs)) /\
    (length fs1 <= length fs)%nat /\
    (forall a, a <> e -> data_eq (buffer q1 a) (buffer q a)) /\
    npw2 q1 = npw2 q /\ calls q1 = calls q /\ breaks q1 = breaks q.
Proof.
  intros Hq Hf Hdis (Hn & Hfv & Hs0 & Hs1 & Hsb & Hsf) req Hreq Hfit Hl.
  destruct (equeue_alloc_spec sizeof_event sizeof_ptr fuel q sz fs Hf Hl)
    as (q1 & r & Ha & Hm & Hnew & Hdat & Hlk & Hnx & Hqq & Hnp & Hbr & Hcl).
  fold req in Hm.
  assert (Hq1 : queue_wf q1 bs).
  { apply queue_wf_links with (q := q); [exact Hqq| |exact Hq].
    intros a Ha'. destruct (Hlk a) as (E1 & E2).
    split; [apply Hnx; apply Hdis; exact Ha'|]. auto. }
  pose proof (free_take_spec (buffer q) req fs) as Hsp.
  destruct (free_take (buffer q) req fs) as [[e fs']|] eqn:Ht.
  - destruct Hm as (-> & Hf' & Hse & Hie & _).
    destruct Hsp as (pre & sibs & post & Hfs & _ & _ & Hfs').
    assert (Hef : In e (concat fs)).
    { rewrite Hfs, concat_app. apply in_or_app. right. simpl. auto. }
    assert (Hcat : concat fs' = concat pre ++ sibs ++ concat post).
    { rewrite Hfs', concat_app. destruct sibs; reflexivity. }
    destruct Hf as (_ & Hnd). rewrite Hfs in Hnd.
    rewrite concat_app in Hnd. cbn [concat] in Hnd.
    change ((e :: sibs) ++ concat post) with (e :: sibs ++ concat post)
      in Hnd.
    exists q1, e, fs'. split; [exact Ha|].
    split; [intros H; exact (Hdis e H Hef)|].
    split; [rewrite Hcat; apply NoDup_remove_2 in Hnd; exact Hnd|].
    destruct (Hfv e Hef) as (Hr & Hv).
    split; [exact Hr|]. split; [rewrite Hie; exact Hv|].
    destruct (Hnew e eq_refl) as (E1 & E2 & E3 & _).
    split; [exact E1|]. split; [exact E2|]. split; [exact E3|].
    split; [exact Hq1|]. split; [exact Hf'|].
    split.
    { intros y. rewrite Hcat, Hfs, concat_app. cbn [concat].
      intros Hy. apply in_app_or in Hy. apply in_or_app.
      destruct Hy as [Hy|Hy]; [auto|]. right. simpl. right. exact Hy. }
    split.
    { rewrite Hfs', Hfs, !length_app. destruct sibs; simpl; lia. }
    split.
    { intros a Hne. apply Hdat. intros [= H]. apply Hne. lia. }
    auto.
  - assert (Hfits : req <= slab_size q).
    { apply Hfit. exact Hsp. }
    destruct (Z.leb_spec req (slab_size q)) as [_|]; [|lia].
    destruct Hm as (-> & Hf' & Hse & Hie & _).
    exists q1, (slab_data q), fs. split; [exact Ha|].
    split; [exact Hsb|]. split; [exact Hsf|].
    split; [lia|].
    split.
    { rewrite Hie. unfold valid_id. split; [lia|].
      change 1 with (2 ^ 0) at 1. apply Z.pow_lt_mono_r; lia. }
    destruct (Hnew (slab_data q) eq_refl) as (E1 & E2 & E3 & _).
    split; [exact E1|]. split; [exact E2|]. split; [exact E3|].
    split; [exact Hq1|]. split; [exact Hf'|]. split; [auto|].
    split; [lia|].
    split.
    { intros a Hne. apply Hdat. intros [= H]. apply Hne. lia. }
    auto.
Qed.

(** The event after allocation and configuration. *)
Lemma call_configured fuel q bs fs d pe :
  queue_wf q bs -> free_wf q fs ->
  (forall a, In a (concat bs) -> ~ In a (concat fs)) ->
  chunks_ok q bs fs ->
  let req := alloc_size sizeof_event sizeof_ptr sizeof_ecallback in
  0 < req ->
  (Forall (bucket_small (buffer q) req) fs -> req <= slab_size q) ->
  (length fs < fuel)%nat ->
  exists q1 (e : addr) (fs1 : list (list addr)),
    equeue_alloc sizeof_event sizeof_ptr fuel q sizeof_ecallback =
      Some (q1, Some (e + sizeof_event)) /\
    let q2 :=
      match pe with
      | Some ms =>
        equeue_event_period sizeof_event
          match d with
          | Some ms' => equeue_event_delay sizeof_event q1
                                           (e + sizeof_event) ms'
          | None => q1
          end (e + sizeof_event) ms
      | None =>
        match d with
        | Some ms' => equeue_event_delay sizeof_event q1
                                         (e + sizeof_event) ms'
        | None => q1
        end
      end in
    ~ In e (concat bs) /\ ~ In e (concat fs1) /\
    0 <= e < 2 ^ npw2 q2 /\ valid_id q2 (id (buffer q2 e)) /\
    0 <= npw2 q2 <= 30 /\
    target (buffer q2 e) = call_delay d /\
    period (buffer q2 e) = call_period pe /\
    dtor (buffer q2 e) = None /\
    queue_wf q2 bs /\ free_wf q2 fs1 /\
    (forall y, In y (concat fs1) -> In y (concat fs)) /\
    (length fs1 <= length fs)%nat /\
    (forall a, a <> e -> data_eq (buffer q2 a) (buffer q a)) /\
    npw2 q2 = npw2 q /\ calls q2 = calls q /\ breaks q2 = breaks q.
Proof.
  intros Hq Hf Hdis Hok req Hreq Hfit Hl.
  destruct (alloc_fresh_event fuel q sizeof_ecallback bs fs
              Hq Hf Hdis Hok Hreq Hfit Hl)
    as (q1 & e & fs1 & Ha & Hb & Hf1 & Hr & Hv & Ht & Hp & Hdt & Hq1 & Hfw
        & Hsub & Hlen & Hd & Hn & Hc & Hbr).
  exists q1, e, fs1. split; [exact Ha|]. intros q2.
  assert (Hlk : forall a,
             next (buffer q2 a) = next (buffer q1 a) /\
             sibling (buffer q2 a) = sibling (buffer q1 a) /\
             ref (buffer q2 a) = ref (buffer q1 a) /\
             size (buffer q2 a) = size (buffer q1 a) /\
             id (buffer q2 a) = id (buffer q1 a) /\
             dtor (buffer q2 a) = dtor (buffer q1 a) /\
             cb (buffer q2 a) = cb (buffer q1 a) /\
             (a <> e -> target (buffer q2 a) = target (buffer q1 a) /\
                        period (buffer q2 a) = period (buffer q1 a))).
  { intros a. unfold q2, equeue_event_period, equeue_event_delay.
    replace (e + sizeof_event - sizeof_event) with e by lia.
    destruct pe, d; repeat split; mem_solve. }
  assert (Hsc : queue q2 = queue q1 /\ chunks q2 = chunks q1 /\
                npw2 q2 = npw2 q1 /\ calls q2 = calls q1 /\
                breaks q2 = breaks q1).
  { unfold q2. destruct pe, d; repeat split. }
  destruct Hsc as (S1 & S2 & S3 & S4 & S5).
  destruct Hok as (Hn30 & _).
  split; [exact Hb|]. split; [exact Hf1|].
  split; [rewrite S3, Hn; exact Hr|].
  split.
  { destruct (Hlk e) as (_ & _ & _ & _ & -> & _).
    unfold valid_id in *. rewrite S3, Hn. exact Hv. }
  split; [rewrite S3, Hn; exact Hn30|].
  split.
  { unfold q2, equeue_event_period, equeue_event_delay, call_delay.
    replace (e + sizeof_event - sizeof_event) with e by lia.
    destruct pe, d; try exact Ht; mem_solve. }
  split.
  { unfold q2, equeue_event_period, equeue_event_delay, call_period.
    replace (e + sizeof_event - sizeof_event) with e by lia.
    destruct pe, d; try exact Hp; mem_solve. }
  split; [destruct (Hlk e) as (_ & _ & _ & _ & _ & -> & _); exact Hdt|].
  split.
  { apply queue_wf_links with (q := q1); [exact S1| |exact Hq1].
    intros a _. destruct (Hlk a) as (? & ? & ? & _). auto. }
  split.
  { apply free_wf_links with (q := q1); [exact S2| |exact Hfw].
    intros a _. destruct (Hlk a) as (? & ? & _). auto. }
  split; [exact Hsub|]. split; [exact Hlen|].
  split.
  { intros a Hne. destruct (Hlk a) as (_ & _ & _ & E1 & E2 & E3 & E4 & E5).
    destruct (E5 Hne) as (E6 & E7).
    destruct (Hd a Hne) as (F1 & F2 & F3 & F4 & F5 & F6).
    unfold data_eq. repeat split; congruence. }
  repeat split; congruence.
Qed.

(** Allocation succeeds and the delay is not negative: the event is
    queued. *)
Lemma call_with_queued fuel tick q pl bs fs d pe cb_ data :
  queue_wf q bs -> free_wf q fs ->
  (forall a, In a (concat bs) -> ~ In a (concat fs)) ->
  chunks_ok q bs fs ->
  let req := alloc_size sizeof_event sizeof_ptr sizeof_ecallback in
  0 < req ->
  (Forall (bucket_small (buffer q) req) fs -> req <= slab_size q) ->
  (length bs < fuel)%nat -> (length fs < fuel)%nat ->
  0 <= call_delay d ->
  let tgt := to_int (to_unsigned (tick + to_unsigned (call_delay d))) in
  exists q' (e : addr) h,
    call_with sizeof_event sizeof_ptr sizeof_ecallback ecallback_dispatch_fn
              fuel tick q pl d pe cb_ data =
      Some (q', store_ecallback pl (e + sizeof_event) cb_ data, h) /\
    h <> 0 /\ cancel_chunk q' h = e /\
    Z.shiftr h (npw2 q') = id (buffer q' e) /\
    ~ In e (concat bs) /\
    queue_wf q' (queue_insert (buffer q) tgt e bs) /\
    (forall x, In x (concat (queue_insert (buffer q) tgt e bs)) <->
               x = e \/ In x (concat bs)) /\
    target (buffer q' e) = tgt /\
    period (buffer q' e) = call_period pe /\
    dtor (buffer q' e) = None /\
    cb (buffer q' e) = Some ecallback_dispatch_fn /\
    calls q' = calls q.
Proof.
  intros Hq Hf Hdis Hok req Hreq Hfit Hlb Hlf Hd tgt.
  destruct (call_configured fuel q bs fs d pe Hq Hf Hdis Hok Hreq Hfit Hlf)
    as (q1 & e & fs1 & Ha & Hb & Hf1 & Hr & Hv & Hn30 & Ht & Hp & Hdt & Hq2
        & Hfw & Hsub & Hlen & Hdat & Hn & Hc & Hbr).
  cbv zeta in Hb, Hf1, Hr, Hv, Hn30, Ht, Hp, Hdt, Hq2, Hfw, Hdat, Hn, Hc, Hbr.
  set (q2 := match pe with
             | Some ms => _
             | None => _
             end) in *.
  unfold call_with. rewrite Ha. cbv zeta. fold q2.
  pose proof (equeue_post_queued sizeof_event fuel tick q2
                (Some ecallback_dispatch_fn) (e + sizeof_event) bs) as Hpost.
  cbv zeta in Hpost.
  replace (e + sizeof_event - sizeof_event) with e in Hpost by lia.
  rewrite Ht in Hpost.
  destruct (Hpost Hd Hq2 Hb Hlb)
    as (q' & Hpo & Hq' & Hin & Htg & Hcb & Hid & _ & Hper & Hdt' & _ & _ & _
        & Hcl & Hnp & _).
  fold tgt in Hq', Hin, Htg.
  assert (Hins : queue_insert (buffer q2) tgt e bs =
                 queue_insert (buffer q) tgt e bs).
  { apply queue_insert_ext. intros a Ha'.
    assert (a <> e) by (intros ->; auto).
    destruct (Hdat a H) as (_ & _ & E & _). exact E. }
  rewrite Hins in Hq', Hin.
  rewrite Hpo. cbn [fst snd].
  destruct (post_handle_pos q2 e Hn30 Hv Hr) as (Hval & Hpos).
  destruct (handle_decode (npw2 q2) _ e Hn30 Hv Hr) as (_ & Hc1 & Hs1 & _).
  exists q', e, (post_handle q2 e). split; [reflexivity|].
  split; [lia|].
  split; [unfold cancel_chunk; rewrite Hnp, Hval; exact Hc1|].
  split; [rewrite Hnp, Hval, Hid; exact Hs1|].
  split; [exact Hb|]. split; [exact Hq'|]. split; [exact Hin|].
  split; [exact Htg|]. split; [rewrite Hper; exact Hp|].
  split; [rewrite Hdt'; exact Hdt|]. split; [exact Hcb|].
  rewrite Hcl. exact Hc.
Qed.

(** Allocation succeeds and the delay is negative: the event is freed at
    once. *)
Lemma call_with_dropped fuel tick q pl bs fs d pe cb_ data :
  queue_wf q bs -> free_wf q fs ->
  (forall a, In a (concat bs) -> ~ In a (concat fs)) ->
  chunks_ok q bs fs ->
  let req := alloc_size sizeof_event sizeof_ptr sizeof_ecallback in
  0 < req ->
  (Forall (bucket_small (buffer q) req) fs -> req <= slab_size q) ->
  (length fs < fuel)%nat ->
  call_delay d < 0 ->
  exists q' (e : addr) h (fs' : list (list addr)),
    call_with sizeof_event sizeof_ptr sizeof_ecallback ecallback_dispatch_fn
              fuel tick q pl d pe cb_ data =
      Some (q', store_ecallback pl (e + sizeof_event) cb_ data, h) /\
    h <> 0 /\ cancel_chunk q' h = e /\
    Z.shiftr h (npw2 q') = id (buffer q' e) /\
    ~ In e (concat bs) /\
    target (buffer q' e) = call_delay d /\
    cb (buffer q' e) = Some ecallback_dispatch_fn /\
    queue_wf q' bs /\ free_wf q' fs' /\ In e (concat fs') /\
    (forall y, In y (concat fs') -> y = e \/ In y (concat fs)) /\
    calls q' = calls q.
Proof.
  intros Hq Hf Hdis Hok req Hreq Hfit Hlf Hd.
  destruct (call_configured fuel q bs fs d pe Hq Hf Hdis Hok Hreq Hfit Hlf)
    as (q1 & e & fs1 & Ha & Hb & Hf1 & Hr & Hv & Hn30 & Ht & Hp & Hdt & Hq2
        & Hfw & Hsub & Hlen & Hdat & Hn & Hc & Hbr).
  cbv zeta in Hb, Hf1, Hr, Hv, Hn30, Ht, Hp, Hdt, Hq2, Hfw, Hdat, Hn, Hc, Hbr.
  set (q2 := match pe with
             | Some ms => _
             | None => _
             end) in *.
  unfold call_with. rewrite Ha. cbv zeta. fold q2.
  unfold equeue_post.
  replace (e + sizeof_event - sizeof_event) with e by lia.
  set (q3 := set_cb q2 e (Some ecallback_dispatch_fn)).
  assert (Hlk : forall a,
             next (buffer q3 a) = next (buffer q2 a) /\
             sibling (buffer q3 a) = sibling (buffer q2 a) /\
             ref (buffer q3 a) = ref (buffer q2 a) /\
             target (buffer q3 a) = target (buffer q2 a) /\
             dtor (buffer q3 a) = dtor (buffer q2 a)).
  { intros a. unfold q3. mem_solve. }
  destruct (Hlk e) as (_ & _ & _ & -> & _). rewrite Ht.
  destruct (Z.ltb_spec (call_delay d) 0) as [_|]; [|lia].
  assert (Hf3 : free_wf q3 fs1) by (apply free_wf_set_cb; exact Hfw).
  assert (Hl3 : (length fs1 < fuel)%nat) by lia.
  destruct (equeue_dealloc_full sizeof_event fuel q3 e fs1 Hf3 Hf1 Hl3)
    as (q' & Hde & Hwf & Hqq & Hcl & Hl & Hdd & Hnp & _).
  rewrite Hde. cbn [fst snd].
  destruct (post_handle_pos q2 e Hn30 Hv Hr) as (Hval & Hpos).
  destruct (handle_decode (npw2 q2) _ e Hn30 Hv Hr) as (_ & Hc1 & Hs1 & _).
  assert (Hnp2 : npw2 q' = npw2 q2) by exact Hnp.
  destruct (Hdd e) as (_ & Hid & Htg & _ & _ & Hcb).
  assert (Hid2 : id (buffer q' e) = id (buffer q2 e)).
  { rewrite Hid. unfold q3. mem_solve. }
  assert (Htg2 : target (buffer q' e) = call_delay d).
  { rewrite Htg, <- Ht. unfold q3. mem_solve. }
  assert (Hcb2 : cb (buffer q' e) = Some ecallback_dispatch_fn).
  { rewrite Hcb. unfold q3. mem_solve. }
  exists q', e, (post_handle q2 e), (free_insert (buffer q3) e fs1).
  split; [reflexivity|]. split; [lia|].
  split; [unfold cancel_chunk; rewrite Hnp2, Hval; exact Hc1|].
  split; [rewrite Hnp2, Hval, Hid2; exact Hs1|].
  split; [exact Hb|]. split; [exact Htg2|]. split; [exact Hcb2|].
  destruct (NoDup_insert_middle _ _ e
              (free_insert_concat (buffer q3) e fs1)) as (_ & Hin); auto.
  { destruct Hfw; assumption. }
  split.
  { apply queue_wf_links with (q := q2); [exact Hqq| |exact Hq2].
    intros a Ha'.
    assert (Hout : ~ In a (e :: concat fs1)).
    { intros [<-|Hx]; [auto|]. apply (Hdis a Ha'). apply Hsub. exact Hx. }
    destruct (Hl a Hout) as (E1 & E2 & E3).
    destruct (Hlk a) as (F1 & F2 & F3 & _). repeat split; congruence. }
  split; [exact Hwf|]. split; [apply Hin; auto|].
  split.
  { intros y Hy. apply Hin in Hy. destruct Hy as [->|Hy]; auto. }
  rewrite Hcl. destruct (Hlk e) as (_ & _ & _ & _ & ->). rewrite Hdt.
  simpl. rewrite app_nil_r. exact Hc.
Qed.

(** X21.  Out of memory: when no bucket of the free list fits an
    [ecallback] event and the slab is too small, [equeue_call],
    [equeue_call_in] and [equeue_call_every] return the handle 0 and
    change neither the queue nor any payload. *)
Theorem call_out_of_memory fuel tick q pl ms cb_ data fs :
  free_wf q fs -> (length fs < fuel)%nat ->
  let req := alloc_size sizeof_event sizeof_ptr sizeof_ecallback in
  Forall (bucket_small (buffer q) req) fs -> slab_size q < req ->
  equeue_call sizeof_event sizeof_ptr sizeof_ecallback ecallback_dispatch_fn
              fuel tick q pl cb_ data = Some (q, pl, 0) /\
  equeue_call_in sizeof_event sizeof_ptr sizeof_ecallback
                 ecallback_dispatch_fn fuel tick q pl ms cb_ data =
    Some (q, pl, 0) /\
  equeue_call_every sizeof_event sizeof_ptr sizeof_ecallback
                    ecallback_dispatch_fn fuel tick q pl ms cb_ data =
    Some (q, pl, 0).
Proof.
  intros Hf Hl req Hsm Hslab.
  destruct (equeue_alloc_spec sizeof_event sizeof_ptr fuel q
              sizeof_ecallback fs Hf Hl) as (q1 & r & Ha & Hm & _).
  fold req in Hm.
  rewrite (free_take_none (buffer q) req fs Hsm) in Hm.
  2: { destruct Hf as (Hc & _). eapply bucket_chain_nonnil; eauto. }
  destruct (Z.leb_spec req (slab_size q)); [lia|].
  destruct Hm as (-> & ->).
  unfold equeue_call, equeue_call_in, equeue_call_every. rewrite Ha.
  repeat split.
Qed.

(** X22.  [equeue_call] on a queue with room for the event: the handle is
    not 0 and decodes to the event; the event is queued for the current
    tick as a one-shot event without destructor whose callback is
    [ecallback_dispatch], and its payload holds the user's function and
    argument; nothing is called yet. *)
Theorem call_posts_event fuel tick q pl bs fs cb_ data :
  queue_wf q bs -> free_wf q fs ->
  (forall a, In a (concat bs) -> ~ In a (concat fs)) ->
  chunks_ok q bs fs ->
  let req := alloc_size sizeof_event sizeof_ptr sizeof_ecallback in
  0 < req ->
  (Forall (bucket_small (buffer q) req) fs -> req <= slab_size q) ->
  (length bs < fuel)%nat -> (length fs < fuel)%nat ->
  let tgt := to_int (to_unsigned tick) in
  exists q' pl' (e : addr) h,
    equeue_call sizeof_event sizeof_ptr sizeof_ecallback
                ecallback_dispatch_fn fuel tick q pl cb_ data =
      Some (q', pl', h) /\
    h <> 0 /\ cancel_chunk q' h = e /\ ~ In e (concat bs) /\
    queue_wf q' (queue_insert (buffer q) tgt e bs) /\
    target (buffer q' e) = tgt /\ period (buffer q' e) = -1 /\
    dtor (buffer q' e) = None /\
    cb (buffer q' e) = Some ecallback_dispatch_fn /\
    pl' (e + sizeof_event) = mkEcallback cb_ data /\
    (forall x, x <> e + sizeof_event -> pl' x = pl x) /\
    calls q' = calls q.
Proof.
  intros Hq Hf Hdis Hok req Hreq Hfit Hlb Hlf tgt.
  destruct (call_with_queued fuel tick q pl bs fs None None cb_ data
              Hq Hf Hdis Hok Hreq Hfit Hlb Hlf)
    as (q' & e & h & Hc & Hh & Hdec & _ & Hb & Hq' & _ & Ht & Hp & Hd & Hcb
        & Hcl); [simpl; lia|].
  simpl call_delay in *. simpl call_period in *.
  change (to_unsigned 0) with 0 in *. rewrite Z.add_0_r in *.
  rewrite equeue_call_with, Hc.
  exists q', (store_ecallback pl (e + sizeof_event) cb_ data), e, h.
  split; [reflexivity|]. split; [exact Hh|]. split; [exact Hdec|].
  split; [exact Hb|]. split; [exact Hq'|]. split; [exact Ht|].
  split; [exact Hp|]. split; [exact Hd|]. split; [exact Hcb|].
  unfold store_ecallback.
  split; [rewrite Z.eqb_refl; reflexivity|].
  split; [|exact Hcl].
  intros x Hx. destruct (Z.eqb_spec x (e + sizeof_event)); [contradiction|].
  reflexivity.
Qed.

(** X23.  [equeue_call_in] with a delay [0 <= ms < 2^31] on a queue with
    room for the event: the event is queued for tick [tick + ms] (modulo
    2^32) as a one-shot event, the handle is not 0 and decodes to the
    event, and the payload holds the user's function and argument. *)
Theorem call_in_posts_event fuel tick q pl bs fs ms cb_ data :
  queue_wf q bs -> free_wf q fs ->
  (forall a, In a (concat bs) -> ~ In a (concat fs)) ->
  chunks_ok q bs fs ->
  let req := alloc_size sizeof_event sizeof_ptr sizeof_ecallback in
  0 < req ->
  (Forall (bucket_small (buffer q) req) fs -> req <= slab_size q) ->
  (length bs < fuel)%nat -> (length fs < fuel)%nat ->
  0 <= ms < 2 ^ 31 ->
  let tgt := to_int (to_unsigned (tick + ms)) in
  exists q' pl' (e : addr) h,
    equeue_call_in sizeof_event sizeof_ptr sizeof_ecallback
                   ecallback_dispatch_fn fuel tick q pl ms cb_ data =
      Some (q', pl', h) /\
    h <> 0 /\ cancel_chunk q' h = e /\ ~ In e (concat bs) /\
    queue_wf q' (queue_insert (buffer q) tgt e bs) /\
    target (buffer q' e) = tgt /\ period (buffer q' e) = -1 /\
    cb (buffer q' e) = Some ecallback_dispatch_fn /\
    pl' (e + sizeof_event) = mkEcallback cb_ data /\
    calls q' = calls q.
Proof.
  intros Hq Hf Hdis Hok req Hreq Hfit Hlb Hlf Hms tgt.
  destruct (call_with_queued fuel tick q pl bs fs (Some ms) None cb_ data
              Hq Hf Hdis Hok Hreq Hfit Hlb Hlf)
    as (q' & e & h & Hc & Hh & Hdec & _ & Hb & Hq' & _ & Ht & Hp & Hd & Hcb
        & Hcl); [simpl; lia|].
  simpl call_delay in *. simpl call_period in *.
  assert (Hu : to_unsigned ms = ms).
  { unfold to_unsigned. apply Z.mod_small. lia. }
  rewrite Hu in *.
  rewrite equeue_call_in_with, Hc.
  exists q', (store_ecallback pl (e + sizeof_event) cb_ data), e, h.
  split; [reflexivity|]. split; [exact Hh|]. split; [exact Hdec|].
  split; [exact Hb|]. split; [exact Hq'|]. split; [exact Ht|].
  split; [exact Hp|]. split; [exact Hcb|].
  split; [|exact Hcl].
  unfold store_ecallback. rewrite Z.eqb_refl. reflexivity.
Qed.

(** X24.  [equeue_call_every] with a period [0 <= ms < 2^31] on a queue
    with room for the event: the event is queued for tick [tick + ms]
    with period [ms], so that the dispatcher re-enqueues it each time it
    fires; the handle is not 0 and decodes to the event. *)
Theorem call_every_posts_event fuel tick q pl bs fs ms cb_ data :
  queue_wf q bs -> free_wf q fs ->
  (forall a, In a (concat bs) -> ~ In a (concat fs)) ->
  chunks_ok q bs fs ->
  let req := alloc_size sizeof_event sizeof_ptr sizeof_ecallback in
  0 < req ->
  (Forall (bucket_small (buffer q) req) fs -> req <= slab_size q) ->
  (length bs < fuel)%nat -> (length fs < fuel)%nat ->
  0 <= ms < 2 ^ 31 ->
  let tgt := to_int (to_unsigned (tick + ms)) in
  exists q' pl' (e : addr) h,
    equeue_call_every sizeof_event sizeof_ptr sizeof_ecallback
                      ecallback_dispatch_fn fuel tick q pl ms cb_ data =
      Some (q', pl', h) /\
    h <> 0 /\ cancel_chunk q' h = e /\ ~ In e (concat bs) /\
    queue_wf q' (queue_insert (buffer q) tgt e bs) /\
    target (buffer q' e) = tgt /\ period (buffer q' e) = ms /\
    cb (buffer q' e) = Some ecallback_dispatch_fn /\
    pl' (e + sizeof_event) = mkEcallback cb_ data /\
    calls q' = calls q.
Proof.
  intros Hq Hf Hdis Hok req Hreq Hfit Hlb Hlf Hms tgt.
  destruct (call_with_queued fuel tick q pl bs fs (Some ms) (Some ms)
              cb_ data Hq Hf Hdis Hok Hreq Hfit Hlb Hlf)
    as (q' & e & h & Hc & Hh & Hdec & _ & Hb & Hq' & _ & Ht & Hp & Hd & Hcb
        & Hcl); [simpl; lia|].
  simpl call_delay in *. simpl call_period in *.
  assert (Hu : to_unsigned ms = ms).
  { unfold to_unsigned. apply Z.mod_small. lia. }
  rewrite Hu in *.
  rewrite equeue_call_every_with, Hc.
  exists q', (store_ecallback pl (e + sizeof_event) cb_ data), e, h.
  split; [reflexivity|]. split; [exact Hh|]. split; [exact Hdec|].
  split; [exact Hb|]. split; [exact Hq'|]. split; [exact Ht|].
  split; [exact Hp|]. split; [exact Hcb|].
  split; [|exact Hcl].
  unfold store_ecallback. rewrite Z.eqb_refl. reflexivity.
Qed.

(** X25.  A negative delay drops the call: [equeue_call_in] and
    [equeue_call_every] with [ms < 0] allocate an event [e], store the
    user's function and argument in its payload and return its handle,
    which is not 0 and decodes to [e] and to the generation [e] carries;
    but [e], which was not queued, is freed at once with its delay [ms]
    and [ecallback_dispatch] as its callback still in the header.  The
    queue holds what it held before, the free list gains at most [e] and
    no user function is called. *)
Theorem call_negative_dropped fuel tick q pl bs fs ms cb_ data :
  queue_wf q bs -> free_wf q fs ->
  (forall a, In a (concat bs) -> ~ In a (concat fs)) ->
  chunks_ok q bs fs ->
  let req := alloc_size sizeof_event sizeof_ptr sizeof_ecallback in
  0 < req ->
  (Forall (bucket_small (buffer q) req) fs -> req <= slab_size q) ->
  (length fs < fuel)%nat ->
  ms < 0 ->
  (exists q' h (e : addr) (fs' : list (list addr)),
      equeue_call_in sizeof_event sizeof_ptr sizeof_ecallback
                     ecallback_dispatch_fn fuel tick q pl ms cb_ data =
        Some (q', store_ecallback pl (e + sizeof_event) cb_ data, h) /\
      h <> 0 /\ cancel_chunk q' h = e /\
      Z.shiftr h (npw2 q') = id (buffer q' e) /\
      ~ In e (concat bs) /\
      target (buffer q' e) = ms /\
      cb (buffer q' e) = Some ecallback_dispatch_fn /\
      queue_wf q' bs /\ free_wf q' fs' /\ In e (concat fs') /\
      (forall y, In y (concat fs') -> y = e \/ In y (concat fs)) /\
      calls q' = calls q) /\
  (exists q' h (e : addr) (fs' : list (list addr)),
      equeue_call_every sizeof_event sizeof_ptr sizeof_ecallback
                        ecallback_dispatch_fn fuel tick q pl ms cb_ data =
        Some (q', store_ecallback pl (e + sizeof_event) cb_ data, h) /\
      h <> 0 /\ cancel_chunk q' h = e /\
      Z.shiftr h (npw2 q') = id (buffer q' e) /\
      ~ In e (concat bs) /\
      target (buffer q' e) = ms /\
      cb (buffer q' e) = Some ecallback_dispatch_fn /\
      queue_wf q' bs /\ free_wf q' fs' /\ In e (concat fs') /\
      (forall y, In y (concat fs') -> y = e \/ In y (concat fs)) /\
      calls q' = calls q).
Proof.
  intros Hq Hf Hdis Hok req Hreq Hfit Hlf Hms. split.
  - destruct (call_with_dropped fuel tick q pl bs fs (Some ms) None cb_ data
                Hq Hf Hdis Hok Hreq Hfit Hlf Hms)
      as (q' & e & h & fs' & Hc & Hrest).
    rewrite equeue_call_in_with, Hc.
    exists q', h, e, fs'. exact (conj eq_refl Hrest).
  - destruct (call_with_dropped fuel tick q pl bs fs (Some ms) (Some ms)
                cb_ data Hq Hf Hdis Hok Hreq Hfit Hlf Hms)
      as (q' & e & h & fs' & Hc & Hrest).
    rewrite equeue_call_every_with, Hc.
    exists q', h, e, fs'. exact (conj eq_refl Hrest).
Qed.

End Calls.

(** ** Generations *)

(** [equeue_incid] on a valid generation, as arithmetic: the successor,
    or 1 after the last generation [2^(31 - npw2) - 1]. *)
Lemma equeue_incid_step q i :
  0 <= npw2 q <= 30 -> valid_id q i ->
  equeue_incid q i = if i + 1 <? 2 ^ (31 - npw2 q) then i + 1 else 1.
Proof.
  intros Hn Hv. destruct (equeue_incid_spec q i Hn Hv) as (-> & _).
  unfold valid_id in Hv. rewrite Z.shiftl_mul_pow2 by lia.
  assert (Hp : 2 ^ 31 = 2 ^ (31 - npw2 q) * 2 ^ npw2 q).
  { rewrite <- Z.pow_add_r by lia. f_equal. lia. }
  assert (Hpos : 0 < 2 ^ npw2 q) by (apply Z.pow_pos_nonneg; lia).
  destruct (Z.leb_spec (2 ^ 31) ((i + 1) * 2 ^ npw2 q)) as [Hle|Hgt];
    destruct (Z.ltb_spec (i + 1) (2 ^ (31 - npw2 q))) as [Hlt|Hge];
    try reflexivity; exfalso; nia.
Qed.

(** X26.  The generations of a chunk form a cycle of length
    [N = 2^(31 - npw2) - 1]: applying [equeue_incid] [k] times to a valid
    generation [i] gives [(i - 1 + k) mod N + 1].  So a generation comes
    back after exactly [N] retirements of the chunk and not before: a
    handle kept that long names the new occupant. *)
Theorem incid_cycle q i k :
  0 <= npw2 q <= 30 -> valid_id q i ->
  let N := 2 ^ (31 - npw2 q) - 1 in
  Nat.iter k (equeue_incid q) i = (i - 1 + Z.of_nat k) mod N + 1 /\
  Nat.iter (Z.to_nat N) (equeue_incid q) i = i /\
  (forall j, (0 < j)%nat -> Z.of_nat j < N ->
             Nat.iter j (equeue_incid q) i <> i).
Proof.
  intros Hn Hv N.
  assert (HN : 1 <= N).
  { unfold N. assert (2 ^ 1 <= 2 ^ (31 - npw2 q))
      by (apply Z.pow_le_mono_r; lia).
    change (2 ^ 1) with 2 in *. lia. }
  assert (Hi : 1 <= i <= N) by (unfold valid_id, N in *; lia).
  assert (Hiter : forall n,
             Nat.iter n (equeue_incid q) i = (i - 1 + Z.of_nat n) mod N + 1).
  { induction n as [|n IH].
    - simpl. rewrite Z.add_0_r, Z.mod_small by lia. lia.
    - rewrite Nat.iter_succ, IH.
      set (j := (i - 1 + Z.of_nat n) mod N).
      assert (Hj : 0 <= j < N) by (apply Z.mod_pos_bound; lia).
      rewrite equeue_incid_step; [|exact Hn|unfold valid_id; fold N; lia].
      replace (i - 1 + Z.of_nat (S n)) with (i - 1 + Z.of_nat n + 1) by lia.
      rewrite <- Zplus_mod_idemp_l. fold j.
      destruct (Z.ltb_spec (j + 1 + 1) (2 ^ (31 - npw2 q))) as [Hlt|Hge].
      + rewrite Z.mod_small by (unfold N; lia). reflexivity.
      + assert (j + 1 = N) by (unfold N in *; lia).
        replace (j + 1) with N by lia. rewrite Z.mod_same by lia.
        reflexivity. }
  split; [apply Hiter|]. split.
  - rewrite Hiter, Z2Nat.id by lia.
    replace (i - 1 + N) with (i - 1 + 1 * N) by lia.
    rewrite Z.mod_add, Z.mod_small by lia. lia.
  - intros j Hj HjN. rewrite Hiter. intros Heq.
    assert (Hm : (i - 1 + Z.of_nat j) mod N = i - 1) by lia.
    destruct (Z_lt_le_dec (i - 1 + Z.of_nat j) N) as [Hlt|Hge].
    + rewrite Z.mod_small in Hm by lia. lia.
    + replace (i - 1 + Z.of_nat j)
        with (i - 1 + Z.of_nat j - N + 1 * N) in Hm by lia.
      rewrite Z.mod_add, Z.mod_small in Hm by lia. lia.
Qed.

(** ** Witnesses of the further properties *)


(** Witness of X2: across the wrap of the counter: ten ticks after 2^32 - 5. *)
Lemma tickdiff_wraps_witness :
  (int_range 10) /\
  (equeue_tickdiff (to_unsigned (4294967291 + 10)) (to_unsigned 4294967291) = 10 /\
    (10 <> - 2 ^ 31 ->
     equeue_tickdiff (to_unsigned 4294967291) (to_unsigned (4294967291 + 10)) = - 10)).
Proof.
  assert (H1 : int_range 10)
    by (num_solve).
  split; [exact H1|].
  exact (tickdiff_wraps 4294967291 10 H1).
Defined.

(** Witness of X3: the allocated event at offset 64 joins the queue that
    holds the event at 128. *)
Lemma enqueue_keeps_backptr_witness :
  (queue_wf busy_state [[128]] /\
   ~ In 64 (concat [[128]]) /\
   (length [[128]] < 4)%nat) /\
  (exists q',
      equeue_enqueue 4 0 busy_state 64 5 = Some q' /\
      backptr_ok q' 64 /\
      (forall x, In x (concat [[128]]) -> backptr_ok q' x) /\
      target (buffer q' 64) = to_int (to_unsigned (0 + 5)) /\
      (size (buffer q' 64) = size (buffer busy_state 64) /\
       id (buffer q' 64) = id (buffer busy_state 64) /\
       period (buffer q' 64) = period (buffer busy_state 64) /\
       dtor (buffer q' 64) = dtor (buffer busy_state 64) /\
       cb (buffer q' 64) = cb (buffer busy_state 64)) /\
      (forall a, a <> 64 -> data_eq (buffer q' a) (buffer busy_state a)) /\
      (forall a, a <> 64 -> ~ In a (concat [[128]]) ->
                 next (buffer q' a) = next (buffer busy_state a) /\
                 sibling (buffer q' a) = sibling (buffer busy_state a) /\
                 ref (buffer q' a) = ref (buffer busy_state a)) /\
      chunks q' = chunks busy_state /\ calls q' = calls busy_state /\
      npw2 q' = npw2 busy_state /\ breaks q' = breaks busy_state /\
      slab_size q' = slab_size busy_state /\ slab_data q' = slab_data busy_state).
Proof.
  assert (H1 : queue_wf busy_state [[128]])
    by (queue_wf_solve).
  assert (H2 : ~ In 64 (concat [[128]]))
    by (simpl; lia).
  assert (H3 : (length [[128]] < 4)%nat)
    by (simpl; lia).
  split; [exact (conj H1 (conj H2 H3))|].
  exact (enqueue_keeps_backptr 4 0 busy_state 64 5 ([[128]]) H1 H2 H3).
Defined.

(** Witness of X4: at tick 10 the first bucket of three posted events is
    drained. *)
Lemma dequeue_keeps_backptr_witness :
  (queue_wf three_posted_state [[128; 0]; [64]] /\
   (length (concat [[128; 0]; [64]]) < 4)%nat) /\
  (exists q' head dl' due rest,
      equeue_dequeue 4 10 three_posted_state (-1) = Some (q', head, dl') /\
      [[128; 0]; [64]] = due ++ rest /\
      queue_wf q' rest /\
      (forall x, In x (concat rest) -> backptr_ok q' x) /\
      (forall a, data_eq (buffer q' a) (buffer three_posted_state a)) /\
      (forall a, ~ In a (concat [[128; 0]; [64]]) ->
                 next (buffer q' a) = next (buffer three_posted_state a) /\
                 sibling (buffer q' a) = sibling (buffer three_posted_state a) /\
                 ref (buffer q' a) = ref (buffer three_posted_state a)) /\
      chunks q' = chunks three_posted_state /\ calls q' = calls three_posted_state /\
      ([[128; 0]; [64]] = [] -> head = None /\ dl' = (-1) /\ queue q' = None)).
Proof.
  assert (H1 : queue_wf three_posted_state [[128; 0]; [64]])
    by (queue_wf_solve).
  assert (H2 : (length (concat [[128; 0]; [64]]) < 4)%nat)
    by (simpl; lia).
  split; [exact (conj H1 H2)|].
  exact (dequeue_keeps_backptr 4 10 three_posted_state ((-1)) ([[128; 0]; [64]]) H1 H2).
Defined.

(** Witness of X5: unqueuing the head B of the first bucket of three posted
    events. *)
Lemma unqueue_keeps_backptr_witness :
  let rest := (@nil (list addr)) ++ match (@nil addr) ++ [0] with | [] => [[64]] | _ :: _ => ((@nil addr) ++ [0]) :: [[64]] end in
  (queue_wf three_posted_state ((@nil (list addr)) ++ ((@nil addr) ++ 128 :: [0]) :: [[64]]) /\
   ((@nil addr) <> [] -> next (buffer three_posted_state 128) = None)) /\
  (exists q',
      equeue_unqueue three_posted_state 128 = Some q' /\
      queue_wf q' rest /\ ~ In 128 (concat rest) /\
      (forall x, In x (concat rest) -> backptr_ok q' x) /\
      (forall a, data_eq (buffer q' a) (buffer three_posted_state a)) /\
      (forall a, ~ In a (concat ((@nil (list addr)) ++ ((@nil addr) ++ 128 :: [0]) :: [[64]])) ->
                 next (buffer q' a) = next (buffer three_posted_state a) /\
                 sibling (buffer q' a) = sibling (buffer three_posted_state a) /\
                 ref (buffer q' a) = ref (buffer three_posted_state a)) /\
      chunks q' = chunks three_posted_state /\ calls q' = calls three_posted_state /\
      npw2 q' = npw2 three_posted_state /\ breaks q' = breaks three_posted_state /\
      slab_size q' = slab_size three_posted_state /\ slab_data q' = slab_data three_posted_state).
Proof.
  intros rest.
  assert (H1 : queue_wf three_posted_state ((@nil (list addr)) ++ ((@nil addr) ++ 128 :: [0]) :: [[64]]))
    by (queue_wf_solve).
  assert (H2 : ((@nil addr) <> [] -> next (buffer three_posted_state 128) = None))
    by (intros H; exfalso; apply H; reflexivity).
  split; [exact (conj H1 H2)|].
  exact (unqueue_keeps_backptr three_posted_state ((@nil (list addr))) ((@nil addr)) 128 ([0]) ([[64]]) H1 H2).
Defined.

(** Witness of X6: the 8-byte event at offset 64 is freed and an 8-byte
    event is allocated. *)
Lemma dealloc_alloc_roundtrip_witness :
  let e := 120 - 56 in
  (free_wf busy_state [[0]] /\
   ~ In e (concat [[0]]) /\
   (length [[0]] < 4)%nat /\
   alloc_size 56 8 8 = size (buffer busy_state e)) /\
  (exists q1 q2,
      equeue_dealloc 56 4 busy_state 120 = Some q1 /\
      equeue_alloc 56 8 (S 4) q1 8 = Some (q2, Some 120) /\
      free_wf q2 [[0]] /\
      size (buffer q2 e) = size (buffer busy_state e) /\
      id (buffer q2 e) = id (buffer busy_state e) /\
      target (buffer q2 e) = 0 /\ period (buffer q2 e) = -1 /\
      dtor (buffer q2 e) = None /\
      slab_size q2 = slab_size q1 /\ slab_data q2 = slab_data q1 /\
      calls q2 = calls busy_state ++ match dtor (buffer busy_state e) with
                            | Some d => [(d, 120)]
                            | None => []
                            end).
Proof.
  intros e.
  assert (H1 : free_wf busy_state [[0]])
    by (free_wf_solve).
  assert (H2 : ~ In e (concat [[0]]))
    by (simpl; lia).
  assert (H3 : (length [[0]] < 4)%nat)
    by (simpl; lia).
  assert (H4 : alloc_size 56 8 8 = size (buffer busy_state e))
    by (num_solve).
  split; [exact (conj H1 (conj H2 (conj H3 H4)))|].
  exact (dealloc_alloc_roundtrip 56 8 4 busy_state 120 8 ([[0]]) H1 H2 H3 H4).
Defined.

(** Witness of X7: one free chunk of 64 bytes and a request of 8 bytes. *)
Lemma alloc_best_fit_witness :
  (free_wf (run_state stale_header_run) [[0]] /\
   free_sorted (buffer (run_state stale_header_run)) [[0]] /\
   (length [[0]] < 4)%nat /\
   In 0 (concat [[0]]) /\
   alloc_size 56 8 8 <= size (buffer (run_state stale_header_run) 0)) /\
  (exists q' e fs',
      equeue_alloc 56 8 4 (run_state stale_header_run) 8 =
        Some (q', Some (e + 56)) /\
      In e (concat [[0]]) /\
      alloc_size 56 8 8 <= size (buffer (run_state stale_header_run) e) /\
      (forall y, In y (concat [[0]]) ->
                 alloc_size 56 8 8 <= size (buffer (run_state stale_header_run) y) ->
                 size (buffer (run_state stale_header_run) e) <= size (buffer (run_state stale_header_run) y)) /\
      free_wf q' fs' /\ free_sorted (buffer q') fs' /\ ~ In e (concat fs') /\
      (forall y, In y (concat fs') -> In y (concat [[0]])) /\
      slab_size q' = slab_size (run_state stale_header_run) /\ slab_data q' = slab_data (run_state stale_header_run)).
Proof.
  assert (H1 : free_wf (run_state stale_header_run) [[0]])
    by (free_wf_solve).
  assert (H2 : free_sorted (buffer (run_state stale_header_run)) [[0]])
    by (vm_compute; repeat split; intros x []).
  assert (H3 : (length [[0]] < 4)%nat)
    by (simpl; lia).
  assert (H4 : In 0 (concat [[0]]))
    by (simpl; lia).
  assert (H5 : alloc_size 56 8 8 <= size (buffer (run_state stale_header_run) 0))
    by (num_solve).
  split; [exact (conj H1 (conj H2 (conj H3 (conj H4 H5))))|].
  exact (alloc_best_fit 56 8 4 ((run_state stale_header_run)) 8 ([[0]]) 0 H1 H2 H3 H4 H5).
Defined.

(** Witness of X8: the event at offset 64 joins the free chunk of its size
    at offset 0. *)
Lemma dealloc_keeps_sorted_witness :
  let e := 120 - 56 in
  let fs1 := free_insert (buffer busy_state) e [[0]] in
  (free_wf busy_state [[0]] /\
   free_sorted (buffer busy_state) [[0]] /\
   ~ In e (concat [[0]]) /\
   (length [[0]] < 4)%nat) /\
  (exists q',
      equeue_dealloc 56 4 busy_state 120 = Some q' /\
      free_wf q' fs1 /\ free_sorted (buffer q') fs1 /\
      (forall y, In y (concat fs1) <-> y = e \/ In y (concat [[0]])) /\
      queue q' = queue busy_state /\
      (forall a, data_eq (buffer q' a) (buffer busy_state a)) /\
      (forall a, a <> e -> ~ In a (concat [[0]]) ->
                 next (buffer q' a) = next (buffer busy_state a) /\
                 sibling (buffer q' a) = sibling (buffer busy_state a) /\
                 ref (buffer q' a) = ref (buffer busy_state a)) /\
      calls q' = calls busy_state ++ match dtor (buffer busy_state e) with
                            | Some d => [(d, 120)]
                            | None => []
                            end).
Proof.
  intros e fs1.
  assert (H1 : free_wf busy_state [[0]])
    by (free_wf_solve).
  assert (H2 : free_sorted (buffer busy_state) [[0]])
    by (vm_compute; repeat split; intros x []).
  assert (H3 : ~ In e (concat [[0]]))
    by (simpl; lia).
  assert (H4 : (length [[0]] < 4)%nat)
    by (simpl; lia).
  split; [exact (conj H1 (conj H2 (conj H3 H4)))|].
  exact (dealloc_keeps_sorted 56 4 busy_state 120 ([[0]]) H1 H2 H3 H4).
Defined.

(** Witness of X9: cancelling B, the head of the first bucket of three
    posted events. *)
Lemma cancel_pending_event_witness :
  (queue_wf three_posted_state ((@nil (list addr)) ++ ((@nil addr) ++ 128 :: [0]) :: [[64]]) /\
   free_wf three_posted_state (@nil (list addr)) /\
   (forall a, In a (concat ((@nil (list addr)) ++ ((@nil addr) ++ 128 :: [0]) :: [[64]])) -> ~ In a (concat (@nil (list addr)))) /\
   ((@nil addr) <> [] -> next (buffer three_posted_state 128) = None) /\
   0 <= npw2 three_posted_state <= 30 /\
   0 <= 128 < 2 ^ npw2 three_posted_state /\
   valid_id three_posted_state (id (buffer three_posted_state 128)) /\
   (length (@nil (list addr)) < 4)%nat) /\
  (exists q',
      equeue_cancel 56 4 three_posted_state
                    (Z.lor (Z.shiftl (id (buffer three_posted_state 128)) (npw2 three_posted_state)) 128) = Some q' /\
      queue_wf q' ((@nil (list addr)) ++ match (@nil addr) ++ [0] with
                          | [] => [[64]]
                          | _ :: _ => ((@nil addr) ++ [0]) :: [[64]]
                          end) /\
      free_wf q' (free_insert (buffer three_posted_state) 128 (@nil (list addr))) /\
      In 128 (concat (free_insert (buffer three_posted_state) 128 (@nil (list addr)))) /\
      id (buffer q' 128) = equeue_incid three_posted_state (id (buffer three_posted_state 128)) /\
      calls q' = calls three_posted_state ++ match dtor (buffer three_posted_state 128) with
                            | Some d => [(d, 128 + 56)]
                            | None => []
                            end /\
      (forall a, a <> 128 -> data_eq (buffer q' a) (buffer three_posted_state a))).
Proof.
  assert (H1 : queue_wf three_posted_state ((@nil (list addr)) ++ ((@nil addr) ++ 128 :: [0]) :: [[64]]))
    by (queue_wf_solve).
  assert (H2 : free_wf three_posted_state (@nil (list addr)))
    by (free_wf_solve).
  assert (H3 : (forall a, In a (concat ((@nil (list addr)) ++ ((@nil addr) ++ 128 :: [0]) :: [[64]])) -> ~ In a (concat (@nil (list addr)))))
    by (simpl; lia).
  assert (H4 : ((@nil addr) <> [] -> next (buffer three_posted_state 128) = None))
    by (intros H; exfalso; apply H; reflexivity).
  assert (H5 : 0 <= npw2 three_posted_state <= 30)
    by (num_solve).
  assert (H6 : 0 <= 128 < 2 ^ npw2 three_posted_state)
    by (num_solve).
  assert (H7 : valid_id three_posted_state (id (buffer three_posted_state 128)))
    by (num_solve).
  assert (H8 : (length (@nil (list addr)) < 4)%nat)
    by (simpl; lia).
  split; [exact (conj H1 (conj H2 (conj H3 (conj H4 (conj H5 (conj H6 (conj H7 H8)))))))|].
  exact (cancel_pending_event 56 4 three_posted_state ((@nil (list addr))) ((@nil addr)) 128 ([0]) ([[64]]) ((@nil (list addr))) H1 H2 H3 H4 H5 H6 H7 H8).
Defined.

(** Witness of X10: cancelling B twice. *)
Lemma cancel_twice_noop_witness :
  let h := Z.lor (Z.shiftl (id (buffer three_posted_state 128)) (npw2 three_posted_state)) 128 in
  (queue_wf three_posted_state ((@nil (list addr)) ++ ((@nil addr) ++ 128 :: [0]) :: [[64]]) /\
   free_wf three_posted_state (@nil (list addr)) /\
   (forall a, In a (concat ((@nil (list addr)) ++ ((@nil addr) ++ 128 :: [0]) :: [[64]])) -> ~ In a (concat (@nil (list addr)))) /\
   ((@nil addr) <> [] -> next (buffer three_posted_state 128) = None) /\
   0 <= npw2 three_posted_state <= 29 /\
   0 <= 128 < 2 ^ npw2 three_posted_state /\
   valid_id three_posted_state (id (buffer three_posted_state 128)) /\
   (length (@nil (list addr)) < 4)%nat) /\
  (exists q',
      equeue_cancel 56 4 three_posted_state h = Some q' /\
      equeue_cancel 56 4 q' h = Some q').
Proof.
  intros h.
  assert (H1 : queue_wf three_posted_state ((@nil (list addr)) ++ ((@nil addr) ++ 128 :: [0]) :: [[64]]))
    by (queue_wf_solve).
  assert (H2 : free_wf three_posted_state (@nil (list addr)))
    by (free_wf_solve).
  assert (H3 : (forall a, In a (concat ((@nil (list addr)) ++ ((@nil addr) ++ 128 :: [0]) :: [[64]])) -> ~ In a (concat (@nil (list addr)))))
    by (simpl; lia).
  assert (H4 : ((@nil addr) <> [] -> next (buffer three_posted_state 128) = None))
    by (intros H; exfalso; apply H; reflexivity).
  assert (H5 : 0 <= npw2 three_posted_state <= 29)
    by (num_solve).
  assert (H6 : 0 <= 128 < 2 ^ npw2 three_posted_state)
    by (num_solve).
  assert (H7 : valid_id three_posted_state (id (buffer three_posted_state 128)))
    by (num_solve).
  assert (H8 : (length (@nil (list addr)) < 4)%nat)
    by (simpl; lia).
  split; [exact (conj H1 (conj H2 (conj H3 (conj H4 (conj H5 (conj H6 (conj H7 H8)))))))|].
  exact (cancel_twice_noop 56 4 4 three_posted_state ((@nil (list addr))) ((@nil addr)) 128 ([0]) ([[64]]) ((@nil (list addr))) H1 H2 H3 H4 H5 H6 H7 H8).
Defined.

(** Witness of X11: a handle of generation 2 for the chunk at offset 64,
    whose generation is 1. *)
Lemma cancel_stale_noop_witness :
  (0 <= npw2 busy_state <= 30 /\
   valid_id busy_state 2 /\
   0 <= 64 < 2 ^ npw2 busy_state /\
   1 <= id (buffer busy_state 64) /\
   id (buffer busy_state 64) <> 2) /\
  (equeue_cancel 56 4 busy_state (Z.lor (Z.shiftl 2 (npw2 busy_state)) 64) =
      Some busy_state).
Proof.
  assert (H1 : 0 <= npw2 busy_state <= 30)
    by (num_solve).
  assert (H2 : valid_id busy_state 2)
    by (num_solve).
  assert (H3 : 0 <= 64 < 2 ^ npw2 busy_state)
    by (num_solve).
  assert (H4 : 1 <= id (buffer busy_state 64))
    by (num_solve).
  assert (H5 : id (buffer busy_state 64) <> 2)
    by (num_solve).
  split; [exact (conj H1 (conj H2 (conj H3 (conj H4 H5))))|].
  exact (cancel_stale_noop 56 4 busy_state 64 2 H1 H2 H3 H4 H5).
Defined.

(** Witness of X12: the periodic event at offset 0 is in flight. *)
Lemma cancel_in_flight_first_chunk_witness :
  (0 <= npw2 (run_state null_cb_periodic_run) <= 30 /\
   valid_id (run_state null_cb_periodic_run) 1 /\
   id (buffer (run_state null_cb_periodic_run) 0) = - 1) /\
  (exists q',
      equeue_cancel 56 4 (run_state null_cb_periodic_run) (Z.shiftl 1 (npw2 (run_state null_cb_periodic_run))) = Some q' /\
      cb (buffer q' 0) = None /\ period (buffer q' 0) = -1 /\
      id (buffer q' 0) = - 1 /\
      (forall a, a <> 0 -> buffer q' a = buffer (run_state null_cb_periodic_run) a) /\
      (forall a, next (buffer q' a) = next (buffer (run_state null_cb_periodic_run) a) /\
                 sibling (buffer q' a) = sibling (buffer (run_state null_cb_periodic_run) a) /\
                 ref (buffer q' a) = ref (buffer (run_state null_cb_periodic_run) a) /\
                 size (buffer q' a) = size (buffer (run_state null_cb_periodic_run) a) /\
                 target (buffer q' a) = target (buffer (run_state null_cb_periodic_run) a) /\
                 dtor (buffer q' a) = dtor (buffer (run_state null_cb_periodic_run) a)) /\
      queue q' = queue (run_state null_cb_periodic_run) /\ chunks q' = chunks (run_state null_cb_periodic_run) /\ calls q' = calls (run_state null_cb_periodic_run) /\
      slab_size q' = slab_size (run_state null_cb_periodic_run) /\ slab_data q' = slab_data (run_state null_cb_periodic_run)).
Proof.
  assert (H1 : 0 <= npw2 (run_state null_cb_periodic_run) <= 30)
    by (num_solve).
  assert (H2 : valid_id (run_state null_cb_periodic_run) 1)
    by (num_solve).
  assert (H3 : id (buffer (run_state null_cb_periodic_run) 0) = - 1)
    by (num_solve).
  split; [exact (conj H1 (conj H2 H3))|].
  exact (cancel_in_flight_first_chunk 56 4 ((run_state null_cb_periodic_run)) 1 H1 H2 H3).
Defined.

(** Witness of X13: the chunk at offset 0 has been handed out and freed: its
    id is 1. *)
Lemma cancel_zero_noop_witness :
  (id (buffer busy_state 0) <> 0) /\
  (equeue_cancel 56 4 busy_state 0 = Some busy_state).
Proof.
  assert (H1 : id (buffer busy_state 0) <> 0)
    by (num_solve).
  split; [exact H1|].
  exact (cancel_zero_noop 56 4 busy_state H1).
Defined.


(** Witness of X15: posting the event at offset 64 and cancelling it. *)
Lemma post_then_cancel_witness :
  let e := 120 - 56 in
  (0 <= target (buffer busy_state e) /\
   queue_wf busy_state [[128]] /\
   free_wf busy_state [[0]] /\
   ~ In e (concat [[128]]) /\
   ~ In e (concat [[0]]) /\
   (forall a, In a (concat [[128]]) -> ~ In a (concat [[0]])) /\
   (length [[128]] < 4)%nat /\
   (length [[0]] < 4)%nat /\
   0 <= npw2 busy_state <= 30 /\
   0 <= e < 2 ^ npw2 busy_state /\
   valid_id busy_state (id (buffer busy_state e))) /\
  (exists q1 h q2,
      equeue_post 56 4 0 busy_state (Some 7) 120 = Some (q1, h) /\
      equeue_cancel 56 4 q1 h = Some q2 /\
      queue_wf q2 [[128]] /\
      free_wf q2 (free_insert (buffer busy_state) e [[0]]) /\
      In e (concat (free_insert (buffer busy_state) e [[0]])) /\
      id (buffer q2 e) = equeue_incid busy_state (id (buffer busy_state e)) /\
      calls q2 = calls busy_state ++ match dtor (buffer busy_state e) with
                            | Some d => [(d, 120)]
                            | None => []
                            end).
Proof.
  intros e.
  assert (H1 : 0 <= target (buffer busy_state e))
    by (num_solve).
  assert (H2 : queue_wf busy_state [[128]])
    by (queue_wf_solve).
  assert (H3 : free_wf busy_state [[0]])
    by (free_wf_solve).
  assert (H4 : ~ In e (concat [[128]]))
    by (simpl; lia).
  assert (H5 : ~ In e (concat [[0]]))
    by (simpl; lia).
  assert (H6 : (forall a, In a (concat [[128]]) -> ~ In a (concat [[0]])))
    by (simpl; lia).
  assert (H7 : (length [[128]] < 4)%nat)
    by (simpl; lia).
  assert (H8 : (length [[0]] < 4)%nat)
    by (simpl; lia).
  assert (H9 : 0 <= npw2 busy_state <= 30)
    by (num_solve).
  assert (H10 : 0 <= e < 2 ^ npw2 busy_state)
    by (num_solve).
  assert (H11 : valid_id busy_state (id (buffer busy_state e)))
    by (num_solve).
  split; [exact (conj H1 (conj H2 (conj H3 (conj H4 (conj H5 (conj H6 (conj H7 (conj H8 (conj H9 (conj H10 H11))))))))))|].
  exact (post_then_cancel 56 4 0 busy_state ((Some 7)) 120 ([[128]]) ([[0]]) H1 H2 H3 H4 H5 H6 H7 H8 H9 H10 H11).
Defined.

(** Witness of X16: two pending events in two buckets. *)
Lemma destroy_calls_witness :
  let first := match [[0]; [64]] with | b :: _ => b | [] => [] end in
  (queue_wf (run_state two_pending_run) [[0]; [64]] /\
   (length (concat [[0]; [64]]) < 4)%nat) /\
  (exists q',
      equeue_destroy 56 4 (run_state two_pending_run) = Some q' /\
      calls q' =
        calls (run_state two_pending_run) ++
        concat (map (fun _ => dtor_calls 56 (buffer (run_state two_pending_run)) first) [[0]; [64]]) /\
      (forall b, [[0]; [64]] = [b] ->
                 calls q' = calls (run_state two_pending_run) ++ dtor_calls 56 (buffer (run_state two_pending_run)) b) /\
      ([[0]; [64]] = [] -> calls q' = calls (run_state two_pending_run)) /\
      buffer q' = buffer (run_state two_pending_run) /\ queue q' = queue (run_state two_pending_run) /\ chunks q' = chunks (run_state two_pending_run) /\
      breaks q' = breaks (run_state two_pending_run) /\ slab_size q' = slab_size (run_state two_pending_run) /\
      slab_data q' = slab_data (run_state two_pending_run)).
Proof.
  intros first.
  assert (H1 : queue_wf (run_state two_pending_run) [[0]; [64]])
    by (queue_wf_solve).
  assert (H2 : (length (concat [[0]; [64]]) < 4)%nat)
    by (simpl; lia).
  split; [exact (conj H1 H2)|].
  exact (destroy_calls 56 4 ((run_state two_pending_run)) ([[0]; [64]]) H1 H2).
Defined.

(** Witness of X17: at tick 10 the one-shot event A and the periodic event B
    are due; A is retired at tick 11 and B at tick 12. *)
Lemma dispatch_pass_fires_due_witness :
  let now := to_unsigned 10 in
  let due := fst (due_split (buffer periodic_posted_state) now [[128; 0]; [64]]) in
  let rest := snd (due_split (buffer periodic_posted_state) now [[128; 0]; [64]]) in
  let order := concat (map (@rev addr) due) in
  (queue_wf periodic_posted_state [[128; 0]; [64]] /\
   free_wf periodic_posted_state (@nil (list addr)) /\
   (forall a, In a (concat [[128; 0]; [64]]) -> ~ In a (concat (@nil (list addr)))) /\
   (forall x, In x (concat [[128; 0]; [64]]) -> 0 < id (buffer periodic_posted_state x) < 2 ^ 31) /\
   (length (concat [[128; 0]; [64]]) + length (concat (@nil (list addr))) < 4)%nat) /\
  ([[128; 0]; [64]] = due ++ rest /\
    Forall (fun b => match b with
                     | h :: _ =>
                       equeue_tickdiff (to_unsigned (target (buffer periodic_posted_state h))) now
                       <= 0
                     | [] => False
                     end) due /\
    match rest with
    | (h :: _) :: _ =>
      equeue_tickdiff (to_unsigned (target (buffer periodic_posted_state h))) now > 0
    | _ => True
    end /\
    exists q' bs' fs',
      equeue_dispatch_pass 56 4 10 (fun j => 11 + Z.of_nat j) periodic_posted_state =
        Some (q', dequeue_deadline (buffer periodic_posted_state) now rest (-1)) /\
      calls q' =
        calls periodic_posted_state ++ flat_map (event_calls 56 (buffer periodic_posted_state)) order /\
      queue_wf q' bs' /\ free_wf q' fs' /\
      (forall x, In x (concat bs') <->
                 In x (concat rest) \/
                 (In x (concat due) /\ 0 <= period (buffer periodic_posted_state x))) /\
      (forall x, In x (concat fs') <->
                 In x (concat (@nil (list addr))) \/
                 (In x (concat due) /\ period (buffer periodic_posted_state x) < 0)) /\
      (forall x, In x (concat due) ->
                 id (buffer q' x) =
                 if period (buffer periodic_posted_state x) >=? 0 then id (buffer periodic_posted_state x)
                 else equeue_incid periodic_posted_state (id (buffer periodic_posted_state x))) /\
      (forall j x, nth_error order j = Some x -> 0 <= period (buffer periodic_posted_state x) ->
                   target (buffer q' x) =
                     to_int (to_unsigned
                               ((fun j => 11 + Z.of_nat j) j +
                                to_unsigned (period (buffer periodic_posted_state x))))) /\
      (forall a, ~ In a (concat due) -> data_eq (buffer q' a) (buffer periodic_posted_state a)) /\
      breaks q' = breaks periodic_posted_state /\ npw2 q' = npw2 periodic_posted_state).
Proof.
  intros now due rest order.
  assert (H1 : queue_wf periodic_posted_state [[128; 0]; [64]])
    by (queue_wf_solve).
  assert (H2 : free_wf periodic_posted_state (@nil (list addr)))
    by (free_wf_solve).
  assert (H3 : (forall a, In a (concat [[128; 0]; [64]]) -> ~ In a (concat (@nil (list addr)))))
    by (simpl; lia).
  assert (H4 : (forall x, In x (concat [[128; 0]; [64]]) -> 0 < id (buffer periodic_posted_state x) < 2 ^ 31))
    by (ids_solve).
  assert (H5 : (length (concat [[128; 0]; [64]]) + length (concat (@nil (list addr))) < 4)%nat)
    by (simpl; lia).
  split; [exact (conj H1 (conj H2 (conj H3 (conj H4 H5))))|].
  exact (dispatch_pass_fires_due 56 4 10 ((fun j => 11 + Z.of_nat j)) periodic_posted_state ([[128; 0]; [64]]) ((@nil (list addr))) H1 H2 H3 H4 H5).
Defined.

(** Witness of X18: [equeue_dispatch(q, 0)] entered at tick 10. *)
Lemma dispatch_returns_at_timeout_witness :
  (queue_wf periodic_posted_state [[128; 0]; [64]] /\
   free_wf periodic_posted_state (@nil (list addr)) /\
   (forall a, In a (concat [[128; 0]; [64]]) -> ~ In a (concat (@nil (list addr)))) /\
   (forall x, In x (concat [[128; 0]; [64]]) -> 0 < id (buffer periodic_posted_state x) < 2 ^ 31) /\
   (length (concat [[128; 0]; [64]]) + length (concat (@nil (list addr))) < 4)%nat /\
   (0 < 3)%nat /\
   0 <= 0 /\
   equeue_tickdiff (to_unsigned (10 + 0)) (to_unsigned ((fun _ => 13) 0%nat)) <= 0) /\
  (exists q' dl,
      equeue_dispatch_pass 56 4 ((fun _ => 10) 0%nat) ((fun _ j => 11 + Z.of_nat j) 0%nat) periodic_posted_state =
        Some (q', dl) /\
      equeue_dispatch 56 4 3 10 (fun _ => 10) (fun _ j => 11 + Z.of_nat j) (fun _ => 13) periodic_posted_state 0 =
        Some (Returned q') /\
      breaks q' = breaks periodic_posted_state).
Proof.
  assert (H1 : queue_wf periodic_posted_state [[128; 0]; [64]])
    by (queue_wf_solve).
  assert (H2 : free_wf periodic_posted_state (@nil (list addr)))
    by (free_wf_solve).
  assert (H3 : (forall a, In a (concat [[128; 0]; [64]]) -> ~ In a (concat (@nil (list addr)))))
    by (simpl; lia).
  assert (H4 : (forall x, In x (concat [[128; 0]; [64]]) -> 0 < id (buffer periodic_posted_state x) < 2 ^ 31))
    by (ids_solve).
  assert (H5 : (length (concat [[128; 0]; [64]]) + length (concat (@nil (list addr))) < 4)%nat)
    by (simpl; lia).
  assert (H6 : (0 < 3)%nat)
    by (simpl; lia).
  assert (H7 : 0 <= 0)
    by (num_solve).
  assert (H8 : equeue_tickdiff (to_unsigned (10 + 0)) (to_unsigned ((fun _ => 13) 0%nat)) <= 0)
    by (num_solve).
  split; [exact (conj H1 (conj H2 (conj H3 (conj H4 (conj H5 (conj H6 (conj H7 H8)))))))|].
  exact (dispatch_returns_at_timeout 56 4 3 10 ((fun _ => 10)) ((fun _ j => 11 + Z.of_nat j)) ((fun _ => 13)) periodic_posted_state ([[128; 0]; [64]]) ((@nil (list addr))) 0 H1 H2 H3 H4 H5 H6 H7 H8).
Defined.

(** Witness of X19: [equeue_break] followed by [equeue_dispatch(q, -1)]. *)
Lemma break_stops_dispatch_witness :
  (queue_wf periodic_posted_state [[128; 0]; [64]] /\
   free_wf periodic_posted_state (@nil (list addr)) /\
   (forall a, In a (concat [[128; 0]; [64]]) -> ~ In a (concat (@nil (list addr)))) /\
   (forall x, In x (concat [[128; 0]; [64]]) -> 0 < id (buffer periodic_posted_state x) < 2 ^ 31) /\
   (length (concat [[128; 0]; [64]]) + length (concat (@nil (list addr))) < 4)%nat /\
   (0 < 3)%nat /\
   0 <= breaks periodic_posted_state < 2 ^ 31 - 1 /\
   (0 <= (-1) -> equeue_tickdiff (to_unsigned (10 + (-1))) (to_unsigned ((fun _ => 13) 0%nat)) > 0)) /\
  (exists q1 dl q',
      equeue_dispatch_pass 56 4 ((fun _ => 10) 0%nat) ((fun _ j => 11 + Z.of_nat j) 0%nat)
                           (equeue_break periodic_posted_state) = Some (q1, dl) /\
      equeue_dispatch 56 4 3 10 (fun _ => 10) (fun _ j => 11 + Z.of_nat j) (fun _ => 13)
                      (equeue_break periodic_posted_state) (-1) = Some (Returned q') /\
      breaks q1 = breaks periodic_posted_state + 1 /\ breaks q' = breaks periodic_posted_state /\
      buffer q' = buffer q1 /\ queue q' = queue q1 /\
      chunks q' = chunks q1 /\ calls q' = calls q1 /\
      npw2 q' = npw2 q1 /\ slab_size q' = slab_size q1 /\
      slab_data q' = slab_data q1).
Proof.
  assert (H1 : queue_wf periodic_posted_state [[128; 0]; [64]])
    by (queue_wf_solve).
  assert (H2 : free_wf periodic_posted_state (@nil (list addr)))
    by (free_wf_solve).
  assert (H3 : (forall a, In a (concat [[128; 0]; [64]]) -> ~ In a (concat (@nil (list addr)))))
    by (simpl; lia).
  assert (H4 : (forall x, In x (concat [[128; 0]; [64]]) -> 0 < id (buffer periodic_posted_state x) < 2 ^ 31))
    by (ids_solve).
  assert (H5 : (length (concat [[128; 0]; [64]]) + length (concat (@nil (list addr))) < 4)%nat)
    by (simpl; lia).
  assert (H6 : (0 < 3)%nat)
    by (simpl; lia).
  assert (H7 : 0 <= breaks periodic_posted_state < 2 ^ 31 - 1)
    by (num_solve).
  assert (H8 : (0 <= (-1) -> equeue_tickdiff (to_unsigned (10 + (-1))) (to_unsigned ((fun _ => 13) 0%nat)) > 0))
    by (intros H; exfalso; apply H; reflexivity).
  split; [exact (conj H1 (conj H2 (conj H3 (conj H4 (conj H5 (conj H6 (conj H7 H8)))))))|].
  exact (break_stops_dispatch 56 4 3 10 ((fun _ => 10)) ((fun _ j => 11 + Z.of_nat j)) ((fun _ => 13)) periodic_posted_state ([[128; 0]; [64]]) ((@nil (list addr))) ((-1)) H1 H2 H3 H4 H5 H6 H7 H8).
Defined.

(** Witness of X20: three passes of [equeue_dispatch(q, -1)], 20 ticks
    apart, with no break pending. *)
Lemma dispatch_waits_for_break_witness :
  (queue_wf periodic_posted_state [[128; 0]; [64]] /\
   free_wf periodic_posted_state (@nil (list addr)) /\
   (forall a, In a (concat [[128; 0]; [64]]) -> ~ In a (concat (@nil (list addr)))) /\
   (forall x, In x (concat [[128; 0]; [64]]) -> 0 < id (buffer periodic_posted_state x) < 2 ^ 31) /\
   (length (concat [[128; 0]; [64]]) + length (concat (@nil (list addr))) < 4)%nat /\
   (-1) < 0 /\
   breaks periodic_posted_state = 0) /\
  (exists q' bs' fs' fired,
      equeue_dispatch 56 4 3 10 (fun i => 10 + 20 * Z.of_nat i) (fun i j => 11 + 20 * Z.of_nat i + Z.of_nat j) (fun i => 13 + 20 * Z.of_nat i) periodic_posted_state (-1) =
        Some (Looping q') /\
      queue_wf q' bs' /\ free_wf q' fs' /\
      (length (concat bs') + length (concat fs') =
       length (concat [[128; 0]; [64]]) + length (concat (@nil (list addr))))%nat /\
      breaks q' = 0 /\ calls q' = calls periodic_posted_state ++ fired).
Proof.
  assert (H1 : queue_wf periodic_posted_state [[128; 0]; [64]])
    by (queue_wf_solve).
  assert (H2 : free_wf periodic_posted_state (@nil (list addr)))
    by (free_wf_solve).
  assert (H3 : (forall a, In a (concat [[128; 0]; [64]]) -> ~ In a (concat (@nil (list addr)))))
    by (simpl; lia).
  assert (H4 : (forall x, In x (concat [[128; 0]; [64]]) -> 0 < id (buffer periodic_posted_state x) < 2 ^ 31))
    by (ids_solve).
  assert (H5 : (length (concat [[128; 0]; [64]]) + length (concat (@nil (list addr))) < 4)%nat)
    by (simpl; lia).
  assert (H6 : (-1) < 0)
    by (num_solve).
  assert (H7 : breaks periodic_posted_state = 0)
    by (num_solve).
  split; [exact (conj H1 (conj H2 (conj H3 (conj H4 (conj H5 (conj H6 H7))))))|].
  exact (dispatch_waits_for_break 56 4 3 10 ((fun i => 10 + 20 * Z.of_nat i)) ((fun i j => 11 + 20 * Z.of_nat i + Z.of_nat j)) ((fun i => 13 + 20 * Z.of_nat i)) periodic_posted_state ([[128; 0]; [64]]) ((@nil (list addr))) ((-1)) H1 H2 H3 H4 H5 H6 H7).
Defined.

(** Witness of X21: a 32-byte buffer has no room for an event. *)
Lemma call_out_of_memory_witness :
  let req := alloc_size 56 8 16 in
  (free_wf tiny_queue (@nil (list addr)) /\
   (length (@nil (list addr)) < 4)%nat /\
   Forall (bucket_small (buffer tiny_queue) req) (@nil (list addr)) /\
   slab_size tiny_queue < req) /\
  (equeue_call 56 8 16 1000
                4 0 tiny_queue blank_payload (Some 7) 42 = Some (tiny_queue, blank_payload, 0) /\
    equeue_call_in 56 8 16
                   1000 4 0 tiny_queue blank_payload 5 (Some 7) 42 =
      Some (tiny_queue, blank_payload, 0) /\
    equeue_call_every 56 8 16
                      1000 4 0 tiny_queue blank_payload 5 (Some 7) 42 =
      Some (tiny_queue, blank_payload, 0)).
Proof.
  intros req.
  assert (H1 : free_wf tiny_queue (@nil (list addr)))
    by (free_wf_solve).
  assert (H2 : (length (@nil (list addr)) < 4)%nat)
    by (simpl; lia).
  assert (H3 : Forall (bucket_small (buffer tiny_queue) req) (@nil (list addr)))
    by (constructor).
  assert (H4 : slab_size tiny_queue < req)
    by (num_solve).
  split; [exact (conj H1 (conj H2 (conj H3 H4)))|].
  exact (call_out_of_memory 56 8 16 1000 4 0 tiny_queue blank_payload 5 ((Some 7)) 42 ((@nil (list addr))) H1 H2 H3 H4).
Defined.

(** Witness of X22: the free chunk is too small for an [ecallback]: the
    event comes off the slab. *)
Lemma call_posts_event_witness :
  let req := alloc_size 56 8 16 in
  let tgt := to_int (to_unsigned 0) in
  (queue_wf busy_state [[128]] /\
   free_wf busy_state [[0]] /\
   (forall a, In a (concat [[128]]) -> ~ In a (concat [[0]])) /\
   chunks_ok busy_state [[128]] [[0]] /\
   0 < req /\
   (Forall (bucket_small (buffer busy_state) req) [[0]] -> req <= slab_size busy_state) /\
   (length [[128]] < 4)%nat /\
   (length [[0]] < 4)%nat) /\
  (exists q' pl' (e : addr) h,
      equeue_call 56 8 16
                  1000 4 0 busy_state blank_payload (Some 7) 42 =
        Some (q', pl', h) /\
      h <> 0 /\ cancel_chunk q' h = e /\ ~ In e (concat [[128]]) /\
      queue_wf q' (queue_insert (buffer busy_state) tgt e [[128]]) /\
      target (buffer q' e) = tgt /\ period (buffer q' e) = -1 /\
      dtor (buffer q' e) = None /\
      cb (buffer q' e) = Some 1000 /\
      pl' (e + 56) = mkEcallback (Some 7) 42 /\
      (forall x, x <> e + 56 -> pl' x = blank_payload x) /\
      calls q' = calls busy_state).
Proof.
  intros req tgt.
  assert (H1 : queue_wf busy_state [[128]])
    by (queue_wf_solve).
  assert (H2 : free_wf busy_state [[0]])
    by (free_wf_solve).
  assert (H3 : (forall a, In a (concat [[128]]) -> ~ In a (concat [[0]])))
    by (simpl; lia).
  assert (H4 : chunks_ok busy_state [[128]] [[0]])
    by (chunks_ok_solve).
  assert (H5 : 0 < req)
    by (num_solve).
  assert (H6 : (Forall (bucket_small (buffer busy_state) req) [[0]] -> req <= slab_size busy_state))
    by (intros _; num_solve).
  assert (H7 : (length [[128]] < 4)%nat)
    by (simpl; lia).
  assert (H8 : (length [[0]] < 4)%nat)
    by (simpl; lia).
  split; [exact (conj H1 (conj H2 (conj H3 (conj H4 (conj H5 (conj H6 (conj H7 H8)))))))|].
  exact (call_posts_event 56 8 16 1000 4 0 busy_state blank_payload ([[128]]) ([[0]]) ((Some 7)) 42 H1 H2 H3 H4 H5 H6 H7 H8).
Defined.

(** Witness of X23: a call in 5 ms. *)
Lemma call_in_posts_event_witness :
  let req := alloc_size 56 8 16 in
  let tgt := to_int (to_unsigned (0 + 5)) in
  (queue_wf busy_state [[128]] /\
   free_wf busy_state [[0]] /\
   (forall a, In a (concat [[128]]) -> ~ In a (concat [[0]])) /\
   chunks_ok busy_state [[128]] [[0]] /\
   0 < req /\
   (Forall (bucket_small (buffer busy_state) req) [[0]] -> req <= slab_size busy_state) /\
   (length [[128]] < 4)%nat /\
   (length [[0]] < 4)%nat /\
   0 <= 5 < 2 ^ 31) /\
  (exists q' pl' (e : addr) h,
      equeue_call_in 56 8 16
                     1000 4 0 busy_state blank_payload 5 (Some 7) 42 =
        Some (q', pl', h) /\
      h <> 0 /\ cancel_chunk q' h = e /\ ~ In e (concat [[128]]) /\
      queue_wf q' (queue_insert (buffer busy_state) tgt e [[128]]) /\
      target (buffer q' e) = tgt /\ period (buffer q' e) = -1 /\
      cb (buffer q' e) = Some 1000 /\
      pl' (e + 56) = mkEcallback (Some 7) 42 /\
      calls q' = calls busy_state).
Proof.
  intros req tgt.
  assert (H1 : queue_wf busy_state [[128]])
    by (queue_wf_solve).
  assert (H2 : free_wf busy_state [[0]])
    by (free_wf_solve).
  assert (H3 : (forall a, In a (concat [[128]]) -> ~ In a (concat [[0]])))
    by (simpl; lia).
  assert (H4 : chunks_ok busy_state [[128]] [[0]])
    by (chunks_ok_solve).
  assert (H5 : 0 < req)
    by (num_solve).
  assert (H6 : (Forall (bucket_small (buffer busy_state) req) [[0]] -> req <= slab_size busy_state))
    by (intros _; num_solve).
  assert (H7 : (length [[128]] < 4)%nat)
    by (simpl; lia).
  assert (H8 : (length [[0]] < 4)%nat)
    by (simpl; lia).
  assert (H9 : 0 <= 5 < 2 ^ 31)
    by (num_solve).
  split; [exact (conj H1 (conj H2 (conj H3 (conj H4 (conj H5 (conj H6 (conj H7 (conj H8 H9))))))))|].
  exact (call_in_posts_event 56 8 16 1000 4 0 busy_state blank_payload ([[128]]) ([[0]]) 5 ((Some 7)) 42 H1 H2 H3 H4 H5 H6 H7 H8 H9).
Defined.

(** Witness of X24: a call every 5 ms. *)
Lemma call_every_posts_event_witness :
  let req := alloc_size 56 8 16 in
  let tgt := to_int (to_unsigned (0 + 5)) in
  (queue_wf busy_state [[128]] /\
   free_wf busy_state [[0]] /\
   (forall a, In a (concat [[128]]) -> ~ In a (concat [[0]])) /\
   chunks_ok busy_state [[128]] [[0]] /\
   0 < req /\
   (Forall (bucket_small (buffer busy_state) req) [[0]] -> req <= slab_size busy_state) /\
   (length [[128]] < 4)%nat /\
   (length [[0]] < 4)%nat /\
   0 <= 5 < 2 ^ 31) /\
  (exists q' pl' (e : addr) h,
      equeue_call_every 56 8 16
                        1000 4 0 busy_state blank_payload 5 (Some 7) 42 =
        Some (q', pl', h) /\
      h <> 0 /\ cancel_chunk q' h = e /\ ~ In e (concat [[128]]) /\
      queue_wf q' (queue_insert (buffer busy_state) tgt e [[128]]) /\
      target (buffer q' e) = tgt /\ period (buffer q' e) = 5 /\
      cb (buffer q' e) = Some 1000 /\
      pl' (e + 56) = mkEcallback (Some 7) 42 /\
      calls q' = calls busy_state).
Proof.
  intros req tgt.
  assert (H1 : queue_wf busy_state [[128]])
    by (queue_wf_solve).
  assert (H2 : free_wf busy_state [[0]])
    by (free_wf_solve).
  assert (H3 : (forall a, In a (concat [[128]]) -> ~ In a (concat [[0]])))
    by (simpl; lia).
  assert (H4 : chunks_ok busy_state [[128]] [[0]])
    by (chunks_ok_solve).
  assert (H5 : 0 < req)
    by (num_solve).
  assert (H6 : (Forall (bucket_small (buffer busy_state) req) [[0]] -> req <= slab_size busy_state))
    by (intros _; num_solve).
  assert (H7 : (length [[128]] < 4)%nat)
    by (simpl; lia).
  assert (H8 : (length [[0]] < 4)%nat)
    by (simpl; lia).
  assert (H9 : 0 <= 5 < 2 ^ 31)
    by (num_solve).
  split; [exact (conj H1 (conj H2 (conj H3 (conj H4 (conj H5 (conj H6 (conj H7 (conj H8 H9))))))))|].
  exact (call_every_posts_event 56 8 16 1000 4 0 busy_state blank_payload ([[128]]) ([[0]]) 5 ((Some 7)) 42 H1 H2 H3 H4 H5 H6 H7 H8 H9).
Defined.

(** Witness of X25: a call in -1 ms. *)
Lemma call_negative_dropped_witness :
  let req := alloc_size 56 8 16 in
  (queue_wf busy_state [[128]] /\
   free_wf busy_state [[0]] /\
   (forall a, In a (concat [[128]]) -> ~ In a (concat [[0]])) /\
   chunks_ok busy_state [[128]] [[0]] /\
   0 < req /\
   (Forall (bucket_small (buffer busy_state) req) [[0]] -> req <= slab_size busy_state) /\
   (length [[0]] < 4)%nat /\
   (-1) < 0) /\
  ((exists q' h (e : addr) (fs' : list (list addr)),
        equeue_call_in 56 8 16
                       1000 4 0 busy_state blank_payload (-1) (Some 7) 42 =
          Some (q', store_ecallback blank_payload (e + 56) (Some 7) 42, h) /\
        h <> 0 /\ cancel_chunk q' h = e /\
        Z.shiftr h (npw2 q') = id (buffer q' e) /\
        ~ In e (concat [[128]]) /\
        target (buffer q' e) = (-1) /\
        cb (buffer q' e) = Some 1000 /\
        queue_wf q' [[128]] /\ free_wf q' fs' /\ In e (concat fs') /\
        (forall y, In y (concat fs') -> y = e \/ In y (concat [[0]])) /\
        calls q' = calls busy_state) /\
    (exists q' h (e : addr) (fs' : list (list addr)),
        equeue_call_every 56 8 16
                          1000 4 0 busy_state blank_payload (-1) (Some 7) 42 =
          Some (q', store_ecallback blank_payload (e + 56) (Some 7) 42, h) /\
        h <> 0 /\ cancel_chunk q' h = e /\
        Z.shiftr h (npw2 q') = id (buffer q' e) /\
        ~ In e (concat [[128]]) /\
        target (buffer q' e) = (-1) /\
        cb (buffer q' e) = Some 1000 /\
        queue_wf q' [[128]] /\ free_wf q' fs' /\ In e (concat fs') /\
        (forall y, In y (concat fs') -> y = e \/ In y (concat [[0]])) /\
        calls q' = calls busy_state)).
Proof.
  intros req.
  assert (H1 : queue_wf busy_state [[128]])
    by (queue_wf_solve).
  assert (H2 : free_wf busy_state [[0]])
    by (free_wf_solve).
  assert (H3 : (forall a, In a (concat [[128]]) -> ~ In a (concat [[0]])))
    by (simpl; lia).
  assert (H4 : chunks_ok busy_state [[128]] [[0]])
    by (chunks_ok_solve).
  assert (H5 : 0 < req)
    by (num_solve).
  assert (H6 : (Forall (bucket_small (buffer busy_state) req) [[0]] -> req <= slab_size busy_state))
    by (intros _; num_solve).
  assert (H7 : (length [[0]] < 4)%nat)
    by (simpl; lia).
  assert (H8 : (-1) < 0)
    by (num_solve).
  split; [exact (conj H1 (conj H2 (conj H3 (conj H4 (conj H5 (conj H6 (conj H7 H8)))))))|].
  exact (call_negative_dropped 56 8 16 1000 4 0 busy_state blank_payload ([[128]]) ([[0]]) ((-1)) ((Some 7)) 42 H1 H2 H3 H4 H5 H6 H7 H8).
Defined.


(** Witness of X26: a 1000-byte buffer leaves 21 bits for the
    generation. *)
Lemma incid_cycle_witness :
  let N := 2 ^ (31 - npw2 busy_state) - 1 in
  (0 <= npw2 busy_state <= 30 /\ valid_id busy_state 1) /\
  (Nat.iter 5 (equeue_incid busy_state) 1 = (1 - 1 + Z.of_nat 5) mod N + 1 /\
   Nat.iter (Z.to_nat N) (equeue_incid busy_state) 1 = 1 /\
   (forall j, (0 < j)%nat -> Z.of_nat j < N ->
              Nat.iter j (equeue_incid busy_state) 1 <> 1)).
Proof.
  intros N.
  assert (H1 : 0 <= npw2 busy_state <= 30) by num_solve.
  assert (H2 : valid_id busy_state 1) by num_solve.
  split; [exact (conj H1 H2)|].
  exact (incid_cycle busy_state 1 5 H1 H2).
Defined.
